(** * ygo-genesys-helper: deck codec, point aggregation and missing-ID resolution

    A shallow embedding of [src/lib/ydke.ts], [src/lib/strings.ts] and the
    aggregation / resolution code of [src/App.tsx], followed by the
    properties of the specification that concern them; then of the YDK
    import, the point filters, the overlays, the blocked cards and the
    saved decks of [src/App.tsx], the selection of
    [src/components/MissingIdResolver.tsx] and the card lookup of
    [src/lib/ygoprodeck.ts], with the properties that this code shows.

    Conventions.
    - A JavaScript string is the list of its UTF-16 code units.
    - A [Uint8Array] is a list of integers in [0, 256).
    - A JavaScript number that holds a card id, a count or a point value is
      an integer ([Z]).
    - Runtime services whose behaviour lies outside the repository
      ([String.prototype.toLowerCase], [String.prototype.localeCompare],
      pako's [gzip]/[ungzip], [TextDecoder], the global [Number],
      dnd-kit's [arrayMove] and the answers of the card database) are
      section variables; the
      facts about them that a proof relies on are named hypotheses. *)

From Stdlib Require Import ZArith List String Ascii Bool Lia Sorting.Sorted
  Sorting.Permutation.
From stdpp Require Import base option list gmap.

Local Open Scope Z_scope.

(* ================================================================== *)
(** * JavaScript strings *)
(* ================================================================== *)

Abbreviation jsstring := (list Z).

(** [js "abc"] is the JavaScript string with the same ASCII characters. *)
Definition js (s : string) : jsstring :=
  map (fun a : ascii => Z.of_N (N_of_ascii a)) (list_ascii_of_string s).

(** [!s] on a string: the empty string is the only falsy one. *)
Definition isEmpty (s : jsstring) : bool :=
  match s with [] => true | _ => false end.

(** The characters matched by [\s] and removed by [trim]: WhiteSpace and
    LineTerminator of ECMAScript. *)
Definition isWhiteSpace (c : Z) : bool :=
  ((9 <=? c) && (c <=? 13)) || (c =? 32) || (c =? 160) || (c =? 0x1680)
  || ((0x2000 <=? c) && (c <=? 0x200A)) || (c =? 0x2028) || (c =? 0x2029)
  || (c =? 0x202F) || (c =? 0x205F) || (c =? 0x3000) || (c =? 0xFEFF).

Fixpoint trimStart (s : jsstring) : jsstring :=
  match s with
  | c :: r => if isWhiteSpace c then trimStart r else s
  | [] => []
  end.

Definition trimEnd (s : jsstring) : jsstring := rev (trimStart (rev s)).

Definition trim (s : jsstring) : jsstring := trimEnd (trimStart s).

(** [s.replace(/\s+/g, '')] *)
Definition removeWhitespace (s : jsstring) : jsstring :=
  List.filter (fun c => negb (isWhiteSpace c)) s.

(** [s.replace(/\s+/g, ' ')]: [inRun] tells that the previous code unit
    belonged to the run of white space being replaced. *)
Fixpoint collapseFrom (inRun : bool) (s : jsstring) : jsstring :=
  match s with
  | [] => []
  | c :: r =>
      if isWhiteSpace c
      then (if inRun then collapseFrom true r else 32 :: collapseFrom true r)
      else c :: collapseFrom false r
  end.

Definition collapseWhitespace (s : jsstring) : jsstring := collapseFrom false s.

(** [s.replace(/x/g, y)] for single code units. *)
Definition replaceChar (x y : Z) (s : jsstring) : jsstring :=
  map (fun c => if c =? x then y else c) s.

(** [s.split(sep)] for a separator of one code unit; [''.split(sep)] is
    [['']]. *)
Fixpoint split (sep : Z) (s : jsstring) : list jsstring :=
  match s with
  | [] => [[]]
  | c :: r =>
      if c =? sep then [] :: split sep r
      else match split sep r with
           | h :: t => (c :: h) :: t
           | [] => [[c]]
           end
  end.

(** [parts.join(sep)] *)
Fixpoint join (sep : jsstring) (parts : list jsstring) : jsstring :=
  match parts with
  | [] => []
  | [p] => p
  | p :: rest => p ++ sep ++ join sep rest
  end.

Fixpoint startsWith (p s : jsstring) : bool :=
  match p, s with
  | [], _ => true
  | a :: p', b :: s' => (a =? b) && startsWith p' s'
  | _ :: _, [] => false
  end.

Fixpoint indexOfFrom (needle s : jsstring) (i : Z) : Z :=
  if startsWith needle s then i
  else match s with
       | [] => -1
       | _ :: r => indexOfFrom needle r (i + 1)
       end.

(** [s.indexOf(needle)], [-1] when absent. *)
Definition indexOf (needle s : jsstring) : Z := indexOfFrom needle s 0.

(** [s.includes(needle)] *)
Definition includes (needle s : jsstring) : bool := 0 <=? indexOf needle s.

(** [s.slice(n)] for [n >= 0]. *)
Definition slice (n : Z) (s : jsstring) : jsstring := drop (Z.to_nat n) s.

(** [String(n)] for an integer [n]: decimal digits, with a sign when
    negative. *)
Fixpoint digitsOfPos (fuel : nat) (n : Z) (acc : jsstring) : jsstring :=
  match fuel with
  | O => acc
  | S fuel' =>
      let acc' := (48 + n mod 10) :: acc in
      if n <? 10 then acc' else digitsOfPos fuel' (n / 10) acc'
  end.

Definition numberToString (n : Z) : jsstring :=
  if n <? 0 then 45 :: digitsOfPos (S (Z.to_nat (Z.log2 (- n)))) (- n) []
  else digitsOfPos (S (Z.to_nat (Z.log2 n))) n [].

(** The ASCII part of [toLowerCase]. *)
Definition lowerAscii (c : Z) : Z :=
  if (65 <=? c) && (c <=? 90) then c + 32 else c.

Definition isAscii (c : Z) : Prop := 0 <= c < 128.

(** [toLowerCase] on Basic Latin and Latin-1 Supplement (U+0000..U+00FF),
    where it acts on single code units: A-Z and the capitals U+00C0..U+00DE
    other than the multiplication sign U+00D7 move up by 32.  The currency
    and trademark signs of the mis-encoded apostrophe are caseless.  It is
    the instance at which the general statements are evaluated; code units
    of other blocks are kept as they are. *)
Definition lowerLatin1 (c : Z) : Z :=
  if (65 <=? c) && (c <=? 90) then c + 32
  else if (0xC0 <=? c) && (c <=? 0xDE) && negb (c =? 0xD7) then c + 32
  else c.

Definition toLowerCaseLatin1 (s : jsstring) : jsstring := map lowerLatin1 s.

(** Comparison of strings by code units, the instance of [localeCompare]
    at which the general statements are evaluated (on lower-case ASCII
    letters it agrees with alphabetical order). *)
Fixpoint compareCodeUnits (a b : jsstring) : Z :=
  match a, b with
  | [], [] => 0
  | [], _ :: _ => -1
  | _ :: _, [] => 1
  | x :: a', y :: b' => if x <? y then -1 else if y <? x then 1
                        else compareCodeUnits a' b'
  end.

(* ================================================================== *)
(** * Base64: [btoa] and [atob] *)
(* ================================================================== *)

Definition isByte (b : Z) : Prop := 0 <= b < 256.

(** The character of a 6-bit value in the standard alphabet. *)
Definition b64char (i : Z) : Z :=
  if i <? 26 then 65 + i
  else if i <? 52 then 71 + i
  else if i <? 62 then i - 4
  else if i =? 62 then 43
  else 47.

(** The 6-bit value of a character of the standard alphabet. *)
Definition b64index (c : Z) : option Z :=
  if (65 <=? c) && (c <=? 90) then Some (c - 65)
  else if (97 <=? c) && (c <=? 122) then Some (c - 71)
  else if (48 <=? c) && (c <=? 57) then Some (c + 4)
  else if c =? 43 then Some 62
  else if c =? 47 then Some 63
  else None.

(** [btoa] on a binary string whose code units are bytes, the only strings
    the codec hands to it (they come out of a [Uint8Array]). *)
Fixpoint btoa (bytes : jsstring) : jsstring :=
  match bytes with
  | a :: b :: c :: rest =>
      b64char (a / 4) :: b64char ((a mod 4) * 16 + b / 16)
      :: b64char ((b mod 16) * 4 + c / 64) :: b64char (c mod 64) :: btoa rest
  | [a; b] =>
      [b64char (a / 4); b64char ((a mod 4) * 16 + b / 16);
       b64char ((b mod 16) * 4); 61]
  | [a] => [b64char (a / 4); b64char ((a mod 4) * 16); 61; 61]
  | [] => []
  end.

Definition isAsciiWhitespace (c : Z) : bool :=
  (c =? 9) || (c =? 10) || (c =? 12) || (c =? 13) || (c =? 32).

(** Removes one or two trailing [=] when the length is a multiple of 4. *)
Definition stripPadding (s : jsstring) : jsstring :=
  if (Z.of_nat (length s) mod 4 =? 0)
  then match rev s with
       | x :: y :: r =>
           if x =? 61 then (if y =? 61 then rev r else rev (y :: r)) else s
       | [x] => if x =? 61 then [] else s
       | [] => s
       end
  else s.

Fixpoint sextets (s : jsstring) : option (list Z) :=
  match s with
  | [] => Some []
  | c :: r =>
      match b64index c, sextets r with
      | Some i, Some l => Some (i :: l)
      | _, _ => None
      end
  end.

Fixpoint bytesOfSextets (l : list Z) : list Z :=
  match l with
  | a :: b :: c :: d :: rest =>
      (a * 4 + b / 16) :: ((b mod 16) * 16 + c / 4) :: ((c mod 4) * 64 + d)
      :: bytesOfSextets rest
  | [a; b; c] => [a * 4 + b / 16; (b mod 16) * 16 + c / 4]
  | [a; b] => [a * 4 + b / 16]
  | _ => []
  end.

(** [atob]: the forgiving-base64 decode of the HTML standard.  [None] is
    the [InvalidCharacterError] exception. *)
Definition atob (data : jsstring) : option jsstring :=
  let data := List.filter (fun c => negb (isAsciiWhitespace c)) data in
  let data := stripPadding data in
  if Z.of_nat (length data) mod 4 =? 1 then None
  else option_map bytesOfSextets (sextets data).

(* ================================================================== *)
(** * Data model ([src/types.ts], [src/lib/ydke.ts]) *)
(* ================================================================== *)

Inductive DeckSection := Main | Extra | Side.

#[global] Instance DeckSection_eq_dec : EqDecision DeckSection.
Proof. solve_decision. Defined.

(** The string value of a [DeckSection]. *)
Definition sectionName (zone : DeckSection) : jsstring :=
  match zone with
  | Main => js "main"
  | Extra => js "extra"
  | Side => js "side"
  end.

Definition isExtra (zone : DeckSection) : bool :=
  match zone with Extra => true | _ => false end.

(** Optional fields are [option]s: [None] is [undefined]. *)
Record ParsedDeck := {
  main : list Z;
  extra : list Z;
  side : list Z;
  hasInferredIds : option bool;
  inferredCardCount : option Z
}.

(** [DecodedSection]; its [hasInferredIds] is [sectionHasInferredIds]
    here, the name being taken by [ParsedDeck]. *)
Record DecodedSection := {
  cards : list Z;
  sectionHasInferredIds : bool;
  inferredCount : Z
}.

Record GenesysCard := { cardName : jsstring; points : Z }.

Module CardDetails.
Record t := {
  id : Z;
  name : jsstring;
  type : option jsstring;
  race : option jsstring;
  level : option Z;
  linkValue : option Z;
  desc : option jsstring;
  image : option jsstring;
  imageCropped : option jsstring;
  ygoprodeckUrl : option jsstring
}.
End CardDetails.

Module DeckCardGroup.
Record t := {
  id : Z;
  name : jsstring;
  count : Z;
  zone : DeckSection;
  image : option jsstring;
  type : option jsstring;
  race : option jsstring;
  displayType : option jsstring;
  desc : option jsstring;
  level : option Z;
  linkValue : option Z;
  orderIndex : option Z;
  linkUrl : option jsstring;
  pointsPerCopy : Z;
  totalPoints : Z;
  missingInfo : bool;
  notInList : bool;
  fullImage : option jsstring
}.
End DeckCardGroup.

Record DeckGroups := {
  mainGroups : list DeckCardGroup.t;
  extraGroups : list DeckCardGroup.t;
  sideGroups : list DeckCardGroup.t
}.

(** [MissingReplacementPick] of [MissingIdResolver.tsx]. *)
Record MissingReplacementPick := { card : CardDetails.t; pickCount : Z }.

(** The two values of [cardSortMode[zone]]. *)
Inductive SortMode := ByPoints | Default.

(** The exceptions of the codec. *)
Inductive Error :=
| NoDeckProvided      (* 'Paste a YDKE link to get started.' *)
| IncompleteLink      (* 'Incomplete YDKE link. ...' *)
| Misaligned          (* 'Invalid YDKE data. Each section must be aligned to 4 bytes.' *)
| InvalidCharacter    (* DOMException of atob *)
| InflateFailed.      (* exception of pako's ungzip *)

Inductive result (A : Type) :=
| Ok (a : A)
| Throw (e : Error).
Arguments Ok {A} a.
Arguments Throw {A} e.

Definition bind {A B} (r : result A) (k : A -> result B) : result B :=
  match r with
  | Ok a => k a
  | Throw e => Throw e
  end.

Notation "'let*' x ':=' r 'in' k" := (bind r (fun x => k))
  (at level 10, x name, r at level 100, k at level 200).

(** Truthiness of optional strings and numbers. *)
Definition truthyString (s : option jsstring) : bool :=
  match s with Some (_ :: _) => true | _ => false end.

Definition truthyNumber (n : option Z) : bool :=
  match n with Some v => negb (v =? 0) | None => false end.

(** [a ?? b] on an optional value. *)
Definition orElse {A} (a b : option A) : option A :=
  match a with Some _ => a | None => b end.

(** [Number.MAX_SAFE_INTEGER] *)
Definition MAX_SAFE_INTEGER : Z := 2 ^ 53 - 1.

(** An insertion-ordered [Map]: the list of its entries in insertion
    order.  [omapAlter] is a mutation of the value object of an existing
    key, which keeps its place; [omapSet] on a new key appends. *)
Section OrderedMap.
Context {K V : Type} `{EqDecision K}.

Fixpoint omapGet (k : K) (m : list (K * V)) : option V :=
  match m with
  | [] => None
  | (k', v) :: rest => if decide (k = k') then Some v else omapGet k rest
  end.

Fixpoint omapAlter (f : V -> V) (k : K) (m : list (K * V)) : list (K * V) :=
  match m with
  | [] => []
  | (k', v) :: rest =>
      if decide (k = k') then (k', f v) :: rest
      else (k', v) :: omapAlter f k rest
  end.

Definition omapSet (k : K) (v : V) (m : list (K * V)) : list (K * V) :=
  match omapGet k m with
  | Some _ => omapAlter (fun _ => v) k m
  | None => m ++ [(k, v)]
  end.

Definition omapValues (m : list (K * V)) : list V := map snd m.
End OrderedMap.

(** [Array.prototype.sort] with a comparator.  The standard asks for a
    stable sort and leaves the algorithm to the engine; this is the stable
    insertion sort, which every engine agrees with when the comparator
    is a consistent ordering. *)
Section Sort.
Context {A : Type} (compare : A -> A -> Z).

Fixpoint insertSorted (x : A) (l : list A) : list A :=
  match l with
  | [] => [x]
  | y :: rest =>
      if compare x y <=? 0 then x :: y :: rest
      else y :: insertSorted x rest
  end.

Definition sortBy (l : list A) : list A := foldr insertSorted [] l.
End Sort.

(* ================================================================== *)
(** * The deck codec ([src/lib/ydke.ts]), without its runtime services *)
(* ================================================================== *)

(** [view.getUint32(offset, true)] of the four bytes at [offset]. *)
Definition getUint32 (b0 b1 b2 b3 : Z) : Z :=
  b0 + 256 * b1 + 65536 * b2 + 16777216 * b3.

(** The four bytes written by [view.setUint32(offset, value, true)]: the
    value is first reduced modulo 2^32. *)
Definition setUint32 (value : Z) : list Z :=
  let v := value mod 2 ^ 32 in
  [v mod 256; (v / 256) mod 256; (v / 65536) mod 256; (v / 16777216) mod 256].

(** A store into a [Uint8Array] element. *)
Definition toUint8 (c : Z) : Z := c mod 256.

Definition base64ToBytes (encoded : jsstring) : result (list Z) :=
  let normalized := replaceChar 95 47 (replaceChar 45 43 encoded) in
  let neededPadding := (4 - (Z.of_nat (length normalized) mod 4)) mod 4 in
  let padded := normalized ++ replicate (Z.to_nat neededPadding) 61 in
  match atob padded with
  | None => Throw InvalidCharacter
  | Some binary => Ok (map toUint8 binary)
  end.

(** The loop that builds [binary] from chunks of [0x8000] bytes. *)
Fixpoint fromCharCodeChunks (fuel : nat) (bytes : list Z) : jsstring :=
  match fuel with
  | O => []
  | S fuel' =>
      match bytes with
      | [] => []
      | _ => take (Z.to_nat 0x8000) bytes
             ++ fromCharCodeChunks fuel' (drop (Z.to_nat 0x8000) bytes)
      end
  end.

Definition binaryString (bytes : list Z) : jsstring :=
  fromCharCodeChunks (length bytes) bytes.

(** [s.replace(/=+$/u, '')] *)
Fixpoint dropEquals (s : jsstring) : jsstring :=
  match s with
  | c :: r => if c =? 61 then dropEquals r else s
  | [] => []
  end.

Definition stripTrailingEquals (s : jsstring) : jsstring :=
  rev (dropEquals (rev s)).

Definition bytesToBase64Url (bytes : list Z) : jsstring :=
  stripTrailingEquals
    (replaceChar 47 95 (replaceChar 43 45 (btoa (binaryString bytes)))).

Definition bytesToBase64Standard (bytes : list Z) : jsstring :=
  btoa (binaryString bytes).

(** The loop of [decodeSection] over the 4-byte words of [bytes], with its
    local variables as accumulators. *)
Fixpoint decodeLoop (bytes : list Z) (lastId : Z) (hadInferred : bool)
    (inferred : Z) (acc : list Z) : DecodedSection :=
  match bytes with
  | b0 :: b1 :: b2 :: b3 :: rest =>
      let cardId := getUint32 b0 b1 b2 b3 in
      if (cardId =? 0) && negb (lastId =? 0)
      then decodeLoop rest lastId true (inferred + 1) (acc ++ [cardId])
      else if negb (cardId =? 0)
      then decodeLoop rest cardId hadInferred inferred (acc ++ [cardId])
      else decodeLoop rest lastId hadInferred inferred (acc ++ [cardId])
  | _ => {| cards := acc; sectionHasInferredIds := hadInferred;
            inferredCount := inferred |}
  end.

Definition decodeSection (section : jsstring) : result DecodedSection :=
  if isEmpty section
  then Ok {| cards := []; sectionHasInferredIds := false; inferredCount := 0 |}
  else
    let* bytes := base64ToBytes section in
    if negb (Z.of_nat (length bytes) mod 4 =? 0) then Throw Misaligned
    else Ok (decodeLoop bytes 0 false 0 []).

Definition encodeSection (ids : list Z) : jsstring :=
  if (Z.of_nat (length ids) =? 0) then []
  else bytesToBase64Standard (concat (map setUint32 ids)).

Definition buildYdke (main extra side : list Z) : jsstring :=
  js "ydke://"
  ++ join (js "!") [encodeSection main; encodeSection extra; encodeSection side].

Definition getDeckSize (deck : option ParsedDeck) : Z :=
  match deck with
  | None => 0
  | Some d => Z.of_nat (length (main d)) + Z.of_nat (length (extra d))
              + Z.of_nat (length (side d))
  end.

(** The replacement of [/\s*\([^)]*\)\s*$/g] by the empty string.
    [parenSuffixHere s] tells that the pattern matches the whole of [s]:
    white space, an opening parenthesis, code units other than a closing
    parenthesis, a closing parenthesis, white space, end of input.  The
    match that [replace] removes is the leftmost one. *)
Fixpoint dropUntilClose (s : jsstring) : jsstring :=
  match s with
  | c :: r => if c =? 41 then s else dropUntilClose r
  | [] => []
  end.

Definition parenSuffixHere (s : jsstring) : bool :=
  match trimStart s with
  | c :: body =>
      (c =? 40)
      && match dropUntilClose body with
         | _ :: tail => forallb isWhiteSpace tail
         | [] => false
         end
  | [] => false
  end.

Fixpoint stripParenSuffix (s : jsstring) : jsstring :=
  if parenSuffixHere s then []
  else match s with
       | [] => []
       | c :: r => c :: stripParenSuffix r
       end.

(** [simplifyCardName] of [App.tsx]. *)
Definition simplifyCardName (name : jsstring) : jsstring :=
  trim (collapseWhitespace (stripParenSuffix name)).

(** [s.replace(/â€™/g, "'")]: the three code units U+00E2 U+20AC U+2122
    become an apostrophe. *)
Definition mojibake : jsstring := [0xE2; 0x20AC; 0x2122].

Fixpoint replaceMojibake (s : jsstring) : jsstring :=
  match s with
  | a :: ((b :: c :: r) as t) =>
      if (a =? 0xE2) && (b =? 0x20AC) && (c =? 0x2122)
      then 39 :: replaceMojibake r
      else a :: replaceMojibake t
  | a :: t => a :: replaceMojibake t
  | [] => []
  end.

(** One entry of the [counts] map of [toGroup]. *)
Record CountEntry := { count : Z; firstIndex : Z }.

(** The count pass of [toGroup]: [ids.forEach((id, index) => ...)]. *)
Fixpoint countLoop (ids : list Z) (index : Z) (counts : list (Z * CountEntry))
    : list (Z * CountEntry) :=
  match ids with
  | [] => counts
  | id :: rest =>
      countLoop rest (index + 1)
        match omapGet id counts with
        | Some _ =>
            omapAlter
              (fun entry => {| count := count entry + 1;
                               firstIndex := firstIndex entry |})
              id counts
        | None => omapSet id {| count := 1; firstIndex := index |} counts
        end
  end.

Definition countPass (ids : list Z) : list (Z * CountEntry) :=
  countLoop ids 0 [].

(** [findSlots] of [missingSlots]: the indexes of the ids [<= 0]. *)
Fixpoint findSlotsFrom (section : list Z) (index : nat) : list nat :=
  match section with
  | [] => []
  | id :: rest =>
      if id <=? 0 then index :: findSlotsFrom rest (S index)
      else findSlotsFrom rest (S index)
  end.

Definition findSlots (section : list Z) : list nat := findSlotsFrom section 0.

Definition sectionOf (zone : DeckSection) (deck : ParsedDeck) : list Z :=
  match zone with
  | Main => main deck
  | Extra => extra deck
  | Side => side deck
  end.

(** [missingSlots[zone]] *)
Definition missingSlots (deck : option ParsedDeck) (zone : DeckSection)
    : list nat :=
  match deck with
  | None => []
  | Some d => findSlots (sectionOf zone d)
  end.

(** [altArtCount] *)
Definition altArtCount (deck : option ParsedDeck) : Z :=
  match deck with
  | None => 0
  | Some d =>
      Z.of_nat (length (List.filter (fun id => id =? 0)
                          (main d ++ extra d ++ side d)))
  end.

(** The [replacements] array of [handleMissingIdResolve]. *)
Definition expandSelection (selection : list MissingReplacementPick) : list Z :=
  flat_map
    (fun entry => replicate (Z.to_nat (pickCount entry)) (CardDetails.id (card entry)))
    selection.

(** The loop [for (index = 0; index < limit; index += 1)
    updated[zone][slots[index]] = replacements[index]], started at [index]
    with [n] rounds to go.  Every [slots[index]] is an index of the array
    (it comes from [findSlots] of the same array), so the assignment never
    extends it. *)
Fixpoint replaceLoop (n index : nat) (slots : list nat) (replacements : list Z)
    (section : list Z) : list Z :=
  match n with
  | O => section
  | S n' =>
      replaceLoop n' (S index) slots replacements
        match slots !! index, replacements !! index with
        | Some targetIndex, Some replacement =>
            <[targetIndex := replacement]> section
        | _, _ => section
        end
  end.

(** The object [updated] of [handleMissingIdResolve]. *)
Record SimpleDeck := {
  simpleMain : list Z;
  simpleExtra : list Z;
  simpleSide : list Z
}.

Definition updatedDeck (deck : ParsedDeck) (zone : DeckSection)
    (slots : list nat) (replacements : list Z) (limit : nat) : SimpleDeck :=
  let updated (z : DeckSection) (section : list Z) : list Z :=
    match zone, z with
    | Main, Main | Extra, Extra | Side, Side =>
        replaceLoop limit 0 slots replacements section
    | _, _ => section
    end in
  {| simpleMain := updated Main (main deck);
     simpleExtra := updated Extra (extra deck);
     simpleSide := updated Side (side deck) |}.

(** What [handleMissingIdResolve] does: nothing, a request to close the
    dialog, or a new deck input together with the number of replaced
    slots shown in the toast. *)
Inductive ResolveOutcome :=
| Ignored
| CloseRequested
| DeckReplaced (nextYdke : jsstring) (limit : nat).

Definition handleMissingIdResolve (deck : option ParsedDeck)
    (missingCardContext : option (DeckSection * jsstring))
    (selection : list MissingReplacementPick) : ResolveOutcome :=
  match deck, missingCardContext with
  | Some d, Some (zone, _) =>
      let slots := missingSlots deck zone in
      if (Z.of_nat (length slots) =? 0) then CloseRequested
      else
        let replacements := expandSelection selection in
        if (Z.of_nat (length replacements) =? 0) then Ignored
        else
          let limit := Nat.min (length replacements) (length slots) in
          let updated := updatedDeck d zone slots replacements limit in
          DeckReplaced
            (buildYdke (simpleMain updated) (simpleExtra updated)
               (simpleSide updated))
            limit
  | _, _ => Ignored
  end.

(** The record returned by [getSortMeta]. *)
Module SortMeta.
Record t := {
  priority : Z;
  sub : Z;
  level : Z;
  sortByLevel : bool;
  name : jsstring;
  order : Z
}.
End SortMeta.

(* ================================================================== *)
(** * Saved decks ([src/types.ts]) *)
(* ================================================================== *)

Module SavedDeckSummary.
Record t := {
  main : Z;
  extra : Z;
  side : Z;
  points : option Z;
  version : option Z
}.
End SavedDeckSummary.

Module SavedDeckEntry.
Record t := {
  id : jsstring;
  name : jsstring;
  deck : jsstring;
  savedAt : jsstring;
  summary : option SavedDeckSummary.t
}.
End SavedDeckEntry.

Module SavedDeckFolder.
Record t := {
  id : jsstring;
  name : jsstring;
  decks : list SavedDeckEntry.t
}.
End SavedDeckFolder.

(* ================================================================== *)
(** * The card database ([src/lib/ygoprodeck.ts]) *)
(* ================================================================== *)

Module ApiCardImage.
Record t := {
  image_url : option jsstring;
  image_url_small : option jsstring;
  image_url_cropped : option jsstring
}.
End ApiCardImage.

Module ApiCard.
Record t := {
  id : Z;
  name : jsstring;
  type : option jsstring;
  race : option jsstring;
  level : option Z;
  linkval : option Z;
  desc : option jsstring;
  ygoprodeck_url : option jsstring;
  card_images : option (list ApiCardImage.t);
  misc_info : option (list (option Z))
}.
End ApiCard.

(** What [fetch] and [response.json()] come to for one request: a
    response whose [ok] holds, with the [data] of its payload; a response
    whose [ok] does not hold; or an exception. *)
Inductive FetchOutcome :=
| FetchData (data : option (list ApiCard.t))
| FetchNotOk
| FetchThrew.

(** The end of an asynchronous call: a value, or the error that names
    the card that could not be loaded. *)
Inductive Attempt (A : Type) :=
| Done (value : A)
| Raised (cardId : Z).
Arguments Done {A} value.
Arguments Raised {A} cardId.

(* ================================================================== *)
(** * Instances and sample data for the examples *)
(* ================================================================== *)

(** The trivial lossless codec, the instance of pako's [gzip] and [ungzip]
    at which the general statements are evaluated: the bytes of the text,
    stored as they are. *)
Definition storedGzip (s : jsstring) : list Z := map toUint8 s.

Definition storedUngzip (bytes : list Z) : option (list Z) := Some bytes.

Definition decodeLatin1 (bytes : list Z) : jsstring := bytes.

(** A card of the card database with a name, a type and a level. *)
Definition sampleCard (id : Z) (name type : string) (level : Z)
    : CardDetails.t :=
  {| CardDetails.id := id;
     CardDetails.name := js name;
     CardDetails.type := Some (js type);
     CardDetails.race := None;
     CardDetails.level := Some level;
     CardDetails.linkValue := None;
     CardDetails.desc := None;
     CardDetails.image := None;
     CardDetails.imageCropped := None;
     CardDetails.ygoprodeckUrl := None |}.

(** Two effect monsters of different levels, and the card of the
    scenario of the point table. *)
Definition sampleDetails : gmap Z CardDetails.t :=
  <[5 := sampleCard 5 "Alpha" "Effect Monster" 4]>
    (<[7 := sampleCard 7 "Beta" "Effect Monster" 8]>
       (<[55144522 := sampleCard 55144522 "Pot of Greed" "Spell Card" 0]> ∅)).

Definition samplePoints : list GenesysCard :=
  [{| cardName := js "Pot of Greed"; points := 0 |};
   {| cardName := js "Alpha"; points := 10 |};
   {| cardName := js "Beta"; points := 3 |}].

Definition defaultSort (zone : DeckSection) : SortMode := Default.

Definition sampleDeck : ParsedDeck :=
  {| main := [3; 0; 5; 0; 0]; extra := []; side := [0];
     hasInferredIds := Some true; inferredCardCount := Some 4 |}.

Definition samplePick : list MissingReplacementPick :=
  [{| card := sampleCard 77 "Gamma" "Effect Monster" 4; pickCount := 2 |}].

(* ================================================================== *)
(** * The program over its runtime services *)
(* ================================================================== *)

Section Program.

(** [String.prototype.toLowerCase] *)
Variable toLowerCase : jsstring -> jsstring.
(** [a.localeCompare(b)] *)
Variable localeCompare : jsstring -> jsstring -> Z.
(** pako's [gzip] of a string, and [ungzip] ([None]: it throws). *)
Variable gzip : jsstring -> list Z.
Variable ungzip : list Z -> option (list Z).
(** [new TextDecoder().decode] *)
Variable textDecode : list Z -> jsstring.

(** The state the aggregation closes over: the point list
    [genesysData.cards], the fetched [cardDetails] and [cardSortMode]. *)
Variable genesysCards : list GenesysCard.
Variable cardDetails : gmap Z CardDetails.t.
Variable cardSortMode : DeckSection -> SortMode.

(** ** [src/lib/ydke.ts] *)

Definition parseYdke (rawInput : jsstring) : result ParsedDeck :=
  let sanitized := trim rawInput in
  if isEmpty sanitized then Throw NoDeckProvided
  else
    let ydkeMarker := indexOf (js "ydke://") (toLowerCase sanitized) in
    let data :=
      if 0 <=? ydkeMarker then slice (ydkeMarker + 7) sanitized
      else sanitized in
    let sections := split 33 (removeWhitespace data) in
    if Z.of_nat (length sections) <? 3 then Throw IncompleteLink
    else
      match sections with
      | main :: extra :: side :: _ =>
          let* mainDecoded := decodeSection main in
          let* extraDecoded := decodeSection extra in
          let* sideDecoded := decodeSection side in
          let inferredCount :=
            inferredCount mainDecoded + inferredCount extraDecoded
            + inferredCount sideDecoded in
          Ok {| main := cards mainDecoded;
                extra := cards extraDecoded;
                side := cards sideDecoded;
                hasInferredIds :=
                  if 0 <? inferredCount then Some true else None;
                inferredCardCount :=
                  if inferredCount =? 0 then None else Some inferredCount |}
      | _ => Throw IncompleteLink
      end.

Definition encodeDeckHash (ydke : jsstring) : jsstring :=
  bytesToBase64Url (gzip (trim ydke)).

Definition decodeDeckHash (encoded : jsstring) : result jsstring :=
  let* bytes := base64ToBytes encoded in
  match ungzip bytes with
  | None => Throw InflateFailed
  | Some text => Ok (textDecode text)
  end.

(** The [deck] memo of [App]: [None] is [null]. *)
Definition deckOf (deckInput : jsstring) : option ParsedDeck :=
  let sanitized := trim deckInput in
  if isEmpty sanitized then None
  else match parseYdke sanitized with
       | Ok parsed => Some parsed
       | Throw _ => None
       end.

(** ** [src/lib/strings.ts] *)

Definition normalizeCardName (name : jsstring) : jsstring :=
  toLowerCase (collapseWhitespace (replaceMojibake (trim name))).

Definition formatCardTypeLabel (type race : option jsstring) : jsstring :=
  let baseType := option_map trim type in
  let baseRace := option_map trim race in
  let fallback :=
    match baseType, baseRace with
    | Some t, _ => t
    | None, Some r => r
    | None, None => js "Unknown Card Type"
    end in
  match baseType with
  | Some ((_ :: _) as baseType) =>
      let typeLower := toLowerCase baseType in
      let raceLower := toLowerCase (default [] baseRace) in
      if includes (js "spell") typeLower then
        if includes (js "quick") raceLower then js "Quick-Play Spell Card"
        else if includes (js "field") raceLower then js "Field Spell Card"
        else if includes (js "continuous") raceLower
             then js "Continuous Spell Card"
        else if includes (js "ritual") raceLower then js "Ritual Spell Card"
        else if includes (js "equip") raceLower then js "Equip Spell Card"
        else if includes (js "normal") raceLower then js "Normal Spell Card"
        else js "Spell Card"
      else if includes (js "trap") typeLower then
        if includes (js "counter") raceLower then js "Counter Trap Card"
        else if includes (js "continuous") raceLower
             then js "Continuous Trap Card"
        else if includes (js "normal") raceLower then js "Normal Trap Card"
        else js "Trap Card"
      else fallback
  | _ => fallback
  end.

(** ** [src/App.tsx]: the point index *)

Definition genesysPointMap : gmap (list Z) Z :=
  fold_left
    (fun m entry => <[normalizeCardName (cardName entry) := points entry]> m)
    genesysCards ∅.

(** ** [src/App.tsx]: the comparator of the sort pass *)

Definition monsterPriority (typeLabel : jsstring) (zone : DeckSection) : Z :=
  let basePriority :=
    if includes (js "normal") typeLabel
       && negb (includes (js "pendulum") typeLabel) then 0
    else if includes (js "effect") typeLabel
            && negb (includes (js "pendulum") typeLabel)
            && negb (includes (js "ritual") typeLabel) then 1
    else if includes (js "pendulum") typeLabel then 2
    else if includes (js "ritual") typeLabel then 3
    else 4 in
  if isExtra zone then
    if includes (js "fusion") typeLabel then 5
    else if includes (js "synchro") typeLabel then 6
    else if includes (js "xyz") typeLabel then 7
    else if includes (js "link") typeLabel then 8
    else 9
  else basePriority.

Definition spellPriority (raceLabel : jsstring) : Z :=
  if includes (js "normal") raceLabel then 0
  else if includes (js "quick") raceLabel then 1
  else if includes (js "ritual") raceLabel then 2
  else if includes (js "field") raceLabel then 3
  else if includes (js "continuous") raceLabel then 4
  else if includes (js "equip") raceLabel then 5
  else 6.

Definition trapPriority (raceLabel : jsstring) : Z :=
  if includes (js "counter") raceLabel then 0
  else if includes (js "continuous") raceLabel then 1
  else 2.

Definition getSortMeta (card : DeckCardGroup.t) (zone : DeckSection)
    : SortMeta.t :=
  let rawType := toLowerCase (default [] (DeckCardGroup.type card)) in
  let rawRace := toLowerCase (default [] (DeckCardGroup.race card)) in
  let name := toLowerCase (DeckCardGroup.name card) in
  let order := default MAX_SAFE_INTEGER (DeckCardGroup.orderIndex card) in
  if includes (js "monster") rawType then
    {| SortMeta.priority := 0;
       SortMeta.sub := monsterPriority (rawType ++ js " " ++ rawRace) zone;
       SortMeta.level := default 0 (DeckCardGroup.level card);
       SortMeta.sortByLevel :=
         negb (existsb (fun label => includes label rawType)
                 [js "link"; js "xyz"]);
       SortMeta.name := name;
       SortMeta.order := order |}
  else if includes (js "spell") rawType then
    {| SortMeta.priority := 1;
       SortMeta.sub := spellPriority rawRace;
       SortMeta.level := 0;
       SortMeta.sortByLevel := false;
       SortMeta.name := name;
       SortMeta.order := order |}
  else if includes (js "trap") rawType then
    {| SortMeta.priority := 2;
       SortMeta.sub := trapPriority rawRace;
       SortMeta.level := 0;
       SortMeta.sortByLevel := false;
       SortMeta.name := name;
       SortMeta.order := order |}
  else
    {| SortMeta.priority := 4;
       SortMeta.sub := 0;
       SortMeta.level := default 0 (DeckCardGroup.level card);
       SortMeta.sortByLevel := false;
       SortMeta.name := name;
       SortMeta.order := order |}.

Definition compareCards (zone : DeckSection) (a b : DeckCardGroup.t) : Z :=
  let structural :=
    let metaA := getSortMeta a zone in
    let metaB := getSortMeta b zone in
    if negb (SortMeta.priority metaA =? SortMeta.priority metaB)
    then SortMeta.priority metaA - SortMeta.priority metaB
    else if negb (SortMeta.sub metaA =? SortMeta.sub metaB)
    then SortMeta.sub metaA - SortMeta.sub metaB
    else if SortMeta.sortByLevel metaA && SortMeta.sortByLevel metaB
            && negb (SortMeta.level metaA =? SortMeta.level metaB)
    then SortMeta.level metaB - SortMeta.level metaA
    else
      let nameCompare :=
        localeCompare (SortMeta.name metaA) (SortMeta.name metaB) in
      if negb (nameCompare =? 0) then nameCompare
      else SortMeta.order metaA - SortMeta.order metaB in
  match cardSortMode zone with
  | ByPoints =>
      let pointDiff :=
        DeckCardGroup.pointsPerCopy b - DeckCardGroup.pointsPerCopy a in
      if negb (pointDiff =? 0) then pointDiff
      else
        let totalDiff :=
          DeckCardGroup.totalPoints b - DeckCardGroup.totalPoints a in
        if negb (totalDiff =? 0) then totalDiff else structural
  | Default => structural
  end.

(** ** [src/App.tsx]: [toGroup] *)

(** The enrichment pass: the group built for one entry of [counts]. *)
Definition rawGroup (zone : DeckSection) (entry : Z * CountEntry)
    : DeckCardGroup.t :=
  let '(id, meta) := entry in
  let info := cardDetails !! id in
  let fallbackName :=
    if id =? 0 then js "Missing ID" else js "Card #" ++ numberToString id in
  let originalName := default fallbackName (option_map CardDetails.name info) in
  let displayName :=
    if (id =? 0) && negb (truthyString (option_map CardDetails.name info))
    then fallbackName
    else simplifyCardName originalName in
  let normalized := normalizeCardName displayName in
  let points := genesysPointMap !! normalized in
  let rawType := info ≫= CardDetails.type in
  let rawRace := info ≫= CardDetails.race in
  {| DeckCardGroup.id := id;
     DeckCardGroup.count := count meta;
     DeckCardGroup.zone := zone;
     DeckCardGroup.name := displayName;
     DeckCardGroup.image := info ≫= CardDetails.image;
     DeckCardGroup.fullImage :=
       orElse (info ≫= CardDetails.imageCropped) (info ≫= CardDetails.image);
     DeckCardGroup.type := orElse rawType (info ≫= CardDetails.race);
     DeckCardGroup.race := rawRace;
     DeckCardGroup.displayType :=
       Some (formatCardTypeLabel (orElse rawType (info ≫= CardDetails.race))
               rawRace);
     DeckCardGroup.desc := info ≫= CardDetails.desc;
     DeckCardGroup.level := info ≫= CardDetails.level;
     DeckCardGroup.linkValue := info ≫= CardDetails.linkValue;
     DeckCardGroup.orderIndex := Some (firstIndex meta);
     DeckCardGroup.linkUrl := info ≫= CardDetails.ygoprodeckUrl;
     DeckCardGroup.pointsPerCopy := default 0 points;
     DeckCardGroup.totalPoints := default 0 points * count meta;
     DeckCardGroup.missingInfo :=
       match info with Some _ => false | None => true end;
     DeckCardGroup.notInList :=
       match genesysPointMap !! normalized with
       | Some _ => false
       | None => true
       end |}.

(** The key of a group in the [merged] map. *)
Definition mergeKey (card : DeckCardGroup.t) : jsstring :=
  normalizeCardName (DeckCardGroup.name card) ++ js "::"
  ++ sectionName (DeckCardGroup.zone card).

(** The updates made to [existing] when [card] has the same key. *)
Definition mergeInto (card existing : DeckCardGroup.t) : DeckCardGroup.t :=
  let fillString (old new : option jsstring) :=
    if negb (truthyString old) && truthyString new then new else old in
  let fillNumber (old new : option Z) :=
    if negb (truthyNumber old) && truthyNumber new then new else old in
  {| DeckCardGroup.id := DeckCardGroup.id existing;
     DeckCardGroup.name := DeckCardGroup.name existing;
     DeckCardGroup.count :=
       DeckCardGroup.count existing + DeckCardGroup.count card;
     DeckCardGroup.zone := DeckCardGroup.zone existing;
     DeckCardGroup.image :=
       fillString (DeckCardGroup.image existing) (DeckCardGroup.image card);
     DeckCardGroup.fullImage :=
       fillString (DeckCardGroup.fullImage existing)
         (DeckCardGroup.fullImage card);
     DeckCardGroup.type :=
       fillString (DeckCardGroup.type existing) (DeckCardGroup.type card);
     DeckCardGroup.race :=
       fillString (DeckCardGroup.race existing) (DeckCardGroup.race card);
     DeckCardGroup.displayType :=
       fillString (DeckCardGroup.displayType existing)
         (DeckCardGroup.displayType card);
     DeckCardGroup.desc :=
       fillString (DeckCardGroup.desc existing) (DeckCardGroup.desc card);
     DeckCardGroup.level :=
       fillNumber (DeckCardGroup.level existing) (DeckCardGroup.level card);
     DeckCardGroup.linkValue :=
       fillNumber (DeckCardGroup.linkValue existing)
         (DeckCardGroup.linkValue card);
     DeckCardGroup.orderIndex :=
       Some (Z.min
               (default MAX_SAFE_INTEGER (DeckCardGroup.orderIndex existing))
               (default MAX_SAFE_INTEGER (DeckCardGroup.orderIndex card)));
     DeckCardGroup.linkUrl := DeckCardGroup.linkUrl existing;
     DeckCardGroup.pointsPerCopy := DeckCardGroup.pointsPerCopy existing;
     DeckCardGroup.totalPoints :=
       DeckCardGroup.totalPoints existing + DeckCardGroup.totalPoints card;
     DeckCardGroup.missingInfo := DeckCardGroup.missingInfo existing;
     DeckCardGroup.notInList := DeckCardGroup.notInList existing |}.

(** One round of [rawGroups.forEach] over the [merged] map. *)
Definition mergeStep (merged : list (list Z * DeckCardGroup.t))
    (card : DeckCardGroup.t) : list (list Z * DeckCardGroup.t) :=
  let key := mergeKey card in
  match omapGet key merged with
  | Some _ => omapAlter (mergeInto card) key merged
  | None => omapSet key card merged
  end.

Definition mergePass (rawGroups : list DeckCardGroup.t)
    : list (list Z * DeckCardGroup.t) :=
  fold_left mergeStep rawGroups [].

Definition toGroup (ids : list Z) (zone : DeckSection)
    : list DeckCardGroup.t :=
  let counts := countPass ids in
  let rawGroups := map (rawGroup zone) counts in
  let merged := mergePass rawGroups in
  sortBy (compareCards zone) (omapValues merged).

Definition deckGroups (deck : ParsedDeck) : DeckGroups :=
  {| mainGroups := toGroup (main deck) Main;
     extraGroups := toGroup (extra deck) Extra;
     sideGroups := toGroup (side deck) Side |}.

(** [totalPoints]: the reduction over the three sections. *)
Definition totalPoints (groups : option DeckGroups) : Z :=
  match groups with
  | None => 0
  | Some g =>
      fold_left (fun sum card => sum + DeckCardGroup.totalPoints card)
        (mainGroups g ++ extraGroups g ++ sideGroups g) 0
  end.

(** [unknownCards] *)
Definition unknownCards (groups : option DeckGroups) : Z :=
  match groups with
  | None => 0
  | Some g =>
      let sumZone (l : list DeckCardGroup.t) :=
        fold_left
          (fun sum card =>
             sum + (if DeckCardGroup.notInList card
                    then DeckCardGroup.count card else 0))
          l 0 in
      sumZone (mainGroups g) + sumZone (extraGroups g) + sumZone (sideGroups g)
  end.

(** [cardsOverCap] *)
Definition cardsOverCap (pointCap : Z) (groups : option DeckGroups) : bool :=
  (0 <? pointCap) && (pointCap <? totalPoints groups).


(* ================================================================ *)
(** * Definitions used to state the properties *)
(* ================================================================ *)

(** A proof depends on the section variables of its statement, and on
    the hypotheses that its [Proof using] names. *)
Set Default Proof Using "Type".

Definition isUint32 (id : Z) : Prop := 0 <= id < 2 ^ 32.

(** The characters of the base64 encoding of [bytes], without padding. *)
Fixpoint btoaCore (bytes : list Z) : jsstring :=
  match bytes with
  | a :: b :: c :: rest =>
      b64char (a / 4) :: b64char ((a mod 4) * 16 + b / 16)
      :: b64char ((b mod 16) * 4 + c / 64) :: b64char (c mod 64)
      :: btoaCore rest
  | [a; b] =>
      [b64char (a / 4); b64char ((a mod 4) * 16 + b / 16);
       b64char ((b mod 16) * 4)]
  | [a] => [b64char (a / 4); b64char ((a mod 4) * 16)]
  | [] => []
  end.

(** The padding that [btoa] appends. *)
Definition btoaPadding (bytes : list Z) : jsstring :=
  replicate ((3 - length bytes mod 3) mod 3)%nat 61.

(** What every character of the alphabet satisfies: it is not the
    padding sign, not one of the URL-safe substitutes, not the section
    separator, not white space, and it is ASCII. *)
Definition plainB64 (c : Z) : bool :=
  negb (c =? 61) && negb (c =? 45) && negb (c =? 95) && negb (c =? 33)
  && negb (isWhiteSpace c) && negb (isAsciiWhitespace c)
  && (0 <=? c) && (c <? 128).


(** The 32-bit little-endian words of a byte sequence, in order. *)
Fixpoint wordsOf (bytes : list Z) : list Z :=
  match bytes with
  | b0 :: b1 :: b2 :: b3 :: rest => getUint32 b0 b1 b2 b3 :: wordsOf rest
  | _ => []
  end.

(** The number of placeholder ([0]) entries of a sequence. *)
Definition countZeros (ids : list Z) : Z :=
  Z.of_nat (length (List.filter (fun id => id =? 0) ids)).

(** The number of placeholder entries that come after some non-zero
    entry of the sequence: the zeros that remain once the leading run of
    zeros is dropped. *)
Fixpoint dropLeadingZeros (ids : list Z) : list Z :=
  match ids with
  | id :: rest => if id =? 0 then dropLeadingZeros rest else ids
  | [] => []
  end.

Definition zerosAfterCard (ids : list Z) : Z :=
  countZeros (dropLeadingZeros ids).

(** The value of the local [sections] of [parseYdke]. *)
Definition ydkeSections (rawInput : jsstring) : list jsstring :=
  let sanitized := trim rawInput in
  let ydkeMarker := indexOf (js "ydke://") (toLowerCase sanitized) in
  let data :=
    if 0 <=? ydkeMarker then slice (ydkeMarker + 7) sanitized
    else sanitized in
  split 33 (removeWhitespace data).

(** What [parseYdke] makes of the three sections it keeps. *)
Definition decodeSections (main extra side : jsstring) : result ParsedDeck :=
  let* mainDecoded := decodeSection main in
  let* extraDecoded := decodeSection extra in
  let* sideDecoded := decodeSection side in
  let inferredCount :=
    inferredCount mainDecoded + inferredCount extraDecoded
    + inferredCount sideDecoded in
  Ok {| main := cards mainDecoded;
        extra := cards extraDecoded;
        side := cards sideDecoded;
        hasInferredIds := if 0 <? inferredCount then Some true else None;
        inferredCardCount :=
          if inferredCount =? 0 then None else Some inferredCount |}.

(** The ids that a section string stands for: every word of its bytes. *)
Definition sectionWords (section : jsstring) : option (list Z) :=
  if isEmpty section then Some []
  else match base64ToBytes section with
       | Ok bytes => Some (wordsOf bytes)
       | Throw _ => None
       end.

(** A character that can occur in an encoded section: ASCII, neither
    white space nor the separator [!]. *)
Definition sectionChar (c : Z) : Prop :=
  c <> 33 /\ isWhiteSpace c = false /\ isAscii c.

(** The sum of a list of integers. *)
Definition sumZ (l : list Z) : Z := fold_right Z.add 0 l.

(** Every group of the three sections of a [DeckGroups]. *)
Definition allGroups (g : DeckGroups) : list DeckCardGroup.t :=
  mainGroups g ++ extraGroups g ++ sideGroups g.

(** What the enrichment pass establishes for a group and the merge pass
    keeps: the point fields are those of the group's normalized display
    name in the point index. *)
Definition pointsConsistent (card : DeckCardGroup.t) : Prop :=
  let entry := genesysPointMap !! normalizeCardName (DeckCardGroup.name card) in
  DeckCardGroup.pointsPerCopy card = default 0 entry
  /\ DeckCardGroup.totalPoints card
     = DeckCardGroup.pointsPerCopy card * DeckCardGroup.count card
  /\ DeckCardGroup.notInList card
     = match entry with Some _ => false | None => true end.

(** The invariant of an entry of the [merged] map of section [zone]. *)
Definition mergedEntryOk (zone : DeckSection)
    (entry : list Z * DeckCardGroup.t) : Prop :=
  fst entry = mergeKey (snd entry)
  /\ DeckCardGroup.zone (snd entry) = zone
  /\ pointsConsistent (snd entry).

(** Substitution of replacements for placeholders in sequence order: the
    earliest placeholder slot takes the first replacement, and so on
    until the replacements run out. *)
Fixpoint fillSlots (section replacements : list Z) : list Z :=
  match section with
  | [] => []
  | id :: rest =>
      if id <=? 0 then
        match replacements with
        | r :: replacements' => r :: fillSlots rest replacements'
        | [] => id :: rest
        end
      else id :: fillSlots rest replacements
  end.

(** The deck of the application once [handleMissingIdResolve] has run:
    the deck decoded from the new deck input when the handler sets one,
    the deck as it was otherwise. *)
Definition deckAfterResolve (deck : ParsedDeck)
    (missingCardContext : option (DeckSection * jsstring))
    (selection : list MissingReplacementPick) : option ParsedDeck :=
  match handleMissingIdResolve (Some deck) missingCardContext selection with
  | DeckReplaced nextYdke _ => deckOf nextYdke
  | Ignored | CloseRequested => Some deck
  end.

Definition simpleSectionOf (zone : DeckSection) (deck : SimpleDeck) : list Z :=
  match zone with
  | Main => simpleMain deck
  | Extra => simpleExtra deck
  | Side => simpleSide deck
  end.

(** A string that begins, respectively ends, with a code unit that is
    not white space. *)
Definition startsNonWs (s : jsstring) : bool :=
  match s with
  | c :: _ => negb (isWhiteSpace c)
  | [] => false
  end.

Fixpoint endsNonWs (s : jsstring) : bool :=
  match s with
  | [] => false
  | [c] => negb (isWhiteSpace c)
  | _ :: r => endsNonWs r
  end.


(* ================================================================ *)
(** * Further code of the repository *)
(* ================================================================ *)

(** ** The alphabets of the codec *)

(** A character that may stand in a URL without escaping: a letter, a
    digit, [-] or [_]. *)
Definition isUrlSafeChar (c : Z) : bool :=
  ((65 <=? c) && (c <=? 90)) || ((97 <=? c) && (c <=? 122))
  || ((48 <=? c) && (c <=? 57)) || (c =? 45) || (c =? 95).

(** A character that [base64ToBytes] has a meaning for: one of the
    standard alphabet, one of the two URL-safe substitutes, the padding
    sign, or the white space that [atob] skips. *)
Definition isBase64Input (c : Z) : bool :=
  match b64index c with Some _ => true | None => false end
  || (c =? 45) || (c =? 95) || (c =? 61) || isAsciiWhitespace c.

(** The four bytes of every id, one id after the other: the contents of
    the [Uint8Array] of [encodeSection]. *)
Definition sectionBytes (ids : list Z) : list Z := concat (map setUint32 ids).

(** [ToUint32] of an integer. *)
Definition toUint32 (id : Z) : Z := id mod 2 ^ 32.

(** ** [parseYdk] ([src/lib/ydke.ts]) *)

(** A JavaScript number as [Number(...)] returns it: not a number, an
    infinity, or a finite value, written as a fraction. *)
Inductive JsNumber :=
| NaN
| Infinite (negative : bool)
| Finite (numerator : Z) (denominator : positive).

(** The number with the integer value [n]. *)
Definition ofInteger (n : Z) : JsNumber := Finite n 1.

(** [Number.isFinite(id) && id > 0] *)
Definition isPositiveFinite (id : JsNumber) : bool :=
  match id with
  | Finite numerator _ => 0 <? numerator
  | _ => false
  end.

(** [ToUint32] of a number, as [setUint32] applies it: the value is
    truncated towards zero and reduced modulo 2^32; what is not finite
    becomes 0. *)
Definition numberToUint32 (id : JsNumber) : Z :=
  match id with
  | Finite numerator denominator =>
      Z.quot numerator (Z.pos denominator) mod 2 ^ 32
  | _ => 0
  end.

(** The global [Number], applied to a string. *)
Variable Number : jsstring -> JsNumber.

(** [SimpleDeck], with the entries as [parseYdk] pushes them. *)
Record YdkDeck := {
  ydkMain : list JsNumber;
  ydkExtra : list JsNumber;
  ydkSide : list JsNumber
}.

(** [text.split(/\r?\n/u)] *)
Fixpoint splitLines (s : jsstring) : list jsstring :=
  match s with
  | [] => [[]]
  | c :: r =>
      if c =? 10 then [] :: splitLines r
      else
        let rest :=
          match r with
          | d :: r' =>
              if (c =? 13) && (d =? 10) then Some (splitLines r') else None
          | [] => None
          end in
        match rest with
        | Some lines => [] :: lines
        | None =>
            match splitLines r with
            | h :: t => (c :: h) :: t
            | [] => [[c]]
            end
        end
  end.

(** [deck[current].push(id)] *)
Definition ydkPush (current : DeckSection) (id : JsNumber) (deck : YdkDeck)
    : YdkDeck :=
  match current with
  | Main => {| ydkMain := ydkMain deck ++ [id]; ydkExtra := ydkExtra deck;
               ydkSide := ydkSide deck |}
  | Extra => {| ydkMain := ydkMain deck; ydkExtra := ydkExtra deck ++ [id];
                ydkSide := ydkSide deck |}
  | Side => {| ydkMain := ydkMain deck; ydkExtra := ydkExtra deck;
               ydkSide := ydkSide deck ++ [id] |}
  end.

(** The callback of [forEach] in [parseYdk], on the trimmed [line], with
    the variables [deck] and [current] as state. *)
Definition parseYdkLine (state : YdkDeck * DeckSection) (line : jsstring)
    : YdkDeck * DeckSection :=
  let '(deck, current) := state in
  if isEmpty line || startsWith (js "#created") line then state
  else
    let lower := toLowerCase line in
    if bool_decide (lower = js "#main") then (deck, Main)
    else if bool_decide (lower = js "#extra") then (deck, Extra)
    else if bool_decide (lower = js "#side")
            || bool_decide (lower = js "!side") then (deck, Side)
    else if startsWith (js "#") line || startsWith (js "!") line then state
    else
      let id := Number line in
      if isPositiveFinite id then (ydkPush current id deck, current)
      else state.

Definition parseYdk (text : jsstring) : YdkDeck :=
  fst (fold_left parseYdkLine (map trim (splitLines text))
         ({| ydkMain := []; ydkExtra := []; ydkSide := [] |}, Main)).

(** What [handleImportYdkFile] makes of the text of a file: the deck
    code that becomes the input, or [None] when the file holds no
    card. *)
Definition importYdk (content : jsstring) : option jsstring :=
  let deck := parseYdk content in
  if Nat.eqb (length (ydkMain deck)) 0 && Nat.eqb (length (ydkExtra deck)) 0
     && Nat.eqb (length (ydkSide deck)) 0
  then None
  else Some (buildYdke (map numberToUint32 (ydkMain deck))
               (map numberToUint32 (ydkExtra deck))
               (map numberToUint32 (ydkSide deck))).

(** The entries of a section of a [YdkDeck]. *)
Definition ydkSectionOf (zone : DeckSection) (deck : YdkDeck)
    : list JsNumber :=
  match zone with
  | Main => ydkMain deck
  | Extra => ydkExtra deck
  | Side => ydkSide deck
  end.

(** The text of a YDK file in the usual layout: a line of credit, then
    the three headers, each followed by the decimal ids of its section,
    one per line; every line ends with [eol]. *)
Definition ydkIds (eol : jsstring) (ids : list Z) : jsstring :=
  concat (map (fun id => numberToString id ++ eol) ids).

Definition ydkFile (eol : jsstring) (m e s : list Z) : jsstring :=
  js "#created by Player" ++ eol
  ++ js "#main" ++ eol ++ ydkIds eol m
  ++ js "#extra" ++ eol ++ ydkIds eol e
  ++ js "!side" ++ eol ++ ydkIds eol s.

(** An id that [Number] reads back from its decimal numeral. *)
Definition readsBack (id : Z) : Prop :=
  0 < id /\ Number (numberToString id) = ofInteger id.

(** A line end of a text file: LF or CR LF. *)
Definition isEol (eol : jsstring) : Prop := eol = [10] \/ eol = [13; 10].

(** A stand-in for [Number] on the strings of decimal digits, where it
    returns their value; every other string is read as [NaN]. *)
Definition decimalValue (s : jsstring) : option Z :=
  fold_left
    (fun acc c =>
       match acc with
       | Some n => if (48 <=? c) && (c <=? 57) then Some (n * 10 + (c - 48))
                   else None
       | None => None
       end)
    s (if isEmpty s then None else Some 0).

Definition numberOfDecimal (s : jsstring) : JsNumber :=
  match decimalValue s with
  | Some n => ofInteger n
  | None => NaN
  end.

(** The deck after the ids have been pushed to the section [current],
    one after the other. *)
Definition ydkPushAll (current : DeckSection) (ids : list Z) (deck : YdkDeck)
    : YdkDeck :=
  fold_left (fun d id => ydkPush current (ofInteger id) d) ids deck.

(** ** The aggregation, card by card *)

(** What the enrichment pass of [toGroup] derives from an id alone: the
    display name, the points of one copy, and whether the point list
    lacks the card. *)
Definition displayNameOf (id : Z) : jsstring :=
  DeckCardGroup.name (rawGroup Main (id, {| count := 1; firstIndex := 0 |})).

Definition cardPoints (id : Z) : Z :=
  default 0 (genesysPointMap !! normalizeCardName (displayNameOf id)).

Definition cardUnlisted (id : Z) : bool :=
  match genesysPointMap !! normalizeCardName (displayNameOf id) with
  | Some _ => false
  | None => true
  end.

(** The contribution of a group to [unknownCards]. *)
Definition unknownCopies (card : DeckCardGroup.t) : Z :=
  if DeckCardGroup.notInList card then DeckCardGroup.count card else 0.

(** ** [src/App.tsx]: the ids to look up *)

(** [new Set(...)] as the list of its elements in insertion order:
    [add] of an element that the set holds changes nothing. *)
Definition setAdd (s : list Z) (x : Z) : list Z :=
  if existsb (Z.eqb x) s then s else s ++ [x].

(** [Array.from(new Set(ids))] *)
Definition setOf (ids : list Z) : list Z := fold_left setAdd ids [].

(** [uniqueCardIds] *)
Definition uniqueCardIds (deck : option ParsedDeck) : list Z :=
  match deck with
  | None => []
  | Some d =>
      setOf (List.filter (fun id => 0 <? id) (main d ++ extra d ++ side d))
  end.

(** ** [src/App.tsx]: the filters of the point list *)

(** [Math.round]: the nearest integer, a tie going up. *)
Definition mathRound (value : JsNumber) : JsNumber :=
  match value with
  | Finite n d => ofInteger ((2 * n + Z.pos d) / (2 * Z.pos d))
  | _ => value
  end.

(** [value || fallback] on numbers: [NaN] and zero are falsy. *)
Definition orNumber (value fallback : JsNumber) : JsNumber :=
  match value with
  | NaN => fallback
  | Finite 0 _ => fallback
  | _ => value
  end.

(** [a <= b] on numbers other than [NaN]. *)
Definition numberLe (a b : JsNumber) : bool :=
  match a, b with
  | Finite n d, Finite n' d' => n * Z.pos d' <=? n' * Z.pos d
  | Infinite true, _ => true
  | _, Infinite false => true
  | _, _ => false
  end.

(** [Math.max] and [Math.min] of two numbers. *)
Definition mathMax (a b : JsNumber) : JsNumber :=
  match a, b with
  | NaN, _ | _, NaN => NaN
  | _, _ => if numberLe a b then b else a
  end.

Definition mathMin (a b : JsNumber) : JsNumber :=
  match a, b with
  | NaN, _ | _, NaN => NaN
  | _, _ => if numberLe a b then a else b
  end.

(** [clampPoints] *)
Definition clampPoints (value : JsNumber) : JsNumber :=
  mathMin (mathMax (orNumber (mathRound value) (ofInteger 1)) (ofInteger 1))
    (ofInteger 100).

(** [commitPointFilters]: the new values of [pointMin] and [pointMax]. *)
Definition commitPointFilters (pendingPointMin pendingPointMax : JsNumber)
    : JsNumber * JsNumber :=
  let nextMin := clampPoints pendingPointMin in
  let nextMax := clampPoints pendingPointMax in
  (mathMin nextMin nextMax, mathMax nextMin nextMax).

(** The third filter of [filteredPointCards]. *)
Definition pointCardMatches (query : jsstring)
    (pointCardInfo : gmap (list Z) CardDetails.t) (card : GenesysCard)
    : bool :=
  if isEmpty query then true
  else if includes query (toLowerCase (cardName card)) then true
  else match pointCardInfo !! cardName card ≫= CardDetails.desc with
       | Some desc => includes query (toLowerCase desc)
       | None => false
       end.

(** The comparator of [filteredPointCards]. *)
Definition comparePointCards (a b : GenesysCard) : Z :=
  if negb (points b =? points a) then points b - points a
  else localeCompare (cardName a) (cardName b).

(** [filteredPointCards], for integer bounds. *)
Definition filteredPointCards (pointSearch : jsstring)
    (pointCardInfo : gmap (list Z) CardDetails.t) (pointMin pointMax : Z)
    : list GenesysCard :=
  let query := toLowerCase (trim pointSearch) in
  sortBy comparePointCards
    (List.filter (pointCardMatches query pointCardInfo)
       (List.filter
          (fun card => (pointMin <=? points card) && (points card <=? pointMax))
          (List.filter (fun card => 0 <? points card) genesysCards))).

(** The three filters of [filteredPointCards] as one test. *)
Definition pointCardListed (pointSearch : jsstring)
    (pointCardInfo : gmap (list Z) CardDetails.t) (pointMin pointMax : Z)
    (card : GenesysCard) : bool :=
  (0 <? points card) && (pointMin <=? points card)
  && (points card <=? pointMax)
  && pointCardMatches (toLowerCase (trim pointSearch)) pointCardInfo card.

(** The order of [filteredPointCards]: more points first, equal points
    by name. *)
Definition pointCardBefore (a b : GenesysCard) : Prop :=
  points b < points a
  \/ (points a = points b /\ localeCompare (cardName a) (cardName b) <= 0).

(** ** [src/App.tsx]: the overlays *)

Record Overlays := {
  showPointList : bool;
  showBlockedList : bool;
  focusedCard : option DeckCardGroup.t;
  missingCardContext : option (DeckSection * jsstring);
  showSavedDeckModal : bool
}.

(** [Number(flag)] of a boolean, and [value ? 1 : 0]. *)
Definition isSome {A} (o : option A) : bool :=
  match o with Some _ => true | None => false end.

(** [modalDepth] *)
Definition modalDepth (o : Overlays) : Z :=
  Z.b2z (showPointList o) + Z.b2z (showBlockedList o)
  + (if isSome (focusedCard o) then 1 else 0)
  + (if isSome (missingCardContext o) then 1 else 0)
  + Z.b2z (showSavedDeckModal o).

(** [closeTopModal]: the overlays afterwards and the value returned. *)
Definition closeTopModal (o : Overlays) : Overlays * bool :=
  if showSavedDeckModal o then
    ({| showPointList := showPointList o;
        showBlockedList := showBlockedList o;
        focusedCard := focusedCard o;
        missingCardContext := missingCardContext o;
        showSavedDeckModal := false |}, true)
  else if isSome (missingCardContext o) then
    ({| showPointList := showPointList o;
        showBlockedList := showBlockedList o;
        focusedCard := focusedCard o;
        missingCardContext := None;
        showSavedDeckModal := showSavedDeckModal o |}, true)
  else if isSome (focusedCard o) then
    ({| showPointList := showPointList o;
        showBlockedList := showBlockedList o;
        focusedCard := None;
        missingCardContext := missingCardContext o;
        showSavedDeckModal := showSavedDeckModal o |}, true)
  else if showBlockedList o then
    ({| showPointList := showPointList o;
        showBlockedList := false;
        focusedCard := focusedCard o;
        missingCardContext := missingCardContext o;
        showSavedDeckModal := showSavedDeckModal o |}, true)
  else if showPointList o then
    ({| showPointList := false;
        showBlockedList := showBlockedList o;
        focusedCard := focusedCard o;
        missingCardContext := missingCardContext o;
        showSavedDeckModal := showSavedDeckModal o |}, true)
  else (o, false).

(** ** [src/App.tsx]: the blocked cards *)

(** [isBlocked] of [blockedCards]: the card database calls the card a
    Link or a Pendulum card. *)
Definition isBlockedCard (card : DeckCardGroup.t) : bool :=
  let details := cardDetails !! DeckCardGroup.id card in
  let type :=
    default [] (option_map toLowerCase (details ≫= CardDetails.type)) in
  includes (js "link") type || includes (js "pendulum") type.

(** The entry stored for the first group of a name. *)
Definition blockedEntry (card : DeckCardGroup.t) : DeckCardGroup.t :=
  let details := cardDetails !! DeckCardGroup.id card in
  let type := orElse (details ≫= CardDetails.type) (DeckCardGroup.type card) in
  let race := orElse (details ≫= CardDetails.race) (DeckCardGroup.race card) in
  {| DeckCardGroup.id := DeckCardGroup.id card;
     DeckCardGroup.name := DeckCardGroup.name card;
     DeckCardGroup.count := DeckCardGroup.count card;
     DeckCardGroup.zone := DeckCardGroup.zone card;
     DeckCardGroup.image := DeckCardGroup.image card;
     DeckCardGroup.type := type;
     DeckCardGroup.race := race;
     DeckCardGroup.displayType := Some (formatCardTypeLabel type race);
     DeckCardGroup.desc := DeckCardGroup.desc card;
     DeckCardGroup.level := DeckCardGroup.level card;
     DeckCardGroup.linkValue := DeckCardGroup.linkValue card;
     DeckCardGroup.orderIndex := DeckCardGroup.orderIndex card;
     DeckCardGroup.linkUrl := DeckCardGroup.linkUrl card;
     DeckCardGroup.pointsPerCopy := DeckCardGroup.pointsPerCopy card;
     DeckCardGroup.totalPoints := DeckCardGroup.totalPoints card;
     DeckCardGroup.missingInfo := DeckCardGroup.missingInfo card;
     DeckCardGroup.notInList := DeckCardGroup.notInList card;
     DeckCardGroup.fullImage := DeckCardGroup.fullImage card |}.

(** [existing.count += n] *)
Definition addCopies (n : Z) (existing : DeckCardGroup.t) : DeckCardGroup.t :=
  {| DeckCardGroup.id := DeckCardGroup.id existing;
     DeckCardGroup.name := DeckCardGroup.name existing;
     DeckCardGroup.count := DeckCardGroup.count existing + n;
     DeckCardGroup.zone := DeckCardGroup.zone existing;
     DeckCardGroup.image := DeckCardGroup.image existing;
     DeckCardGroup.type := DeckCardGroup.type existing;
     DeckCardGroup.race := DeckCardGroup.race existing;
     DeckCardGroup.displayType := DeckCardGroup.displayType existing;
     DeckCardGroup.desc := DeckCardGroup.desc existing;
     DeckCardGroup.level := DeckCardGroup.level existing;
     DeckCardGroup.linkValue := DeckCardGroup.linkValue existing;
     DeckCardGroup.orderIndex := DeckCardGroup.orderIndex existing;
     DeckCardGroup.linkUrl := DeckCardGroup.linkUrl existing;
     DeckCardGroup.pointsPerCopy := DeckCardGroup.pointsPerCopy existing;
     DeckCardGroup.totalPoints := DeckCardGroup.totalPoints existing;
     DeckCardGroup.missingInfo := DeckCardGroup.missingInfo existing;
     DeckCardGroup.notInList := DeckCardGroup.notInList existing;
     DeckCardGroup.fullImage := DeckCardGroup.fullImage existing |}.

(** One round of the inner [forEach] over the [unique] map. *)
Definition blockedStep (unique : list (jsstring * DeckCardGroup.t))
    (card : DeckCardGroup.t) : list (jsstring * DeckCardGroup.t) :=
  if negb (isBlockedCard card) then unique
  else
    match omapGet (DeckCardGroup.name card) unique with
    | Some _ =>
        omapAlter (addCopies (DeckCardGroup.count card))
          (DeckCardGroup.name card) unique
    | None => omapSet (DeckCardGroup.name card) (blockedEntry card) unique
    end.

(** [blockedCards] *)
Definition blockedCards (groups : option DeckGroups) : list DeckCardGroup.t :=
  match groups with
  | None => []
  | Some g =>
      sortBy
        (fun a b => localeCompare (DeckCardGroup.name a) (DeckCardGroup.name b))
        (omapValues
           (fold_left blockedStep
              (mainGroups g ++ extraGroups g ++ sideGroups g) []))
  end.

(** [blockedCardTotalCount] *)
Definition blockedCardTotalCount (groups : option DeckGroups) : Z :=
  fold_left (fun sum card => sum + DeckCardGroup.count card)
    (blockedCards groups) 0.

(** ** [src/App.tsx]: the saved decks *)

(** [array.findIndex(p)], [-1] when no element passes. *)
Fixpoint findIndexFrom {A} (p : A -> bool) (l : list A) (i : Z) : Z :=
  match l with
  | [] => -1
  | x :: r => if p x then i else findIndexFrom p r (i + 1)
  end.

Definition findIndex {A} (p : A -> bool) (l : list A) : Z :=
  findIndexFrom p l 0.

Definition DEFAULT_FOLDER_ID : jsstring := js "folder-default".
Definition DEFAULT_FOLDER_NAME : jsstring := js "Unsorted".

(** [createFolder(name, id, decks)], with the id given. *)
Definition createFolder (name id : jsstring) (decks : list SavedDeckEntry.t)
    : SavedDeckFolder.t :=
  {| SavedDeckFolder.id := id;
     SavedDeckFolder.name := name;
     SavedDeckFolder.decks := decks |}.

Definition ensureFolders (folders : list SavedDeckFolder.t)
    : list SavedDeckFolder.t :=
  if 0 <? Z.of_nat (length folders) then folders
  else [createFolder DEFAULT_FOLDER_NAME DEFAULT_FOLDER_ID []].

(** The state after [setSavedFoldersAndPersist(producer)]. *)
Definition setSavedFoldersAndPersist
    (producer : list SavedDeckFolder.t -> list SavedDeckFolder.t)
    (prev : list SavedDeckFolder.t) : list SavedDeckFolder.t :=
  ensureFolders (producer (ensureFolders prev)).

(** [{ ...folder, decks }] *)
Definition withDecks (folder : SavedDeckFolder.t)
    (decks : list SavedDeckEntry.t) : SavedDeckFolder.t :=
  {| SavedDeckFolder.id := SavedDeckFolder.id folder;
     SavedDeckFolder.name := SavedDeckFolder.name folder;
     SavedDeckFolder.decks := decks |}.

(** [folder.id === folderId] *)
Definition hasFolderId (folderId : jsstring) (folder : SavedDeckFolder.t)
    : bool :=
  bool_decide (SavedDeckFolder.id folder = folderId).

(** [deck.id === deckId] *)
Definition hasDeckId (deckId : jsstring) (deck : SavedDeckEntry.t) : bool :=
  bool_decide (SavedDeckEntry.id deck = deckId).

(** The entry that [handleSaveDeck] builds; [newId] and [savedAt] are
    the id and the time stamp drawn for it. *)
Definition savedEntry (deckInput name newId savedAt : jsstring)
    (breakdown : Z * Z * Z) (total : Z) : SavedDeckEntry.t :=
  let '(mainCount, extraCount, sideCount) := breakdown in
  {| SavedDeckEntry.id := newId;
     SavedDeckEntry.name :=
       if isEmpty (trim name) then js "Untitled deck" else trim name;
     SavedDeckEntry.deck := trim deckInput;
     SavedDeckEntry.savedAt := savedAt;
     SavedDeckEntry.summary :=
       Some {| SavedDeckSummary.main := mainCount;
               SavedDeckSummary.extra := extraCount;
               SavedDeckSummary.side := sideCount;
               SavedDeckSummary.points := Some total;
               SavedDeckSummary.version := None |} |}.

(** The producer of [handleSaveDeck].  The folder at [targetIndex]
    always exists; the last branch stands for the access that cannot
    fail. *)
Definition saveDeckProducer (entry : SavedDeckEntry.t)
    (folderId : option jsstring) (prev : list SavedDeckFolder.t)
    : list SavedDeckFolder.t :=
  let found :=
    match folderId with
    | Some fid => if isEmpty fid then -1 else findIndex (hasFolderId fid) prev
    | None => -1
    end in
  let next :=
    if (found <? 0) && Nat.eqb (length prev) 0
    then prev ++ [createFolder DEFAULT_FOLDER_NAME DEFAULT_FOLDER_ID []]
    else prev in
  let targetIndex := if found <? 0 then 0 else found in
  match next !! Z.to_nat targetIndex with
  | Some folder =>
      <[Z.to_nat targetIndex :=
          withDecks folder (take 200 (entry :: SavedDeckFolder.decks folder))]>
        next
  | None => next
  end.

Definition handleSaveDeck (deckInput name : jsstring)
    (folderId : option jsstring) (newId savedAt : jsstring)
    (breakdown : Z * Z * Z) (total : Z)
    (savedFolders : list SavedDeckFolder.t) : list SavedDeckFolder.t :=
  if isEmpty (trim deckInput) then savedFolders
  else
    setSavedFoldersAndPersist
      (saveDeckProducer
         (savedEntry deckInput name newId savedAt breakdown total) folderId)
      savedFolders.

(** [array.splice(index, 0, item)] and [array.splice(index, 1)]. *)
Definition insertAt {A} (index : nat) (item : A) (l : list A) : list A :=
  take index l ++ item :: drop index l.

Definition removeAt {A} (index : nat) (l : list A) : list A :=
  take index l ++ drop (S index) l.

(** [arrayMove] of [@dnd-kit/sortable]. *)
Variable arrayMove :
  list SavedDeckEntry.t -> Z -> Z -> list SavedDeckEntry.t.

(** The producer of [handleMoveSavedDeck]; [find] returns the first
    folder of an id, which is the one that is changed. *)
Definition moveDeckProducer (sourceFolderId deckId targetFolderId : jsstring)
    (targetIndex : Z) (prev : list SavedDeckFolder.t)
    : list SavedDeckFolder.t :=
  let sourceAt := findIndex (hasFolderId sourceFolderId) prev in
  let targetAt := findIndex (hasFolderId targetFolderId) prev in
  match prev !! Z.to_nat sourceAt, prev !! Z.to_nat targetAt with
  | Some sourceFolder, Some targetFolder =>
      if (sourceAt <? 0) || (targetAt <? 0) then prev
      else
        let sourceIndex :=
          findIndex (hasDeckId deckId) (SavedDeckFolder.decks sourceFolder) in
        if sourceIndex =? -1 then prev
        else if bool_decide (sourceFolderId = targetFolderId) then
          let boundedIndex :=
            Z.max 0
              (Z.min targetIndex
                 (Z.of_nat (length (SavedDeckFolder.decks sourceFolder)) - 1)) in
          <[Z.to_nat sourceAt :=
              withDecks sourceFolder
                (arrayMove (SavedDeckFolder.decks sourceFolder) sourceIndex
                   boundedIndex)]> prev
        else
          match SavedDeckFolder.decks sourceFolder !! Z.to_nat sourceIndex with
          | Some deckToMove =>
              let insertIndex :=
                Z.max 0
                  (Z.min targetIndex
                     (Z.of_nat (length (SavedDeckFolder.decks targetFolder)))) in
              <[Z.to_nat targetAt :=
                  withDecks targetFolder
                    (insertAt (Z.to_nat insertIndex) deckToMove
                       (SavedDeckFolder.decks targetFolder))]>
                (<[Z.to_nat sourceAt :=
                     withDecks sourceFolder
                       (removeAt (Z.to_nat sourceIndex)
                          (SavedDeckFolder.decks sourceFolder))]> prev)
          | None => prev
          end
  | _, _ => prev
  end.

Definition handleMoveSavedDeck (sourceFolderId deckId targetFolderId : jsstring)
    (targetIndex : Z) (savedFolders : list SavedDeckFolder.t)
    : list SavedDeckFolder.t :=
  setSavedFoldersAndPersist
    (moveDeckProducer sourceFolderId deckId targetFolderId targetIndex)
    savedFolders.

(** The producer of [handleDeleteFolder]. *)
Definition deleteFolderProducer (folderId : jsstring)
    (prev : list SavedDeckFolder.t) : list SavedDeckFolder.t :=
  if Z.of_nat (length prev) <=? 1 then prev
  else
    match List.find (hasFolderId folderId) prev with
    | None => prev
    | Some folder =>
        if 0 <? Z.of_nat (length (SavedDeckFolder.decks folder)) then prev
        else List.filter (fun entry => negb (hasFolderId folderId entry)) prev
    end.

Definition handleDeleteFolder (folderId : jsstring)
    (savedFolders : list SavedDeckFolder.t) : list SavedDeckFolder.t :=
  setSavedFoldersAndPersist (deleteFolderProducer folderId) savedFolders.

(** The producer of [handleCreateFolder]; [freshId] is the id that
    [generateFolderId] returns. *)
Definition createFolderProducer (freshId trimmed : jsstring)
    (prev : list SavedDeckFolder.t) : list SavedDeckFolder.t :=
  if existsb
       (fun folder =>
          bool_decide (toLowerCase (SavedDeckFolder.name folder)
                       = toLowerCase trimmed))
       prev
  then prev
  else prev ++ [createFolder trimmed freshId []].

Definition handleCreateFolder (freshId name : jsstring)
    (savedFolders : list SavedDeckFolder.t) : list SavedDeckFolder.t :=
  let trimmed := trim name in
  if isEmpty trimmed then savedFolders
  else setSavedFoldersAndPersist (createFolderProducer freshId trimmed)
         savedFolders.

(** The decks of all folders, folder after folder. *)
Definition allDecks (folders : list SavedDeckFolder.t)
    : list SavedDeckEntry.t :=
  concat (map SavedDeckFolder.decks folders).

(** The name of a folder as [handleCreateFolder] compares it. *)
Definition folderKey (folder : SavedDeckFolder.t) : jsstring :=
  toLowerCase (SavedDeckFolder.name folder).

(** [arrayMove] as the library implements it, the instance at which the
    statements about moving a deck are evaluated. *)
Definition arrayMoveList (decks : list SavedDeckEntry.t) (from to : Z)
    : list SavedDeckEntry.t :=
  match decks !! Z.to_nat from with
  | Some deck =>
      insertAt
        (Z.to_nat (if to <? 0 then Z.of_nat (length decks) + to else to))
        deck (removeAt (Z.to_nat from) decks)
  | None => decks
  end.

(** Two folders with three saved decks, for the examples. *)
Definition sampleEntry (id name : string) : SavedDeckEntry.t :=
  {| SavedDeckEntry.id := js id;
     SavedDeckEntry.name := js name;
     SavedDeckEntry.deck := js "ydke://AQAAAA==!!";
     SavedDeckEntry.savedAt := js "2025-01-01T00:00:00.000Z";
     SavedDeckEntry.summary := None |}.

Definition sampleFolders : list SavedDeckFolder.t :=
  [ {| SavedDeckFolder.id := js "folder-default";
       SavedDeckFolder.name := js "Unsorted";
       SavedDeckFolder.decks := [sampleEntry "d1" "One"; sampleEntry "d2" "Two"] |};
    {| SavedDeckFolder.id := js "folder-a";
       SavedDeckFolder.name := js "Meta";
       SavedDeckFolder.decks := [sampleEntry "d3" "Three"] |};
    {| SavedDeckFolder.id := js "folder-b";
       SavedDeckFolder.name := js "Empty";
       SavedDeckFolder.decks := [] |} ].

(** ** [src/components/MissingIdResolver.tsx]: the selection *)

(** [handleAddCard]: the selection never grows past [missingCount]. *)
Definition handleAddCard (missingCount : nat) (card : CardDetails.t)
    (prev : list CardDetails.t) : list CardDetails.t :=
  if (missingCount <=? length prev)%nat then prev else prev ++ [card].

(** The effect that clamps the selection when [missingCount] shrinks. *)
Definition clampSelection (missingCount : nat) (prev : list CardDetails.t)
    : list CardDetails.t :=
  if (length prev <=? missingCount)%nat then prev
  else take missingCount prev.

(** The loop of [handleRemoveSingle]: [index] runs from [steps - 1] down
    to 0 and stops at the first card of the id; [-1] when there is
    none. *)
Fixpoint searchDown (cardId : Z) (copy : list CardDetails.t) (steps : nat)
    : Z :=
  match steps with
  | O => -1
  | S index =>
      match copy !! index with
      | Some c =>
          if CardDetails.id c =? cardId then Z.of_nat index
          else searchDown cardId copy index
      | None => searchDown cardId copy index
      end
  end.

Definition handleRemoveSingle (cardId : Z) (prev : list CardDetails.t)
    : list CardDetails.t :=
  let targetIndex := searchDown cardId prev (length prev) in
  if targetIndex =? -1 then prev
  else removeAt (Z.to_nat targetIndex) prev.

(** One round of [selectedCards.forEach] over the [grouped] map. *)
Definition summaryStep (grouped : list (Z * MissingReplacementPick))
    (c : CardDetails.t) : list (Z * MissingReplacementPick) :=
  match omapGet (CardDetails.id c) grouped with
  | Some _ =>
      omapAlter
        (fun existing =>
           {| card := card existing; pickCount := pickCount existing + 1 |})
        (CardDetails.id c) grouped
  | None =>
      omapSet (CardDetails.id c) {| card := c; pickCount := 1 |} grouped
  end.

(** [selectedSummary] *)
Definition selectedSummary (selectedCards : list CardDetails.t)
    : list MissingReplacementPick :=
  omapValues (fold_left summaryStep selectedCards []).

(** [remainingSlots] *)
Definition remainingSlots (missingCount : nat)
    (selectedCards : list CardDetails.t) : Z :=
  Z.max (Z.of_nat missingCount - Z.of_nat (length selectedCards)) 0.

(** [handleConfirm]: what is handed to [onResolve], if anything. *)
Definition handleConfirm (missingCount : nat)
    (selectedCards : list CardDetails.t)
    : option (list MissingReplacementPick) :=
  if Nat.eqb (length (selectedSummary selectedCards)) 0
     || Nat.eqb missingCount 0
  then None
  else Some (selectedSummary selectedCards).

(** A string of white space only. *)
Definition blank (s : jsstring) : Prop :=
  Forall (fun c => isWhiteSpace c = true) s.

(** ** [src/lib/ygoprodeck.ts] *)

Definition CHUNK_SIZE : nat := 40.

(** [card_images?.[0]] *)
Definition firstImage (c : ApiCard.t) : option ApiCardImage.t :=
  ApiCard.card_images c ≫= head.

Definition adaptApiCard (c : ApiCard.t) : CardDetails.t :=
  {| CardDetails.id := ApiCard.id c;
     CardDetails.name := ApiCard.name c;
     CardDetails.type := ApiCard.type c;
     CardDetails.race := ApiCard.race c;
     CardDetails.level := ApiCard.level c;
     CardDetails.linkValue := ApiCard.linkval c;
     CardDetails.desc := ApiCard.desc c;
     CardDetails.image :=
       orElse (firstImage c ≫= ApiCardImage.image_url_small)
         (firstImage c ≫= ApiCardImage.image_url);
     CardDetails.imageCropped :=
       orElse (firstImage c ≫= ApiCardImage.image_url_cropped)
         (firstImage c ≫= ApiCardImage.image_url);
     CardDetails.ygoprodeckUrl := ApiCard.ygoprodeck_url c |}.

(** The loop that cuts [unique] into chunks; it runs at most once per
    element. *)
Fixpoint chunksLoop (fuel : nat) (unique : list Z) : list (list Z) :=
  match fuel with
  | O => []
  | S fuel' =>
      match unique with
      | [] => []
      | _ => take CHUNK_SIZE unique
             :: chunksLoop fuel' (drop CHUNK_SIZE unique)
      end
  end.

Definition chunksOf (unique : list Z) : list (list Z) :=
  chunksLoop (length unique) unique.

(** The answer of the card database to the request for the ids of a
    chunk. *)
Variable fetchIds : list Z -> FetchOutcome.

(** [fetchChunk]; [None] when [fuel] recursive calls do not suffice. *)
Fixpoint fetchChunk (fuel : nat) (chunk : list Z)
    : option (Attempt (list ApiCard.t)) :=
  match fuel with
  | O => None
  | S fuel' =>
      let halves :=
        let midpoint := ((length chunk + 1) / 2)%nat in
        match fetchChunk fuel' (take midpoint chunk) with
        | Some (Done leftCards) =>
            match fetchChunk fuel' (drop midpoint chunk) with
            | Some (Done rightCards) => Some (Done (leftCards ++ rightCards))
            | other => other
            end
        | other => other
        end in
      match fetchIds chunk with
      | FetchData data => Some (Done (default [] data))
      | FetchNotOk =>
          if Nat.eqb (length chunk) 1 then Some (Done []) else halves
      | FetchThrew =>
          if Nat.eqb (length chunk) 1 then Some (Raised (default 0 (head chunk)))
          else halves
      end
  end.

(** [cards.forEach((card) => resolved[card.id] = adaptApiCard(card))] *)
Definition storeCards (resolved : gmap Z CardDetails.t)
    (cards : list ApiCard.t) : gmap Z CardDetails.t :=
  fold_left (fun m c => <[ApiCard.id c := adaptApiCard c]> m) cards resolved.

(** The loop over the chunks of [fetchCardsByIds]; the chunks are not
    empty, and [fetchChunk] is through with a chunk of [n >= 1] ids after
    at most [n] nested calls. *)
Fixpoint fetchChunks (chunks : list (list Z)) (resolved : gmap Z CardDetails.t)
    : option (Attempt (gmap Z CardDetails.t)) :=
  match chunks with
  | [] => Some (Done resolved)
  | chunk :: rest =>
      match fetchChunk (length chunk) chunk with
      | Some (Done cards) => fetchChunks rest (storeCards resolved cards)
      | Some (Raised cardId) => Some (Raised cardId)
      | None => None
      end
  end.

Definition fetchCardsByIds (ids : list Z)
    : option (Attempt (gmap Z CardDetails.t)) :=
  let unique := setOf (List.filter (fun id => 0 <? id) ids) in
  if Nat.eqb (length unique) 0 then Some (Done ∅)
  else fetchChunks (chunksOf unique) ∅.

(** A card database that answers a request when it knows every id of
    it, with the cards in the order of the request, and refuses the
    request otherwise. *)
Definition allOrNothing (known : Z -> option ApiCard.t) : Prop :=
  (forall id c, known id = Some c -> ApiCard.id c = id)
  /\ (forall request,
         fetchIds request
         = if forallb (fun id => isSome (known id)) request
           then FetchData (Some (omap known request))
           else FetchNotOk).

(** A card database of two cards, and one that cannot be reached, for
    the examples. *)
Definition sampleApiCard (id : Z) (name : string) : ApiCard.t :=
  {| ApiCard.id := id;
     ApiCard.name := js name;
     ApiCard.type := Some (js "Effect Monster");
     ApiCard.race := None;
     ApiCard.level := Some 4;
     ApiCard.linkval := None;
     ApiCard.desc := None;
     ApiCard.ygoprodeck_url := None;
     ApiCard.card_images := None;
     ApiCard.misc_info := None |}.

Definition sampleKnown (id : Z) : option ApiCard.t :=
  if id =? 5 then Some (sampleApiCard 5 "Alpha")
  else if id =? 7 then Some (sampleApiCard 7 "Beta")
  else None.

Definition sampleFetch (request : list Z) : FetchOutcome :=
  if forallb (fun id => isSome (sampleKnown id)) request
  then FetchData (Some (omap sampleKnown request))
  else FetchNotOk.

Definition offlineFetch (request : list Z) : FetchOutcome := FetchThrew.


(* ================================================================ *)
(** * The order of the groups of a section *)
(* ================================================================ *)

(** ** What the standard asks of [Array.prototype.sort] *)

(** The standard fixes the order that [sort] returns only when the
    comparator is a consistent comparison function for the elements of
    the array; otherwise the order is left to the engine.  With a
    comparator that is antisymmetric in sign, as the ones below are,
    consistency is the transitivity of [compare a b <= 0]. *)
Definition consistentOn {A} (compare : A -> A -> Z) (l : list A) : bool :=
  forallb
    (fun a =>
       forallb
         (fun b =>
            forallb
              (fun c =>
                 implb ((compare a b <=? 0) && (compare b c <=? 0))
                   (compare a c <=? 0))
              l)
         l)
    l.

(** The last tests of [compareCards], on the two records that
    [getSortMeta] returns. *)
Definition compareMeta (metaA metaB : SortMeta.t) : Z :=
  if negb (SortMeta.priority metaA =? SortMeta.priority metaB)
  then SortMeta.priority metaA - SortMeta.priority metaB
  else if negb (SortMeta.sub metaA =? SortMeta.sub metaB)
  then SortMeta.sub metaA - SortMeta.sub metaB
  else if SortMeta.sortByLevel metaA && SortMeta.sortByLevel metaB
          && negb (SortMeta.level metaA =? SortMeta.level metaB)
  then SortMeta.level metaB - SortMeta.level metaA
  else
    let nameCompare :=
      localeCompare (SortMeta.name metaA) (SortMeta.name metaB) in
    if negb (nameCompare =? 0) then nameCompare
    else SortMeta.order metaA - SortMeta.order metaB.

(** [card.orderIndex ?? Number.MAX_SAFE_INTEGER] *)
Definition indexKey (card : DeckCardGroup.t) : Z :=
  default MAX_SAFE_INTEGER (DeckCardGroup.orderIndex card).

(** What the merge pass keeps of [orderIndex], for an entry of the
    [merged] map once the raw groups [done] have gone in: the index is
    the least one of the raw groups with the key of the entry. *)
Definition mergedIndexOk (zone : DeckSection) (done : list DeckCardGroup.t)
    (entry : list Z * DeckCardGroup.t) : Prop :=
  fst entry = mergeKey (snd entry)
  /\ DeckCardGroup.zone (snd entry) = zone
  /\ isSome (DeckCardGroup.orderIndex (snd entry)) = true
  /\ (exists r, In r done /\ mergeKey r = fst entry
                /\ indexKey r = indexKey (snd entry))
  /\ (forall r, In r done -> mergeKey r = fst entry ->
                indexKey (snd entry) <= indexKey r).

(** [compareMeta metaA metaB <= 0] spelled out, for two records that
    agree on [sortByLevel] when they share a bucket: the order by
    priority, bucket, level descending (for the records sorted by
    level), name and index. *)
Definition effectiveLevel (meta : SortMeta.t) : Z :=
  if SortMeta.sortByLevel meta then SortMeta.level meta else 0.

Definition metaLe (metaA metaB : SortMeta.t) : Prop :=
  SortMeta.priority metaA < SortMeta.priority metaB
  \/ (SortMeta.priority metaA = SortMeta.priority metaB
      /\ (SortMeta.sub metaA < SortMeta.sub metaB
          \/ (SortMeta.sub metaA = SortMeta.sub metaB
              /\ (effectiveLevel metaB < effectiveLevel metaA
                  \/ (effectiveLevel metaA = effectiveLevel metaB
                      /\ (localeCompare (SortMeta.name metaA)
                            (SortMeta.name metaB) < 0
                          \/ (localeCompare (SortMeta.name metaA)
                                (SortMeta.name metaB) = 0
                              /\ SortMeta.order metaA
                                 <= SortMeta.order metaB))))))).

(** A record of [getSortMeta] with the level key switched off. *)
Definition withoutLevel (meta : SortMeta.t) : SortMeta.t :=
  {| SortMeta.priority := SortMeta.priority meta;
     SortMeta.sub := SortMeta.sub meta;
     SortMeta.level := SortMeta.level meta;
     SortMeta.sortByLevel := false;
     SortMeta.name := SortMeta.name meta;
     SortMeta.order := SortMeta.order meta |}.

(** ** The version of [src/src/App.tsx] *)

(** The file [src/src/App.tsx] holds a version of [App] without sort
    modes.  Its [getSortMeta] looks the card up again, puts the entries
    without an id first, takes for a monster whatever is neither spell
    nor trap, and ranks the spell and trap buckets differently; its
    [compareCards] has no level key; its groups have no [fullImage].
    [monsterPriority] is the same in both versions.  The definitions of
    this version carry a prime. *)

Definition spellPriority' (raceLabel : jsstring) : Z :=
  if includes (js "normal") raceLabel then 0
  else if includes (js "equip") raceLabel then 1
  else if includes (js "quick") raceLabel then 2
  else if includes (js "field") raceLabel then 3
  else if includes (js "ritual") raceLabel then 4
  else if includes (js "continuous") raceLabel then 5
  else 6.

Definition trapPriority' (raceLabel : jsstring) : Z :=
  if includes (js "normal") raceLabel then 0
  else if includes (js "counter") raceLabel then 1
  else if includes (js "continuous") raceLabel then 2
  else 3.

Definition getSortMeta' (card : DeckCardGroup.t) (zone : DeckSection)
    : SortMeta.t :=
  let info := cardDetails !! DeckCardGroup.id card in
  let typeLabel :=
    toLowerCase
      (default [] (orElse (info ≫= CardDetails.type)
                     (DeckCardGroup.type card))) in
  let raceLabel :=
    toLowerCase
      (default [] (orElse (info ≫= CardDetails.race)
                     (DeckCardGroup.race card))) in
  let levelValue :=
    default 0
      (orElse (orElse (orElse (info ≫= CardDetails.level)
                         (DeckCardGroup.level card))
                 (info ≫= CardDetails.linkValue))
         (DeckCardGroup.linkValue card)) in
  let name := toLowerCase (DeckCardGroup.name card) in
  let order := default MAX_SAFE_INTEGER (DeckCardGroup.orderIndex card) in
  if DeckCardGroup.id card <=? 0 then
    {| SortMeta.priority := 0;
       SortMeta.sub := 0;
       SortMeta.level := 0;
       SortMeta.sortByLevel := false;
       SortMeta.name := name;
       SortMeta.order := order |}
  else
    let isSpell := includes (js "spell") typeLabel in
    let isTrap := includes (js "trap") typeLabel in
    let isMonster := negb isSpell && negb isTrap in
    if isMonster then
      {| SortMeta.priority := 1;
         SortMeta.sub := monsterPriority typeLabel zone;
         SortMeta.level := levelValue;
         SortMeta.sortByLevel := true;
         SortMeta.name := name;
         SortMeta.order := order |}
    else if isSpell then
      {| SortMeta.priority := 2;
         SortMeta.sub := spellPriority' raceLabel;
         SortMeta.level := 0;
         SortMeta.sortByLevel := false;
         SortMeta.name := name;
         SortMeta.order := order |}
    else if isTrap then
      {| SortMeta.priority := 3;
         SortMeta.sub := trapPriority' raceLabel;
         SortMeta.level := 0;
         SortMeta.sortByLevel := false;
         SortMeta.name := name;
         SortMeta.order := order |}
    else
      {| SortMeta.priority := 4;
         SortMeta.sub := 0;
         SortMeta.level := levelValue;
         SortMeta.sortByLevel := false;
         SortMeta.name := name;
         SortMeta.order := order |}.

Definition compareCards' (zone : DeckSection) (a b : DeckCardGroup.t) : Z :=
  let metaA := getSortMeta' a zone in
  let metaB := getSortMeta' b zone in
  if negb (SortMeta.priority metaA =? SortMeta.priority metaB)
  then SortMeta.priority metaA - SortMeta.priority metaB
  else if negb (SortMeta.sub metaA =? SortMeta.sub metaB)
  then SortMeta.sub metaA - SortMeta.sub metaB
  else
    let nameCompare :=
      localeCompare (SortMeta.name metaA) (SortMeta.name metaB) in
    if negb (nameCompare =? 0) then nameCompare
    else SortMeta.order metaA - SortMeta.order metaB.

(** A group of this version: the field [fullImage] is not there. *)
Definition withoutFullImage (card : DeckCardGroup.t) : DeckCardGroup.t :=
  {| DeckCardGroup.id := DeckCardGroup.id card;
     DeckCardGroup.name := DeckCardGroup.name card;
     DeckCardGroup.count := DeckCardGroup.count card;
     DeckCardGroup.zone := DeckCardGroup.zone card;
     DeckCardGroup.image := DeckCardGroup.image card;
     DeckCardGroup.type := DeckCardGroup.type card;
     DeckCardGroup.race := DeckCardGroup.race card;
     DeckCardGroup.displayType := DeckCardGroup.displayType card;
     DeckCardGroup.desc := DeckCardGroup.desc card;
     DeckCardGroup.level := DeckCardGroup.level card;
     DeckCardGroup.linkValue := DeckCardGroup.linkValue card;
     DeckCardGroup.orderIndex := DeckCardGroup.orderIndex card;
     DeckCardGroup.linkUrl := DeckCardGroup.linkUrl card;
     DeckCardGroup.pointsPerCopy := DeckCardGroup.pointsPerCopy card;
     DeckCardGroup.totalPoints := DeckCardGroup.totalPoints card;
     DeckCardGroup.missingInfo := DeckCardGroup.missingInfo card;
     DeckCardGroup.notInList := DeckCardGroup.notInList card;
     DeckCardGroup.fullImage := None |}.

Definition rawGroup' (zone : DeckSection) (entry : Z * CountEntry)
    : DeckCardGroup.t :=
  withoutFullImage (rawGroup zone entry).

(** [toGroup] of this version: the count pass and the merge pass are
    those of the other version, up to [fullImage]. *)
Definition toGroup' (ids : list Z) (zone : DeckSection)
    : list DeckCardGroup.t :=
  let counts := countPass ids in
  let rawGroups := map (rawGroup' zone) counts in
  let merged := mergePass rawGroups in
  sortBy (compareCards' zone) (omapValues merged).

(** The raw groups of both versions: the zone, the index and the name
    that they are built with. *)
Definition rawGroupsOf (zone : DeckSection)
    (f : Z * CountEntry -> DeckCardGroup.t) : Prop :=
  forall entry,
    DeckCardGroup.zone (f entry) = zone
    /\ DeckCardGroup.orderIndex (f entry) = Some (firstIndex (snd entry))
    /\ DeckCardGroup.name (f entry) = displayNameOf (fst entry).

(** ** The order in the words of the specification *)

(** The keys of the order are read off the card, not off the record of
    [getSortMeta]. *)
Inductive CardCategory := MonsterCard | SpellCard | TrapCard | OtherCard.

Definition cardTypeLabel (card : DeckCardGroup.t) : jsstring :=
  toLowerCase (default [] (DeckCardGroup.type card)).

Definition cardRaceLabel (card : DeckCardGroup.t) : jsstring :=
  toLowerCase (default [] (DeckCardGroup.race card)).

(** Monsters, spells, traps, and the entries that are none of them. *)
Definition categoryOf (card : DeckCardGroup.t) : CardCategory :=
  if includes (js "monster") (cardTypeLabel card) then MonsterCard
  else if includes (js "spell") (cardTypeLabel card) then SpellCard
  else if includes (js "trap") (cardTypeLabel card) then TrapCard
  else OtherCard.

Definition categoryRank (category : CardCategory) : Z :=
  match category with
  | MonsterCard => 0
  | SpellCard => 1
  | TrapCard => 2
  | OtherCard => 3
  end.

(** The bucket of a card inside its category. *)
Definition bucketOf (zone : DeckSection) (card : DeckCardGroup.t) : Z :=
  match categoryOf card with
  | MonsterCard =>
      monsterPriority (cardTypeLabel card ++ js " " ++ cardRaceLabel card) zone
  | SpellCard => spellPriority (cardRaceLabel card)
  | TrapCard => trapPriority (cardRaceLabel card)
  | OtherCard => 0
  end.

(** The monsters that are sorted by level: all but Link and Xyz
    monsters. *)
Definition levelSorted (card : DeckCardGroup.t) : bool :=
  match categoryOf card with
  | MonsterCard =>
      negb (includes (js "link") (cardTypeLabel card)
            || includes (js "xyz") (cardTypeLabel card))
  | _ => false
  end.

Definition levelOf (card : DeckCardGroup.t) : Z :=
  default 0 (DeckCardGroup.level card).

Definition nameKey (card : DeckCardGroup.t) : jsstring :=
  toLowerCase (DeckCardGroup.name card).

(** The first index of the section at which a card of the group stands:
    an id whose display name normalizes to that of the group. *)
Definition sameName (card : DeckCardGroup.t) (id : Z) : bool :=
  bool_decide (normalizeCardName (displayNameOf id)
               = normalizeCardName (DeckCardGroup.name card)).

Definition firstOccurrence (ids : list Z) (card : DeckCardGroup.t) : Z :=
  findIndex (sameName card) ids.

(** By name ascending, then by first occurrence. *)
Definition byNameThenIndex (ids : list Z) (a b : DeckCardGroup.t) : Prop :=
  localeCompare (nameKey a) (nameKey b) < 0
  \/ (localeCompare (nameKey a) (nameKey b) = 0
      /\ firstOccurrence ids a < firstOccurrence ids b).

(** Two level-sorted monsters of different levels. *)
Definition byLevel (a b : DeckCardGroup.t) : Prop :=
  levelSorted a = true /\ levelSorted b = true /\ levelOf a <> levelOf b.

(** The structural order of [src/unnamed/part_002]: [a] stands before
    [b] when its category comes first; or, in the same category, its
    bucket comes first; or, in the same bucket, when both are
    level-sorted monsters of different levels, its level is the higher
    one, and otherwise when it comes first by name, then by first
    occurrence. *)
Definition structuralBefore (zone : DeckSection) (ids : list Z)
    (a b : DeckCardGroup.t) : Prop :=
  categoryRank (categoryOf a) < categoryRank (categoryOf b)
  \/ (categoryOf a = categoryOf b
      /\ (bucketOf zone a < bucketOf zone b
          \/ (bucketOf zone a = bucketOf zone b
              /\ ((byLevel a b /\ levelOf b < levelOf a)
                  \/ (~ byLevel a b /\ byNameThenIndex ids a b))))).

(** The order as the specification words it: category, bucket, name,
    first occurrence, whatever the levels. *)
Definition claimedBefore (zone : DeckSection) (ids : list Z)
    (a b : DeckCardGroup.t) : Prop :=
  categoryRank (categoryOf a) < categoryRank (categoryOf b)
  \/ (categoryOf a = categoryOf b
      /\ (bucketOf zone a < bucketOf zone b
          \/ (bucketOf zone a = bucketOf zone b
              /\ byNameThenIndex ids a b))).

(** No bucket holds a level-sorted monster together with a Link or Xyz
    monster: then [compareCards] is consistent, if [localeCompare]
    is. *)
Definition bucketsUniform (zone : DeckSection) (l : list DeckCardGroup.t)
    : bool :=
  forallb
    (fun a =>
       forallb
         (fun b =>
            implb
              ((categoryRank (categoryOf a) =? categoryRank (categoryOf b))
               && (bucketOf zone a =? bucketOf zone b))
              (Bool.eqb (levelSorted a) (levelSorted b)))
         l)
    l.

(** The keys of the version of [src/src/App.tsx]: the entries without
    an id come first, and a card that is neither spell nor trap is a
    monster; the labels are those of the card database, where it has
    the card. *)
Definition cardTypeLabel' (card : DeckCardGroup.t) : jsstring :=
  toLowerCase
    (default []
       (orElse (cardDetails !! DeckCardGroup.id card ≫= CardDetails.type)
          (DeckCardGroup.type card))).

Definition cardRaceLabel' (card : DeckCardGroup.t) : jsstring :=
  toLowerCase
    (default []
       (orElse (cardDetails !! DeckCardGroup.id card ≫= CardDetails.race)
          (DeckCardGroup.race card))).

Definition categoryOf' (card : DeckCardGroup.t) : CardCategory :=
  if DeckCardGroup.id card <=? 0 then OtherCard
  else if includes (js "spell") (cardTypeLabel' card) then SpellCard
  else if includes (js "trap") (cardTypeLabel' card) then TrapCard
  else MonsterCard.

Definition categoryRank' (category : CardCategory) : Z :=
  match category with
  | OtherCard => 0
  | MonsterCard => 1
  | SpellCard => 2
  | TrapCard => 3
  end.

Definition bucketOf' (zone : DeckSection) (card : DeckCardGroup.t) : Z :=
  match categoryOf' card with
  | OtherCard => 0
  | MonsterCard => monsterPriority (cardTypeLabel' card) zone
  | SpellCard => spellPriority' (cardRaceLabel' card)
  | TrapCard => trapPriority' (cardRaceLabel' card)
  end.

(** The order of [src/src/App.tsx]: category, bucket, name, first
    occurrence. *)
Definition structuralBefore' (zone : DeckSection) (ids : list Z)
    (a b : DeckCardGroup.t) : Prop :=
  categoryRank' (categoryOf' a) < categoryRank' (categoryOf' b)
  \/ (categoryOf' a = categoryOf' b
      /\ (bucketOf' zone a < bucketOf' zone b
          \/ (bucketOf' zone a = bucketOf' zone b
              /\ byNameThenIndex ids a b))).

(** Three monsters that share a bucket of the side deck: a Fusion
    monster of level 4, an Xyz monster and a Synchro monster of
    level 8. *)
Definition sideDetails : gmap Z CardDetails.t :=
  <[1 := sampleCard 1 "Alpha" "Fusion Monster" 4]>
    (<[2 := sampleCard 2 "Beta" "XYZ Monster" 4]>
       (<[3 := sampleCard 3 "Gamma" "Synchro Monster" 8]> ∅)).


(* ================================================================ *)
(** * What is assumed of the runtime services *)
(* ================================================================ *)

(** A statement below depends on one of these only if its [Proof using]
    names it. *)

(** On ASCII strings [toLowerCase] lowers the letters A-Z and keeps
    every other character. *)
Hypothesis toLowerCase_ascii :
  forall s : jsstring, Forall isAscii s -> toLowerCase s = map lowerAscii s.

(** [localeCompare] is antisymmetric in sign. *)
Hypothesis localeCompare_antisym :
  forall a b : jsstring,
    Z.sgn (localeCompare b a) = - Z.sgn (localeCompare a b).

(** Lower-casing a lower-cased string changes nothing. *)
Hypothesis toLowerCase_idempotent :
  forall s : jsstring, toLowerCase (toLowerCase s) = toLowerCase s.

(** Lower-casing neither makes nor removes white space: a string that
    [trim] and the collapse of white space leave alone stays so. *)
Hypothesis toLowerCase_spacing :
  forall s : jsstring,
    trim s = s -> collapseWhitespace s = s ->
    trim (toLowerCase s) = toLowerCase s
    /\ collapseWhitespace (toLowerCase s) = toLowerCase s.

(** pako returns the compressed stream as a [Uint8Array]. *)
Hypothesis gzip_bytes : forall s : jsstring, Forall isByte (gzip s).

(** Compression is lossless: inflating the compressed form of an ASCII
    string and decoding the bytes as text gives the string back. *)
Hypothesis ungzip_gzip :
  forall s : jsstring,
    Forall isAscii s ->
    exists text, ungzip (gzip s) = Some text /\ textDecode text = s.

(** [arrayMove] returns the elements it was given, in another order. *)
Hypothesis arrayMove_perm :
  forall (decks : list SavedDeckEntry.t) (from to : Z),
    Permutation (arrayMove decks from to) decks.

(** Propositional and arithmetic steps in which the runtime services and
    the application state play no part put them aside first, so that no
    lemma comes to depend on a service it does not mention. *)
Ltac clear_runtime :=
  try clear toLowerCase_ascii; try clear toLowerCase_idempotent;
  try clear toLowerCase_spacing; try clear localeCompare_antisym;
  try clear gzip_bytes; try clear ungzip_gzip;
  try clear toLowerCase; try clear localeCompare; try clear gzip;
  try clear ungzip; try clear textDecode; try clear genesysCards;
  try clear cardDetails; try clear cardSortMode; try clear Number;
  try clear arrayMove_perm; try clear arrayMove; try clear fetchIds.

Ltac pure_tauto := clear_runtime; tauto.



(* ================================================================ *)
(** * Facts about strings *)
(* ================================================================ *)

Lemma list_ind3 {A} (P : list A -> Prop) :
  P [] -> (forall a, P [a]) -> (forall a b, P [a; b]) ->
  (forall a b c l, P l -> P (a :: b :: c :: l)) ->
  forall l, P l.
Proof.
  intros H0 H1 H2 H3 l.
  assert (H : P l /\ (forall a, P (a :: l)) /\ (forall a b, P (a :: b :: l))).
  { induction l as [| x l IH]; [auto |].
    destruct IH as (Hl & Hl1 & Hl2). repeat split; auto. }
  apply H.
Qed.

Lemma list_ind4 {A} (P : list A -> Prop) :
  P [] -> (forall a, P [a]) -> (forall a b, P [a; b]) ->
  (forall a b c, P [a; b; c]) ->
  (forall a b c d l, P l -> P (a :: b :: c :: d :: l)) ->
  forall l, P l.
Proof.
  intros H0 H1 H2 H3 H4 l.
  assert (H : P l /\ (forall a, P (a :: l)) /\ (forall a b, P (a :: b :: l))
              /\ (forall a b c, P (a :: b :: c :: l))).
  { induction l as [| x l IH]; [auto |].
    destruct IH as (Hl & Hl1 & Hl2 & Hl3). repeat split; auto. }
  apply H.
Qed.

Lemma filter_id_Forall {A} (f : A -> bool) (l : list A) :
  Forall (fun x => f x = true) l -> List.filter f l = l.
Proof.
  induction 1 as [| x l Hx _ IH]; simpl; [reflexivity |].
  rewrite Hx, IH. reflexivity.
Qed.

Lemma replaceChar_id x y (s : jsstring) :
  Forall (fun c => c <> x) s -> replaceChar x y s = s.
Proof.
  induction 1 as [| c s Hc _ IH]; simpl; [reflexivity |].
  fold (replaceChar x y s). rewrite IH.
  destruct (Z.eqb_spec c x); [contradiction | reflexivity].
Qed.

Lemma startsWith_app (p s : jsstring) : startsWith p (p ++ s) = true.
Proof.
  induction p as [| a p IH]; simpl; [reflexivity |].
  rewrite Z.eqb_refl, IH. reflexivity.
Qed.

Lemma indexOf_prefix (p s : jsstring) : indexOf p (p ++ s) = 0.
Proof.
  unfold indexOf. destruct (p ++ s) eqn:E; simpl;
    rewrite <- E, startsWith_app; reflexivity.
Qed.

Lemma split_no_sep sep (s : jsstring) :
  Forall (fun c => c <> sep) s -> split sep s = [s].
Proof.
  induction 1 as [| c s Hc _ IH]; simpl; [reflexivity |].
  destruct (Z.eqb_spec c sep); [contradiction |]. rewrite IH. reflexivity.
Qed.

Lemma split_app sep (a b : jsstring) :
  Forall (fun c => c <> sep) a ->
  split sep (a ++ sep :: b) = a :: split sep b.
Proof.
  induction 1 as [| c s Hc _ IH]; simpl.
  - rewrite Z.eqb_refl. reflexivity.
  - destruct (Z.eqb_spec c sep); [contradiction |]. rewrite IH. reflexivity.
Qed.


(* ================================================================ *)
(** * Base64: [atob] inverts [btoa] on bytes *)
(* ================================================================ *)

(** A boolean property checked on every integer below [n] holds below
    [n]. *)
Lemma forallb_below (P : Z -> bool) (n : nat) :
  forallb P (map Z.of_nat (seq 0 n)) = true ->
  forall i, 0 <= i < Z.of_nat n -> P i = true.
Proof.
  intros H i Hi. rewrite forallb_forall in H. apply H.
  apply in_map_iff. exists (Z.to_nat i). split; [lia |].
  apply in_seq. lia.
Qed.

Lemma b64index_b64char i :
  0 <= i < 64 -> b64index (b64char i) = Some i.
Proof.
  intros Hi.
  pose proof (forallb_below
    (fun i => match b64index (b64char i) with
              | Some j => j =? i
              | None => false
              end) 64 eq_refl i Hi) as H.
  simpl in H. destruct (b64index (b64char i)); [| discriminate].
  apply Z.eqb_eq in H. congruence.
Qed.

Lemma b64char_plain i : 0 <= i < 64 -> plainB64 (b64char i) = true.
Proof. exact (forallb_below (fun i => plainB64 (b64char i)) 64 eq_refl i). Qed.

Lemma plainB64_spec c :
  plainB64 c = true ->
  c <> 61 /\ c <> 45 /\ c <> 95 /\ c <> 33 /\ isWhiteSpace c = false
  /\ isAsciiWhitespace c = false /\ isAscii c.
Proof.
  unfold plainB64, isAscii. rewrite !andb_true_iff, !negb_true_iff.
  rewrite !Z.eqb_neq, Z.leb_le, Z.ltb_lt. pure_tauto.
Qed.

Ltac byte_arith :=
  clear_runtime; unfold isByte in *; Z.div_mod_to_equations; lia.

Lemma btoaCore_plain (bytes : list Z) :
  Forall isByte bytes -> Forall (fun c => plainB64 c = true) (btoaCore bytes).
Proof.
  induction bytes as [| a | a b | a b c rest IH] using list_ind3;
    intros H; simpl.
  - constructor.
  - inversion_clear H as [| ? ? Ha _].
    repeat constructor; apply b64char_plain; byte_arith.
  - inversion_clear H as [| ? ? Ha H']. inversion_clear H' as [| ? ? Hb _].
    repeat constructor; apply b64char_plain; byte_arith.
  - inversion_clear H as [| ? ? Ha H']. inversion_clear H' as [| ? ? Hb H''].
    inversion_clear H'' as [| ? ? Hc Hrest].
    repeat (constructor; [apply b64char_plain; byte_arith |]).
    apply IH, Hrest.
Qed.

Lemma btoa_core_padding (bytes : list Z) :
  btoa bytes = btoaCore bytes ++ btoaPadding bytes.
Proof.
  unfold btoaPadding.
  induction bytes as [| a | a b | a b c rest IH] using list_ind3;
    try reflexivity.
  change (btoa (a :: b :: c :: rest))
    with (b64char (a / 4) :: b64char (a mod 4 * 16 + b / 16)
          :: b64char (b mod 16 * 4 + c / 64) :: b64char (c mod 64)
          :: btoa rest).
  rewrite IH. simpl btoaCore. simpl length.
  replace (S (S (S (length rest))) mod 3)%nat with (length rest mod 3)%nat.
  - reflexivity.
  - change (S (S (S (length rest)))) with (3 + length rest)%nat.
    symmetry. rewrite Nat.add_comm.
    replace (length rest + 3)%nat with (length rest + 1 * 3)%nat by lia.
    apply Nat.Div0.mod_add.
Qed.

(** The length of the unpadded encoding is never one more than a
    multiple of 4, and padding fills it up to a multiple of 4. *)
Lemma btoaCore_length (bytes : list Z) :
  Z.of_nat (length (btoaCore bytes)) mod 4 <> 1
  /\ btoaCore bytes
     ++ replicate
          (Z.to_nat ((4 - Z.of_nat (length (btoaCore bytes)) mod 4) mod 4)) 61
     = btoa bytes.
Proof.
  induction bytes as [| a | a b | a b c rest IH] using list_ind3;
    try (split; [discriminate | reflexivity]).
  destruct IH as [IH1 IH2].
  change (btoa (a :: b :: c :: rest))
    with (b64char (a / 4) :: b64char (a mod 4 * 16 + b / 16)
          :: b64char (b mod 16 * 4 + c / 64) :: b64char (c mod 64)
          :: btoa rest).
  change (btoaCore (a :: b :: c :: rest))
    with (b64char (a / 4) :: b64char (a mod 4 * 16 + b / 16)
          :: b64char (b mod 16 * 4 + c / 64) :: b64char (c mod 64)
          :: btoaCore rest).
  assert (E : Z.of_nat (length (b64char (a / 4) :: b64char (a mod 4 * 16 + b / 16)
               :: b64char (b mod 16 * 4 + c / 64) :: b64char (c mod 64)
               :: btoaCore rest)) mod 4
              = Z.of_nat (length (btoaCore rest)) mod 4).
  { simpl length.
    replace (Z.of_nat (S (S (S (S (length (btoaCore rest)))))))
      with (Z.of_nat (length (btoaCore rest)) + 1 * 4) by lia.
    apply Z.mod_add. lia. }
  rewrite E. split; [exact IH1 |].
  rewrite <- IH2. reflexivity.
Qed.

Lemma btoa_length (bytes : list Z) :
  Z.of_nat (length (btoa bytes)) mod 4 = 0.
Proof.
  induction bytes as [| a | a b | a b c rest IH] using list_ind3;
    try reflexivity.
  change (btoa (a :: b :: c :: rest))
    with (b64char (a / 4) :: b64char (a mod 4 * 16 + b / 16)
          :: b64char (b mod 16 * 4 + c / 64) :: b64char (c mod 64)
          :: btoa rest).
  simpl length.
  replace (Z.of_nat (S (S (S (S (length (btoa rest)))))))
    with (Z.of_nat (length (btoa rest)) + 1 * 4) by lia.
  rewrite Z.mod_add by lia. exact IH.
Qed.

(** Decoding the characters of the unpadded encoding gives the bytes
    back. *)
Lemma sextets_btoaCore (bytes : list Z) :
  Forall isByte bytes ->
  exists l, sextets (btoaCore bytes) = Some l /\ bytesOfSextets l = bytes.
Proof.
  induction bytes as [| a | a b | a b c rest IH] using list_ind3; intros H.
  - exists []. split; reflexivity.
  - inversion_clear H as [| ? ? Ha _].
    exists [a / 4; a mod 4 * 16]. split.
    + simpl. rewrite !b64index_b64char by byte_arith. reflexivity.
    + simpl. f_equal. byte_arith.
  - inversion_clear H as [| ? ? Ha H']. inversion_clear H' as [| ? ? Hb _].
    exists [a / 4; a mod 4 * 16 + b / 16; b mod 16 * 4]. split.
    + simpl. rewrite !b64index_b64char by byte_arith. reflexivity.
    + simpl. f_equal; [| f_equal]; byte_arith.
  - inversion_clear H as [| ? ? Ha H']. inversion_clear H' as [| ? ? Hb H''].
    inversion_clear H'' as [| ? ? Hc Hrest].
    destruct (IH Hrest) as (l & Hl1 & Hl2).
    exists (a / 4 :: a mod 4 * 16 + b / 16 :: b mod 16 * 4 + c / 64
            :: c mod 64 :: l). split.
    + change (btoaCore (a :: b :: c :: rest))
        with (b64char (a / 4) :: b64char (a mod 4 * 16 + b / 16)
              :: b64char (b mod 16 * 4 + c / 64) :: b64char (c mod 64)
              :: btoaCore rest).
      simpl. rewrite !b64index_b64char by byte_arith.
      simpl in Hl1. rewrite Hl1. reflexivity.
    + change (bytesOfSextets (a / 4 :: a mod 4 * 16 + b / 16
                :: b mod 16 * 4 + c / 64 :: c mod 64 :: l))
        with ((a / 4 * 4 + (a mod 4 * 16 + b / 16) / 16)
              :: ((a mod 4 * 16 + b / 16) mod 16 * 16
                  + (b mod 16 * 4 + c / 64) / 4)
              :: ((b mod 16 * 4 + c / 64) mod 4 * 64 + c mod 64)
              :: bytesOfSextets l).
      rewrite Hl2. f_equal; [| f_equal; [| f_equal]]; byte_arith.
Qed.

Lemma rev_head_in {A} (x : list A) (y : A) (r : list A) :
  rev x = y :: r -> In y x.
Proof. intros E. apply in_rev. rewrite E. left. reflexivity. Qed.

Lemma stripPadding_padded (x : jsstring) (k : nat) :
  Forall (fun c => c <> 61) x -> (k <= 2)%nat ->
  Z.of_nat (length (x ++ replicate k 61)) mod 4 = 0 ->
  stripPadding (x ++ replicate k 61) = x.
Proof.
  intros Hx Hk Hlen. unfold stripPadding. rewrite Hlen. simpl.
  rewrite rev_app_distr.
  assert (Hhead : forall y r, rev x = y :: r -> (y =? 61) = false).
  { intros y r E. apply Z.eqb_neq.
    exact (proj1 (List.Forall_forall _ x) Hx y (rev_head_in x y r E)). }
  destruct k as [| [| [| k]]]; [| | | lia]; simpl.
  - rewrite app_nil_r.
    destruct (rev x) as [| y [| z r]] eqn:E; try reflexivity;
      rewrite (Hhead _ _ eq_refl); reflexivity.
  - destruct (rev x) as [| y r] eqn:E.
    + apply (f_equal (@rev Z)) in E. rewrite rev_involutive in E. auto.
    + rewrite (Hhead _ _ eq_refl). change (rev r ++ [y]) with (rev (y :: r)).
      rewrite <- E, rev_involutive. reflexivity.
  - rewrite rev_involutive. reflexivity.
Qed.

Lemma btoaPadding_short (bytes : list Z) :
  exists k, (k <= 2)%nat /\ btoaPadding bytes = replicate k 61.
Proof.
  unfold btoaPadding. eexists. split; [| reflexivity].
  pose proof (Nat.mod_upper_bound (3 - length bytes mod 3) 3). lia.
Qed.

Lemma Forall_plain_impl (P : Z -> Prop) (s : jsstring) :
  (forall c, plainB64 c = true -> P c) ->
  Forall (fun c => plainB64 c = true) s -> Forall P s.
Proof. intros HP. apply List.Forall_impl. exact HP. Qed.

(** [atob(btoa(bytes)) = bytes] for every byte sequence. *)
Lemma atob_btoa (bytes : list Z) :
  Forall isByte bytes -> atob (btoa bytes) = Some bytes.
Proof.
  intros Hb. unfold atob.
  pose proof (btoaCore_plain bytes Hb) as Hplain.
  destruct (btoaPadding_short bytes) as (k & Hk & Hpad).
  assert (Hfilter : List.filter (fun c => negb (isAsciiWhitespace c)) (btoa bytes)
                    = btoa bytes).
  { apply filter_id_Forall. rewrite btoa_core_padding, Hpad.
    apply Forall_app. split.
    - eapply Forall_plain_impl; [| exact Hplain].
      intros c Hc. apply plainB64_spec in Hc.
      destruct Hc as (_ & _ & _ & _ & _ & Hc & _). rewrite Hc. reflexivity.
    - apply Forall_forall. intros c Hc. apply elem_of_replicate in Hc.
      destruct Hc as [-> _]. reflexivity. }
  rewrite Hfilter.
  assert (Hstrip : stripPadding (btoa bytes) = btoaCore bytes).
  { pose proof (btoa_length bytes) as Hlen.
    rewrite btoa_core_padding, Hpad in Hlen. rewrite btoa_core_padding, Hpad.
    apply stripPadding_padded; [| exact Hk | exact Hlen].
    eapply Forall_plain_impl; [| exact Hplain].
    intros c Hc. apply plainB64_spec in Hc. pure_tauto. }
  rewrite Hstrip.
  destruct (btoaCore_length bytes) as [Hne _].
  destruct (Z.eqb_spec (Z.of_nat (length (btoaCore bytes)) mod 4) 1);
    [contradiction |].
  destruct (sextets_btoaCore bytes Hb) as (l & Hl1 & Hl2).
  rewrite Hl1. simpl. rewrite Hl2. reflexivity.
Qed.

Lemma toUint8_bytes (bytes : list Z) :
  Forall isByte bytes -> map toUint8 bytes = bytes.
Proof.
  induction 1 as [| b l Hb _ IH]; simpl; [reflexivity |].
  rewrite IH. unfold toUint8. rewrite Z.mod_small by exact Hb. reflexivity.
Qed.

Lemma fromCharCodeChunks_all (fuel : nat) (bytes : list Z) :
  (length bytes <= fuel)%nat -> fromCharCodeChunks fuel bytes = bytes.
Proof.
  revert bytes. induction fuel as [| fuel IH]; intros bytes Hlen.
  - destruct bytes; [reflexivity | cbn [length] in Hlen; lia].
  - change (fromCharCodeChunks (S fuel) bytes)
      with (match bytes with
            | [] => []
            | _ => take (Z.to_nat 0x8000) bytes
                   ++ fromCharCodeChunks fuel (drop (Z.to_nat 0x8000) bytes)
            end).
    destruct bytes as [| b rest]; [reflexivity |].
    rewrite IH.
    + apply take_drop.
    + rewrite length_drop. cbn [length] in Hlen |- *. lia.
Qed.

Lemma binaryString_id (bytes : list Z) : binaryString bytes = bytes.
Proof. apply fromCharCodeChunks_all. lia. Qed.

(** The standard encoding of a section decodes to its bytes. *)
Lemma base64ToBytes_standard (bytes : list Z) :
  Forall isByte bytes ->
  base64ToBytes (bytesToBase64Standard bytes) = Ok bytes.
Proof.
  intros Hb. unfold base64ToBytes, bytesToBase64Standard.
  rewrite binaryString_id.
  assert (Hplain : Forall (fun c => c <> 45 /\ c <> 95) (btoa bytes)).
  { rewrite btoa_core_padding. apply Forall_app. split.
    - eapply Forall_plain_impl; [| exact (btoaCore_plain bytes Hb)].
      intros c Hc. apply plainB64_spec in Hc. pure_tauto.
    - apply Forall_forall. intros c Hc. apply elem_of_replicate in Hc.
      destruct Hc as [-> _]. lia. }
  rewrite (replaceChar_id 45 43 (btoa bytes))
    by (eapply List.Forall_impl; [| exact Hplain]; simpl; pure_tauto).
  rewrite (replaceChar_id 95 47 (btoa bytes))
    by (eapply List.Forall_impl; [| exact Hplain]; simpl; pure_tauto).
  rewrite btoa_length. simpl. rewrite app_nil_r.
  rewrite (atob_btoa bytes Hb), (toUint8_bytes bytes Hb). reflexivity.
Qed.


(* ================================================================ *)
(** * The deck-code URI *)
(* ================================================================ *)

Lemma sectionBytes_bytes (ids : list Z) :
  Forall isByte (concat (map setUint32 ids)).
Proof.
  induction ids as [| id ids IH]; simpl; [constructor |].
  repeat (constructor; [unfold isByte; apply Z.mod_pos_bound; lia |]).
  exact IH.
Qed.

Lemma sectionBytes_length (ids : list Z) :
  Z.of_nat (length (concat (map setUint32 ids))) = 4 * Z.of_nat (length ids).
Proof.
  induction ids as [| id ids IH]; [reflexivity |].
  cbn [map concat]. rewrite length_app. cbn [setUint32 length]. lia.
Qed.

Lemma getUint32_setUint32 (id : Z) :
  isUint32 id ->
  getUint32 ((id mod 2 ^ 32) mod 256) ((id mod 2 ^ 32) / 256 mod 256)
    ((id mod 2 ^ 32) / 65536 mod 256) ((id mod 2 ^ 32) / 16777216 mod 256)
  = id.
Proof.
  unfold isUint32, getUint32. intros H.
  rewrite (Z.mod_small id (2 ^ 32)) by exact H.
  change (2 ^ 32) with 4294967296 in H.
  clear_runtime. Z.div_mod_to_equations. lia.
Qed.

(** Reading back the words of an encoded section gives its ids. *)
Lemma wordsOf_sectionBytes (ids : list Z) :
  Forall isUint32 ids -> wordsOf (concat (map setUint32 ids)) = ids.
Proof.
  induction 1 as [| id ids Hid _ IH]; [reflexivity |].
  cbn [map concat]. unfold setUint32 at 1. cbn [app wordsOf].
  rewrite IH, (getUint32_setUint32 id Hid). reflexivity.
Qed.

(** The loop of [decodeSection] pushes every word, zero or not. *)
Lemma decodeLoop_cards (bytes : list Z) :
  forall lastId hadInferred inferred acc,
    cards (decodeLoop bytes lastId hadInferred inferred acc)
    = acc ++ wordsOf bytes.
Proof.
  induction bytes as [| a | a b | a b c | a b c d rest IH] using list_ind4;
    intros lastId hadInferred inferred acc;
    try (simpl; rewrite app_nil_r; reflexivity).
  cbn [decodeLoop wordsOf].
  destruct ((getUint32 a b c d =? 0) && negb (lastId =? 0));
    [| destruct (negb (getUint32 a b c d =? 0))];
    rewrite IH, <- app_assoc; reflexivity.
Qed.

Lemma countZeros_cons (id : Z) (ids : list Z) :
  countZeros (id :: ids)
  = (if id =? 0 then 1 else 0) + countZeros ids.
Proof.
  unfold countZeros. simpl. destruct (id =? 0); simpl length; lia.
Qed.

(** The counter of the loop: with a card already seen every zero counts,
    before the first card only the zeros after it do. *)
Lemma decodeLoop_inferredCount (bytes : list Z) :
  forall lastId hadInferred inferred acc,
    inferredCount (decodeLoop bytes lastId hadInferred inferred acc)
    = inferred
      + (if lastId =? 0 then zerosAfterCard (wordsOf bytes)
         else countZeros (wordsOf bytes)).
Proof.
  induction bytes as [| a | a b | a b c | a b c d rest IH] using list_ind4;
    intros lastId hadInferred inferred acc;
    try (simpl; destruct (lastId =? 0); unfold zerosAfterCard, countZeros;
         simpl; lia).
  cbn [decodeLoop wordsOf]. unfold zerosAfterCard.
  cbn [dropLeadingZeros]. rewrite countZeros_cons.
  destruct (getUint32 a b c d =? 0) eqn:Ew; destruct (lastId =? 0) eqn:El;
    cbn [andb negb]; rewrite IH; rewrite ?El, ?Ew.
  - reflexivity.
  - lia.
  - rewrite countZeros_cons, Ew. reflexivity.
  - reflexivity.
Qed.

Lemma decodeSection_spec (section : jsstring) (decoded : DecodedSection) :
  decodeSection section = Ok decoded ->
  sectionWords section = Some (cards decoded)
  /\ inferredCount decoded = zerosAfterCard (cards decoded).
Proof.
  unfold decodeSection, sectionWords.
  destruct (isEmpty section).
  - intros [= <-]. split; reflexivity.
  - destruct (base64ToBytes section) as [bytes | e]; simpl; [| discriminate].
    destruct (negb (Z.of_nat (length bytes) mod 4 =? 0)); [discriminate |].
    intros [= <-].
    rewrite decodeLoop_cards, decodeLoop_inferredCount. simpl. split;
      reflexivity.
Qed.

Lemma parseYdke_unfold (rawInput : jsstring) :
  parseYdke rawInput
  = if isEmpty (trim rawInput) then Throw NoDeckProvided
    else if Z.of_nat (length (ydkeSections rawInput)) <? 3
    then Throw IncompleteLink
    else match ydkeSections rawInput with
         | main :: extra :: side :: _ => decodeSections main extra side
         | _ => Throw IncompleteLink
         end.
Proof. reflexivity. Qed.

Lemma parseYdke_sections (rawInput main extra side : jsstring)
    (rest : list jsstring) :
  isEmpty (trim rawInput) = false ->
  ydkeSections rawInput = main :: extra :: side :: rest ->
  parseYdke rawInput = decodeSections main extra side.
Proof.
  intros Hne Hs. rewrite parseYdke_unfold, Hne, Hs.
  destruct (Z.ltb_spec (Z.of_nat (length (main :: extra :: side :: rest))) 3)
    as [Hlt | _]; [simpl in Hlt; lia | reflexivity].
Qed.

Lemma parseYdke_incomplete (rawInput : jsstring) :
  isEmpty (trim rawInput) = false ->
  (length (ydkeSections rawInput) < 3)%nat ->
  parseYdke rawInput = Throw IncompleteLink.
Proof.
  intros Hne Hlen. rewrite parseYdke_unfold, Hne.
  destruct (Z.ltb_spec (Z.of_nat (length (ydkeSections rawInput))) 3);
    [reflexivity | lia].
Qed.

Lemma trimStart_nows (s : jsstring) :
  Forall (fun c => isWhiteSpace c = false) s -> trimStart s = s.
Proof. destruct 1 as [| c s Hc _]; simpl; [| rewrite Hc]; reflexivity. Qed.

Lemma trim_nows (s : jsstring) :
  Forall (fun c => isWhiteSpace c = false) s -> trim s = s.
Proof.
  intros H. unfold trim, trimEnd. rewrite (trimStart_nows s H).
  rewrite trimStart_nows; [apply rev_involutive |].
  apply Forall_forall. intros c Hc. apply list_elem_of_In, in_rev in Hc.
  exact (proj1 (List.Forall_forall _ s) H c Hc).
Qed.

Lemma removeWhitespace_nows (s : jsstring) :
  Forall (fun c => isWhiteSpace c = false) s -> removeWhitespace s = s.
Proof.
  intros H. apply filter_id_Forall.
  eapply List.Forall_impl; [| exact H]. simpl. intros c ->. reflexivity.
Qed.

Lemma encodeSection_chars (ids : list Z) :
  Forall sectionChar (encodeSection ids).
Proof.
  unfold encodeSection. destruct (Z.of_nat (length ids) =? 0); [constructor |].
  unfold bytesToBase64Standard. rewrite binaryString_id, btoa_core_padding.
  apply Forall_app. split.
  - eapply Forall_plain_impl;
      [| exact (btoaCore_plain _ (sectionBytes_bytes ids))].
    intros c Hc. apply plainB64_spec in Hc. unfold sectionChar. pure_tauto.
  - apply Forall_forall. intros c Hc. apply elem_of_replicate in Hc.
    destruct Hc as [-> _]. unfold sectionChar, isAscii.
    split; [lia | split; [reflexivity | lia]].
Qed.

(** A section decodes to the ids it was encoded from. *)
Lemma decodeSection_encodeSection (ids : list Z) :
  Forall isUint32 ids ->
  exists decoded,
    decodeSection (encodeSection ids) = Ok decoded /\ cards decoded = ids.
Proof.
  intros Hids. destruct ids as [| id ids].
  - eexists. split; reflexivity.
  - unfold encodeSection, decodeSection.
    destruct (Z.eqb_spec (Z.of_nat (length (id :: ids))) 0) as [E | _];
      [simpl in E; lia |].
    set (bytes := concat (map setUint32 (id :: ids))).
    assert (Hne : isEmpty (bytesToBase64Standard bytes) = false).
    { unfold bytesToBase64Standard. rewrite binaryString_id.
      subst bytes. cbn [map concat]. unfold setUint32 at 1. reflexivity. }
    rewrite Hne.
    rewrite (base64ToBytes_standard bytes (sectionBytes_bytes (id :: ids))).
    cbn [bind]. subst bytes. rewrite sectionBytes_length.
    replace (4 * Z.of_nat (length (id :: ids))) with
      (0 + Z.of_nat (length (id :: ids)) * 4) by lia.
    rewrite Z.mod_add by lia. cbn [Z.modulo Z.eqb negb].
    eexists. split; [reflexivity |].
    rewrite decodeLoop_cards. apply (wordsOf_sectionBytes (id :: ids) Hids).
Qed.

Lemma sectionChar_parts (s : jsstring) :
  Forall sectionChar s ->
  Forall (fun c => c <> 33) s
  /\ Forall (fun c => isWhiteSpace c = false) s
  /\ Forall isAscii s.
Proof.
  intros H. repeat split; (eapply List.Forall_impl; [| exact H]);
    unfold sectionChar; simpl; pure_tauto.
Qed.

Lemma joined_chars (a b c : jsstring) :
  Forall sectionChar a -> Forall sectionChar b -> Forall sectionChar c ->
  Forall (fun x => isWhiteSpace x = false) (a ++ 33 :: b ++ 33 :: c)
  /\ Forall isAscii (a ++ 33 :: b ++ 33 :: c).
Proof.
  intros Ha Hb Hc.
  destruct (sectionChar_parts a Ha) as (_ & Ha2 & Ha3).
  destruct (sectionChar_parts b Hb) as (_ & Hb2 & Hb3).
  destruct (sectionChar_parts c Hc) as (_ & Hc2 & Hc3).
  split.
  - apply Forall_app; split; [exact Ha2 |]. constructor; [reflexivity |].
    apply Forall_app; split; [exact Hb2 |]. constructor; [reflexivity |].
    exact Hc2.
  - apply Forall_app; split; [exact Ha3 |].
    constructor; [unfold isAscii; lia |].
    apply Forall_app; split; [exact Hb3 |].
    constructor; [unfold isAscii; lia |]. exact Hc3.
Qed.

(** A deck code built from three strings of section characters is
    ASCII and [trim] keeps it. *)
Lemma joined_trimmed (a b c : jsstring) :
  Forall sectionChar a -> Forall sectionChar b -> Forall sectionChar c ->
  let uri := js "ydke://" ++ join (js "!") [a; b; c] in
  trim uri = uri /\ isEmpty uri = false /\ Forall isAscii uri.
Proof.
  intros Ha Hb Hc uri.
  destruct (joined_chars a b c Ha Hb Hc) as [Hws Hascii].
  assert (Hpayload : join (js "!") [a; b; c] = a ++ 33 :: b ++ 33 :: c)
    by reflexivity.
  split; [| split; [reflexivity |]].
  - apply trim_nows. subst uri. rewrite Hpayload.
    apply Forall_app; split; [| exact Hws]. repeat constructor.
  - subst uri. rewrite Hpayload. apply Forall_app; split; [| exact Hascii].
    repeat constructor; unfold isAscii; simpl; lia.
Qed.

(** The sections that [parseYdke] finds in such a deck code. *)
Lemma ydkeSections_joined (a b c : jsstring) :
  Forall sectionChar a -> Forall sectionChar b -> Forall sectionChar c ->
  let uri := js "ydke://" ++ join (js "!") [a; b; c] in
  trim uri = uri /\ isEmpty uri = false /\ ydkeSections uri = [a; b; c].
Proof using toLowerCase_ascii.
  intros Ha Hb Hc uri.
  destruct (sectionChar_parts a Ha) as (Ha1 & _ & _).
  destruct (sectionChar_parts b Hb) as (Hb1 & _ & _).
  destruct (sectionChar_parts c Hc) as (Hc1 & _ & _).
  destruct (joined_chars a b c Ha Hb Hc) as [Hws _].
  destruct (joined_trimmed a b c Ha Hb Hc) as (Htrim & Hne & Hascii).
  fold uri in Htrim, Hne, Hascii.
  split; [exact Htrim | split; [exact Hne |]].
  unfold ydkeSections. rewrite Htrim.
  rewrite (toLowerCase_ascii uri Hascii).
  subst uri.
  change (join (js "!") [a; b; c]) with (a ++ 33 :: b ++ 33 :: c).
  rewrite map_app.
  change (map lowerAscii (js "ydke://")) with (js "ydke://").
  rewrite indexOf_prefix. cbn [Z.leb Z.compare Z.add].
  change (slice (0 + 7) (js "ydke://" ++ a ++ 33 :: b ++ 33 :: c))
    with (a ++ 33 :: b ++ 33 :: c).
  rewrite (removeWhitespace_nows _ Hws).
  rewrite (split_app 33 a _ Ha1), (split_app 33 b _ Hb1).
  rewrite (split_no_sep 33 c Hc1). reflexivity.
Qed.

(** The three encoded sections decode to the three id sequences. *)
Lemma decodeSections_encoded (m e s : list Z) :
  Forall isUint32 m -> Forall isUint32 e -> Forall isUint32 s ->
  exists deck,
    decodeSections (encodeSection m) (encodeSection e) (encodeSection s)
    = Ok deck
    /\ main deck = m /\ extra deck = e /\ side deck = s.
Proof.
  intros Hm He Hs.
  destruct (decodeSection_encodeSection m Hm) as (dm & Edm & Hdm).
  destruct (decodeSection_encodeSection e He) as (de & Ede & Hde).
  destruct (decodeSection_encodeSection s Hs) as (ds & Eds & Hds).
  unfold decodeSections. rewrite Edm, Ede, Eds. cbn [bind].
  eexists. split; [reflexivity |]. cbn [main extra side]. auto.
Qed.

(** C1.  Decoding the deck code built from three sequences of unsigned
    32-bit card ids (zero and values above 2^31 included) succeeds and
    returns the same three sequences, element for element. *)
Theorem parseYdke_buildYdke (m e s : list Z) :
  Forall isUint32 m -> Forall isUint32 e -> Forall isUint32 s ->
  exists deck,
    parseYdke (buildYdke m e s) = Ok deck
    /\ main deck = m /\ extra deck = e /\ side deck = s.
Proof using toLowerCase_ascii.
  intros Hm He Hs.
  destruct (ydkeSections_joined (encodeSection m) (encodeSection e)
              (encodeSection s) (encodeSection_chars m)
              (encodeSection_chars e) (encodeSection_chars s))
    as (Htrim & Hne & Hsections).
  cbv zeta in Htrim, Hne, Hsections. unfold buildYdke.
  erewrite parseYdke_sections;
    [| rewrite Htrim; exact Hne | exact Hsections].
  apply decodeSections_encoded; assumption.
Qed.

Lemma buildYdke_trimmed (m e s : list Z) :
  trim (buildYdke m e s) = buildYdke m e s
  /\ isEmpty (buildYdke m e s) = false
  /\ Forall isAscii (buildYdke m e s).
Proof.
  exact (joined_trimmed (encodeSection m) (encodeSection e) (encodeSection s)
           (encodeSection_chars m) (encodeSection_chars e)
           (encodeSection_chars s)).
Qed.

(** The deck of the application after a built deck code becomes its
    input. *)
Lemma deckOf_buildYdke (m e s : list Z) :
  Forall isUint32 m -> Forall isUint32 e -> Forall isUint32 s ->
  exists deck,
    deckOf (buildYdke m e s) = Some deck
    /\ main deck = m /\ extra deck = e /\ side deck = s.
Proof using toLowerCase_ascii.
  intros Hm He Hs. unfold deckOf.
  destruct (ydkeSections_joined (encodeSection m) (encodeSection e)
              (encodeSection s) (encodeSection_chars m)
              (encodeSection_chars e) (encodeSection_chars s))
    as (Htrim & Hne & Hsections).
  cbv zeta in Htrim, Hne, Hsections. fold (buildYdke m e s) in Htrim, Hne, Hsections.
  rewrite Htrim, Hne.
  erewrite parseYdke_sections;
    [| rewrite Htrim; exact Hne | exact Hsections].
  destruct (decodeSections_encoded m e s Hm He Hs) as (deck & -> & H).
  exists deck. split; [reflexivity | exact H].
Qed.

(** The advisory count never exceeds the number of placeholders, and it
    reaches it in a section that does not begin with one. *)
Lemma zerosAfterCard_le (ids : list Z) : zerosAfterCard ids <= countZeros ids.
Proof.
  unfold zerosAfterCard.
  induction ids as [| id ids IH]; [reflexivity |].
  cbn [dropLeadingZeros]. destruct (id =? 0) eqn:E; [| lia].
  rewrite (countZeros_cons id ids), E. lia.
Qed.

Lemma zerosAfterCard_eq (id : Z) (ids : list Z) :
  id <> 0 -> zerosAfterCard (id :: ids) = countZeros (id :: ids).
Proof.
  intros Hid. unfold zerosAfterCard. cbn [dropLeadingZeros].
  destruct (Z.eqb_spec id 0); [contradiction | reflexivity].
Qed.

Lemma decodeSections_spec (m e s : jsstring) (deck : ParsedDeck) :
  decodeSections m e s = Ok deck ->
  sectionWords m = Some (main deck)
  /\ sectionWords e = Some (extra deck)
  /\ sectionWords s = Some (side deck)
  /\ inferredCardCount deck
     = (let n := zerosAfterCard (main deck) + zerosAfterCard (extra deck)
                 + zerosAfterCard (side deck) in
        if n =? 0 then None else Some n).
Proof.
  unfold decodeSections.
  destruct (decodeSection m) as [dm | ?] eqn:Em; [| discriminate].
  destruct (decodeSection e) as [de | ?] eqn:Ee; [| discriminate].
  destruct (decodeSection s) as [ds | ?] eqn:Es; [| discriminate].
  cbn [bind]. intros [= <-]. cbn [main extra side inferredCardCount].
  destruct (decodeSection_spec m dm Em) as [Hm1 Hm2].
  destruct (decodeSection_spec e de Ee) as [He1 He2].
  destruct (decodeSection_spec s ds Es) as [Hs1 Hs2].
  rewrite Hm2, He2, Hs2. auto.
Qed.

(** C6, as the code has it.  For every input that [parseYdke] accepts,
    each decoded section holds every 32-bit word of the section's bytes,
    zeros included, and the advisory count is the number of zero entries
    that follow a non-zero entry of their own section, summed over the
    three sections; it is absent when that number is zero. *)
Theorem parseYdke_inferredCardCount (rawInput : jsstring) (deck : ParsedDeck) :
  parseYdke rawInput = Ok deck ->
  (exists m e s rest,
      ydkeSections rawInput = m :: e :: s :: rest
      /\ sectionWords m = Some (main deck)
      /\ sectionWords e = Some (extra deck)
      /\ sectionWords s = Some (side deck))
  /\ inferredCardCount deck
     = (let n := zerosAfterCard (main deck) + zerosAfterCard (extra deck)
                 + zerosAfterCard (side deck) in
        if n =? 0 then None else Some n).
Proof.
  rewrite parseYdke_unfold.
  destruct (isEmpty (trim rawInput)); [discriminate |].
  destruct (Z.of_nat (length (ydkeSections rawInput)) <? 3); [discriminate |].
  destruct (ydkeSections rawInput) as [| m [| e [| s rest]]];
    try discriminate.
  intros H. apply decodeSections_spec in H.
  destruct H as (Hm & He & Hs & Hn). split; [| exact Hn].
  exists m, e, s, rest. auto.
Qed.

Lemma ydkeSections_example :
  ydkeSections (js "ydke://AQAAAA==!!!") = [js "AQAAAA=="; []; []; []].
Proof using toLowerCase_ascii.
  unfold ydkeSections.
  change (trim (js "ydke://AQAAAA==!!!")) with (js "ydke://AQAAAA==!!!").
  rewrite toLowerCase_ascii; [reflexivity |].
  repeat constructor; unfold isAscii; simpl; lia.
Qed.

(** Decoding a part never reports an incomplete link. *)
Lemma decodeSection_error (section : jsstring) (e : Error) :
  decodeSection section = Throw e -> e = InvalidCharacter \/ e = Misaligned.
Proof.
  unfold decodeSection, base64ToBytes.
  destruct (isEmpty section); [discriminate |].
  destruct (atob _) as [binary |]; cbn [bind].
  - destruct (negb _); [| discriminate].
    intros [= <-]. right. reflexivity.
  - intros [= <-]. left. reflexivity.
Qed.

Lemma decodeSections_error (main extra side : jsstring) (e : Error) :
  decodeSections main extra side = Throw e ->
  e = InvalidCharacter \/ e = Misaligned.
Proof.
  unfold decodeSections.
  destruct (decodeSection main) as [dm | em] eqn:Hm; cbn [bind];
    [| intros [= <-]; exact (decodeSection_error _ _ Hm)].
  destruct (decodeSection extra) as [de | ee] eqn:He; cbn [bind];
    [| intros [= <-]; exact (decodeSection_error _ _ He)].
  destruct (decodeSection side) as [ds | es] eqn:Hs; cbn [bind];
    [discriminate | intros [= <-]; exact (decodeSection_error _ _ Hs)].
Qed.

Lemma parseYdke_incomplete_only (rawInput : jsstring) :
  parseYdke rawInput = Throw IncompleteLink ->
  (length (ydkeSections rawInput) < 3)%nat.
Proof.
  rewrite parseYdke_unfold.
  destruct (isEmpty (trim rawInput)); [discriminate |].
  destruct (Z.ltb_spec (Z.of_nat (length (ydkeSections rawInput))) 3)
    as [Hlt | Hge]; [lia |].
  destruct (ydkeSections rawInput) as [| m [| e [| s rest]]];
    cbn [length] in Hge; try lia.
  intros Hd. destruct (decodeSections_error _ _ _ _ Hd); discriminate.
Qed.

(** C10.  [parseYdke] decodes the first three [!]-separated parts and
    never looks at a further one; the deck code with the conventional
    trailing [!] decodes; only an input with fewer than three parts is
    an incomplete link. *)
Theorem parseYdke_ignores_extra_parts :
  (forall rawInput m e s rest,
      isEmpty (trim rawInput) = false ->
      ydkeSections rawInput = m :: e :: s :: rest ->
      parseYdke rawInput = decodeSections m e s)
  /\ (forall rawInput,
        isEmpty (trim rawInput) = false ->
        (length (ydkeSections rawInput) < 3)%nat ->
        parseYdke rawInput = Throw IncompleteLink)
  /\ (forall rawInput,
        parseYdke rawInput = Throw IncompleteLink ->
        (length (ydkeSections rawInput) < 3)%nat)
  /\ ydkeSections (js "ydke://AQAAAA==!!!") = [js "AQAAAA=="; []; []; []]
  /\ parseYdke (js "ydke://AQAAAA==!!!")
     = Ok {| main := [1]; extra := []; side := [];
             hasInferredIds := None; inferredCardCount := None |}.
Proof using toLowerCase_ascii.
  split; [exact parseYdke_sections |].
  split; [exact parseYdke_incomplete |].
  split; [exact parseYdke_incomplete_only |].
  split; [exact ydkeSections_example |].
  rewrite (parseYdke_sections (js "ydke://AQAAAA==!!!") _ _ _ _ eq_refl
             ydkeSections_example).
  reflexivity.
Qed.


(* ================================================================ *)
(** * The aggregation: counts, points and flags of the groups *)
(* ================================================================ *)

(** ** Insertion-ordered maps *)

Section OrderedMapFacts.
Context {K V : Type} `{EqDecision K}.

Lemma omapAlter_sum (g : V -> Z) (f : V -> V) (k : K) (m : list (K * V))
    (v : V) :
  omapGet k m = Some v ->
  sumZ (map (fun e => g (snd e)) (omapAlter f k m))
  = sumZ (map (fun e => g (snd e)) m) - g v + g (f v).
Proof.
  induction m as [| [k' v'] m IH]; simpl; [discriminate |].
  destruct (decide (k = k')) as [-> | Hne].
  - intros [= ->]. simpl. lia.
  - intros Hget. simpl. rewrite (IH Hget). lia.
Qed.

Lemma omapAlter_Forall (P : K * V -> Prop) (f : V -> V) (k : K)
    (m : list (K * V)) :
  Forall P m -> (forall v, P (k, v) -> P (k, f v)) ->
  Forall P (omapAlter f k m).
Proof.
  intros Hm Hf. induction Hm as [| [k' v'] m Hx Hm' IH]; simpl;
    [constructor |].
  destruct (decide (k = k')) as [<- | Hne]; constructor; auto.
Qed.

(** [set] on a key that the map does not hold yet adds a last entry. *)
Lemma omapSet_absent (k : K) (v : V) (m : list (K * V)) :
  omapGet k m = None -> omapSet k v m = m ++ [(k, v)].
Proof. intros Hget. unfold omapSet. rewrite Hget. reflexivity. Qed.
End OrderedMapFacts.

(** ** The sort keeps the groups *)

Lemma insertSorted_perm {A} (compare : A -> A -> Z) (x : A) (l : list A) :
  Permutation (insertSorted compare x l) (x :: l).
Proof.
  induction l as [| y l IH]; simpl; [reflexivity |].
  destruct (compare x y <=? 0); [reflexivity |].
  rewrite IH. apply perm_swap.
Qed.

Lemma sortBy_perm {A} (compare : A -> A -> Z) (l : list A) :
  Permutation (sortBy compare l) l.
Proof.
  induction l as [| x l IH]; simpl; [reflexivity |].
  rewrite insertSorted_perm, IH. reflexivity.
Qed.

Lemma sumZ_app (a b : list Z) : sumZ (a ++ b) = sumZ a + sumZ b.
Proof. induction a as [| x a IH]; simpl; [reflexivity | rewrite IH; lia]. Qed.

Lemma sumZ_perm (a b : list Z) : Permutation a b -> sumZ a = sumZ b.
Proof. induction 1; simpl; lia. Qed.

(** ** The count pass *)

Lemma countLoop_sum (ids : list Z) :
  forall index counts,
    sumZ (map (fun e => count (snd e)) (countLoop ids index counts))
    = sumZ (map (fun e => count (snd e)) counts) + Z.of_nat (length ids).
Proof.
  induction ids as [| id ids IH]; intros index counts; simpl countLoop.
  - simpl. lia.
  - rewrite IH. destruct (omapGet id counts) as [entry |] eqn:E.
    + rewrite (omapAlter_sum count _ id counts entry E). simpl. lia.
    + rewrite (omapSet_absent _ _ _ E), map_app, sumZ_app. simpl. lia.
Qed.

Lemma countPass_sum (ids : list Z) :
  sumZ (map (fun e => count (snd e)) (countPass ids))
  = Z.of_nat (length ids).
Proof. unfold countPass. rewrite countLoop_sum. reflexivity. Qed.

(** ** The enrichment pass *)

Lemma rawGroup_count (zone : DeckSection) (entry : Z * CountEntry) :
  DeckCardGroup.count (rawGroup zone entry) = count (snd entry).
Proof. destruct entry as [id meta]. reflexivity. Qed.

Lemma rawGroup_zone (zone : DeckSection) (entry : Z * CountEntry) :
  DeckCardGroup.zone (rawGroup zone entry) = zone.
Proof. destruct entry as [id meta]. reflexivity. Qed.

Lemma rawGroup_points (zone : DeckSection) (entry : Z * CountEntry) :
  pointsConsistent (rawGroup zone entry).
Proof. destruct entry as [id meta]. repeat split. Qed.

(** ** The merge pass *)

Lemma mergeStep_sum (merged : list (list Z * DeckCardGroup.t))
    (card : DeckCardGroup.t) :
  sumZ (map (fun e => DeckCardGroup.count (snd e)) (mergeStep merged card))
  = sumZ (map (fun e => DeckCardGroup.count (snd e)) merged)
    + DeckCardGroup.count card.
Proof.
  unfold mergeStep. destruct (omapGet (mergeKey card) merged) as [v |] eqn:E.
  - rewrite (omapAlter_sum DeckCardGroup.count _ _ _ v E). simpl. lia.
  - rewrite (omapSet_absent _ _ _ E), map_app, sumZ_app. simpl. lia.
Qed.

Lemma mergePass_sum (rawGroups : list DeckCardGroup.t) :
  forall merged,
    sumZ (map (fun e => DeckCardGroup.count (snd e))
            (fold_left mergeStep rawGroups merged))
    = sumZ (map (fun e => DeckCardGroup.count (snd e)) merged)
      + sumZ (map DeckCardGroup.count rawGroups).
Proof.
  induction rawGroups as [| card rest IH]; intros merged; simpl.
  - lia.
  - rewrite IH, mergeStep_sum. lia.
Qed.

(** C3.  For every id sequence of a section and every metadata table,
    the counts of the groups that [toGroup] returns add up to the length
    of the sequence: the count pass, the merge pass and the sort neither
    drop nor duplicate a slot, placeholder or not. *)
Theorem toGroup_count_conservation (ids : list Z) (zone : DeckSection) :
  sumZ (map DeckCardGroup.count (toGroup ids zone)) = Z.of_nat (length ids).
Proof.
  unfold toGroup.
  rewrite (sumZ_perm _ _
             (Permutation_map DeckCardGroup.count (sortBy_perm _ _))).
  unfold omapValues, mergePass. rewrite map_map.
  rewrite mergePass_sum. simpl. rewrite map_map.
  rewrite <- (countPass_sum ids). rewrite Z.add_0_l. f_equal.
  apply map_ext. intros entry. apply rawGroup_count.
Qed.

(** Two groups of one section with the same key have the same
    normalized name. *)
Lemma mergeKey_name (a b : DeckCardGroup.t) :
  DeckCardGroup.zone a = DeckCardGroup.zone b ->
  mergeKey a = mergeKey b ->
  normalizeCardName (DeckCardGroup.name a)
  = normalizeCardName (DeckCardGroup.name b).
Proof.
  unfold mergeKey. intros ->. apply app_inv_tail.
Qed.

Lemma mergeInto_ok (zone : DeckSection) (key : list Z)
    (card existing : DeckCardGroup.t) :
  DeckCardGroup.zone card = zone -> pointsConsistent card ->
  key = mergeKey card ->
  mergedEntryOk zone (key, existing) ->
  mergedEntryOk zone (key, mergeInto card existing).
Proof.
  intros Hzone (Hc1 & Hc2 & Hc3) Hkey (He0 & Hezone & He1 & He2 & He3).
  cbn [fst snd] in He0, Hezone, He1, He2, He3 |- *.
  assert (Hname : normalizeCardName (DeckCardGroup.name card)
                  = normalizeCardName (DeckCardGroup.name existing)).
  { apply mergeKey_name; congruence. }
  split; [exact He0 | split; [exact Hezone |]].
  unfold pointsConsistent. cbn [snd mergeInto DeckCardGroup.name
    DeckCardGroup.pointsPerCopy DeckCardGroup.totalPoints
    DeckCardGroup.count DeckCardGroup.notInList].
  rewrite Hname in Hc1.
  split; [exact He1 | split; [| exact He3]].
  rewrite He2, Hc2, Hc1, <- He1. lia.
Qed.

Lemma mergeStep_ok (zone : DeckSection)
    (merged : list (list Z * DeckCardGroup.t)) (card : DeckCardGroup.t) :
  DeckCardGroup.zone card = zone -> pointsConsistent card ->
  Forall (mergedEntryOk zone) merged ->
  Forall (mergedEntryOk zone) (mergeStep merged card).
Proof.
  intros Hzone Hcard Hmerged. unfold mergeStep.
  destruct (omapGet (mergeKey card) merged) as [existing |] eqn:E.
  - apply omapAlter_Forall; [exact Hmerged |].
    intros v Hv. apply mergeInto_ok; auto.
  - rewrite (omapSet_absent _ _ _ E). apply Forall_app.
    split; [exact Hmerged |].
    constructor; [| constructor]. repeat split; auto; apply Hcard.
Qed.

Lemma mergePass_ok (zone : DeckSection) (rawGroups : list DeckCardGroup.t) :
  Forall (fun card => DeckCardGroup.zone card = zone
                      /\ pointsConsistent card) rawGroups ->
  forall merged,
    Forall (mergedEntryOk zone) merged ->
    Forall (mergedEntryOk zone) (fold_left mergeStep rawGroups merged).
Proof.
  induction 1 as [| card rest [Hz Hc] _ IH]; intros merged Hm; simpl;
    [exact Hm |].
  apply IH, mergeStep_ok; assumption.
Qed.

(** Every group that [toGroup] returns, merged or not, carries the
    point fields of its normalized display name. *)
Lemma toGroup_pointsConsistent (ids : list Z) (zone : DeckSection) :
  Forall pointsConsistent (toGroup ids zone).
Proof.
  unfold toGroup.
  eapply Permutation_Forall; [symmetry; apply sortBy_perm |].
  unfold omapValues. apply List.Forall_map.
  eapply List.Forall_impl;
    [| apply (mergePass_ok zone (map (rawGroup zone) (countPass ids)))].
  - intros entry (_ & _ & H). exact H.
  - apply List.Forall_map. apply Forall_forall. intros entry _.
    split; [apply rawGroup_zone | apply rawGroup_points].
  - constructor.
Qed.

Lemma fold_left_totalPoints (groups : list DeckCardGroup.t) (start : Z) :
  fold_left (fun sum card => sum + DeckCardGroup.totalPoints card) groups start
  = start + sumZ (map DeckCardGroup.totalPoints groups).
Proof.
  revert start. induction groups as [| card rest IH]; intros start; simpl.
  - lia.
  - rewrite IH. lia.
Qed.

(** C2.  In the aggregation of any deck, with any metadata table and any
    point list, every group of the three sections, merged or not, has
    [totalPoints = pointsPerCopy * count], and the deck-wide total is the
    sum of [totalPoints] over the groups of the three sections. *)
Theorem deckGroups_totals (deck : ParsedDeck) :
  Forall (fun card =>
            DeckCardGroup.totalPoints card
            = DeckCardGroup.pointsPerCopy card * DeckCardGroup.count card)
    (allGroups (deckGroups deck))
  /\ totalPoints (Some (deckGroups deck))
     = sumZ (map DeckCardGroup.totalPoints (mainGroups (deckGroups deck)))
       + sumZ (map DeckCardGroup.totalPoints (extraGroups (deckGroups deck)))
       + sumZ (map DeckCardGroup.totalPoints (sideGroups (deckGroups deck))).
Proof.
  split.
  - unfold allGroups, deckGroups. cbn [mainGroups extraGroups sideGroups].
    rewrite !Forall_app. repeat split;
      (eapply List.Forall_impl; [| apply toGroup_pointsConsistent]);
      intros card (_ & H & _); exact H.
  - unfold totalPoints. rewrite fold_left_totalPoints.
    rewrite !map_app, !sumZ_app. lia.
Qed.

(** The index has no entry for a key exactly when no card of the point
    list normalizes to it. *)
Lemma genesysPointMap_absent (key : list Z) :
  genesysPointMap !! key = None
  <-> Forall (fun entry => normalizeCardName (cardName entry) <> key)
        genesysCards.
Proof.
  unfold genesysPointMap.
  assert (H : forall (l : list GenesysCard) (m : gmap (list Z) Z),
             fold_left
               (fun m entry =>
                  <[normalizeCardName (cardName entry) := points entry]> m)
               l m !! key = None
             <-> m !! key = None
                 /\ Forall (fun entry =>
                              normalizeCardName (cardName entry) <> key) l).
  { induction l as [| entry l IH]; intros m; simpl.
    - split; [intros H; split; [exact H | constructor] | pure_tauto].
    - rewrite IH, lookup_insert_None, List.Forall_cons_iff. pure_tauto. }
  rewrite H, lookup_empty. pure_tauto.
Qed.

(** C9.  For every group that [toGroup] returns, [notInList] holds
    exactly when the point index has no entry for the group's normalized
    display name, and [pointsPerCopy] is the entry's points, or 0 without
    an entry: a card listed with 0 points is found and worth 0, a card
    that is not listed is flagged and worth 0. *)
Theorem toGroup_notInList (ids : list Z) (zone : DeckSection) :
  Forall (fun card =>
            let entry :=
              genesysPointMap !! normalizeCardName (DeckCardGroup.name card) in
            (DeckCardGroup.notInList card = true <-> entry = None)
            /\ DeckCardGroup.pointsPerCopy card = default 0 entry
            /\ (entry = Some 0 ->
                DeckCardGroup.pointsPerCopy card = 0
                /\ DeckCardGroup.notInList card = false)
            /\ (entry = None ->
                DeckCardGroup.pointsPerCopy card = 0
                /\ DeckCardGroup.notInList card = true))
    (toGroup ids zone).
Proof.
  eapply List.Forall_impl; [| apply toGroup_pointsConsistent].
  intros card (Hp & _ & Hn). cbv zeta. rewrite Hp, Hn.
  destruct (genesysPointMap !! normalizeCardName (DeckCardGroup.name card));
    simpl; repeat split; intros; try congruence.
Qed.


(* ================================================================ *)
(** * Missing-ID resolution *)
(* ================================================================ *)

(** The loop is a left fold of array stores over the pairs of a slot and
    its replacement. *)
Lemma replaceLoop_fold (n : nat) :
  forall (index : nat) (slots : list nat) (replacements section : list Z),
    replaceLoop n index slots replacements section
    = fold_left (fun sec p => <[fst p := snd p]> sec)
        (take n (drop index (zip slots replacements))) section.
Proof.
  induction n as [| n IH]; intros index slots replacements section.
  - reflexivity.
  - cbn [replaceLoop]. rewrite IH.
    destruct (zip slots replacements !! index) as [[t r] |] eqn:E.
    + rewrite (drop_S _ _ _ E). cbn [take fold_left fst snd].
      rewrite lookup_zip_with in E.
      destruct (slots !! index) as [t' |]; [| discriminate].
      destruct (replacements !! index) as [r' |]; [| discriminate].
      simpl in E. injection E as -> ->. reflexivity.
    + assert (Hge : (length (zip slots replacements) <= index)%nat)
        by (apply lookup_ge_None; exact E).
      rewrite (drop_ge _ index) by exact Hge.
      rewrite (drop_ge _ (S index)) by lia.
      rewrite !take_nil. cbn [fold_left].
      rewrite lookup_zip_with in E.
      destruct (slots !! index) as [t' |]; [| reflexivity].
      destruct (replacements !! index) as [r' |]; [discriminate | reflexivity].
Qed.

(** Storing the replacements at the slots found in a section fills its
    placeholders in sequence order. *)
Lemma fold_stores_fillSlots (section : list Z) :
  forall (pre replacements : list Z),
    fold_left (fun sec p => <[fst p := snd p]> sec)
      (zip (findSlotsFrom section (length pre)) replacements)
      (pre ++ section)
    = pre ++ fillSlots section replacements.
Proof.
  induction section as [| id rest IH]; intros pre replacements.
  - reflexivity.
  - cbn [findSlotsFrom fillSlots]. destruct (id <=? 0).
    + destruct replacements as [| r rs]; [reflexivity |].
      cbn [zip_with fold_left fst snd].
      rewrite insert_app_r_alt by lia. rewrite Nat.sub_diag.
      cbn [insert list_insert].
      replace (pre ++ r :: rest) with ((pre ++ [r]) ++ rest)
        by (rewrite <- app_assoc; reflexivity).
      replace (S (length pre)) with (length (pre ++ [r]))
        by (rewrite length_app; simpl; lia).
      rewrite IH, <- app_assoc. reflexivity.
    + replace (pre ++ id :: rest) with ((pre ++ [id]) ++ rest)
        by (rewrite <- app_assoc; reflexivity).
      replace (S (length pre)) with (length (pre ++ [id]))
        by (rewrite length_app; simpl; lia).
      rewrite IH, <- app_assoc. reflexivity.
Qed.

Lemma replaceLoop_fillSlots (section replacements : list Z) :
  replaceLoop (Nat.min (length replacements) (length (findSlots section))) 0
    (findSlots section) replacements section
  = fillSlots section replacements.
Proof.
  rewrite replaceLoop_fold. rewrite drop_0.
  rewrite take_ge by (rewrite length_zip_with; lia).
  exact (fold_stores_fillSlots section [] replacements).
Qed.

(** ** What filling does *)

Lemma fillSlots_nil (section : list Z) : fillSlots section [] = section.
Proof.
  induction section as [| id rest IH]; [reflexivity |].
  cbn [fillSlots]. destruct (id <=? 0); [reflexivity | rewrite IH; reflexivity].
Qed.

Lemma fillSlots_length (section : list Z) :
  forall replacements,
    length (fillSlots section replacements) = length section.
Proof.
  induction section as [| id rest IH]; intros replacements; [reflexivity |].
  cbn [fillSlots]. destruct (id <=? 0); [destruct replacements |];
    cbn [length]; rewrite ?IH; reflexivity.
Qed.

(** The [i]-th replacement lands on the [i]-th earliest placeholder. *)
Lemma fillSlots_at (section : list Z) :
  forall (replacements : list Z) (base i slot : nat),
    findSlotsFrom section base !! i = Some slot ->
    (i < length replacements)%nat ->
    (base <= slot)%nat
    /\ fillSlots section replacements !! (slot - base)%nat
       = replacements !! i.
Proof.
  induction section as [| id rest IH];
    intros replacements base i slot Hslot Hi; [discriminate |].
  cbn [findSlotsFrom fillSlots] in Hslot |- *. destruct (id <=? 0).
  - destruct replacements as [| r rs]; [cbn [length] in Hi; lia |].
    destruct i as [| i].
    + injection Hslot as <-. rewrite Nat.sub_diag. split; [lia | reflexivity].
    + cbn [length] in Hi. simpl in Hslot.
      destruct (IH rs (S base) i slot Hslot ltac:(lia)) as [Hle Hat].
      split; [lia |].
      replace (slot - base)%nat with (S (slot - S base)) by lia.
      exact Hat.
  - destruct (IH replacements (S base) i slot Hslot Hi) as [Hle Hat].
    split; [lia |].
    replace (slot - base)%nat with (S (slot - S base)) by lia.
    exact Hat.
Qed.

(** A position that holds a card keeps it. *)
Lemma fillSlots_keeps_cards (section : list Z) :
  forall (replacements : list Z) (j : nat) (id : Z),
    section !! j = Some id -> 0 < id ->
    fillSlots section replacements !! j = Some id.
Proof.
  induction section as [| x rest IH]; intros replacements j id Hj Hid;
    [discriminate |].
  cbn [fillSlots]. destruct (Z.leb_spec x 0) as [Hx | Hx].
  - destruct replacements as [| r rs]; [exact Hj |].
    destruct j as [| j]; [injection Hj as ->; lia |].
    simpl in Hj |- *. apply IH; assumption.
  - destruct j as [| j]; [exact Hj |]. simpl in Hj |- *. apply IH; assumption.
Qed.

(** The placeholders that remain are the latest ones. *)
Lemma fillSlots_remaining (section : list Z) :
  forall (replacements : list Z) (base : nat),
    Forall (fun r => 0 < r) replacements ->
    findSlotsFrom (fillSlots section replacements) base
    = drop (length replacements) (findSlotsFrom section base).
Proof.
  induction section as [| id rest IH]; intros replacements base Hr.
  - cbn [fillSlots findSlotsFrom]. rewrite drop_nil. reflexivity.
  - cbn [fillSlots findSlotsFrom]. destruct (Z.leb_spec id 0) as [Hid | Hid].
    + destruct Hr as [| r rs Hr Hrs].
      * cbn [findSlotsFrom length drop].
        destruct (Z.leb_spec id 0); [reflexivity | lia].
      * cbn [findSlotsFrom length drop].
        destruct (Z.leb_spec r 0); [lia |]. apply IH, Hrs.
    + cbn [findSlotsFrom]. destruct (Z.leb_spec id 0); [lia |].
      apply IH, Hr.
Qed.

Lemma fillSlots_uint32 (section : list Z) :
  forall replacements,
    Forall isUint32 section -> Forall isUint32 replacements ->
    Forall isUint32 (fillSlots section replacements).
Proof.
  induction section as [| id rest IH]; intros replacements Hs Hr;
    [constructor |].
  inversion_clear Hs as [| ? ? Hid Hrest]. cbn [fillSlots].
  destruct (id <=? 0).
  - destruct Hr as [| r rs Hr Hrs]; constructor; auto.
  - constructor; auto.
Qed.

(** In a decoded section the slots are the zero entries. *)
Lemma findSlots_countZeros (section : list Z) :
  forall base,
    Forall isUint32 section ->
    Z.of_nat (length (findSlotsFrom section base)) = countZeros section.
Proof.
  induction section as [| id rest IH]; intros base Hs; [reflexivity |].
  inversion_clear Hs as [| ? ? Hid Hrest]. unfold isUint32 in Hid.
  cbn [findSlotsFrom]. rewrite countZeros_cons.
  destruct (Z.leb_spec id 0); destruct (Z.eqb_spec id 0); try lia;
    cbn [length]; rewrite <- (IH (S base) Hrest); lia.
Qed.

Lemma updatedDeck_sections (deck : ParsedDeck) (zone : DeckSection)
    (replacements : list Z) :
  let slots := findSlots (sectionOf zone deck) in
  let updated :=
    updatedDeck deck zone slots replacements
      (Nat.min (length replacements) (length slots)) in
  simpleSectionOf zone updated = fillSlots (sectionOf zone deck) replacements
  /\ forall z, z <> zone -> simpleSectionOf z updated = sectionOf z deck.
Proof.
  destruct zone; (split; [apply replaceLoop_fillSlots |]);
    intros z Hz; destruct z; congruence || reflexivity.
Qed.

Lemma sectionOf_uint32 (deck : ParsedDeck) (zone : DeckSection) :
  Forall isUint32 (main deck) -> Forall isUint32 (extra deck) ->
  Forall isUint32 (side deck) -> Forall isUint32 (sectionOf zone deck).
Proof. destruct zone; auto. Qed.

(** The facts of the claim for the section [after] that replaces the
    section [before]. *)
Lemma fillSlots_facts (before replacements : list Z) :
  Forall isUint32 before ->
  Forall (fun id => isUint32 id /\ id <> 0) replacements ->
  let after := fillSlots before replacements in
  let slots := findSlots before in
  (forall i slot,
      (i < length replacements)%nat -> slots !! i = Some slot ->
      after !! slot = replacements !! i)
  /\ (forall j id, before !! j = Some id -> id <> 0 -> after !! j = Some id)
  /\ findSlots after = drop (length replacements) slots
  /\ length after = length before
  /\ Forall isUint32 after.
Proof.
  intros Hb Hr after slots.
  assert (Hpos : Forall (fun r => 0 < r) replacements).
  { eapply List.Forall_impl; [| exact Hr]. unfold isUint32. simpl. lia. }
  assert (Hu : Forall isUint32 replacements).
  { eapply List.Forall_impl; [| exact Hr]. simpl. pure_tauto. }
  repeat split.
  - intros i slot Hi Hslot.
    destruct (fillSlots_at before replacements 0 i slot Hslot Hi) as [_ H].
    rewrite Nat.sub_0_r in H. exact H.
  - intros j id Hj Hid. apply fillSlots_keeps_cards; [exact Hj |].
    assert (Hu32 : isUint32 id).
    { apply (proj1 (List.Forall_forall _ before) Hb).
      apply list_elem_of_In. eapply list_elem_of_lookup_2. exact Hj. }
    unfold isUint32 in Hu32. lia.
  - apply fillSlots_remaining, Hpos.
  - apply fillSlots_length.
  - apply fillSlots_uint32; assumption.
Qed.

(** The section of [zone] after the handler ran is the section with its
    placeholders filled, and the other sections are as before. *)
Lemma deckAfterResolve_sections (deck : ParsedDeck) (zone : DeckSection)
    (label : jsstring) (selection : list MissingReplacementPick) :
  Forall isUint32 (main deck) -> Forall isUint32 (extra deck) ->
  Forall isUint32 (side deck) ->
  Forall (fun id => isUint32 id /\ id <> 0) (expandSelection selection) ->
  (length (expandSelection selection)
   <= length (findSlots (sectionOf zone deck)))%nat ->
  exists deck',
    deckAfterResolve deck (Some (zone, label)) selection = Some deck'
    /\ sectionOf zone deck'
       = fillSlots (sectionOf zone deck) (expandSelection selection)
    /\ forall z, z <> zone -> sectionOf z deck' = sectionOf z deck.
Proof using toLowerCase_ascii.
  intros Hm He Hs Hr Hk.
  set (replacements := expandSelection selection) in Hr, Hk |- *.
  unfold deckAfterResolve, handleMissingIdResolve, missingSlots.
  fold replacements.
  destruct (Z.eqb_spec (Z.of_nat (length (findSlots (sectionOf zone deck)))) 0)
    as [E0 | _].
  { exists deck. assert (replacements = []) as ->
      by (destruct replacements; [reflexivity | simpl in Hk; lia]).
    rewrite fillSlots_nil. auto. }
  destruct (Z.eqb_spec (Z.of_nat (length replacements)) 0) as [E1 | _].
  { exists deck. assert (replacements = []) as ->
      by (destruct replacements; [reflexivity | simpl in E1; lia]).
    rewrite fillSlots_nil. auto. }
  destruct (updatedDeck_sections deck zone replacements) as [Hzone Hother].
  cbv zeta in Hzone, Hother.
  set (updated := updatedDeck deck zone (findSlots (sectionOf zone deck))
                    replacements
                    (Nat.min (length replacements)
                       (length (findSlots (sectionOf zone deck)))))
    in Hzone, Hother |- *.
  assert (Hfilled : Forall isUint32 (fillSlots (sectionOf zone deck) replacements)).
  { apply fillSlots_uint32; [apply sectionOf_uint32; assumption |].
    eapply List.Forall_impl; [| exact Hr]. simpl. pure_tauto. }
  assert (Hu : forall z, Forall isUint32 (simpleSectionOf z updated)).
  { intros z. destruct (decide (z = zone)) as [-> | Hz].
    - rewrite Hzone. exact Hfilled.
    - rewrite (Hother z Hz). apply sectionOf_uint32; assumption. }
  destruct (deckOf_buildYdke (simpleMain updated) (simpleExtra updated)
              (simpleSide updated) (Hu Main) (Hu Extra) (Hu Side))
    as (deck' & Hdeck' & Hm' & He' & Hs').
  exists deck'. split; [exact Hdeck' |].
  assert (Hsec : forall z, sectionOf z deck' = simpleSectionOf z updated)
    by (intros z; destruct z; assumption).
  split.
  - rewrite Hsec. exact Hzone.
  - intros z Hz. rewrite Hsec. apply Hother, Hz.
Qed.

(** C4.  With [k] non-zero replacements for a section that has at least
    [k] placeholder slots, missing-ID resolution puts the [i]-th
    replacement into the [i]-th earliest placeholder position, keeps
    every position that held a card and the two other sections, and
    leaves the latest [missingCount - k] placeholder positions as they
    were: the zeros of the section are then [missingCount - k] in
    number, none when [k = missingCount]. *)
Theorem handleMissingIdResolve_fills_earliest (deck : ParsedDeck)
    (zone : DeckSection) (label : jsstring)
    (selection : list MissingReplacementPick) :
  Forall isUint32 (main deck) -> Forall isUint32 (extra deck) ->
  Forall isUint32 (side deck) ->
  let section := sectionOf zone deck in
  let slots := findSlots section in
  let replacements := expandSelection selection in
  Forall (fun id => isUint32 id /\ id <> 0) replacements ->
  (length replacements <= length slots)%nat ->
  Z.of_nat (length slots) = countZeros section
  /\ exists deck',
      deckAfterResolve deck (Some (zone, label)) selection = Some deck'
      /\ (forall i slot,
             (i < length replacements)%nat -> slots !! i = Some slot ->
             sectionOf zone deck' !! slot = replacements !! i)
      /\ (forall j id,
             section !! j = Some id -> id <> 0 ->
             sectionOf zone deck' !! j = Some id)
      /\ (forall z, z <> zone -> sectionOf z deck' = sectionOf z deck)
      /\ findSlots (sectionOf zone deck') = drop (length replacements) slots
      /\ countZeros (sectionOf zone deck')
         = Z.of_nat (length slots) - Z.of_nat (length replacements)
      /\ length (sectionOf zone deck') = length section.
Proof using toLowerCase_ascii.
  intros Hm He Hs section slots replacements Hr Hk.
  pose proof (sectionOf_uint32 deck zone Hm He Hs) as Hsec.
  split; [apply findSlots_countZeros, Hsec |].
  destruct (deckAfterResolve_sections deck zone label selection
              Hm He Hs Hr Hk) as (deck' & Hdeck' & Hzone & Hother).
  destruct (fillSlots_facts section replacements Hsec Hr)
    as (H1 & H2 & H3 & H4 & H5).
  exists deck'. rewrite Hzone. fold section replacements.
  repeat split; try assumption.
  rewrite <- (findSlots_countZeros _ 0%nat H5).
  fold (findSlots (fillSlots section replacements)). rewrite H3.
  rewrite length_drop. fold slots. lia.
Qed.


(* ================================================================ *)
(** * The sort pass *)
(* ================================================================ *)

Section SortFacts.
Context {A : Type} (compare : A -> A -> Z) (R : A -> A -> Prop).
Hypothesis compare_le : forall x y, compare x y <= 0 -> R x y.
Hypothesis compare_gt : forall x y, 0 < compare x y -> R y x.

Lemma insertSorted_HdRel (x y : A) (l : list A) :
  R y x -> HdRel R y l -> HdRel R y (insertSorted compare x l).
Proof.
  intros Hyx Hl. destruct l as [| z l]; simpl; [constructor; exact Hyx |].
  destruct (compare x z <=? 0); constructor; [exact Hyx |].
  inversion Hl; assumption.
Qed.

Lemma insertSorted_Sorted (x : A) (l : list A) :
  Sorted R l -> Sorted R (insertSorted compare x l).
Proof using compare_gt compare_le.
  induction 1 as [| y l Hl IH Hy]; simpl; [repeat constructor |].
  destruct (Z.leb_spec (compare x y) 0) as [Hle | Hgt].
  - constructor; [constructor; assumption |].
    constructor. apply compare_le, Hle.
  - constructor; [exact IH |].
    apply insertSorted_HdRel; [apply compare_gt, Hgt | exact Hy].
Qed.

Lemma sortBy_Sorted (l : list A) : Sorted R (sortBy compare l).
Proof using compare_gt compare_le.
  induction l as [| x l IH]; simpl; [constructor |].
  apply insertSorted_Sorted, IH.
Qed.

(** Where the order is transitive on the elements of the list, every
    earlier element stands before every later one. *)
Lemma Sorted_StronglySorted_on (l : list A) :
  (forall a b c, In a l -> In b l -> In c l -> R a b -> R b c -> R a c) ->
  Sorted R l -> StronglySorted R l.
Proof.
  induction l as [| x l IH]; intros Htrans Hs; [constructor |].
  inversion_clear Hs as [| ? ? Hl Hx].
  assert (Hstrong : StronglySorted R l).
  { apply IH; [| exact Hl]. intros a b c Ha Hb Hc.
    apply Htrans; right; assumption. }
  constructor; [exact Hstrong |].
  destruct l as [| y l]; [constructor |].
  inversion_clear Hx as [| ? ? Hxy].
  inversion_clear Hstrong as [| ? ? _ Hy].
  constructor; [exact Hxy |].
  apply Forall_forall. intros z Hz. apply list_elem_of_In in Hz.
  apply (Htrans x y z); [left; reflexivity | right; left; reflexivity
                        | right; right; exact Hz | exact Hxy |].
  exact (proj1 (List.Forall_forall _ l) Hy z Hz).
Qed.
End SortFacts.


(* ================================================================ *)
(** * Name normalization *)
(* ================================================================ *)

(** ** The shape of a trimmed string *)

Lemma endsNonWs_app (a b : jsstring) :
  endsNonWs b = true -> endsNonWs (a ++ b) = true.
Proof.
  intros Hb. induction a as [| x a IH]; [exact Hb |].
  simpl. destruct (a ++ b) eqn:E; [| exact IH].
  destruct a; destruct b; discriminate.
Qed.

Lemma endsNonWs_rev (s : jsstring) : endsNonWs s = startsNonWs (rev s).
Proof.
  induction s as [| c r IH]; [reflexivity |].
  destruct r as [| d r'].
  - reflexivity.
  - change (endsNonWs (c :: d :: r')) with (endsNonWs (d :: r')).
    rewrite IH. change (rev (c :: d :: r')) with (rev (d :: r') ++ [c]).
    destruct (rev (d :: r')) eqn:E; [| reflexivity].
    apply (f_equal (@length Z)) in E. rewrite length_rev in E. discriminate.
Qed.

Lemma trimStart_fixed (s : jsstring) :
  startsNonWs s = true -> trimStart s = s.
Proof.
  destruct s as [| c r]; [discriminate |]. simpl.
  destruct (isWhiteSpace c); [discriminate | reflexivity].
Qed.

Lemma trim_fixed (s : jsstring) :
  startsNonWs s = true -> endsNonWs s = true -> trim s = s.
Proof.
  intros Hs He. unfold trim, trimEnd. rewrite (trimStart_fixed s Hs).
  rewrite trimStart_fixed by (rewrite <- endsNonWs_rev; exact He).
  apply rev_involutive.
Qed.

Lemma trimStart_shape (s : jsstring) :
  trimStart s = [] \/ startsNonWs (trimStart s) = true.
Proof.
  induction s as [| c r IH]; [left; reflexivity |]. simpl.
  destruct (isWhiteSpace c) eqn:E; [exact IH |].
  right. simpl. rewrite E. reflexivity.
Qed.

Lemma trimStart_suffix (s : jsstring) :
  exists w, s = w ++ trimStart s.
Proof.
  induction s as [| c r [w Hw]]; [exists []; reflexivity |]. simpl.
  destruct (isWhiteSpace c).
  - exists (c :: w). simpl. rewrite <- Hw. reflexivity.
  - exists []. reflexivity.
Qed.

(** [trim] returns the empty string or a string that begins and ends
    with a code unit other than white space. *)
Lemma trim_shape (s : jsstring) :
  trim s = []
  \/ (startsNonWs (trim s) = true /\ endsNonWs (trim s) = true).
Proof.
  unfold trim, trimEnd. set (y := trimStart s).
  destruct (trimStart_shape (rev y)) as [E | E].
  - left. rewrite E. reflexivity.
  - right. split.
    + destruct (trimStart_suffix (rev y)) as [w Hw].
      assert (Hy : y = rev (trimStart (rev y)) ++ rev w).
      { rewrite <- rev_app_distr, <- Hw, rev_involutive. reflexivity. }
      destruct (trimStart_shape s) as [Es | Es]; fold y in Es.
      * rewrite Es in E. discriminate.
      * destruct (rev (trimStart (rev y))) as [| c t] eqn:Et.
        { apply (f_equal (@rev Z)) in Et. rewrite rev_involutive in Et.
          rewrite Et in E. discriminate. }
        rewrite Hy in Es. exact Es.
    + rewrite endsNonWs_rev, rev_involutive. exact E.
Qed.

(** ** The replacement of the mis-encoded apostrophe keeps the shape *)

Lemma replaceMojibake_unfold (a b c : Z) (r : jsstring) :
  replaceMojibake (a :: b :: c :: r)
  = if (a =? 0xE2) && (b =? 0x20AC) && (c =? 0x2122)
    then 39 :: replaceMojibake r
    else a :: replaceMojibake (b :: c :: r).
Proof. reflexivity. Qed.

Lemma replaceMojibake_starts (s : jsstring) :
  startsNonWs s = true -> startsNonWs (replaceMojibake s) = true.
Proof.
  destruct s as [| a [| b [| c r]]]; try (intros H; exact H).
  rewrite replaceMojibake_unfold.
  destruct ((a =? 0xE2) && (b =? 0x20AC) && (c =? 0x2122));
    [reflexivity | exact id].
Qed.

Lemma replaceMojibake_ends_fuel (n : nat) :
  forall s : jsstring,
    (length s <= n)%nat -> endsNonWs s = true ->
    endsNonWs (replaceMojibake s) = true.
Proof.
  induction n as [| n IH]; intros s Hlen He.
  - destruct s; [discriminate | simpl in Hlen; lia].
  - destruct s as [| a [| b [| c r]]]; try exact He.
    rewrite replaceMojibake_unfold.
    destruct ((a =? 0xE2) && (b =? 0x20AC) && (c =? 0x2122)) eqn:E.
    + destruct r as [| d r']; [reflexivity |].
      change (39 :: replaceMojibake (d :: r'))
        with ([39] ++ replaceMojibake (d :: r')).
      apply endsNonWs_app, IH; [simpl in Hlen |- *; lia | exact He].
    + change (a :: replaceMojibake (b :: c :: r))
        with ([a] ++ replaceMojibake (b :: c :: r)).
      apply endsNonWs_app, IH; [simpl in Hlen |- *; lia | exact He].
Qed.

Lemma replaceMojibake_ends (s : jsstring) :
  endsNonWs s = true -> endsNonWs (replaceMojibake s) = true.
Proof. apply (replaceMojibake_ends_fuel (length s)). lia. Qed.

(** ** The collapse of white space keeps the shape and is idempotent *)

Lemma collapseFrom_ends (s : jsstring) :
  forall inRun, endsNonWs s = true -> endsNonWs (collapseFrom inRun s) = true.
Proof.
  induction s as [| c r IH]; intros inRun He; [discriminate |].
  destruct r as [| d r'].
  - simpl in He |- *. destruct (isWhiteSpace c) eqn:E; [discriminate |].
    simpl. rewrite E. reflexivity.
  - change (endsNonWs (c :: d :: r')) with (endsNonWs (d :: r')) in He.
    set (t := d :: r') in IH, He |- *.
    cbn [collapseFrom]. destruct (isWhiteSpace c); [destruct inRun |].
    + apply IH, He.
    + apply (endsNonWs_app [32]), IH, He.
    + apply (endsNonWs_app [c]), IH, He.
Qed.

Lemma collapseWhitespace_starts (s : jsstring) :
  startsNonWs s = true -> startsNonWs (collapseWhitespace s) = true.
Proof.
  destruct s as [| c r]; [discriminate |]. unfold collapseWhitespace. simpl.
  destruct (isWhiteSpace c) eqn:E; [discriminate |]. simpl. rewrite E.
  reflexivity.
Qed.

Lemma collapseFrom_idempotent (s : jsstring) :
  (forall inRun,
      collapseFrom false (collapseFrom inRun s) = collapseFrom inRun s)
  /\ collapseFrom true (collapseFrom true s) = collapseFrom true s.
Proof.
  induction s as [| c r [IH1 IH2]]; [split; [intros []|]; reflexivity |].
  split.
  - intros inRun. cbn [collapseFrom].
    destruct (isWhiteSpace c) eqn:E; [destruct inRun |].
    + apply IH1.
    + cbn [collapseFrom]. change (isWhiteSpace 32) with true. cbn iota.
      rewrite IH2. reflexivity.
    + cbn [collapseFrom]. rewrite E, IH1. reflexivity.
  - cbn [collapseFrom]. destruct (isWhiteSpace c) eqn:E.
    + exact IH2.
    + cbn [collapseFrom]. rewrite E, IH1. reflexivity.
Qed.

Lemma collapseWhitespace_idempotent (s : jsstring) :
  collapseWhitespace (collapseWhitespace s) = collapseWhitespace s.
Proof. apply (proj1 (collapseFrom_idempotent s)). Qed.

(** ** A string without the sequence is left alone *)

Lemma indexOfFrom_found (needle s : jsstring) (i : Z) :
  0 <= i -> indexOfFrom needle s i = -1 \/ i <= indexOfFrom needle s i.
Proof.
  revert i. induction s as [| c r IH]; intros i Hi; simpl.
  - destruct (startsWith needle []); [right; lia | left; reflexivity].
  - destruct (startsWith needle (c :: r)); [right; lia |].
    destruct (IH (i + 1) ltac:(lia)) as [H | H]; [left; exact H | right; lia].
Qed.

Lemma replaceMojibake_absent (s : jsstring) :
  forall i, 0 <= i -> indexOfFrom mojibake s i = -1 -> replaceMojibake s = s.
Proof.
  induction s as [| a t IH]; intros i Hi Hidx; [reflexivity |].
  cbn [indexOfFrom] in Hidx.
  destruct (startsWith mojibake (a :: t)) eqn:Es; [lia |].
  specialize (IH (i + 1) ltac:(lia) Hidx).
  destruct t as [| b [| c r]]; try reflexivity.
  rewrite replaceMojibake_unfold, IH.
  unfold mojibake in Es. cbn [startsWith] in Es.
  rewrite andb_true_r in Es.
  rewrite (Z.eqb_sym a), (Z.eqb_sym b), (Z.eqb_sym c), <- andb_assoc, Es.
  reflexivity.
Qed.

Lemma replaceMojibake_without (s : jsstring) :
  includes mojibake s = false -> replaceMojibake s = s.
Proof.
  unfold includes, indexOf. intros H. apply Z.leb_gt in H.
  apply (replaceMojibake_absent s 0); [lia |].
  destruct (indexOfFrom_found mojibake s 0 ltac:(lia)); lia.
Qed.

(** ** A string with the sequence gets shorter *)

Lemma collapseFrom_length (s : jsstring) :
  forall inRun, (length (collapseFrom inRun s) <= length s)%nat.
Proof.
  induction s as [| c r IH]; intros inRun; simpl; [lia |].
  destruct (isWhiteSpace c); [destruct inRun |]; simpl;
    [specialize (IH true) | specialize (IH true) | specialize (IH false)];
    lia.
Qed.

Lemma replaceMojibake_length_fuel (n : nat) :
  forall s : jsstring,
    (length s <= n)%nat -> (length (replaceMojibake s) <= length s)%nat.
Proof.
  induction n as [| n IH]; intros s Hlen.
  - destruct s; [simpl; lia | simpl in Hlen; lia].
  - destruct s as [| a [| b [| c r]]]; try (simpl; lia).
    rewrite replaceMojibake_unfold.
    destruct ((a =? 0xE2) && (b =? 0x20AC) && (c =? 0x2122)).
    + specialize (IH r). simpl in Hlen |- *. lia.
    + specialize (IH (b :: c :: r)). simpl in Hlen, IH |- *. lia.
Qed.

Lemma replaceMojibake_length (s : jsstring) :
  (length (replaceMojibake s) <= length s)%nat.
Proof. apply (replaceMojibake_length_fuel (length s)). lia. Qed.

Lemma replaceMojibake_present (s : jsstring) :
  forall i, 0 <= i -> 0 <= indexOfFrom mojibake s i ->
            (length (replaceMojibake s) < length s)%nat.
Proof.
  induction s as [| a t IH]; intros i Hi Hidx.
  - simpl in Hidx. lia.
  - cbn [indexOfFrom] in Hidx.
    destruct (startsWith mojibake (a :: t)) eqn:Es.
    + unfold mojibake in Es.
      destruct t as [| b [| c r]]; cbn [startsWith] in Es;
        rewrite ?andb_false_r in Es; try discriminate Es.
      rewrite andb_true_r in Es.
      rewrite replaceMojibake_unfold.
      rewrite (Z.eqb_sym a), (Z.eqb_sym b), (Z.eqb_sym c), <- andb_assoc, Es.
      pose proof (replaceMojibake_length r). simpl. lia.
    + specialize (IH (i + 1) ltac:(lia) Hidx).
      destruct t as [| b [| c r]]; try (simpl in IH; lia).
      rewrite replaceMojibake_unfold.
      unfold mojibake in Es. cbn [startsWith] in Es.
      rewrite andb_true_r in Es.
      rewrite (Z.eqb_sym a), (Z.eqb_sym b), (Z.eqb_sym c), <- andb_assoc, Es.
      simpl in IH |- *. lia.
Qed.

Lemma replaceMojibake_with (s : jsstring) :
  includes mojibake s = true ->
  (length (replaceMojibake s) < length s)%nat.
Proof.
  unfold includes, indexOf. intros H. apply Z.leb_le in H.
  exact (replaceMojibake_present s 0 ltac:(lia) H).
Qed.

(** ** Normalization *)

(** The string before lower-casing is in normal form for [trim] and the
    collapse of white space. *)
Lemma normal_spacing (name : jsstring) :
  let z := collapseWhitespace (replaceMojibake (trim name)) in
  trim z = z /\ collapseWhitespace z = z.
Proof.
  intros z. split; [| apply collapseWhitespace_idempotent].
  destruct (trim_shape name) as [E | [Hs He]].
  - subst z. rewrite E. reflexivity.
  - apply trim_fixed.
    + apply collapseWhitespace_starts, replaceMojibake_starts, Hs.
    + apply collapseFrom_ends, replaceMojibake_ends, He.
Qed.

(** C7, as the code has it.  Normalizing a normalized name returns it
    unchanged whenever the normalized name does not contain the
    mis-encoded apostrophe sequence, which lower-casing can bring into
    being after the replacement step has run. *)
Theorem normalizeCardName_idempotent (name : jsstring) :
  includes mojibake (normalizeCardName name) = false ->
  normalizeCardName (normalizeCardName name) = normalizeCardName name.
Proof using toLowerCase_idempotent toLowerCase_spacing.
  intros Hfree. unfold normalizeCardName in Hfree |- *.
  set (z := collapseWhitespace (replaceMojibake (trim name))) in Hfree |- *.
  destruct (normal_spacing name) as [Htrim Hcollapse]. fold z in Htrim, Hcollapse.
  destruct (toLowerCase_spacing z Htrim Hcollapse) as [Htrim' Hcollapse'].
  rewrite Htrim', (replaceMojibake_without _ Hfree), Hcollapse'.
  apply toLowerCase_idempotent.
Qed.


(* ================================================================ *)
(** * The share token *)
(* ================================================================ *)

Lemma dropEquals_pad (k : nat) (s : jsstring) :
  match s with c :: _ => c <> 61 | [] => True end ->
  dropEquals (replicate k 61 ++ s) = s.
Proof.
  intros Hs. induction k as [| k IH]; simpl.
  - destruct s as [| c r]; [reflexivity |]. simpl.
    destruct (Z.eqb_spec c 61); [contradiction | reflexivity].
  - exact IH.
Qed.

Lemma rev_replicate_61 (k : nat) : rev (replicate k 61) = replicate k 61.
Proof.
  induction k as [| k IH]; [reflexivity |]. simpl. rewrite IH.
  clear IH. induction k as [| k IH]; [reflexivity |].
  simpl. rewrite IH. reflexivity.
Qed.

Lemma stripTrailingEquals_padded (x : jsstring) (k : nat) :
  Forall (fun c => c <> 61) x ->
  stripTrailingEquals (x ++ replicate k 61) = x.
Proof.
  intros Hx. unfold stripTrailingEquals.
  rewrite rev_app_distr, rev_replicate_61, dropEquals_pad.
  - apply rev_involutive.
  - destruct (rev x) as [| c r] eqn:E; [exact I |].
    exact (proj1 (List.Forall_forall _ x) Hx c (rev_head_in x c r E)).
Qed.

(** The URL-safe substitution and its inverse, on one character of the
    standard alphabet. *)
Lemma urlSafe_inverse (c : Z) :
  c <> 45 -> c <> 95 ->
  (let u := if (if c =? 43 then 45 else c) =? 47 then 95
            else (if c =? 43 then 45 else c) in
   (if (if u =? 45 then 43 else u) =? 95 then 47
    else (if u =? 45 then 43 else u)) = c)
  /\ (c <> 61 ->
      (if (if c =? 43 then 45 else c) =? 47 then 95
       else (if c =? 43 then 45 else c)) <> 61).
Proof.
  intros H1 H2. cbv zeta.
  destruct (Z.eqb_spec c 43) as [-> | H3]; [simpl; split; [reflexivity | lia] |].
  destruct (Z.eqb_spec c 47) as [-> | H4]; [simpl; split; [reflexivity | lia] |].
  destruct (Z.eqb_spec c 45); [contradiction |].
  destruct (Z.eqb_spec c 95); [contradiction |]. pure_tauto.
Qed.

Lemma urlSafe_roundtrip (s : jsstring) :
  Forall (fun c => plainB64 c = true) s ->
  replaceChar 95 47 (replaceChar 45 43 (replaceChar 47 95 (replaceChar 43 45 s)))
  = s
  /\ Forall (fun c => c <> 61) (replaceChar 47 95 (replaceChar 43 45 s)).
Proof.
  induction 1 as [| c s Hc _ [IH1 IH2]]; [split; [reflexivity | constructor] |].
  apply plainB64_spec in Hc. destruct Hc as (H61 & H45 & H95 & _).
  destruct (urlSafe_inverse c H45 H95) as [Hinv Hne].
  unfold replaceChar in IH1, IH2 |- *. cbn [map]. split.
  - rewrite IH1. f_equal. exact Hinv.
  - constructor; [exact (Hne H61) | exact IH2].
Qed.

Lemma replaceChar_pad (x y : Z) (k : nat) :
  x <> 61 -> replaceChar x y (replicate k 61) = replicate k 61.
Proof.
  intros Hx. apply replaceChar_id. apply Forall_forall.
  intros c Hc. apply elem_of_replicate in Hc. destruct Hc as [-> _]. lia.
Qed.

(** The bytes of a token come back from its URL-safe, unpadded form. *)
Lemma base64ToBytes_url (bytes : list Z) :
  Forall isByte bytes -> base64ToBytes (bytesToBase64Url bytes) = Ok bytes.
Proof.
  intros Hb. unfold bytesToBase64Url. rewrite binaryString_id.
  pose proof (btoaCore_plain bytes Hb) as Hplain.
  destruct (urlSafe_roundtrip (btoaCore bytes) Hplain) as [Hround Hne].
  rewrite btoa_core_padding. unfold btoaPadding.
  unfold replaceChar at 1 2. rewrite !map_app.
  fold (replaceChar 43 45 (btoaCore bytes)).
  fold (replaceChar 47 95 (replaceChar 43 45 (btoaCore bytes))).
  fold (replaceChar 43 45 (replicate ((3 - length bytes mod 3) mod 3) 61)).
  rewrite (replaceChar_pad 43 45) by lia.
  fold (replaceChar 47 95 (replicate ((3 - length bytes mod 3) mod 3) 61)).
  rewrite (replaceChar_pad 47 95) by lia.
  rewrite (stripTrailingEquals_padded _ _ Hne).
  unfold base64ToBytes. rewrite Hround.
  destruct (btoaCore_length bytes) as [_ Hpad]. rewrite Hpad.
  rewrite (atob_btoa bytes Hb), (toUint8_bytes bytes Hb). reflexivity.
Qed.

(** C8.  Decoding the share token of a deck-code URI returns the URI:
    for every ASCII string that [trim] keeps, and so for every URI that
    [buildYdke] produces. *)
Theorem decodeDeckHash_encodeDeckHash :
  (forall s : jsstring,
      Forall isAscii s -> trim s = s ->
      decodeDeckHash (encodeDeckHash s) = Ok s)
  /\ (forall m e s : list Z,
        decodeDeckHash (encodeDeckHash (buildYdke m e s))
        = Ok (buildYdke m e s)).
Proof using gzip_bytes ungzip_gzip.
  assert (Hround : forall s : jsstring,
             Forall isAscii s -> trim s = s ->
             decodeDeckHash (encodeDeckHash s) = Ok s).
  { intros s Hascii Htrim. unfold decodeDeckHash, encodeDeckHash.
    rewrite Htrim, (base64ToBytes_url _ (gzip_bytes s)). cbn [bind].
    destruct (ungzip_gzip s Hascii) as (text & -> & ->). reflexivity. }
  split; [exact Hround |].
  intros m e s. destruct (buildYdke_trimmed m e s) as (Htrim & _ & Hascii).
  apply Hround; assumption.
Qed.


(* ================================================================ *)
(** * More on the deck codec *)
(* ================================================================ *)

(** ** Characters of the encodings *)

Lemma btoaCore_Forall (P : Z -> Prop) :
  (forall i, 0 <= i < 64 -> P (b64char i)) ->
  forall bytes, Forall isByte bytes -> Forall P (btoaCore bytes).
Proof.
  intros HP bytes.
  induction bytes as [| a | a b | a b c rest IH] using list_ind3;
    intros H; simpl.
  - constructor.
  - inversion_clear H as [| ? ? Ha _].
    repeat constructor; apply HP; byte_arith.
  - inversion_clear H as [| ? ? Ha H']. inversion_clear H' as [| ? ? Hb _].
    repeat constructor; apply HP; byte_arith.
  - inversion_clear H as [| ? ? Ha H']. inversion_clear H' as [| ? ? Hb H''].
    inversion_clear H'' as [| ? ? Hc Hrest].
    repeat (constructor; [apply HP; byte_arith |]).
    apply IH, Hrest.
Qed.

(** The URL-safe form is the unpadded standard form with [+] and [/]
    replaced. *)
Lemma bytesToBase64Url_core (bytes : list Z) :
  Forall isByte bytes ->
  bytesToBase64Url bytes
  = replaceChar 47 95 (replaceChar 43 45 (btoaCore bytes)).
Proof.
  intros Hb. unfold bytesToBase64Url. rewrite binaryString_id.
  pose proof (btoaCore_plain bytes Hb) as Hplain.
  destruct (urlSafe_roundtrip (btoaCore bytes) Hplain) as [_ Hne].
  rewrite btoa_core_padding. unfold btoaPadding.
  unfold replaceChar at 1 2. rewrite !map_app.
  fold (replaceChar 43 45 (btoaCore bytes)).
  fold (replaceChar 47 95 (replaceChar 43 45 (btoaCore bytes))).
  fold (replaceChar 43 45 (replicate ((3 - length bytes mod 3) mod 3) 61)).
  rewrite (replaceChar_pad 43 45) by lia.
  fold (replaceChar 47 95 (replicate ((3 - length bytes mod 3) mod 3) 61)).
  rewrite (replaceChar_pad 47 95) by lia.
  apply (stripTrailingEquals_padded _ _ Hne).
Qed.

Lemma urlChar_safe (i : Z) :
  0 <= i < 64 ->
  isUrlSafeChar
    (if (if b64char i =? 43 then 45 else b64char i) =? 47 then 95
     else (if b64char i =? 43 then 45 else b64char i)) = true.
Proof.
  exact (forallb_below
           (fun i => isUrlSafeChar
                       (if (if b64char i =? 43 then 45 else b64char i) =? 47
                        then 95
                        else (if b64char i =? 43 then 45 else b64char i)))
           64 eq_refl i).
Qed.

Lemma bytesToBase64Url_safe (bytes : list Z) :
  Forall isByte bytes ->
  Forall (fun c => isUrlSafeChar c = true) (bytesToBase64Url bytes).
Proof.
  intros Hb. rewrite (bytesToBase64Url_core bytes Hb).
  unfold replaceChar. rewrite map_map. apply List.Forall_map.
  apply (btoaCore_Forall
           (fun c => isUrlSafeChar
                       (if (if c =? 43 then 45 else c) =? 47 then 95
                        else (if c =? 43 then 45 else c)) = true)
           urlChar_safe bytes Hb).
Qed.

Lemma urlSafe_sectionChar (c : Z) :
  isUrlSafeChar c = true -> sectionChar c.
Proof.
  unfold isUrlSafeChar, sectionChar, isAscii, isWhiteSpace. intros H.
  rewrite !orb_true_iff, !andb_true_iff, !Z.leb_le, !Z.eqb_eq in H.
  assert (Hc : 45 <= c <= 122) by (clear_runtime; lia).
  split; [clear_runtime; lia |]. split; [| clear_runtime; lia].
  rewrite !orb_false_iff, !andb_false_iff, !Z.leb_gt, !Z.eqb_neq.
  clear_runtime. lia.
Qed.

(** ** Strings: [trim], white space and the search for a substring *)

Lemma trimStart_app_nonws (s : jsstring) (c : Z) (t : jsstring) :
  isWhiteSpace c = false ->
  trimStart (s ++ c :: t) = trimStart s ++ c :: t.
Proof.
  intros Hc. induction s as [| a s IH]; simpl.
  - rewrite Hc. reflexivity.
  - destruct (isWhiteSpace a); [exact IH | reflexivity].
Qed.

Lemma trimStart_blank (s : jsstring) :
  trimStart s = [] <-> Forall (fun c => isWhiteSpace c = true) s.
Proof.
  induction s as [| c r IH]; simpl.
  - split; [constructor | reflexivity].
  - destruct (isWhiteSpace c) eqn:E.
    + rewrite IH. split; [constructor; assumption |].
      intros H. inversion H. assumption.
    + split; [discriminate |]. intros H. inversion H. congruence.
Qed.

Lemma trim_blank (s : jsstring) :
  trim s = [] <-> Forall (fun c => isWhiteSpace c = true) s.
Proof.
  rewrite <- trimStart_blank. unfold trim, trimEnd. split.
  - intros H. apply (f_equal (@rev Z)) in H.
    rewrite rev_involutive in H. cbn [rev] in H.
    apply trimStart_blank in H.
    destruct (trimStart_shape s) as [E | E]; [exact E |].
    destruct (trimStart s) as [| c r]; [reflexivity |].
    simpl in E.
    assert (Hc : isWhiteSpace c = true).
    { apply (proj1 (List.Forall_forall _ _) H). apply in_rev.
      rewrite rev_involutive. left. reflexivity. }
    rewrite Hc in E. discriminate.
  - intros ->. reflexivity.
Qed.

Lemma removeWhitespace_trimStart (s : jsstring) :
  removeWhitespace (trimStart s) = removeWhitespace s.
Proof.
  induction s as [| c r IH]; [reflexivity |]. simpl.
  destruct (isWhiteSpace c) eqn:E; [exact IH |].
  simpl. rewrite E. reflexivity.
Qed.

Lemma removeWhitespace_rev (s : jsstring) :
  removeWhitespace (rev s) = rev (removeWhitespace s).
Proof.
  unfold removeWhitespace. induction s as [| c r IH]; [reflexivity |].
  simpl. rewrite List.filter_app, IH. simpl.
  destruct (isWhiteSpace c); simpl; [apply app_nil_r | reflexivity].
Qed.

Lemma removeWhitespace_trimEnd (s : jsstring) :
  removeWhitespace (trimEnd s) = removeWhitespace s.
Proof.
  unfold trimEnd.
  rewrite removeWhitespace_rev, removeWhitespace_trimStart,
    removeWhitespace_rev.
  apply rev_involutive.
Qed.

Lemma removeWhitespace_trim (s : jsstring) :
  removeWhitespace (trim s) = removeWhitespace s.
Proof.
  unfold trim. rewrite removeWhitespace_trimEnd.
  apply removeWhitespace_trimStart.
Qed.

Lemma Forall_trimStart (P : Z -> Prop) (s : jsstring) :
  Forall P s -> Forall P (trimStart s).
Proof.
  induction 1 as [| c r Hc Hr IH]; simpl; [constructor |].
  destruct (isWhiteSpace c); [exact IH | constructor; assumption].
Qed.

Lemma Forall_trimEnd (P : Z -> Prop) (s : jsstring) :
  Forall P s -> Forall P (trimEnd s).
Proof.
  intros H. unfold trimEnd. apply List.Forall_rev, Forall_trimStart.
  apply List.Forall_rev. exact H.
Qed.

Lemma Forall_trim (P : Z -> Prop) (s : jsstring) :
  Forall P s -> Forall P (trim s).
Proof. intros H. apply Forall_trimEnd, Forall_trimStart, H. Qed.

(** [trim] of a string that begins with text keeps the text and trims
    the end of what follows it. *)
Lemma trim_prefixed (c : Z) (m p : jsstring) :
  Forall (fun x => isWhiteSpace x = false) (c :: m) ->
  trim ((c :: m) ++ p) = (c :: m) ++ trimEnd p.
Proof.
  intros Hm. unfold trim.
  assert (Hc : isWhiteSpace c = false) by (inversion Hm; assumption).
  change (trimStart ((c :: m) ++ p)) with (trimStart (c :: m ++ p)).
  cbn [trimStart]. rewrite Hc.
  change (c :: m ++ p) with ((c :: m) ++ p).
  unfold trimEnd. rewrite rev_app_distr.
  destruct (rev (c :: m)) as [| d t] eqn:E.
  - apply (f_equal (@length Z)) in E. rewrite length_rev in E.
    discriminate.
  - assert (Hd : isWhiteSpace d = false).
    { apply (proj1 (List.Forall_forall _ _) Hm). apply in_rev.
      rewrite E. left. reflexivity. }
    rewrite (trimStart_app_nonws _ d t Hd), rev_app_distr, <- E,
      rev_involutive.
    reflexivity.
Qed.

Lemma startsWith_split (p s : jsstring) :
  startsWith p s = true -> exists t, s = p ++ t.
Proof.
  revert s. induction p as [| a p IH]; intros s H.
  - exists s. reflexivity.
  - destruct s as [| b s]; [discriminate |]. simpl in H.
    apply andb_true_iff in H. destruct H as [Hab Hps].
    apply Z.eqb_eq in Hab. subst b.
    destruct (IH s Hps) as [t ->]. exists t. reflexivity.
Qed.

Lemma indexOfFrom_occurs (needle s : jsstring) :
  forall i, 0 <= i ->
    0 <= indexOfFrom needle s i <-> exists a b, s = a ++ needle ++ b.
Proof.
  induction s as [| c r IH]; intros i Hi.
  - cbn [indexOfFrom]. destruct (startsWith needle []) eqn:E.
    + split; [| intros _; exact Hi]. intros _.
      destruct (startsWith_split _ _ E) as [t Ht].
      exists [], t. exact Ht.
    + split; [clear_runtime; lia |]. intros (a & b & Hab).
      destruct a; [| discriminate].
      simpl in Hab. rewrite Hab, startsWith_app in E. discriminate.
  - cbn [indexOfFrom]. destruct (startsWith needle (c :: r)) eqn:E.
    + split; [| intros _; exact Hi]. intros _.
      destruct (startsWith_split _ _ E) as [t Ht].
      exists [], t. exact Ht.
    + rewrite (IH (i + 1)) by (clear_runtime; lia). split.
      * intros (a & b & ->). exists (c :: a), b. reflexivity.
      * intros (a & b & Hab). destruct a as [| x a].
        { simpl in Hab. rewrite Hab, startsWith_app in E. discriminate. }
        injection Hab as _ ->. exists a, b. reflexivity.
Qed.

Lemma includes_occurs (needle s : jsstring) :
  includes needle s = true <-> exists a b, s = a ++ needle ++ b.
Proof.
  unfold includes, indexOf. rewrite Z.leb_le.
  apply indexOfFrom_occurs. clear_runtime. lia.
Qed.

Lemma trim_infix (s : jsstring) : exists a b, s = a ++ trim s ++ b.
Proof.
  unfold trim, trimEnd.
  destruct (trimStart_suffix s) as [a Ha].
  destruct (trimStart_suffix (rev (trimStart s))) as [w Hw].
  exists a, (rev w). rewrite <- rev_app_distr, <- Hw, rev_involutive.
  exact Ha.
Qed.

(** A substring of the trimmed string is a substring of the string. *)
Lemma includes_trim (f : Z -> Z) (needle s : jsstring) :
  includes needle (map f (trim s)) = true ->
  includes needle (map f s) = true.
Proof.
  rewrite !includes_occurs. intros (a & b & Hab).
  destruct (trim_infix s) as (x & y & Hs).
  exists (map f x ++ a), (b ++ map f y).
  rewrite Hs at 1. rewrite !map_app, Hab, <- !app_assoc. reflexivity.
Qed.

(** ** The sections that [parseYdke] finds *)

Lemma isWhiteSpace_printable (c : Z) :
  33 <= c <= 126 -> isWhiteSpace c = false.
Proof.
  intros Hc. unfold isWhiteSpace.
  rewrite !orb_false_iff, !andb_false_iff, !Z.leb_gt, !Z.eqb_neq.
  clear_runtime. lia.
Qed.

Lemma lowerAscii_whitespace (c : Z) :
  isWhiteSpace (lowerAscii c) = isWhiteSpace c.
Proof.
  unfold lowerAscii.
  destruct (Z.leb_spec 65 c); destruct (Z.leb_spec c 90); simpl;
    try reflexivity.
  rewrite !isWhiteSpace_printable by (clear_runtime; lia). reflexivity.
Qed.

Lemma marker_nonws (marker : jsstring) :
  map lowerAscii marker = js "ydke://" ->
  Forall (fun c => isWhiteSpace c = false) marker.
Proof.
  intros H.
  assert (Hl : Forall (fun c => isWhiteSpace c = false)
                 (map lowerAscii marker))
    by (rewrite H; repeat constructor).
  apply List.Forall_map in Hl.
  eapply List.Forall_impl; [| exact Hl].
  intros c Hc. simpl in Hc. rewrite lowerAscii_whitespace in Hc. exact Hc.
Qed.

(** After a marker in any letter case the payload is what follows, with
    all white space removed. *)
Lemma ydkeSections_marker (marker p : jsstring) :
  map lowerAscii marker = js "ydke://" ->
  Forall isAscii (marker ++ p) ->
  isEmpty (trim (marker ++ p)) = false
  /\ ydkeSections (marker ++ p) = split 33 (removeWhitespace p).
Proof using toLowerCase_ascii.
  intros Hm Hascii.
  pose proof (marker_nonws marker Hm) as Hws.
  assert (Hlen : length marker = 7%nat).
  { rewrite <- (length_map lowerAscii), Hm. reflexivity. }
  destruct marker as [| c m]; [discriminate |].
  pose proof (trim_prefixed c m p Hws) as Htrim.
  split; [rewrite Htrim; reflexivity |].
  unfold ydkeSections. rewrite Htrim.
  apply Forall_app in Hascii. destruct Hascii as [Ha Hp].
  rewrite toLowerCase_ascii
    by (apply Forall_app; split; [exact Ha | apply Forall_trimEnd, Hp]).
  rewrite map_app, Hm, indexOf_prefix.
  change (0 <=? 0) with true. cbv iota.
  unfold slice. change (Z.to_nat (0 + 7)) with 7%nat.
  rewrite <- Hlen, drop_app_length.
  rewrite removeWhitespace_trimEnd. reflexivity.
Qed.

(** Without a marker the whole input is the payload. *)
Lemma ydkeSections_plain (p : jsstring) :
  Forall isAscii p ->
  includes (js "ydke://") (map lowerAscii p) = false ->
  ydkeSections p = split 33 (removeWhitespace p).
Proof using toLowerCase_ascii.
  intros Hascii Hfree. unfold ydkeSections.
  rewrite toLowerCase_ascii by (apply Forall_trim, Hascii).
  assert (Hno : includes (js "ydke://") (map lowerAscii (trim p)) = false).
  { destruct (includes (js "ydke://") (map lowerAscii (trim p))) eqn:E;
      [| reflexivity].
    apply includes_trim in E. rewrite E in Hfree. discriminate. }
  unfold includes in Hno. rewrite Hno.
  rewrite removeWhitespace_trim. reflexivity.
Qed.

Lemma parseYdke_by_sections (raw1 raw2 : jsstring) :
  isEmpty (trim raw1) = false -> isEmpty (trim raw2) = false ->
  ydkeSections raw1 = ydkeSections raw2 ->
  parseYdke raw1 = parseYdke raw2.
Proof.
  intros H1 H2 Hs. rewrite !parseYdke_unfold, H1, H2, Hs. reflexivity.
Qed.

Lemma marker_ascii : Forall isAscii (js "ydke://").
Proof. repeat constructor; unfold isAscii; simpl; clear_runtime; lia. Qed.

(** X1.  The marker [ydke://] is recognised in any letter case, and an
    input without it is read as if the marker stood before it. *)
Theorem parseYdke_marker_optional :
  (forall marker p : jsstring,
      map lowerAscii marker = js "ydke://" ->
      Forall isAscii (marker ++ p) ->
      parseYdke (marker ++ p) = parseYdke (js "ydke://" ++ p))
  /\ (forall p : jsstring,
        Forall isAscii p -> isEmpty (trim p) = false ->
        includes (js "ydke://") (map lowerAscii p) = false ->
        parseYdke p = parseYdke (js "ydke://" ++ p)).
Proof using toLowerCase_ascii.
  assert (Hstd : forall p, Forall isAscii p ->
             isEmpty (trim (js "ydke://" ++ p)) = false
             /\ ydkeSections (js "ydke://" ++ p)
                = split 33 (removeWhitespace p)).
  { intros p Hp. apply ydkeSections_marker; [reflexivity |].
    apply Forall_app. split; [exact marker_ascii | exact Hp]. }
  split.
  - intros marker p Hm Hascii.
    destruct (ydkeSections_marker marker p Hm Hascii) as [Hne Hs].
    apply Forall_app in Hascii. destruct Hascii as [_ Hp].
    destruct (Hstd p Hp) as [Hne' Hs'].
    apply parseYdke_by_sections; [exact Hne | exact Hne' |].
    rewrite Hs, Hs'. reflexivity.
  - intros p Hp Hne Hfree. destruct (Hstd p Hp) as [Hne' Hs'].
    apply parseYdke_by_sections; [exact Hne | exact Hne' |].
    rewrite (ydkeSections_plain p Hp Hfree), Hs'. reflexivity.
Qed.

(** X2.  White space anywhere in the payload is ignored: two payloads
    that differ only in white space decode alike. *)
Theorem parseYdke_ignores_whitespace (p q : jsstring) :
  Forall isAscii p -> Forall isAscii q ->
  removeWhitespace p = removeWhitespace q ->
  parseYdke (js "ydke://" ++ p) = parseYdke (js "ydke://" ++ q).
Proof using toLowerCase_ascii.
  intros Hp Hq Heq.
  destruct (ydkeSections_marker (js "ydke://") p eq_refl) as [Hnp Hsp].
  { apply Forall_app. split; [exact marker_ascii | exact Hp]. }
  destruct (ydkeSections_marker (js "ydke://") q eq_refl) as [Hnq Hsq].
  { apply Forall_app. split; [exact marker_ascii | exact Hq]. }
  apply parseYdke_by_sections; [exact Hnp | exact Hnq |].
  rewrite Hsp, Hsq, Heq. reflexivity.
Qed.

(** X3.  [parseYdke] reports that no deck was given exactly for the
    inputs that consist of white space only, the empty one included. *)
Theorem parseYdke_no_deck (rawInput : jsstring) :
  parseYdke rawInput = Throw NoDeckProvided
  <-> Forall (fun c => isWhiteSpace c = true) rawInput.
Proof.
  rewrite <- trim_blank, parseYdke_unfold. split.
  - destruct (trim rawInput) as [| c r]; [reflexivity |].
    cbn [isEmpty].
    destruct (Z.of_nat (length (ydkeSections rawInput)) <? 3);
      [discriminate |].
    destruct (ydkeSections rawInput) as [| m [| e [| s rest]]];
      try discriminate.
    intros Hd. destruct (decodeSections_error _ _ _ _ Hd); discriminate.
  - intros ->. reflexivity.
Qed.

(** ** Base64 in both alphabets *)

(** X4.  Every byte sequence comes back from its standard encoding and
    from its URL-safe, unpadded encoding. *)
Theorem base64ToBytes_inverts (bytes : list Z) :
  Forall isByte bytes ->
  base64ToBytes (bytesToBase64Standard bytes) = Ok bytes
  /\ base64ToBytes (bytesToBase64Url bytes) = Ok bytes.
Proof.
  intros Hb. split.
  - apply base64ToBytes_standard, Hb.
  - apply base64ToBytes_url, Hb.
Qed.

(** X5.  A share token consists of letters, digits, [-] and [_] only. *)
Theorem encodeDeckHash_urlSafe (ydke : jsstring) :
  Forall (fun c => isUrlSafeChar c = true) (encodeDeckHash ydke).
Proof using gzip_bytes.
  unfold encodeDeckHash. apply bytesToBase64Url_safe, gzip_bytes.
Qed.

Lemma bytesToBase64Standard_chars (bytes : list Z) :
  Forall isByte bytes -> Forall sectionChar (bytesToBase64Standard bytes).
Proof.
  intros Hb. unfold bytesToBase64Standard.
  rewrite binaryString_id, btoa_core_padding.
  apply Forall_app. split.
  - eapply Forall_plain_impl; [| exact (btoaCore_plain _ Hb)].
    intros c Hc. apply plainB64_spec in Hc. unfold sectionChar. pure_tauto.
  - apply Forall_forall. intros c Hc. apply elem_of_replicate in Hc.
    destruct Hc as [-> _]. unfold sectionChar, isAscii.
    split; [clear_runtime; lia | split; [reflexivity | clear_runtime; lia]].
Qed.

Lemma bytesToBase64Standard_nonempty (bytes : list Z) :
  bytes <> [] -> isEmpty (bytesToBase64Standard bytes) = false.
Proof.
  intros Hne. unfold bytesToBase64Standard. rewrite binaryString_id.
  destruct bytes as [| a [| b [| c r]]]; [contradiction | | |];
    reflexivity.
Qed.

Lemma bytesToBase64Url_nonempty (bytes : list Z) :
  Forall isByte bytes -> bytes <> [] ->
  isEmpty (bytesToBase64Url bytes) = false.
Proof.
  intros Hb Hne. pose proof (base64ToBytes_url bytes Hb) as H.
  destruct (bytesToBase64Url bytes); [| reflexivity].
  vm_compute in H. congruence.
Qed.

(** ** Sections in the URL-safe alphabet *)

Lemma decodeSection_bytes (section : jsstring) (bytes : list Z) :
  isEmpty section = false -> base64ToBytes section = Ok bytes ->
  decodeSection section
  = if Z.of_nat (length bytes) mod 4 =? 0
    then Ok (decodeLoop bytes 0 false 0 [])
    else Throw Misaligned.
Proof.
  intros Hne Hb. unfold decodeSection. rewrite Hne, Hb. cbn [bind].
  destruct (Z.of_nat (length bytes) mod 4 =? 0); reflexivity.
Qed.

Lemma sectionBytes_aligned (ids : list Z) :
  (Z.of_nat (length (sectionBytes ids)) mod 4 =? 0) = true.
Proof.
  unfold sectionBytes. rewrite sectionBytes_length.
  replace (4 * Z.of_nat (length ids)) with (0 + Z.of_nat (length ids) * 4)
    by (clear_runtime; lia).
  rewrite Z.mod_add by (clear_runtime; lia). reflexivity.
Qed.

Lemma decodeSection_url (ids : list Z) :
  Forall isUint32 ids ->
  exists decoded,
    decodeSection (bytesToBase64Url (sectionBytes ids)) = Ok decoded
    /\ cards decoded = ids.
Proof.
  intros Hids. destruct ids as [| id ids].
  - eexists. split; reflexivity.
  - pose proof (sectionBytes_bytes (id :: ids)) as Hb.
    fold (sectionBytes (id :: ids)) in Hb.
    rewrite (decodeSection_bytes _ (sectionBytes (id :: ids))).
    + rewrite sectionBytes_aligned. eexists. split; [reflexivity |].
      rewrite decodeLoop_cards. apply (wordsOf_sectionBytes _ Hids).
    + apply bytesToBase64Url_nonempty; [exact Hb | discriminate].
    + apply base64ToBytes_url, Hb.
Qed.

Lemma urlSection_chars (ids : list Z) :
  Forall sectionChar (bytesToBase64Url (sectionBytes ids)).
Proof.
  eapply List.Forall_impl; [exact urlSafe_sectionChar |].
  apply bytesToBase64Url_safe, sectionBytes_bytes.
Qed.

(** X6.  A deck code whose sections are written in the URL-safe
    alphabet, without padding, decodes to the same ids as the standard
    form. *)
Theorem parseYdke_urlSafe_sections (m e s : list Z) :
  Forall isUint32 m -> Forall isUint32 e -> Forall isUint32 s ->
  exists deck,
    parseYdke (js "ydke://"
               ++ join (js "!") [bytesToBase64Url (sectionBytes m);
                                 bytesToBase64Url (sectionBytes e);
                                 bytesToBase64Url (sectionBytes s)])
    = Ok deck
    /\ main deck = m /\ extra deck = e /\ side deck = s.
Proof using toLowerCase_ascii.
  intros Hm He Hs.
  destruct (ydkeSections_joined _ _ _ (urlSection_chars m)
              (urlSection_chars e) (urlSection_chars s))
    as (Htrim & Hne & Hsections).
  cbv zeta in Htrim, Hne, Hsections.
  erewrite parseYdke_sections;
    [| rewrite Htrim; exact Hne | exact Hsections].
  destruct (decodeSection_url m Hm) as (dm & Edm & Hdm).
  destruct (decodeSection_url e He) as (de & Ede & Hde).
  destruct (decodeSection_url s Hs) as (ds & Eds & Hds).
  unfold decodeSections. rewrite Edm, Ede, Eds. cbn [bind].
  eexists. split; [reflexivity |]. cbn [main extra side]. auto.
Qed.

(** ** Errors of a section *)

(** X7.  A first section whose bytes are not a whole number of 32-bit
    words makes [parseYdke] fail with the alignment error, whatever the
    other sections hold. *)
Theorem parseYdke_misaligned (bytes : list Z) (e s : jsstring) :
  Forall isByte bytes -> Z.of_nat (length bytes) mod 4 <> 0 ->
  Forall sectionChar e -> Forall sectionChar s ->
  parseYdke (js "ydke://"
             ++ join (js "!") [bytesToBase64Standard bytes; e; s])
  = Throw Misaligned.
Proof using toLowerCase_ascii.
  intros Hb Hlen He Hs.
  destruct (ydkeSections_joined _ e s (bytesToBase64Standard_chars bytes Hb)
              He Hs) as (Htrim & Hne & Hsections).
  cbv zeta in Htrim, Hne, Hsections.
  erewrite parseYdke_sections;
    [| rewrite Htrim; exact Hne | exact Hsections].
  unfold decodeSections.
  rewrite (decodeSection_bytes _ bytes).
  - destruct (Z.eqb_spec (Z.of_nat (length bytes) mod 4) 0);
      [contradiction | reflexivity].
  - apply bytesToBase64Standard_nonempty. intros ->. apply Hlen.
    reflexivity.
  - apply base64ToBytes_standard, Hb.
Qed.

Lemma sextets_invalid (c : Z) (s : jsstring) :
  In c s -> b64index c = None -> sextets s = None.
Proof.
  intros Hin Hc. induction s as [| x r IH]; [contradiction |].
  cbn [sextets]. destruct Hin as [-> | Hin].
  - rewrite Hc. reflexivity.
  - rewrite (IH Hin). destruct (b64index x); reflexivity.
Qed.

Lemma stripPadding_keeps (c : Z) (s : jsstring) :
  In c s -> c <> 61 -> In c (stripPadding s).
Proof.
  intros Hin Hc. unfold stripPadding.
  destruct (Z.of_nat (length s) mod 4 =? 0); [| exact Hin].
  apply in_rev in Hin.
  destruct (rev s) as [| x [| y r]] eqn:E; [contradiction | |].
  - destruct (Z.eqb_spec x 61) as [-> | _].
    + destruct Hin as [<- | []]. contradiction.
    + apply in_rev. rewrite E. exact Hin.
  - destruct (Z.eqb_spec x 61) as [-> | _].
    + destruct Hin as [<- | Hin]; [contradiction |].
      destruct (Z.eqb_spec y 61) as [-> | _].
      * destruct Hin as [<- | Hin]; [contradiction |].
        apply in_rev in Hin. exact Hin.
      * apply in_rev in Hin. exact Hin.
    + apply in_rev. rewrite E. exact Hin.
Qed.

Lemma atob_invalid (c : Z) (data : jsstring) :
  In c data -> isAsciiWhitespace c = false -> c <> 61 ->
  b64index c = None -> atob data = None.
Proof.
  intros Hin Hws H61 Hidx. unfold atob.
  assert (Hkept : In c (stripPadding
                          (List.filter (fun c => negb (isAsciiWhitespace c))
                             data))).
  { apply stripPadding_keeps; [| exact H61].
    apply filter_In. split; [exact Hin |]. rewrite Hws. reflexivity. }
  rewrite (sextets_invalid c _ Hkept Hidx).
  destruct (_ =? 1); reflexivity.
Qed.

Lemma base64ToBytes_invalid (c : Z) (section : jsstring) :
  In c section -> isBase64Input c = false ->
  base64ToBytes section = Throw InvalidCharacter.
Proof.
  intros Hin Hc. unfold isBase64Input in Hc.
  rewrite !orb_false_iff, !Z.eqb_neq in Hc.
  destruct Hc as ((((Hidx & H45) & H95) & H61) & Hws).
  unfold base64ToBytes. rewrite (atob_invalid c); auto.
  - apply in_or_app. left. unfold replaceChar. rewrite map_map.
    apply in_map_iff. exists c. split; [| exact Hin].
    destruct (Z.eqb_spec c 45); [contradiction |].
    destruct (Z.eqb_spec c 95); [contradiction | reflexivity].
  - destruct (b64index c); [discriminate | reflexivity].
Qed.

(** X8.  A first section that holds a character outside both base64
    alphabets makes [parseYdke] fail with the character error. *)
Theorem parseYdke_invalid_character (c : Z) (m e s : jsstring) :
  In c m -> isBase64Input c = false ->
  Forall sectionChar m -> Forall sectionChar e -> Forall sectionChar s ->
  parseYdke (js "ydke://" ++ join (js "!") [m; e; s])
  = Throw InvalidCharacter.
Proof using toLowerCase_ascii.
  intros Hin Hc Hm He Hs.
  destruct (ydkeSections_joined m e s Hm He Hs)
    as (Htrim & Hne & Hsections).
  cbv zeta in Htrim, Hne, Hsections.
  erewrite parseYdke_sections;
    [| rewrite Htrim; exact Hne | exact Hsections].
  unfold decodeSections, decodeSection.
  destruct m as [| x m']; [contradiction |]. cbn [isEmpty].
  rewrite (base64ToBytes_invalid c _ Hin Hc). reflexivity.
Qed.

(** ** Ids outside the unsigned 32-bit range *)

Lemma setUint32_toUint32 (id : Z) : setUint32 (toUint32 id) = setUint32 id.
Proof.
  unfold setUint32, toUint32. cbv zeta.
  rewrite Z.mod_mod by (clear_runtime; lia). reflexivity.
Qed.

Lemma encodeSection_toUint32 (ids : list Z) :
  encodeSection (map toUint32 ids) = encodeSection ids.
Proof.
  unfold encodeSection. rewrite length_map, map_map.
  rewrite (map_ext (fun id => setUint32 (toUint32 id)) setUint32
             setUint32_toUint32).
  reflexivity.
Qed.

Lemma toUint32_range (ids : list Z) : Forall isUint32 (map toUint32 ids).
Proof.
  apply List.Forall_map, Forall_forall. intros id _.
  unfold isUint32, toUint32. apply Z.mod_pos_bound. clear_runtime. lia.
Qed.

(** X9.  [buildYdke] stores every id modulo 2^32: the deck code of
    arbitrary integers decodes to their residues, in order. *)
Theorem parseYdke_buildYdke_wraps (m e s : list Z) :
  exists deck,
    parseYdke (buildYdke m e s) = Ok deck
    /\ main deck = map toUint32 m
    /\ extra deck = map toUint32 e
    /\ side deck = map toUint32 s.
Proof using toLowerCase_ascii.
  destruct (ydkeSections_joined (encodeSection m) (encodeSection e)
              (encodeSection s) (encodeSection_chars m)
              (encodeSection_chars e) (encodeSection_chars s))
    as (Htrim & Hne & Hsections).
  cbv zeta in Htrim, Hne, Hsections. unfold buildYdke.
  erewrite parseYdke_sections;
    [| rewrite Htrim; exact Hne | exact Hsections].
  rewrite <- (encodeSection_toUint32 m), <- (encodeSection_toUint32 e),
    <- (encodeSection_toUint32 s).
  apply decodeSections_encoded; apply toUint32_range.
Qed.

(** ** The advisory fields of a decoded deck *)

Lemma countZeros_app (a b : list Z) :
  countZeros (a ++ b) = countZeros a + countZeros b.
Proof.
  unfold countZeros. rewrite List.filter_app, length_app.
  clear_runtime. lia.
Qed.

Lemma zerosAfterCard_nonneg (ids : list Z) : 0 <= zerosAfterCard ids.
Proof. unfold zerosAfterCard, countZeros. clear_runtime. lia. Qed.

Lemma decodeSections_flags (m e s : jsstring) (deck : ParsedDeck) :
  decodeSections m e s = Ok deck ->
  hasInferredIds deck
  = (if 0 <? zerosAfterCard (main deck) + zerosAfterCard (extra deck)
            + zerosAfterCard (side deck)
     then Some true else None).
Proof.
  unfold decodeSections.
  destruct (decodeSection m) as [dm | ?] eqn:Em; [| discriminate].
  destruct (decodeSection e) as [de | ?] eqn:Ee; [| discriminate].
  destruct (decodeSection s) as [ds | ?] eqn:Es; [| discriminate].
  cbn [bind]. intros [= <-]. cbn [main extra side hasInferredIds].
  destruct (decodeSection_spec m dm Em) as [_ ->].
  destruct (decodeSection_spec e de Ee) as [_ ->].
  destruct (decodeSection_spec s ds Es) as [_ ->].
  reflexivity.
Qed.

(** X10.  In a decoded deck [hasInferredIds] is [true] exactly when
    [inferredCardCount] is present and is never [false]; a count that is
    present is positive and not larger than [altArtCount], the number of
    placeholder entries of the deck. *)
Theorem parseYdke_inferred_flags (rawInput : jsstring) (deck : ParsedDeck) :
  parseYdke rawInput = Ok deck ->
  (hasInferredIds deck = Some true <-> inferredCardCount deck <> None)
  /\ hasInferredIds deck <> Some false
  /\ (forall n, inferredCardCount deck = Some n ->
                0 < n <= altArtCount (Some deck)).
Proof.
  rewrite parseYdke_unfold.
  destruct (isEmpty (trim rawInput)); [discriminate |].
  destruct (Z.of_nat (length (ydkeSections rawInput)) <? 3); [discriminate |].
  destruct (ydkeSections rawInput) as [| m [| e [| s rest]]];
    try discriminate.
  intros H. pose proof (decodeSections_flags _ _ _ _ H) as Hflag.
  apply decodeSections_spec in H. destruct H as (_ & _ & _ & Hcount).
  cbv zeta in Hcount.
  pose proof (zerosAfterCard_nonneg (main deck)) as Hm0.
  pose proof (zerosAfterCard_nonneg (extra deck)) as He0.
  pose proof (zerosAfterCard_nonneg (side deck)) as Hs0.
  pose proof (zerosAfterCard_le (main deck)) as Hm.
  pose proof (zerosAfterCard_le (extra deck)) as He.
  pose proof (zerosAfterCard_le (side deck)) as Hs.
  assert (Halt : altArtCount (Some deck)
                 = countZeros (main deck) + countZeros (extra deck)
                   + countZeros (side deck)).
  { cbn [altArtCount].
    fold (countZeros (main deck ++ extra deck ++ side deck)).
    rewrite !countZeros_app. clear_runtime. lia. }
  rewrite Hflag, Hcount, Halt.
  set (n := zerosAfterCard (main deck) + zerosAfterCard (extra deck)
            + zerosAfterCard (side deck)) in *.
  destruct (Z.ltb_spec 0 n); destruct (Z.eqb_spec n 0);
    try (clear_runtime; lia).
  - split; [split; [discriminate | reflexivity] |].
    split; [discriminate |]. intros k [= <-]. clear_runtime. lia.
  - split; [split; [discriminate | congruence] |].
    split; [discriminate |]. intros k. discriminate.
Qed.


(* ================================================================ *)
(** * Reading a YDK file *)
(* ================================================================ *)

(** ** Every entry is a positive finite number *)

Lemma parseYdkLine_positive (state : YdkDeck * DeckSection)
    (line : jsstring) :
  (forall zone, Forall (fun id => isPositiveFinite id = true)
                  (ydkSectionOf zone (fst state))) ->
  forall zone, Forall (fun id => isPositiveFinite id = true)
                 (ydkSectionOf zone (fst (parseYdkLine state line))).
Proof.
  intros Hstate zone. destruct state as [deck current].
  unfold parseYdkLine.
  destruct (isEmpty line || startsWith (js "#created") line);
    [apply Hstate |].
  destruct (bool_decide _); [apply Hstate |].
  destruct (bool_decide _); [apply Hstate |].
  destruct (_ || _); [apply Hstate |].
  destruct (_ || _); [apply Hstate |].
  destruct (isPositiveFinite (Number line)) eqn:E; [| apply Hstate].
  cbn [fst]. pose proof (Hstate zone) as Hz. cbn [fst] in Hz.
  destruct current, zone; cbn [ydkPush ydkSectionOf ydkMain ydkExtra ydkSide];
    try exact Hz;
    (apply Forall_app; split; [exact Hz | constructor; [exact E | constructor]]).
Qed.

Lemma parseYdk_fold_positive (lines : list jsstring) :
  forall state,
    (forall zone, Forall (fun id => isPositiveFinite id = true)
                    (ydkSectionOf zone (fst state))) ->
    forall zone, Forall (fun id => isPositiveFinite id = true)
                   (ydkSectionOf zone
                      (fst (fold_left parseYdkLine lines state))).
Proof.
  induction lines as [| line lines IH]; intros state Hstate;
    [exact Hstate |].
  cbn [fold_left]. apply IH, parseYdkLine_positive, Hstate.
Qed.

(** X11.  Whatever the text, every entry that [parseYdk] returns is a
    finite number above zero: a line that [Number] reads as [NaN], as an
    infinity, as zero or as a negative value adds nothing. *)
Theorem parseYdk_entries_positive (text : jsstring) (zone : DeckSection) :
  Forall (fun id => isPositiveFinite id = true)
    (ydkSectionOf zone (parseYdk text)).
Proof.
  unfold parseYdk. apply parseYdk_fold_positive.
  intros z. destruct z; constructor.
Qed.

(** ** The lines of a text *)

Lemma splitLines_line (line eol rest : jsstring) :
  Forall (fun c => c <> 10 /\ c <> 13) line -> isEol eol ->
  splitLines (line ++ eol ++ rest) = line :: splitLines rest.
Proof.
  intros Hline Heol. induction Hline as [| c l [Hc10 Hc13] _ IH].
  - destruct Heol as [-> | ->]; reflexivity.
  - change ((c :: l) ++ eol ++ rest) with (c :: (l ++ eol ++ rest)).
    cbn [splitLines]. rewrite IH.
    destruct (Z.eqb_spec c 10); [contradiction |].
    destruct (Z.eqb_spec c 13); [contradiction |].
    cbn [andb]. destruct (l ++ eol ++ rest); reflexivity.
Qed.

(** ** Decimal numerals *)

Lemma digitsOfPos_digits (fuel : nat) :
  forall n acc,
    0 <= n -> Forall (fun c => 48 <= c <= 57) acc ->
    Forall (fun c => 48 <= c <= 57) (digitsOfPos fuel n acc).
Proof.
  induction fuel as [| fuel IH]; intros n acc Hn Hacc; [exact Hacc |].
  cbn [digitsOfPos].
  assert (Hd : 48 <= 48 + n mod 10 <= 57).
  { pose proof (Z.mod_pos_bound n 10 ltac:(clear_runtime; lia)).
    clear_runtime. lia. }
  destruct (n <? 10).
  - constructor; assumption.
  - apply IH; [apply Z.div_pos; clear_runtime; lia |].
    constructor; assumption.
Qed.

Lemma digitsOfPos_nonempty (fuel : nat) (n : Z) (acc : jsstring) :
  digitsOfPos (S fuel) n acc <> [].
Proof.
  revert n acc. induction fuel as [| fuel IH]; intros n acc.
  - cbn [digitsOfPos]. destruct (n <? 10); discriminate.
  - change (digitsOfPos (S (S fuel)) n acc)
      with (if n <? 10 then (48 + n mod 10) :: acc
            else digitsOfPos (S fuel) (n / 10) ((48 + n mod 10) :: acc)).
    destruct (n <? 10); [discriminate | apply IH].
Qed.

Lemma numberToString_digits (n : Z) :
  0 <= n ->
  exists c r, numberToString n = c :: r
              /\ Forall (fun c => 48 <= c <= 57) (c :: r).
Proof.
  intros Hn. unfold numberToString.
  destruct (Z.ltb_spec n 0); [clear_runtime; lia |].
  pose proof (digitsOfPos_digits (S (Z.to_nat (Z.log2 n))) n [] Hn
                (List.Forall_nil _)) as Hd.
  pose proof (digitsOfPos_nonempty (Z.to_nat (Z.log2 n)) n []) as Hne.
  destruct (digitsOfPos (S (Z.to_nat (Z.log2 n))) n []) as [| c r];
    [contradiction |].
  exists c, r. split; [reflexivity | exact Hd].
Qed.

Lemma digits_plain (s : jsstring) :
  Forall (fun c => 48 <= c <= 57) s ->
  Forall (fun c => isWhiteSpace c = false) s
  /\ Forall isAscii s
  /\ Forall (fun c => c <> 10 /\ c <> 13) s
  /\ map lowerAscii s = s.
Proof.
  intros H. repeat split.
  - eapply List.Forall_impl; [| exact H]. intros c Hc. cbv beta in Hc.
    apply isWhiteSpace_printable. clear_runtime. lia.
  - eapply List.Forall_impl; [| exact H]. intros c Hc. cbv beta in Hc.
    unfold isAscii. clear_runtime. lia.
  - eapply List.Forall_impl; [| exact H]. intros c Hc. cbv beta in Hc.
    clear_runtime. lia.
  - induction H as [| c r Hc _ IH]; [reflexivity |].
    cbn [map]. rewrite IH. unfold lowerAscii.
    destruct (Z.leb_spec 65 c); [clear_runtime; lia | reflexivity].
Qed.

(** ** One line at a time *)

(** A line that holds the decimal numeral of an id adds the id to the
    current section. *)
Lemma parseYdkLine_id (deck : YdkDeck) (current : DeckSection) (id : Z) :
  readsBack id ->
  parseYdkLine (deck, current) (trim (numberToString id))
  = (ydkPush current (ofInteger id) deck, current).
Proof using toLowerCase_ascii.
  intros [Hpos Hread].
  destruct (numberToString_digits id ltac:(clear_runtime; lia))
    as (c & r & Hs & Hd).
  destruct (digits_plain _ Hd) as (Hws & Hascii & _ & Hlower).
  rewrite Hs in Hread |- *. rewrite (trim_nows _ Hws).
  unfold parseYdkLine. rewrite Hread.
  rewrite (toLowerCase_ascii _ Hascii), Hlower.
  assert (Hc : c <> 35 /\ c <> 33).
  { inversion_clear Hd as [| ? ? Hc _]. clear_runtime. lia. }
  destruct Hc as [H35 H33].
  cbn [isEmpty orb startsWith js list_ascii_of_string map].
  change (Z.of_N (N_of_ascii "#")) with 35.
  change (Z.of_N (N_of_ascii "!")) with 33.
  rewrite (proj2 (Z.eqb_neq 35 c)) by (clear_runtime; lia).
  rewrite (proj2 (Z.eqb_neq 33 c)) by (clear_runtime; lia).
  cbn [andb orb].
  rewrite !bool_decide_eq_false_2
    by (intros E; injection E as E _; clear_runtime; cbn in E; lia).
  cbn [orb]. unfold ofInteger, isPositiveFinite.
  destruct (Z.ltb_spec 0 id); [reflexivity | clear_runtime; lia].
Qed.

Lemma parseYdkLine_blank (state : YdkDeck * DeckSection) :
  parseYdkLine state (trim []) = state.
Proof. destruct state. reflexivity. Qed.

Lemma parseYdkLine_created (state : YdkDeck * DeckSection) :
  parseYdkLine state (trim (js "#created by Player")) = state.
Proof. destruct state. reflexivity. Qed.

Lemma lower_literal (s : jsstring) :
  Forall isAscii s -> map lowerAscii s = s -> toLowerCase s = s.
Proof using toLowerCase_ascii.
  intros Hascii Hlower. rewrite (toLowerCase_ascii s Hascii). exact Hlower.
Qed.

Lemma parseYdkLine_main (deck : YdkDeck) (current : DeckSection) :
  parseYdkLine (deck, current) (trim (js "#main")) = (deck, Main).
Proof using toLowerCase_ascii.
  change (trim (js "#main")) with (js "#main"). unfold parseYdkLine.
  rewrite (lower_literal (js "#main"));
    [reflexivity | | reflexivity].
  repeat constructor; unfold isAscii; simpl; clear_runtime; lia.
Qed.

Lemma parseYdkLine_extra (deck : YdkDeck) (current : DeckSection) :
  parseYdkLine (deck, current) (trim (js "#extra")) = (deck, Extra).
Proof using toLowerCase_ascii.
  change (trim (js "#extra")) with (js "#extra"). unfold parseYdkLine.
  rewrite (lower_literal (js "#extra"));
    [reflexivity | | reflexivity].
  repeat constructor; unfold isAscii; simpl; clear_runtime; lia.
Qed.

Lemma parseYdkLine_side (deck : YdkDeck) (current : DeckSection) :
  parseYdkLine (deck, current) (trim (js "!side")) = (deck, Side).
Proof using toLowerCase_ascii.
  change (trim (js "!side")) with (js "!side"). unfold parseYdkLine.
  rewrite (lower_literal (js "!side"));
    [reflexivity | | reflexivity].
  repeat constructor; unfold isAscii; simpl; clear_runtime; lia.
Qed.

(** ** A run of id lines *)

Lemma parseYdk_ids (eol : jsstring) (ids : list Z) (rest : jsstring)
    (current : DeckSection) :
  isEol eol -> Forall readsBack ids ->
  forall deck,
    fold_left parseYdkLine
      (map trim (splitLines (ydkIds eol ids ++ rest))) (deck, current)
    = fold_left parseYdkLine (map trim (splitLines rest))
        (ydkPushAll current ids deck, current).
Proof using toLowerCase_ascii.
  intros Heol Hids. induction Hids as [| id ids Hid _ IH]; intros deck;
    [reflexivity |].
  unfold ydkIds. cbn [map concat]. fold (ydkIds eol ids).
  rewrite <- !app_assoc.
  destruct (numberToString_digits id) as (c & r & Hs & Hd);
    [destruct Hid; clear_runtime; lia |].
  destruct (digits_plain _ Hd) as (_ & _ & Hnl & _).
  rewrite splitLines_line; [| rewrite Hs; exact Hnl | exact Heol].
  cbn [map fold_left]. rewrite (parseYdkLine_id deck current id Hid).
  rewrite IH. reflexivity.
Qed.

Lemma ydkPushAll_sections (current : DeckSection) (ids : list Z) :
  forall deck zone,
    ydkSectionOf zone (ydkPushAll current ids deck)
    = ydkSectionOf zone deck
      ++ (if decide (zone = current) then map ofInteger ids else []).
Proof.
  unfold ydkPushAll.
  induction ids as [| id ids IH]; intros deck zone; cbn [fold_left map].
  - destruct (decide (zone = current)); symmetry; apply app_nil_r.
  - rewrite IH.
    destruct zone, current; cbn [ydkPush ydkSectionOf ydkMain ydkExtra ydkSide];
      destruct (decide _) as [E | E]; try discriminate E;
      try (exfalso; apply E; reflexivity);
      rewrite <- ?app_assoc; reflexivity.
Qed.

Lemma YdkDeck_eta (deck : YdkDeck) :
  deck = {| ydkMain := ydkSectionOf Main deck;
            ydkExtra := ydkSectionOf Extra deck;
            ydkSide := ydkSectionOf Side deck |}.
Proof. destruct deck. reflexivity. Qed.

Lemma header_line (line : jsstring) :
  forallb (fun c => negb (c =? 10) && negb (c =? 13)) line = true ->
  Forall (fun c => c <> 10 /\ c <> 13) line.
Proof.
  intros H. apply Forall_forall. intros c Hc.
  apply list_elem_of_In in Hc.
  rewrite forallb_forall in H. specialize (H c Hc).
  apply andb_true_iff in H. destruct H as [H1 H2].
  apply negb_true_iff in H1, H2. apply Z.eqb_neq in H1, H2. auto.
Qed.

(** The loop of [parseYdk] over the lines of a file in the usual layout
    ends in the side deck, with the ids of the file in their sections. *)
Lemma parseYdk_layout (eol : jsstring) (m e s : list Z) :
  isEol eol ->
  Forall readsBack m -> Forall readsBack e -> Forall readsBack s ->
  fold_left parseYdkLine (map trim (splitLines (ydkFile eol m e s)))
    ({| ydkMain := []; ydkExtra := []; ydkSide := [] |}, Main)
  = ({| ydkMain := map ofInteger m;
        ydkExtra := map ofInteger e;
        ydkSide := map ofInteger s |}, Side).
Proof using toLowerCase_ascii.
  intros Heol Hm He Hs. unfold ydkFile.
  rewrite splitLines_line; [| apply header_line; reflexivity | exact Heol].
  cbn [map fold_left]. rewrite parseYdkLine_created.
  rewrite splitLines_line; [| apply header_line; reflexivity | exact Heol].
  cbn [map fold_left]. rewrite parseYdkLine_main.
  rewrite (parseYdk_ids eol m _ Main Heol Hm).
  rewrite splitLines_line; [| apply header_line; reflexivity | exact Heol].
  cbn [map fold_left]. rewrite parseYdkLine_extra.
  rewrite (parseYdk_ids eol e _ Extra Heol He).
  rewrite splitLines_line; [| apply header_line; reflexivity | exact Heol].
  cbn [map fold_left]. rewrite parseYdkLine_side.
  rewrite <- (app_nil_r (ydkIds eol s)).
  rewrite (parseYdk_ids eol s [] Side Heol Hs).
  cbn [splitLines map fold_left]. rewrite parseYdkLine_blank.
  rewrite (YdkDeck_eta (ydkPushAll Side s _)), !ydkPushAll_sections.
  cbn [ydkSectionOf ydkMain ydkExtra ydkSide decide decide_rel
       DeckSection_eq_dec DeckSection_rec DeckSection_rect sumbool_rec
       sumbool_rect app].
  rewrite !app_nil_r. reflexivity.
Qed.

(** X12.  A YDK file in the usual layout, with LF or CR LF line ends, is
    read as its three lists of ids: the line of credit and the headers
    add nothing, and the ids go to the section of the header before
    them, in order. *)
Theorem parseYdk_ydkFile (eol : jsstring) (m e s : list Z) :
  isEol eol ->
  Forall readsBack m -> Forall readsBack e -> Forall readsBack s ->
  parseYdk (ydkFile eol m e s)
  = {| ydkMain := map ofInteger m;
       ydkExtra := map ofInteger e;
       ydkSide := map ofInteger s |}.
Proof using toLowerCase_ascii.
  intros Heol Hm He Hs. unfold parseYdk.
  rewrite (parseYdk_layout eol m e s Heol Hm He Hs). reflexivity.
Qed.

(** ** From a YDK file to a deck code *)

Lemma numberToUint32_ofInteger (ids : list Z) :
  Forall isUint32 ids -> map numberToUint32 (map ofInteger ids) = ids.
Proof.
  induction 1 as [| id ids Hid _ IH]; [reflexivity |].
  cbn [map]. rewrite IH. unfold numberToUint32, ofInteger.
  rewrite Z.quot_1_r, Z.mod_small by exact Hid. reflexivity.
Qed.

(** X13.  Importing a YDK file in the usual layout gives a deck code
    that decodes to the ids of the file, section by section; a file
    without any id is refused. *)
Theorem importYdk_ydkFile (eol : jsstring) :
  isEol eol ->
  (forall m e s : list Z,
      Forall readsBack m -> Forall readsBack e -> Forall readsBack s ->
      Forall isUint32 m -> Forall isUint32 e -> Forall isUint32 s ->
      m ++ e ++ s <> [] ->
      exists deck,
        importYdk (ydkFile eol m e s) = Some (buildYdke m e s)
        /\ parseYdke (buildYdke m e s) = Ok deck
        /\ main deck = m /\ extra deck = e /\ side deck = s)
  /\ importYdk (ydkFile eol [] [] []) = None.
Proof using toLowerCase_ascii.
  intros Heol. split.
  - intros m e s Rm Re Rs Um Ue Us Hne.
    destruct (ydkeSections_joined (encodeSection m) (encodeSection e)
                (encodeSection s) (encodeSection_chars m)
                (encodeSection_chars e) (encodeSection_chars s))
      as (Htrim & Hnonempty & Hsections).
    cbv zeta in Htrim, Hnonempty, Hsections.
    fold (buildYdke m e s) in Htrim, Hnonempty, Hsections.
    destruct (decodeSections_encoded m e s Um Ue Us) as (deck & Hdeck & H).
    exists deck. split; [| split; [| exact H]].
    + unfold importYdk, parseYdk.
      rewrite (parseYdk_layout eol m e s Heol Rm Re Rs).
      cbn [fst ydkMain ydkExtra ydkSide].
      rewrite !numberToUint32_ofInteger by assumption.
      rewrite !length_map.
      destruct m; [destruct e; [destruct s; [contradiction |] |] |];
        reflexivity.
    + erewrite parseYdke_sections;
        [exact Hdeck | rewrite Htrim; exact Hnonempty | exact Hsections].
  - unfold importYdk, parseYdk.
    rewrite (parseYdk_layout eol [] [] [] Heol) by constructor.
    reflexivity.
Qed.


(* ================================================================ *)
(** * The aggregation, card by card *)
(* ================================================================ *)

Section KeyedSums.
Context {K V : Type} `{EqDecision K}.

Lemma omapAlter_sum_keyed (g : K * V -> Z) (f : V -> V) (k : K)
    (m : list (K * V)) (v : V) :
  omapGet k m = Some v ->
  sumZ (map g (omapAlter f k m)) = sumZ (map g m) - g (k, v) + g (k, f v).
Proof.
  induction m as [| [k' v'] m IH]; simpl; [discriminate |].
  destruct (decide (k = k')) as [<- | Hne].
  - intros [= ->]. simpl. lia.
  - intros Hget. simpl. rewrite (IH Hget). lia.
Qed.

Lemma omapGet_In (k : K) (m : list (K * V)) (v : V) :
  omapGet k m = Some v -> In (k, v) m.
Proof.
  induction m as [| [k' v'] m IH]; simpl; [discriminate |].
  destruct (decide (k = k')) as [<- | Hne].
  - intros [= ->]. left. reflexivity.
  - intros Hget. right. exact (IH Hget).
Qed.
End KeyedSums.

(** ** The count pass, weighted by a function of the id *)

Lemma countLoop_weighted (w : Z -> Z) (ids : list Z) :
  forall index counts,
    sumZ (map (fun e => w (fst e) * count (snd e))
            (countLoop ids index counts))
    = sumZ (map (fun e => w (fst e) * count (snd e)) counts)
      + sumZ (map w ids).
Proof.
  induction ids as [| id ids IH]; intros index counts; cbn [countLoop map].
  - simpl. lia.
  - rewrite IH. destruct (omapGet id counts) as [entry |] eqn:E.
    + rewrite (omapAlter_sum_keyed
                 (fun e => w (fst e) * count (snd e)) _ id counts entry E).
      simpl. lia.
    + rewrite (omapSet_absent _ _ _ E), map_app, sumZ_app. simpl. lia.
Qed.

Lemma countPass_weighted (w : Z -> Z) (ids : list Z) :
  sumZ (map (fun e => w (fst e) * count (snd e)) (countPass ids))
  = sumZ (map w ids).
Proof. unfold countPass. rewrite countLoop_weighted. reflexivity. Qed.

(** ** Points *)

Lemma rawGroup_totalPoints (zone : DeckSection) (entry : Z * CountEntry) :
  DeckCardGroup.totalPoints (rawGroup zone entry)
  = cardPoints (fst entry) * count (snd entry).
Proof. destruct entry as [id meta]. reflexivity. Qed.

Lemma mergeStep_totalPoints (merged : list (list Z * DeckCardGroup.t))
    (card : DeckCardGroup.t) :
  sumZ (map (fun e => DeckCardGroup.totalPoints (snd e))
          (mergeStep merged card))
  = sumZ (map (fun e => DeckCardGroup.totalPoints (snd e)) merged)
    + DeckCardGroup.totalPoints card.
Proof.
  unfold mergeStep. destruct (omapGet (mergeKey card) merged) as [v |] eqn:E.
  - rewrite (omapAlter_sum DeckCardGroup.totalPoints _ _ _ v E). simpl. lia.
  - rewrite (omapSet_absent _ _ _ E), map_app, sumZ_app. simpl. lia.
Qed.

Lemma mergePass_totalPoints (rawGroups : list DeckCardGroup.t) :
  forall merged,
    sumZ (map (fun e => DeckCardGroup.totalPoints (snd e))
            (fold_left mergeStep rawGroups merged))
    = sumZ (map (fun e => DeckCardGroup.totalPoints (snd e)) merged)
      + sumZ (map DeckCardGroup.totalPoints rawGroups).
Proof.
  induction rawGroups as [| card rest IH]; intros merged; simpl.
  - lia.
  - rewrite IH, mergeStep_totalPoints. lia.
Qed.

Lemma toGroup_totalPoints (ids : list Z) (zone : DeckSection) :
  sumZ (map DeckCardGroup.totalPoints (toGroup ids zone))
  = sumZ (map cardPoints ids).
Proof.
  unfold toGroup.
  rewrite (sumZ_perm _ _
             (Permutation_map DeckCardGroup.totalPoints (sortBy_perm _ _))).
  unfold omapValues, mergePass. rewrite map_map.
  rewrite mergePass_totalPoints. simpl. rewrite map_map.
  rewrite <- (countPass_weighted cardPoints ids). rewrite Z.add_0_l.
  f_equal. apply map_ext. intros entry. apply rawGroup_totalPoints.
Qed.

(** X14.  The point total of a deck is the sum, over every entry of its
    three sections, of the points of one copy of that entry's card:
    counting, merging print variants and sorting change nothing of it. *)
Theorem totalPoints_per_card (deck : ParsedDeck) :
  totalPoints (Some (deckGroups deck))
  = sumZ (map cardPoints (main deck ++ extra deck ++ side deck)).
Proof.
  unfold totalPoints, deckGroups. cbn [mainGroups extraGroups sideGroups].
  rewrite fold_left_totalPoints, !map_app, !sumZ_app.
  rewrite !toGroup_totalPoints. lia.
Qed.

(** ** Cards that the point list lacks *)

Lemma rawGroup_unknownCopies (zone : DeckSection) (entry : Z * CountEntry) :
  unknownCopies (rawGroup zone entry)
  = (if cardUnlisted (fst entry) then 1 else 0) * count (snd entry).
Proof.
  destruct entry as [id meta]. unfold unknownCopies, cardUnlisted.
  cbn [fst snd]. change (DeckCardGroup.count (rawGroup zone (id, meta)))
    with (count meta).
  change (DeckCardGroup.notInList (rawGroup zone (id, meta)))
    with (match genesysPointMap !! normalizeCardName (displayNameOf id) with
          | Some _ => false
          | None => true
          end).
  destruct (genesysPointMap !! normalizeCardName (displayNameOf id)); lia.
Qed.

Lemma mergeStep_unknownCopies (zone : DeckSection)
    (merged : list (list Z * DeckCardGroup.t)) (card : DeckCardGroup.t) :
  DeckCardGroup.zone card = zone -> pointsConsistent card ->
  Forall (mergedEntryOk zone) merged ->
  sumZ (map (fun e => unknownCopies (snd e)) (mergeStep merged card))
  = sumZ (map (fun e => unknownCopies (snd e)) merged) + unknownCopies card.
Proof.
  intros Hzone (_ & _ & Hc3) Hmerged. unfold mergeStep.
  destruct (omapGet (mergeKey card) merged) as [v |] eqn:E.
  - rewrite (omapAlter_sum unknownCopies _ _ _ v E).
    pose proof (proj1 (List.Forall_forall _ _) Hmerged _ (omapGet_In _ _ _ E))
      as (Hkey & Hvzone & _ & _ & Hv3).
    cbn [fst snd] in Hkey, Hvzone, Hv3.
    assert (Hname : normalizeCardName (DeckCardGroup.name card)
                    = normalizeCardName (DeckCardGroup.name v)).
    { apply mergeKey_name; congruence. }
    unfold unknownCopies.
    cbn [mergeInto DeckCardGroup.notInList DeckCardGroup.count].
    rewrite Hc3, Hv3, Hname.
    destruct (genesysPointMap !! normalizeCardName (DeckCardGroup.name v));
      lia.
  - rewrite (omapSet_absent _ _ _ E), map_app, sumZ_app. simpl. lia.
Qed.

Lemma mergePass_unknownCopies (zone : DeckSection)
    (rawGroups : list DeckCardGroup.t) :
  Forall (fun card => DeckCardGroup.zone card = zone
                      /\ pointsConsistent card) rawGroups ->
  forall merged,
    Forall (mergedEntryOk zone) merged ->
    sumZ (map (fun e => unknownCopies (snd e))
            (fold_left mergeStep rawGroups merged))
    = sumZ (map (fun e => unknownCopies (snd e)) merged)
      + sumZ (map unknownCopies rawGroups).
Proof.
  induction 1 as [| card rest [Hz Hc] _ IH]; intros merged Hm; simpl.
  - lia.
  - rewrite IH by (apply mergeStep_ok; assumption).
    rewrite (mergeStep_unknownCopies zone merged card Hz Hc Hm). lia.
Qed.

Lemma toGroup_unknownCopies (ids : list Z) (zone : DeckSection) :
  sumZ (map unknownCopies (toGroup ids zone))
  = sumZ (map (fun id => if cardUnlisted id then 1 else 0) ids).
Proof.
  unfold toGroup.
  rewrite (sumZ_perm _ _ (Permutation_map unknownCopies (sortBy_perm _ _))).
  unfold omapValues, mergePass. rewrite map_map.
  rewrite (mergePass_unknownCopies zone).
  - simpl. rewrite map_map.
    rewrite <- (countPass_weighted
                  (fun id => if cardUnlisted id then 1 else 0) ids).
    rewrite Z.add_0_l. f_equal. apply map_ext. intros entry.
    apply rawGroup_unknownCopies.
  - apply List.Forall_map. apply Forall_forall. intros entry _.
    split; [apply rawGroup_zone | apply rawGroup_points].
  - constructor.
Qed.

Lemma fold_left_unknown (groups : list DeckCardGroup.t) (start : Z) :
  fold_left
    (fun sum card =>
       sum + (if DeckCardGroup.notInList card
              then DeckCardGroup.count card else 0))
    groups start
  = start + sumZ (map unknownCopies groups).
Proof.
  revert start. induction groups as [| card rest IH]; intros start; simpl.
  - lia.
  - rewrite IH. unfold unknownCopies. lia.
Qed.

Lemma indicator_sum (p : Z -> bool) (ids : list Z) :
  sumZ (map (fun id => if p id then 1 else 0) ids)
  = Z.of_nat (length (List.filter p ids)).
Proof.
  induction ids as [| id ids IH]; [reflexivity |].
  cbn [map sumZ fold_right List.filter]. fold (sumZ (map (fun id => if p id then 1 else 0) ids)).
  rewrite IH. destruct (p id); cbn [length]; lia.
Qed.

(** X15.  [unknownCards] is the number of entries of the deck, copies
    counted, whose card the point list lacks; it lies between 0 and the
    size of the deck. *)
Theorem unknownCards_per_card (deck : ParsedDeck) :
  unknownCards (Some (deckGroups deck))
  = Z.of_nat (length (List.filter cardUnlisted
                        (main deck ++ extra deck ++ side deck)))
  /\ 0 <= unknownCards (Some (deckGroups deck)) <= getDeckSize (Some deck).
Proof.
  assert (H : unknownCards (Some (deckGroups deck))
              = Z.of_nat (length (List.filter cardUnlisted
                                    (main deck ++ extra deck ++ side deck)))).
  { unfold unknownCards, deckGroups. cbn [mainGroups extraGroups sideGroups].
    rewrite !fold_left_unknown, !toGroup_unknownCopies, !indicator_sum.
    rewrite !List.filter_app, !length_app. lia. }
  split; [exact H |]. rewrite H. unfold getDeckSize.
  pose proof (List.filter_length_le cardUnlisted
                (main deck ++ extra deck ++ side deck)) as Hle.
  rewrite !length_app in Hle. lia.
Qed.


(* ================================================================ *)
(** * The application around the aggregation *)
(* ================================================================ *)

(** ** The ids to look up *)

Lemma existsb_eqb (x : Z) (s : list Z) :
  existsb (Z.eqb x) s = true <-> In x s.
Proof.
  rewrite existsb_exists. split.
  - intros (y & Hy & E). apply Z.eqb_eq in E. subst y. exact Hy.
  - intros H. exists x. split; [exact H | apply Z.eqb_refl].
Qed.

Lemma setAdd_spec (s : list Z) (x : Z) :
  NoDup s ->
  NoDup (setAdd s x)
  /\ (forall y, In y (setAdd s x) <-> In y s \/ y = x).
Proof.
  intros Hs. unfold setAdd. destruct (existsb (Z.eqb x) s) eqn:E.
  - apply existsb_eqb in E. split; [exact Hs |].
    intros y. split; [auto | intros [H | ->]; assumption].
  - assert (Hx : ~ In x s).
    { intros H. apply existsb_eqb in H. congruence. }
    split.
    + apply (proj2 (NoDup_app s [x])). split; [exact Hs |].
      split; [| apply NoDup_singleton].
      intros y Hy Hy'. apply list_elem_of_In in Hy.
      apply list_elem_of_singleton in Hy'. subst y. contradiction.
    + intros y. rewrite in_app_iff. cbn [In]. clear_runtime.
      intuition congruence.
Qed.

Lemma setOf_spec (ids : list Z) :
  forall s,
    NoDup s ->
    NoDup (fold_left setAdd ids s)
    /\ (forall y, In y (fold_left setAdd ids s) <-> In y s \/ In y ids).
Proof.
  induction ids as [| x ids IH]; intros s Hs; cbn [fold_left].
  - split; [exact Hs |]. intros y. cbn [In]. pure_tauto.
  - destruct (setAdd_spec s x Hs) as [Hnd Hin].
    destruct (IH _ Hnd) as [Hnd' Hin']. split; [exact Hnd' |].
    intros y. rewrite Hin', Hin. cbn [In]. clear_runtime.
    intuition congruence.
Qed.

(** X16.  [uniqueCardIds] lists every positive id of the deck exactly
    once, and nothing else: neither a placeholder nor a repetition is
    sent to the card database. *)
Theorem uniqueCardIds_spec (deck : ParsedDeck) :
  NoDup (uniqueCardIds (Some deck))
  /\ (forall id,
         In id (uniqueCardIds (Some deck))
         <-> 0 < id /\ In id (main deck ++ extra deck ++ side deck)).
Proof.
  unfold uniqueCardIds, setOf.
  destruct (setOf_spec
              (List.filter (fun id => 0 <? id)
                 (main deck ++ extra deck ++ side deck)) [])
    as [Hnd Hin]; [constructor |].
  split; [exact Hnd |]. intros id. rewrite Hin, filter_In, Z.ltb_lt.
  cbn [In]. pure_tauto.
Qed.

(** ** The bounds of the point filter *)

Lemma clampPoints_range (value : JsNumber) :
  exists k, clampPoints value = ofInteger k /\ 1 <= k <= 100.
Proof.
  destruct value as [| negative | n d].
  - exists 1. split; [reflexivity | clear_runtime; lia].
  - destruct negative.
    + exists 1. split; [reflexivity | clear_runtime; lia].
    + exists 100. split; [reflexivity | clear_runtime; lia].
  - unfold clampPoints, mathRound.
    set (r := (2 * n + Z.pos d) / (2 * Z.pos d)).
    assert (Hor : exists r', orNumber (ofInteger r) (ofInteger 1)
                             = ofInteger r'
                             /\ (r = 0 -> r' = 1) /\ (r <> 0 -> r' = r)).
    { destruct r as [| p | p].
      - exists 1. split; [reflexivity |].
        split; [reflexivity | intros H; contradiction].
      - exists (Z.pos p). split; [reflexivity |].
        split; [discriminate | reflexivity].
      - exists (Z.neg p). split; [reflexivity |].
        split; [discriminate | reflexivity]. }
    destruct Hor as (r' & -> & _).
    unfold mathMax, mathMin, ofInteger, numberLe.
    destruct (Z.leb_spec (r' * 1) (1 * 1)).
    + exists 1. split; [reflexivity | clear_runtime; lia].
    + destruct (Z.leb_spec (r' * 1) (100 * 1)).
      * exists r'. split; [reflexivity | clear_runtime; lia].
      * exists 100. split; [reflexivity | clear_runtime; lia].
Qed.

(** X17.  Whatever is typed into the two bounds of the point filter,
    empty or not a number included, committing them gives integer
    bounds with [1 <= pointMin <= pointMax <= 100]; a bound that already
    is an integer from 1 to 100 is kept. *)
Theorem commitPointFilters_range :
  (forall pendingPointMin pendingPointMax : JsNumber,
      exists lo hi,
        commitPointFilters pendingPointMin pendingPointMax
        = (ofInteger lo, ofInteger hi)
        /\ 1 <= lo /\ lo <= hi /\ hi <= 100)
  /\ (forall k, 1 <= k <= 100 -> clampPoints (ofInteger k) = ofInteger k).
Proof.
  split.
  - intros a b. unfold commitPointFilters.
    destruct (clampPoints_range a) as (x & -> & Hx).
    destruct (clampPoints_range b) as (y & -> & Hy).
    unfold mathMin, mathMax, ofInteger, numberLe.
    destruct (Z.leb_spec (x * 1) (y * 1)).
    + exists x, y. split; [reflexivity | clear_runtime; lia].
    + exists y, x. split; [reflexivity | clear_runtime; lia].
  - intros k Hk. unfold clampPoints, mathRound, ofInteger.
    replace ((2 * k + 1) / (2 * 1)) with k
      by (clear_runtime; Z.div_mod_to_equations; lia).
    destruct k as [| p | p]; try (clear_runtime; lia).
    unfold orNumber, mathMax, mathMin, numberLe.
    destruct (Z.leb_spec (Z.pos p * 1) (1 * 1));
      destruct (Z.leb_spec (1 * 1) (100 * 1)); try (clear_runtime; lia);
      destruct (Z.leb_spec (Z.pos p * 1) (100 * 1));
      try (clear_runtime; lia); try reflexivity.
    f_equal. clear_runtime. lia.
Qed.

(** ** The point list under its filters *)

Lemma filter_filter {A} (f g : A -> bool) (l : list A) :
  List.filter f (List.filter g l) = List.filter (fun x => g x && f x) l.
Proof.
  induction l as [| x l IH]; [reflexivity |]. cbn [List.filter].
  destruct (g x); cbn [List.filter andb]; rewrite IH; reflexivity.
Qed.

Lemma comparePointCards_le (a b : GenesysCard) :
  comparePointCards a b <= 0 -> pointCardBefore a b.
Proof.
  unfold comparePointCards, pointCardBefore.
  destruct (Z.eqb_spec (points b) (points a)) as [E | E]; cbn [negb];
    intros H; [right | left]; clear_runtime; lia.
Qed.

Lemma comparePointCards_gt (a b : GenesysCard) :
  0 < comparePointCards a b -> pointCardBefore b a.
Proof using localeCompare_antisym.
  unfold comparePointCards, pointCardBefore.
  destruct (Z.eqb_spec (points b) (points a)) as [E | E]; cbn [negb];
    intros H; [right | left; clear_runtime; lia].
  split; [exact E |].
  pose proof (localeCompare_antisym (cardName a) (cardName b)) as Hanti.
  clear_runtime. lia.
Qed.

Lemma pointCardBefore_points (l : list GenesysCard) :
  Sorted pointCardBefore l ->
  StronglySorted (fun a b => points b <= points a) l.
Proof.
  intros Hs. apply Sorted_StronglySorted.
  - intros a b c Hab Hbc. clear_runtime. lia.
  - induction Hs as [| x l _ IH Hx]; constructor; [exact IH |].
    destruct Hx as [| y l' Hxy]; constructor.
    unfold pointCardBefore in Hxy. clear_runtime. lia.
Qed.

(** X18.  The point list on display holds exactly the cards of the
    list that are worth at least one point, lie within the two bounds
    and match the search, each as often as the list has it; it is
    ordered by points, the highest first, and cards of equal points
    stand in the order of their names. *)
Theorem filteredPointCards_spec (pointSearch : jsstring)
    (pointCardInfo : gmap (list Z) CardDetails.t) (pointMin pointMax : Z) :
  let shown := filteredPointCards pointSearch pointCardInfo pointMin pointMax in
  Permutation shown
    (List.filter (pointCardListed pointSearch pointCardInfo pointMin pointMax)
       genesysCards)
  /\ Sorted pointCardBefore shown
  /\ StronglySorted (fun a b => points b <= points a) shown.
Proof using localeCompare_antisym.
  cbv zeta.
  assert (Hs : Sorted pointCardBefore
                 (filteredPointCards pointSearch pointCardInfo pointMin
                    pointMax)).
  { unfold filteredPointCards.
    apply (sortBy_Sorted comparePointCards pointCardBefore
             comparePointCards_le comparePointCards_gt). }
  split; [| split; [exact Hs | exact (pointCardBefore_points _ Hs)]].
  unfold filteredPointCards. rewrite sortBy_perm, !filter_filter.
  erewrite filter_ext; [reflexivity |].
  intros card. unfold pointCardListed. rewrite !andb_assoc. reflexivity.
Qed.

(** ** The overlays *)

(** X19.  [closeTopModal] closes one overlay at a time: it returns
    [true] exactly when an overlay is open, and then the number of open
    overlays goes down by one; with none open it changes nothing. *)
Theorem closeTopModal_one (o : Overlays) :
  (snd (closeTopModal o) = true <-> 0 < modalDepth o)
  /\ (snd (closeTopModal o) = true ->
      modalDepth (fst (closeTopModal o)) = modalDepth o - 1)
  /\ (snd (closeTopModal o) = false -> fst (closeTopModal o) = o).
Proof.
  destruct o as [pl bl fc mc sd]. unfold closeTopModal, modalDepth.
  cbn [showPointList showBlockedList focusedCard missingCardContext
       showSavedDeckModal].
  destruct sd, mc, fc, bl, pl; cbn; clear_runtime;
    repeat split; intros; try reflexivity; try discriminate; try lia.
Qed.


(* ================================================================ *)
(** * The blocked cards *)
(* ================================================================ *)

Section OrderedMapKeys.
Context {K V : Type} `{EqDecision K}.

Lemma omapAlter_keys (f : V -> V) (k : K) (m : list (K * V)) :
  map fst (omapAlter f k m) = map fst m.
Proof.
  induction m as [| [k' v'] m IH]; [reflexivity |]. simpl.
  destruct (decide (k = k')); simpl; [reflexivity |].
  rewrite IH. reflexivity.
Qed.

Lemma omapGet_absent (k : K) (m : list (K * V)) :
  omapGet k m = None -> ~ In k (map fst m).
Proof.
  induction m as [| [k' v'] m IH]; simpl; [auto |].
  destruct (decide (k = k')) as [-> | Hne]; [discriminate |].
  intros Hget [E | Hin]; [congruence | exact (IH Hget Hin)].
Qed.
End OrderedMapKeys.

Lemma blockedStep_sum (unique : list (jsstring * DeckCardGroup.t))
    (card : DeckCardGroup.t) :
  sumZ (map (fun e => DeckCardGroup.count (snd e)) (blockedStep unique card))
  = sumZ (map (fun e => DeckCardGroup.count (snd e)) unique)
    + (if isBlockedCard card then DeckCardGroup.count card else 0).
Proof.
  unfold blockedStep. destruct (isBlockedCard card); cbn [negb];
    [| clear_runtime; lia].
  destruct (omapGet (DeckCardGroup.name card) unique) as [v |] eqn:E.
  - rewrite (omapAlter_sum DeckCardGroup.count _ _ _ v E). simpl.
    clear_runtime. lia.
  - rewrite (omapSet_absent _ _ _ E), map_app, sumZ_app. simpl.
    clear_runtime. lia.
Qed.

Lemma blockedFold_sum (groups : list DeckCardGroup.t) :
  forall unique,
    sumZ (map (fun e => DeckCardGroup.count (snd e))
            (fold_left blockedStep groups unique))
    = sumZ (map (fun e => DeckCardGroup.count (snd e)) unique)
      + sumZ (map DeckCardGroup.count (List.filter isBlockedCard groups)).
Proof.
  induction groups as [| card rest IH]; intros unique;
    cbn [fold_left List.filter].
  - simpl. clear_runtime. lia.
  - rewrite IH, blockedStep_sum.
    destruct (isBlockedCard card); simpl; clear_runtime; lia.
Qed.

(** The keys of [unique] are the names of its entries, each once. *)
Lemma blockedStep_names (unique : list (jsstring * DeckCardGroup.t))
    (card : DeckCardGroup.t) :
  map fst unique = map (fun e => DeckCardGroup.name (snd e)) unique ->
  NoDup (map fst unique) ->
  map fst (blockedStep unique card)
  = map (fun e => DeckCardGroup.name (snd e)) (blockedStep unique card)
  /\ NoDup (map fst (blockedStep unique card)).
Proof.
  intros Hkeys Hnd. unfold blockedStep.
  destruct (isBlockedCard card); cbn [negb]; [| split; assumption].
  destruct (omapGet (DeckCardGroup.name card) unique) as [v |] eqn:E.
  - rewrite omapAlter_keys. split; [| exact Hnd].
    rewrite Hkeys. clear Hnd E Hkeys.
    induction unique as [| [k' v'] m IH]; [reflexivity |]. simpl.
    destruct (decide (DeckCardGroup.name card = k')); simpl;
      [reflexivity |].
    rewrite IH. reflexivity.
  - rewrite (omapSet_absent _ _ _ E), !map_app. cbn [map fst snd].
    split; [rewrite Hkeys; reflexivity |].
    apply (proj2 (NoDup_app _ _)). split; [exact Hnd |].
    split; [| apply NoDup_singleton].
    intros k Hk Hk'. apply list_elem_of_In in Hk.
    apply list_elem_of_singleton in Hk'. subst k.
    exact (omapGet_absent _ _ E Hk).
Qed.

Lemma blockedFold_names (groups : list DeckCardGroup.t) :
  forall unique,
    map fst unique = map (fun e => DeckCardGroup.name (snd e)) unique ->
    NoDup (map fst unique) ->
    NoDup (map (fun e => DeckCardGroup.name (snd e))
             (fold_left blockedStep groups unique)).
Proof.
  induction groups as [| card rest IH]; intros unique Hkeys Hnd;
    cbn [fold_left].
  - rewrite <- Hkeys. exact Hnd.
  - destruct (blockedStep_names unique card Hkeys Hnd) as [Hk' Hnd'].
    apply IH; assumption.
Qed.

Lemma fold_left_count (groups : list DeckCardGroup.t) (start : Z) :
  fold_left (fun sum card => sum + DeckCardGroup.count card) groups start
  = start + sumZ (map DeckCardGroup.count groups).
Proof.
  revert start. induction groups as [| card rest IH]; intros start; simpl.
  - clear_runtime. lia.
  - rewrite IH. clear_runtime. lia.
Qed.

(** X20.  The list of blocked cards has one entry per name, and its
    total counts every copy of every group of the deck that is a Link
    or Pendulum card, whatever section the group is in. *)
Theorem blockedCards_counts (g : DeckGroups) :
  blockedCardTotalCount (Some g)
  = sumZ (map DeckCardGroup.count (List.filter isBlockedCard (allGroups g)))
  /\ NoDup (map DeckCardGroup.name (blockedCards (Some g))).
Proof.
  unfold blockedCardTotalCount, blockedCards, allGroups. split.
  - rewrite fold_left_count.
    rewrite (sumZ_perm _ _
               (Permutation_map DeckCardGroup.count (sortBy_perm _ _))).
    unfold omapValues. rewrite map_map, blockedFold_sum. simpl.
    clear_runtime. lia.
  - rewrite (Permutation_map DeckCardGroup.name (sortBy_perm _ _)).
    unfold omapValues. rewrite map_map.
    apply blockedFold_names; [reflexivity | constructor].
Qed.


(* ================================================================ *)
(** * The saved decks *)
(* ================================================================ *)

(** ** Searching a list *)

Lemma findIndexFrom_spec {A} (p : A -> bool) (l : list A) :
  forall i,
    (findIndexFrom p l i = -1 /\ Forall (fun x => p x = false) l /\ 0 <= i
     \/ i < 0 /\ findIndexFrom p l i < 0)
    \/ exists k x,
         findIndexFrom p l i = i + Z.of_nat k
         /\ l !! k = Some x /\ p x = true.
Proof.
  induction l as [| x l IH]; intros i; cbn [findIndexFrom].
  - destruct (Z.le_gt_cases 0 i) as [Hi | Hi].
    + left. left. split; [reflexivity | split; [constructor | exact Hi]].
    + left. right. split; clear_runtime; lia.
  - destruct (p x) eqn:E.
    + right. exists 0%nat, x. split; [clear_runtime; lia |].
      split; [reflexivity | exact E].
    + destruct (IH (i + 1)) as [[(H1 & H2 & H3) | (H1 & H2)] | (k & y & H1 & H2 & H3)].
      * left. destruct (Z.le_gt_cases 0 i) as [Hi | Hi].
        { left. split; [exact H1 | split; [| exact Hi]].
          constructor; assumption. }
        { right. split; [exact Hi | rewrite H1; clear_runtime; lia]. }
      * left. right. split; clear_runtime; lia.
      * right. exists (S k), y. split; [rewrite H1; clear_runtime; lia |].
        split; [exact H2 | exact H3].
Qed.

Lemma findIndex_spec {A} (p : A -> bool) (l : list A) :
  (findIndex p l = -1 /\ Forall (fun x => p x = false) l)
  \/ exists x,
       0 <= findIndex p l
       /\ l !! Z.to_nat (findIndex p l) = Some x /\ p x = true.
Proof.
  unfold findIndex.
  destruct (findIndexFrom_spec p l 0)
    as [[(H1 & H2 & _) | (H1 & _)] | (k & x & H1 & H2 & H3)].
  - left. split; assumption.
  - clear_runtime. lia.
  - right. exists x. rewrite H1.
    split; [clear_runtime; lia |].
    replace (Z.to_nat (0 + Z.of_nat k)) with k by (clear_runtime; lia).
    split; assumption.
Qed.

(** ** The list of folders is never empty *)

Lemma ensureFolders_nonempty (folders : list SavedDeckFolder.t) :
  (0 < length (ensureFolders folders))%nat.
Proof.
  unfold ensureFolders.
  destruct (Z.ltb_spec 0 (Z.of_nat (length folders)));
    [clear_runtime; lia | cbn [length]; clear_runtime; lia].
Qed.

Lemma ensureFolders_id (folders : list SavedDeckFolder.t) :
  (0 < length folders)%nat -> ensureFolders folders = folders.
Proof.
  intros H. unfold ensureFolders.
  destruct (Z.ltb_spec 0 (Z.of_nat (length folders)));
    [reflexivity | clear_runtime; lia].
Qed.

Lemma ensureFolders_decks (folders : list SavedDeckFolder.t) :
  allDecks (ensureFolders folders) = allDecks folders.
Proof.
  unfold ensureFolders.
  destruct (Z.ltb_spec 0 (Z.of_nat (length folders))); [reflexivity |].
  destruct folders; [reflexivity | cbn [length] in *; clear_runtime; lia].
Qed.

(** ** Saving a deck *)

Lemma saveDeckProducer_spec (entry : SavedDeckEntry.t)
    (folderId : option jsstring) (prev : list SavedDeckFolder.t) :
  (0 < length prev)%nat ->
  exists i folder,
    prev !! i = Some folder
    /\ saveDeckProducer entry folderId prev
       = <[i := withDecks folder
                  (entry :: take 199 (SavedDeckFolder.decks folder))]> prev.
Proof.
  intros Hlen. unfold saveDeckProducer.
  set (found := match folderId with
                | Some fid =>
                    if isEmpty fid then -1
                    else findIndex (hasFolderId fid) prev
                | None => -1
                end).
  assert (Hnext : (if (found <? 0) && Nat.eqb (length prev) 0
                   then prev ++ [createFolder DEFAULT_FOLDER_NAME
                                   DEFAULT_FOLDER_ID []]
                   else prev) = prev).
  { destruct (Nat.eqb_spec (length prev) 0) as [E | _];
      [clear_runtime; lia |]. rewrite andb_false_r. reflexivity. }
  rewrite Hnext.
  assert (Hat : exists folder,
             prev !! Z.to_nat (if found <? 0 then 0 else found)
             = Some folder).
  { destruct (Z.ltb_spec found 0) as [Hneg | Hpos].
    - destruct prev as [| f r]; [cbn [length] in Hlen; clear_runtime; lia |].
      exists f. reflexivity.
    - subst found. destruct folderId as [fid |]; [| clear_runtime; lia].
      destruct (isEmpty fid); [clear_runtime; lia |].
      destruct (findIndex_spec (hasFolderId fid) prev)
        as [[E _] | (x & _ & Hx & _)]; [clear_runtime; lia |].
      exists x. exact Hx. }
  destruct Hat as [folder Hfolder]. rewrite Hfolder.
  exists (Z.to_nat (if found <? 0 then 0 else found)), folder.
  split; [exact Hfolder | reflexivity].
Qed.

(** X21.  Saving a deck puts its entry, with the trimmed deck code and a
    name that is not empty, at the head of one folder; no folder is
    added or removed, apart from the default folder that an empty list
    gets first, and a folder never holds more than 200 decks if none did
    before. *)
Theorem handleSaveDeck_saved (deckInput name : jsstring)
    (folderId : option jsstring) (newId savedAt : jsstring)
    (breakdown : Z * Z * Z) (total : Z)
    (savedFolders : list SavedDeckFolder.t) :
  isEmpty (trim deckInput) = false ->
  let entry := savedEntry deckInput name newId savedAt breakdown total in
  let next :=
    handleSaveDeck deckInput name folderId newId savedAt breakdown total
      savedFolders in
  (exists i folder rest,
      next !! i = Some folder
      /\ SavedDeckFolder.decks folder = entry :: rest)
  /\ SavedDeckEntry.deck entry = trim deckInput
  /\ SavedDeckEntry.name entry <> []
  /\ length next = length (ensureFolders savedFolders)
  /\ (Forall (fun folder =>
                (length (SavedDeckFolder.decks folder) <= 200)%nat)
        savedFolders ->
      Forall (fun folder =>
                (length (SavedDeckFolder.decks folder) <= 200)%nat) next).
Proof.
  intros Hdeck entry next. subst next. unfold handleSaveDeck.
  rewrite Hdeck. fold entry. unfold setSavedFoldersAndPersist.
  pose proof (ensureFolders_nonempty savedFolders) as Hlen.
  destruct (saveDeckProducer_spec entry folderId _ Hlen)
    as (i & folder & Hi & ->).
  pose proof (lookup_lt_Some _ _ _ Hi) as Hbound.
  rewrite ensureFolders_id by (rewrite length_insert; exact Hlen).
  split; [| split; [| split; [| split]]].
  - exists i, (withDecks folder
                 (entry :: take 199 (SavedDeckFolder.decks folder))),
      (take 199 (SavedDeckFolder.decks folder)).
    split; [apply list_lookup_insert_eq, Hbound | reflexivity].
  - unfold entry, savedEntry. destruct breakdown as [[a b] c]. reflexivity.
  - unfold entry, savedEntry. destruct breakdown as [[a b] c].
    cbn [SavedDeckEntry.name].
    destruct (trim name) as [| ch r]; discriminate.
  - apply length_insert.
  - intros Hcap. apply Forall_insert.
    + unfold ensureFolders.
      destruct (0 <? Z.of_nat (length savedFolders)); [exact Hcap |].
      constructor; [cbn; clear_runtime; lia | constructor].
    + cbn [withDecks SavedDeckFolder.decks length].
      rewrite length_take. clear_runtime. lia.
Qed.

(** ** Moving a deck *)

Lemma allDecks_split (folders : list SavedDeckFolder.t) (i : nat)
    (folder : SavedDeckFolder.t) :
  folders !! i = Some folder ->
  forall decks,
    allDecks (<[i := withDecks folder decks]> folders)
    = allDecks (take i folders) ++ decks
      ++ allDecks (drop (S i) folders).
Proof.
  intros Hi decks. pose proof (lookup_lt_Some _ _ _ Hi) as Hbound.
  rewrite insert_take_drop by exact Hbound.
  unfold allDecks. rewrite map_app, concat_app. reflexivity.
Qed.

Lemma allDecks_at (folders : list SavedDeckFolder.t) (i : nat)
    (folder : SavedDeckFolder.t) :
  folders !! i = Some folder ->
  allDecks folders
  = allDecks (take i folders) ++ SavedDeckFolder.decks folder
    ++ allDecks (drop (S i) folders).
Proof.
  intros Hi. rewrite <- (take_drop_middle _ _ _ Hi) at 1.
  unfold allDecks. rewrite map_app, concat_app. reflexivity.
Qed.

(** Replacing the decks of one folder: what the folder gains or loses,
    the decks of all folders gain or lose. *)
Lemma allDecks_replace (folders : list SavedDeckFolder.t) (i : nat)
    (folder : SavedDeckFolder.t) (decks lost gained : list SavedDeckEntry.t) :
  folders !! i = Some folder ->
  Permutation (lost ++ decks) (gained ++ SavedDeckFolder.decks folder) ->
  Permutation (lost ++ allDecks (<[i := withDecks folder decks]> folders))
    (gained ++ allDecks folders).
Proof.
  intros Hi Hperm.
  rewrite (allDecks_split _ _ _ Hi), (allDecks_at _ _ _ Hi).
  rewrite (Permutation_app_swap_app lost), (app_assoc lost), Hperm.
  rewrite <- app_assoc. apply Permutation_app_swap_app.
Qed.

Lemma withDecks_fields {B} (f : SavedDeckFolder.t -> B)
    (folders : list SavedDeckFolder.t) (i : nat)
    (folder : SavedDeckFolder.t) (decks : list SavedDeckEntry.t) :
  folders !! i = Some folder ->
  f (withDecks folder decks) = f folder ->
  map f (<[i := withDecks folder decks]> folders) = map f folders.
Proof.
  intros Hi Hf.
  change (map f) with (fmap (M:=list) f).
  rewrite list_fmap_insert, Hf. apply list_insert_id.
  rewrite list_lookup_fmap, Hi. reflexivity.
Qed.

Lemma removeAt_perm {A} (l : list A) (i : nat) (x : A) :
  l !! i = Some x -> Permutation l (x :: removeAt i l).
Proof.
  intros Hi. rewrite <- (take_drop_middle _ _ _ Hi) at 1.
  unfold removeAt. symmetry. apply Permutation_middle.
Qed.

Lemma insertAt_perm {A} (l : list A) (i : nat) (x : A) :
  Permutation (insertAt i x l) (x :: l).
Proof.
  unfold insertAt. rewrite <- Permutation_middle, take_drop. reflexivity.
Qed.

Lemma moveDeckProducer_spec (sourceFolderId deckId targetFolderId : jsstring)
    (targetIndex : Z) (prev : list SavedDeckFolder.t) :
  let next :=
    moveDeckProducer sourceFolderId deckId targetFolderId targetIndex prev in
  Permutation (allDecks next) (allDecks prev)
  /\ map SavedDeckFolder.id next = map SavedDeckFolder.id prev
  /\ map SavedDeckFolder.name next = map SavedDeckFolder.name prev.
Proof using arrayMove_perm.
  cbv zeta. unfold moveDeckProducer.
  assert (Hsame : Permutation (allDecks prev) (allDecks prev)
                  /\ map SavedDeckFolder.id prev = map SavedDeckFolder.id prev
                  /\ map SavedDeckFolder.name prev
                     = map SavedDeckFolder.name prev)
    by (split; [reflexivity | split; reflexivity]).
  destruct (findIndex_spec (hasFolderId sourceFolderId) prev)
    as [[Es _] | (sf & Hs0 & Hs & Hsid)].
  { rewrite Es. cbn [Z.ltb Z.compare orb].
    destruct (prev !! Z.to_nat (-1)); [| exact Hsame].
    destruct (prev !! _); exact Hsame. }
  destruct (findIndex_spec (hasFolderId targetFolderId) prev)
    as [[Et _] | (tf & Ht0 & Ht & Htid)].
  { rewrite Et, Hs. rewrite orb_true_r.
    destruct (prev !! Z.to_nat (-1)); exact Hsame. }
  rewrite Hs, Ht.
  destruct (Z.ltb_spec (findIndex (hasFolderId sourceFolderId) prev) 0);
    [clear_runtime; lia |].
  destruct (Z.ltb_spec (findIndex (hasFolderId targetFolderId) prev) 0);
    [clear_runtime; lia |].
  cbn [orb].
  set (s := Z.to_nat (findIndex (hasFolderId sourceFolderId) prev)) in *.
  set (t := Z.to_nat (findIndex (hasFolderId targetFolderId) prev)) in *.
  destruct (findIndex_spec (hasDeckId deckId) (SavedDeckFolder.decks sf))
    as [[Ed _] | (deck & Hd0 & Hd & _)].
  { rewrite Ed. exact Hsame. }
  destruct (Z.eqb_spec (findIndex (hasDeckId deckId)
                          (SavedDeckFolder.decks sf)) (-1));
    [clear_runtime; lia |].
  destruct (bool_decide (sourceFolderId = targetFolderId)) eqn:Eid.
  - split; [| split].
    + apply (allDecks_replace prev s sf _ [] [] Hs). cbn [app].
      apply arrayMove_perm.
    + apply withDecks_fields; [exact Hs | reflexivity].
    + apply withDecks_fields; [exact Hs | reflexivity].
  - rewrite Hd.
    assert (Hne : s <> t).
    { intros E. rewrite <- E, Hs in Ht. injection Ht as <-.
      unfold hasFolderId in Hsid, Htid.
      apply bool_decide_eq_true_1 in Hsid, Htid.
      apply bool_decide_eq_false_1 in Eid. congruence. }
    set (prev1 := <[s := withDecks sf
                           (removeAt
                              (Z.to_nat (findIndex (hasDeckId deckId)
                                           (SavedDeckFolder.decks sf)))
                              (SavedDeckFolder.decks sf))]> prev).
    assert (Ht1 : prev1 !! t = Some tf).
    { subst prev1. rewrite list_lookup_insert_ne by exact Hne. exact Ht. }
    split; [| split].
    + pose proof (allDecks_replace prev1 t tf
                    (insertAt
                       (Z.to_nat
                          (Z.max 0
                             (Z.min targetIndex
                                (Z.of_nat
                                   (length (SavedDeckFolder.decks tf))))))
                       deck (SavedDeckFolder.decks tf))
                    [] [deck] Ht1 (insertAt_perm _ _ _)) as Htarget.
      pose proof (allDecks_replace prev s sf
                    (removeAt
                       (Z.to_nat (findIndex (hasDeckId deckId)
                                    (SavedDeckFolder.decks sf)))
                       (SavedDeckFolder.decks sf))
                    [deck] [] Hs
                    (Permutation_sym (removeAt_perm _ _ _ Hd))) as Hsource.
      fold prev1 in Hsource. cbn [app] in Htarget, Hsource.
      rewrite Htarget. exact Hsource.
    + rewrite (withDecks_fields SavedDeckFolder.id prev1 t tf _ Ht1 eq_refl).
      subst prev1. apply withDecks_fields; [exact Hs | reflexivity].
    + rewrite (withDecks_fields SavedDeckFolder.name prev1 t tf _ Ht1 eq_refl).
      subst prev1. apply withDecks_fields; [exact Hs | reflexivity].
Qed.

(** X22.  Moving a deck, within a folder or to another one, neither
    loses nor duplicates a deck: the decks of all folders afterwards
    are those before, rearranged; the folders keep their ids, names and
    order. *)
Theorem handleMoveSavedDeck_keeps
    (sourceFolderId deckId targetFolderId : jsstring) (targetIndex : Z)
    (savedFolders : list SavedDeckFolder.t) :
  let next :=
    handleMoveSavedDeck sourceFolderId deckId targetFolderId targetIndex
      savedFolders in
  Permutation (allDecks next) (allDecks savedFolders)
  /\ map SavedDeckFolder.id next
     = map SavedDeckFolder.id (ensureFolders savedFolders)
  /\ map SavedDeckFolder.name next
     = map SavedDeckFolder.name (ensureFolders savedFolders).
Proof using arrayMove_perm.
  cbv zeta. unfold handleMoveSavedDeck, setSavedFoldersAndPersist.
  destruct (moveDeckProducer_spec sourceFolderId deckId targetFolderId
              targetIndex (ensureFolders savedFolders))
    as (Hperm & Hid & Hname).
  cbv zeta in Hperm, Hid, Hname.
  rewrite ensureFolders_id.
  - rewrite Hperm, ensureFolders_decks. auto.
  - rewrite <- (length_map SavedDeckFolder.id), Hid, length_map.
    apply ensureFolders_nonempty.
Qed.

(** ** Deleting a folder *)

Lemma filter_other_ids (folderId : jsstring)
    (folders : list SavedDeckFolder.t) :
  ~ In folderId (map SavedDeckFolder.id folders) ->
  List.filter (fun entry => negb (hasFolderId folderId entry)) folders
  = folders.
Proof.
  intros Hnot. apply filter_id_Forall. apply Forall_forall.
  intros folder Hin. apply list_elem_of_In in Hin.
  unfold hasFolderId. apply negb_true_iff, bool_decide_eq_false_2.
  intros E. apply Hnot. rewrite <- E. apply in_map. exact Hin.
Qed.

Lemma deleteEmptyFolder_decks (folderId : jsstring)
    (folders : list SavedDeckFolder.t) (folder : SavedDeckFolder.t) :
  NoDup (map SavedDeckFolder.id folders) ->
  List.find (hasFolderId folderId) folders = Some folder ->
  SavedDeckFolder.decks folder = [] ->
  allDecks (List.filter (fun entry => negb (hasFolderId folderId entry))
              folders)
  = allDecks folders.
Proof.
  induction folders as [| x rest IH]; intros Hnd Hfind Hempty;
    [discriminate |].
  cbn [map] in Hnd. apply NoDup_cons in Hnd. destruct Hnd as [Hx Hnd].
  cbn [List.find List.filter] in Hfind |- *.
  destruct (hasFolderId folderId x) eqn:E; cbn [negb].
  - injection Hfind as <-.
    unfold hasFolderId in E. apply bool_decide_eq_true_1 in E.
    rewrite filter_other_ids.
    + unfold allDecks. cbn [map concat]. rewrite Hempty. reflexivity.
    + rewrite <- E. intros Hin. apply Hx, list_elem_of_In, Hin.
  - unfold allDecks in IH |- *. cbn [map concat].
    rewrite (IH Hnd Hfind Hempty). reflexivity.
Qed.

(** X23.  While the folders have distinct ids, deleting a folder never
    loses a deck: the decks of all folders stay as they are, in order,
    and a folder is left. *)
Theorem handleDeleteFolder_keeps_decks (folderId : jsstring)
    (savedFolders : list SavedDeckFolder.t) :
  NoDup (map SavedDeckFolder.id savedFolders) ->
  allDecks (handleDeleteFolder folderId savedFolders) = allDecks savedFolders
  /\ handleDeleteFolder folderId savedFolders <> [].
Proof.
  intros Hnd. unfold handleDeleteFolder, setSavedFoldersAndPersist. split.
  - rewrite ensureFolders_decks. unfold deleteFolderProducer.
    destruct (_ <=? 1); [apply ensureFolders_decks |].
    destruct (List.find _ _) as [folder |] eqn:Efind;
      [| apply ensureFolders_decks].
    destruct (Z.ltb_spec 0 (Z.of_nat (length (SavedDeckFolder.decks folder))));
      [apply ensureFolders_decks |].
    rewrite (deleteEmptyFolder_decks folderId _ folder).
    + apply ensureFolders_decks.
    + unfold ensureFolders.
      destruct (0 <? Z.of_nat (length savedFolders)); [exact Hnd |].
      apply NoDup_singleton.
    + exact Efind.
    + destruct (SavedDeckFolder.decks folder);
        [reflexivity | cbn [length] in *; clear_runtime; lia].
  - intros E.
    pose proof (ensureFolders_nonempty
                  (deleteFolderProducer folderId (ensureFolders savedFolders)))
      as Hlen.
    rewrite E in Hlen. cbn [length] in Hlen. clear_runtime. lia.
Qed.

(** ** Creating a folder *)

(** X24.  Creating a folder never gives two folders the same name,
    letter case aside, if no two had it before; a name that is new
    stands on a folder without decks at the end of the list. *)
Theorem handleCreateFolder_names (freshId name : jsstring)
    (savedFolders : list SavedDeckFolder.t) :
  let next := handleCreateFolder freshId name savedFolders in
  (NoDup (map folderKey savedFolders) -> NoDup (map folderKey next))
  /\ (isEmpty (trim name) = false ->
      ~ In (toLowerCase (trim name))
          (map folderKey (ensureFolders savedFolders)) ->
      next = ensureFolders savedFolders
             ++ [createFolder (trim name) freshId []]).
Proof.
  cbv zeta. unfold handleCreateFolder.
  destruct (isEmpty (trim name)) eqn:Ename;
    [split; [auto | discriminate] |].
  unfold setSavedFoldersAndPersist, createFolderProducer.
  set (prev := ensureFolders savedFolders).
  assert (Hex : existsb
                  (fun folder =>
                     bool_decide (toLowerCase (SavedDeckFolder.name folder)
                                  = toLowerCase (trim name))) prev = true
                <-> In (toLowerCase (trim name)) (map folderKey prev)).
  { rewrite existsb_exists, in_map_iff. unfold folderKey. split.
    - intros (f & Hf & E). apply bool_decide_eq_true_1 in E.
      exists f. split; assumption.
    - intros (f & E & Hf). exists f. split; [exact Hf |].
      apply bool_decide_eq_true_2, E. }
  split.
  - intros Hnd.
    assert (Hprev : NoDup (map folderKey prev)).
    { subst prev. unfold ensureFolders.
      destruct (0 <? Z.of_nat (length savedFolders)); [exact Hnd |].
      apply NoDup_singleton. }
    destruct (existsb _ prev) eqn:E.
    + rewrite ensureFolders_id by apply ensureFolders_nonempty.
      exact Hprev.
    + rewrite ensureFolders_id
        by (rewrite length_app; cbn [length]; clear_runtime; lia).
      rewrite map_app. apply (proj2 (NoDup_app _ _)).
      split; [exact Hprev |]. split; [| apply NoDup_singleton].
      intros k Hk Hk'. apply list_elem_of_In in Hk.
      apply list_elem_of_singleton in Hk'. subst k.
      apply Hex in Hk. congruence.
  - intros _ Hnew.
    destruct (existsb _ prev) eqn:E;
      [exfalso; apply Hnew, Hex; reflexivity |].
    apply ensureFolders_id. rewrite length_app. cbn [length].
    clear_runtime. lia.
Qed.


(* ================================================================ *)
(** * The selection of replacement cards *)
(* ================================================================ *)

(** ** Removing one copy *)

Lemma searchDown_spec (cardId : Z) (copy : list CardDetails.t) :
  forall steps,
    (steps <= length copy)%nat ->
    (searchDown cardId copy steps = -1
     /\ Forall (fun c => CardDetails.id c <> cardId) (take steps copy))
    \/ exists k c,
         searchDown cardId copy steps = Z.of_nat k /\ (k < steps)%nat
         /\ copy !! k = Some c /\ CardDetails.id c = cardId
         /\ Forall (fun c => CardDetails.id c <> cardId)
              (take (steps - S k) (drop (S k) copy)).
Proof.
  induction steps as [| index IH]; intros Hlen; cbn [searchDown].
  - left. split; [reflexivity | rewrite take_0; constructor].
  - destruct (lookup_lt_is_Some_2 copy index ltac:(clear_runtime; lia))
      as [c Hc].
    rewrite Hc. destruct (Z.eqb_spec (CardDetails.id c) cardId) as [E | E].
    + right. exists index, c.
      split; [reflexivity | split; [clear_runtime; lia |]].
      split; [exact Hc | split; [exact E |]].
      replace (S index - S index)%nat with 0%nat by (clear_runtime; lia).
      rewrite take_0. constructor.
    + destruct (IH ltac:(clear_runtime; lia))
        as [[H1 H2] | (k & d & H1 & H2 & H3 & H4 & H5)].
      * left. split; [exact H1 |].
        rewrite (take_S_r _ _ _ Hc). apply Forall_app.
        split; [exact H2 | constructor; [exact E | constructor]].
      * right. exists k, d.
        split; [exact H1 | split; [clear_runtime; lia |]].
        split; [exact H3 | split; [exact H4 |]].
        replace (S index - S k)%nat with (S (index - S k))
          by (clear_runtime; lia).
        assert (Hc' : drop (S k) copy !! (index - S k)%nat = Some c).
        { rewrite lookup_drop.
          replace (S k + (index - S k))%nat with index
            by (clear_runtime; lia).
          exact Hc. }
        rewrite (take_S_r _ _ _ Hc'). apply Forall_app.
        split; [exact H5 | constructor; [exact E | constructor]].
Qed.

(** X25.  [handleRemoveSingle] takes the last copy of the card out of
    the selection and leaves the rest in place; without a copy it
    changes nothing.  Adding a card and clamping keep the selection
    within the number of missing slots. *)
Theorem selection_operations (missingCount : nat) (cardId : Z)
    (c : CardDetails.t) (prev : list CardDetails.t) :
  (Forall (fun x => CardDetails.id x <> cardId) prev ->
   handleRemoveSingle cardId prev = prev)
  /\ (forall pre x post,
         prev = pre ++ x :: post -> CardDetails.id x = cardId ->
         Forall (fun y => CardDetails.id y <> cardId) post ->
         handleRemoveSingle cardId prev = pre ++ post)
  /\ ((length prev <= missingCount)%nat ->
      (length (handleAddCard missingCount c prev) <= missingCount)%nat)
  /\ (length (clampSelection missingCount prev) <= missingCount)%nat.
Proof.
  split; [| split; [| split]].
  - intros Hnone. unfold handleRemoveSingle.
    destruct (searchDown_spec cardId prev (length prev) (Nat.le_refl _))
      as [[-> _] | (k & x & _ & _ & Hk & Hx & _)]; [reflexivity |].
    exfalso.
    apply (proj1 (List.Forall_forall _ _) Hnone x); [| exact Hx].
    apply list_elem_of_In, list_elem_of_lookup. exists k. exact Hk.
  - intros pre x post -> Hx Hpost. unfold handleRemoveSingle.
    destruct (searchDown_spec cardId (pre ++ x :: post)
                (length (pre ++ x :: post)) (Nat.le_refl _))
      as [[_ Hall] | (k & y & -> & Hlt & Hk & Hy & Hafter)].
    + rewrite firstn_all in Hall.
      apply Forall_app in Hall. destruct Hall as [_ Hall].
      inversion Hall. contradiction.
    + rewrite take_ge in Hafter
        by (rewrite length_drop; clear_runtime; lia).
      assert (Hkk : k = length pre).
      { destruct (Nat.lt_trichotomy k (length pre)) as [Hl | [He | Hg]];
          [| exact He |].
        - exfalso.
          assert (Hin : In x (drop (S k) (pre ++ x :: post))).
          { apply list_elem_of_In, list_elem_of_lookup.
            exists (length pre - S k)%nat. rewrite lookup_drop.
            replace (S k + (length pre - S k))%nat with (length pre)
              by (clear_runtime; lia).
            apply list_lookup_middle. reflexivity. }
          exact (proj1 (List.Forall_forall _ _) Hafter x Hin Hx).
        - exfalso.
          rewrite lookup_app_r in Hk by (clear_runtime; lia).
          destruct (k - length pre)%nat as [| j] eqn:Ej;
            [clear_runtime; lia |].
          cbn [lookup list_lookup] in Hk.
          apply (proj1 (List.Forall_forall _ _) Hpost y); [| exact Hy].
          apply list_elem_of_In, list_elem_of_lookup. exists j. exact Hk. }
      subst k.
      destruct (Z.eqb_spec (Z.of_nat (length pre)) (-1));
        [clear_runtime; lia |].
      rewrite Nat2Z.id. unfold removeAt.
      rewrite take_app_length.
      rewrite (cons_middle x pre post), app_assoc.
      rewrite (drop_app_length' (pre ++ [x]) post)
        by (rewrite length_app; cbn [length]; clear_runtime; lia).
      reflexivity.
  - intros Hle. unfold handleAddCard.
    destruct (Nat.leb_spec missingCount (length prev)); [exact Hle |].
    rewrite length_app. cbn [length]. clear_runtime. lia.
  - unfold clampSelection.
    destruct (Nat.leb_spec (length prev) missingCount); [assumption |].
    rewrite length_take. clear_runtime. lia.
Qed.

(** ** The summary handed to the application *)

Lemma omapAlter_middle {K V : Type} `{EqDecision K} (f : V -> V) (k : K)
    (m : list (K * V)) (v : V) :
  omapGet k m = Some v ->
  exists l1 l2,
    m = l1 ++ (k, v) :: l2 /\ omapAlter f k m = l1 ++ (k, f v) :: l2.
Proof.
  induction m as [| [k' v'] m IH]; simpl; [discriminate |].
  destruct (decide (k = k')) as [<- | Hne].
  - intros [= ->]. exists [], m. split; reflexivity.
  - intros Hget. destruct (IH Hget) as (l1 & l2 & -> & ->).
    exists ((k', v') :: l1), l2. split; reflexivity.
Qed.

Lemma expandSelection_app (a b : list MissingReplacementPick) :
  expandSelection (a ++ b) = expandSelection a ++ expandSelection b.
Proof. unfold expandSelection. apply flat_map_app. Qed.

Lemma expandSelection_cons (pick : MissingReplacementPick)
    (rest : list MissingReplacementPick) :
  expandSelection (pick :: rest)
  = replicate (Z.to_nat (pickCount pick)) (CardDetails.id (card pick))
    ++ expandSelection rest.
Proof. reflexivity. Qed.

Lemma summaryStep_spec (grouped : list (Z * MissingReplacementPick))
    (c : CardDetails.t) :
  Forall (fun e => fst e = CardDetails.id (card (snd e))
                   /\ 1 <= pickCount (snd e)) grouped ->
  Forall (fun e => fst e = CardDetails.id (card (snd e))
                   /\ 1 <= pickCount (snd e)) (summaryStep grouped c)
  /\ Permutation (expandSelection (omapValues (summaryStep grouped c)))
       (expandSelection (omapValues grouped) ++ [CardDetails.id c])
  /\ (NoDup (map fst grouped) -> NoDup (map fst (summaryStep grouped c))).
Proof.
  intros Hinv. unfold summaryStep.
  destruct (omapGet (CardDetails.id c) grouped) as [v |] eqn:E.
  - destruct (omapAlter_middle
                (fun existing =>
                   {| card := card existing;
                      pickCount := pickCount existing + 1 |})
                _ _ _ E) as (l1 & l2 & Hm & Halter).
    rewrite omapAlter_keys, Halter. subst grouped.
    apply Forall_app in Hinv. destruct Hinv as [H1 H2].
    apply List.Forall_cons_iff in H2.
    destruct H2 as [[Hk Hv] H2]. cbn [fst snd] in Hk, Hv.
    split; [| split; [| auto]].
    + apply Forall_app. split; [exact H1 |].
      constructor; [| exact H2]. cbn [fst snd card pickCount].
      split; [exact Hk | clear_runtime; lia].
    + unfold omapValues. rewrite !map_app. cbn [map snd].
      rewrite !expandSelection_app.
      rewrite !expandSelection_cons. cbn [card pickCount].
      replace (Z.to_nat (pickCount v + 1)) with (S (Z.to_nat (pickCount v)))
        by (clear_runtime; lia).
      cbn [replicate]. rewrite <- Hk.
      rewrite <- !app_assoc. cbn [app].
      rewrite <- Permutation_middle.
      rewrite (Permutation_cons_append _ (CardDetails.id c)).
      rewrite <- !app_assoc. reflexivity.
  - rewrite (omapSet_absent _ _ _ E).
    split; [| split].
    + apply Forall_app. split; [exact Hinv |].
      constructor; [| constructor]. cbn [fst snd card pickCount].
      split; [reflexivity | clear_runtime; lia].
    + unfold omapValues. rewrite map_app, expandSelection_app. reflexivity.
    + intros Hnd. rewrite map_app. apply (proj2 (NoDup_app _ _)).
      split; [exact Hnd |]. split; [| apply NoDup_singleton].
      intros k Hk Hk'. apply list_elem_of_In in Hk.
      apply list_elem_of_singleton in Hk'. subst k.
      exact (omapGet_absent _ _ E Hk).
Qed.

Lemma summaryFold_spec (selected : list CardDetails.t) :
  forall grouped,
    Forall (fun e => fst e = CardDetails.id (card (snd e))
                     /\ 1 <= pickCount (snd e)) grouped ->
    NoDup (map fst grouped) ->
    Forall (fun e => fst e = CardDetails.id (card (snd e))
                     /\ 1 <= pickCount (snd e))
      (fold_left summaryStep selected grouped)
    /\ Permutation
         (expandSelection (omapValues (fold_left summaryStep selected grouped)))
         (expandSelection (omapValues grouped)
          ++ map CardDetails.id selected)
    /\ NoDup (map fst (fold_left summaryStep selected grouped)).
Proof.
  induction selected as [| c rest IH]; intros grouped Hinv Hnd;
    cbn [fold_left map].
  - rewrite app_nil_r. auto.
  - destruct (summaryStep_spec grouped c Hinv) as (Hinv' & Hperm & Hnd').
    destruct (IH _ Hinv' (Hnd' Hnd)) as (H1 & H2 & H3).
    split; [exact H1 | split; [| exact H3]].
    rewrite H2, Hperm, <- app_assoc. reflexivity.
Qed.

(** X26.  The summary that the resolver hands over stands for the
    selection: expanded into one id per copy it is the selection's ids,
    rearranged so that equal ids stand together; it has one entry per
    id, each with a count of at least 1, and as many copies in all as
    there are selected cards. *)
Theorem selectedSummary_spec (selectedCards : list CardDetails.t) :
  Permutation (expandSelection (selectedSummary selectedCards))
    (map CardDetails.id selectedCards)
  /\ NoDup (map (fun pick => CardDetails.id (card pick))
              (selectedSummary selectedCards))
  /\ Forall (fun pick => 1 <= pickCount pick) (selectedSummary selectedCards)
  /\ length (expandSelection (selectedSummary selectedCards))
     = length selectedCards.
Proof.
  unfold selectedSummary.
  destruct (summaryFold_spec selectedCards [] (List.Forall_nil _)
              NoDup_nil_2) as (Hinv & Hperm & Hnd).
  cbn [omapValues map expandSelection flat_map app] in Hperm.
  split; [exact Hperm | split; [| split]].
  - unfold omapValues. rewrite map_map.
    erewrite map_ext_Forall; [exact Hnd |].
    eapply List.Forall_impl; [| exact Hinv].
    intros e [He _]. symmetry. exact He.
  - unfold omapValues. apply List.Forall_map.
    eapply List.Forall_impl; [| exact Hinv]. intros e [_ He]. exact He.
  - rewrite (Permutation_length Hperm). apply length_map.
Qed.


(* ================================================================ *)
(** * Looking up the cards of a deck *)
(* ================================================================ *)

(** ** The chunks of a request *)

Lemma chunksLoop_spec (fuel : nat) :
  forall unique : list Z,
    (length unique <= fuel)%nat ->
    concat (chunksLoop fuel unique) = unique
    /\ Forall (fun chunk => chunk <> [] /\ (length chunk <= CHUNK_SIZE)%nat)
         (chunksLoop fuel unique).
Proof.
  induction fuel as [| fuel IH]; intros unique Hlen.
  - destruct unique; [split; [reflexivity | constructor] |].
    cbn [length] in Hlen. clear_runtime. lia.
  - destruct unique as [| id rest];
      [split; [reflexivity | constructor] |].
    cbn [chunksLoop].
    destruct (IH (drop CHUNK_SIZE (id :: rest))) as [Hcat Hall].
    { rewrite length_drop. cbn [length] in Hlen |- *. unfold CHUNK_SIZE.
      clear_runtime. lia. }
    split.
    + cbn [concat]. rewrite Hcat. apply take_drop.
    + constructor; [| exact Hall]. split; [discriminate |].
      rewrite length_take. clear_runtime. lia.
Qed.

(** X27.  The ids to look up are cut into chunks that are not empty and
    hold at most 40 ids; put end to end the chunks are the ids: none is
    left out, repeated or moved. *)
Theorem chunksOf_spec (unique : list Z) :
  concat (chunksOf unique) = unique
  /\ Forall (fun chunk => chunk <> [] /\ (length chunk <= CHUNK_SIZE)%nat)
       (chunksOf unique).
Proof. apply chunksLoop_spec. apply Nat.le_refl. Qed.

(** ** A request that the card database refuses is split *)

(** Whatever the card database answers, [fetchChunk] is through with a
    chunk of [n >= 1] ids after at most [n] nested calls: with that much
    fuel the model returns, and more fuel changes nothing. *)
Lemma midpoint_bounds (n : nat) :
  (2 <= n)%nat -> (1 <= (n + 1) / 2 < n)%nat.
Proof.
  intros Hn. clear_runtime. split.
  - apply Nat.div_le_lower_bound; lia.
  - apply Nat.Div0.div_lt_upper_bound; lia.
Qed.

Lemma fetchChunk_returns :
  forall fuel chunk,
    chunk <> [] -> (length chunk <= fuel)%nat ->
    (exists outcome, fetchChunk fuel chunk = Some outcome)
    /\ forall more, (fuel <= more)%nat ->
                    fetchChunk more chunk = fetchChunk fuel chunk.
Proof.
  induction fuel as [| fuel IH]; intros chunk Hne Hlen.
  - destruct chunk; [contradiction | cbn [length] in Hlen].
    clear_runtime. lia.
  - destruct (Nat.eqb_spec (length chunk) 1) as [E1 | E1].
    + split.
      * cbn [fetchChunk]. rewrite (proj2 (Nat.eqb_eq _ _) E1).
        destruct (fetchIds chunk); eexists; reflexivity.
      * intros [| more] Hmore; [clear_runtime; lia |].
        cbn [fetchChunk]. rewrite (proj2 (Nat.eqb_eq _ _) E1).
        reflexivity.
    + assert (Hlen2 : (2 <= length chunk)%nat).
      { destruct chunk as [| ? [| ? ?]]; [contradiction | |];
          cbn [length] in E1 |- *; clear_runtime; lia. }
      pose proof (midpoint_bounds (length chunk) Hlen2) as Hmid.
      set (midpoint := ((length chunk + 1) / 2)%nat) in Hmid.
      destruct (IH (take midpoint chunk)) as [[l Hl] Hl'].
      { intros E. apply (f_equal (@length Z)) in E.
        rewrite length_take in E. cbn [length] in E. clear_runtime. lia. }
      { rewrite length_take. clear_runtime. lia. }
      destruct (IH (drop midpoint chunk)) as [[r Hr] Hr'].
      { intros E. apply (f_equal (@length Z)) in E.
        rewrite length_drop in E. cbn [length] in E. clear_runtime. lia. }
      { rewrite length_drop. clear_runtime. lia. }
      split.
      * cbn [fetchChunk]. fold midpoint. rewrite Hl, Hr.
        rewrite (proj2 (Nat.eqb_neq _ _) E1).
        destruct (fetchIds chunk); destruct l, r; eexists; reflexivity.
      * intros [| more] Hmore; [clear_runtime; lia |].
        cbn [fetchChunk]. fold midpoint.
        rewrite (Hl' more), (Hr' more) by (clear_runtime; lia).
        reflexivity.
Qed.

Lemma fetchChunk_known (known : Z -> option ApiCard.t) :
  allOrNothing known ->
  forall fuel chunk,
    chunk <> [] -> (length chunk <= fuel)%nat ->
    fetchChunk fuel chunk = Some (Done (omap known chunk)).
Proof.
  intros [_ Hfetch]. induction fuel as [| fuel IH]; intros chunk Hne Hlen.
  - destruct chunk; [contradiction | cbn [length] in Hlen].
    clear_runtime. lia.
  - cbn [fetchChunk]. rewrite Hfetch.
    destruct (forallb (fun id => isSome (known id)) chunk) eqn:Eall;
      [reflexivity |].
    destruct (Nat.eqb_spec (length chunk) 1) as [E1 | E1].
    + destruct chunk as [| id [| ? ?]]; try discriminate E1.
      cbn [forallb] in Eall. rewrite andb_true_r in Eall.
      cbn [omap list_omap]. destruct (known id); [discriminate |].
      reflexivity.
    + assert (Hlen2 : (2 <= length chunk)%nat).
      { destruct chunk as [| ? [| ? ?]]; [contradiction | |];
          cbn [length] in E1 |- *; clear_runtime; lia. }
      pose proof (midpoint_bounds (length chunk) Hlen2) as Hmid.
      set (midpoint := ((length chunk + 1) / 2)%nat) in Hmid |- *.
      rewrite (IH (take midpoint chunk)).
      * rewrite (IH (drop midpoint chunk)).
        { rewrite <- omap_app, take_drop. reflexivity. }
        { intros E. apply (f_equal (@length Z)) in E.
          rewrite length_drop in E. cbn [length] in E.
          clear_runtime. lia. }
        { rewrite length_drop. clear_runtime. lia. }
      * intros E. apply (f_equal (@length Z)) in E.
        rewrite length_take in E. cbn [length] in E. clear_runtime. lia.
      * rewrite length_take. clear_runtime. lia.
Qed.

(** ** The table of cards *)

Lemma storeCards_lookup (known : Z -> option ApiCard.t) (ids : list Z) :
  (forall id c, known id = Some c -> ApiCard.id c = id) ->
  forall resolved id,
    storeCards resolved (omap known ids) !! id
    = if existsb (Z.eqb id) ids && isSome (known id)
      then adaptApiCard <$> known id
      else resolved !! id.
Proof.
  intros Hid. unfold storeCards.
  induction ids as [| x ids IH]; intros resolved id; [reflexivity |].
  cbn [omap list_omap existsb]. destruct (known x) as [c |] eqn:Ex.
  - cbn [fold_left]. rewrite IH, (Hid x c Ex).
    destruct (Z.eqb_spec id x) as [-> | Hne].
    + rewrite Ex. cbn [orb andb isSome].
      rewrite lookup_insert_eq.
      destruct (existsb (Z.eqb x) ids); reflexivity.
    + cbn [orb]. rewrite lookup_insert_ne by congruence. reflexivity.
  - rewrite IH. destruct (Z.eqb_spec id x) as [-> | Hne];
      [| reflexivity].
    rewrite Ex. cbn [isSome]. rewrite !andb_false_r. reflexivity.
Qed.

Lemma fetchChunks_known (known : Z -> option ApiCard.t) :
  allOrNothing known ->
  forall chunks resolved,
    Forall (fun chunk => chunk <> [] /\ (length chunk <= CHUNK_SIZE)%nat)
      chunks ->
    fetchChunks chunks resolved
    = Some (Done (storeCards resolved (omap known (concat chunks)))).
Proof.
  intros Hserver. induction chunks as [| chunk rest IH];
    intros resolved Hall; [reflexivity |].
  inversion_clear Hall as [| ? ? [Hne _] Hrest].
  cbn [fetchChunks concat].
  rewrite (fetchChunk_known known Hserver _ chunk Hne (Nat.le_refl _)).
  rewrite (IH _ Hrest). rewrite omap_app.
  unfold storeCards. rewrite fold_left_app. reflexivity.
Qed.

(** X28.  When the card database answers a request exactly if it knows
    all of its ids, [fetchCardsByIds] ends without an error; the table it
    returns holds, for every positive id of its argument, the details of
    the card if the database knows the id and nothing if not, and it holds
    no other id.  An id that the database does not know therefore costs
    the other ids of its chunk nothing. *)
Theorem fetchCardsByIds_known (known : Z -> option ApiCard.t)
    (ids : list Z) :
  allOrNothing known ->
  exists resolved,
    fetchCardsByIds ids = Some (Done resolved)
    /\ (forall id,
          0 < id -> In id ids ->
          resolved !! id = adaptApiCard <$> known id)
    /\ (forall id details,
          resolved !! id = Some details -> 0 < id /\ In id ids).
Proof.
  intros Hserver. unfold fetchCardsByIds.
  set (unique := setOf (List.filter (fun id => 0 <? id) ids)).
  assert (Hin : forall id, In id unique <-> 0 < id /\ In id ids).
  { intros id. subst unique. unfold setOf.
    destruct (setOf_spec (List.filter (fun id => 0 <? id) ids) [] NoDup_nil_2)
      as [_ H].
    rewrite H, filter_In, Z.ltb_lt. cbn [In]. pure_tauto. }
  assert (Hlook : forall id,
             storeCards ∅ (omap known unique) !! id
             = if existsb (Z.eqb id) unique && isSome (known id)
               then adaptApiCard <$> known id
               else None).
  { intros id.
    rewrite (storeCards_lookup known unique (proj1 Hserver)).
    rewrite lookup_empty. reflexivity. }
  assert (Hgoal :
            (forall id,
               0 < id -> In id ids ->
               storeCards ∅ (omap known unique) !! id
               = adaptApiCard <$> known id)
            /\ (forall id details,
                  storeCards ∅ (omap known unique) !! id = Some details ->
                  0 < id /\ In id ids)).
  { split.
    - intros id Hpos Hid. rewrite Hlook.
      rewrite (proj2 (existsb_eqb id unique)) by (apply Hin; split; assumption).
      destruct (known id); reflexivity.
    - intros id details. rewrite Hlook.
      destruct (existsb (Z.eqb id) unique) eqn:E; [| discriminate].
      intros _. apply Hin, existsb_eqb, E. }
  destruct (Nat.eqb_spec (length unique) 0) as [E0 | E0].
  - exists ∅. split; [reflexivity |].
    destruct unique; [exact Hgoal | discriminate].
  - destruct (chunksLoop_spec (length unique) unique (Nat.le_refl _))
      as [Hcat Hall].
    fold (chunksOf unique) in Hcat, Hall.
    exists (storeCards ∅ (omap known unique)). split; [| exact Hgoal].
    rewrite (fetchChunks_known known Hserver _ _ Hall), Hcat. reflexivity.
Qed.

(** ** When no request gets through *)

Lemma setOf_head (ids : list Z) :
  forall x s, exists rest, fold_left setAdd ids (x :: s) = x :: rest.
Proof.
  induction ids as [| y ids IH]; intros x s; cbn [fold_left].
  - exists s. reflexivity.
  - unfold setAdd at 2. destruct (existsb (Z.eqb y) (x :: s)).
    + apply IH.
    + rewrite <- app_comm_cons. apply IH.
Qed.

Lemma fetchChunk_offline :
  (forall request, fetchIds request = FetchThrew) ->
  forall fuel id rest,
    (length (id :: rest) <= fuel)%nat ->
    fetchChunk fuel (id :: rest) = Some (Raised id).
Proof.
  intros Hoff. induction fuel as [| fuel IH]; intros id rest Hlen.
  - cbn [length] in Hlen. clear_runtime. lia.
  - cbn [fetchChunk]. rewrite Hoff.
    destruct rest as [| id2 rest]; [reflexivity |].
    cbn [length Nat.eqb default head].
    set (midpoint := ((S (S (length rest)) + 1) / 2)%nat).
    assert (Hmid : (1 <= midpoint <= S (length rest))%nat).
    { subst midpoint. clear_runtime. split.
      - apply Nat.div_le_lower_bound; lia.
      - apply Nat.lt_succ_r, Nat.Div0.div_lt_upper_bound. lia. }
    destruct midpoint as [| m]; [clear_runtime; lia |].
    cbn [take]. rewrite IH; [reflexivity |].
    cbn [length] in Hlen |- *. rewrite length_take. cbn [length].
    clear_runtime. lia.
Qed.

(** X29.  When every request to the card database fails in transit,
    [fetchCardsByIds] raises the error of the first positive id of its
    argument; without a positive id it returns the empty table and the
    failure goes unnoticed. *)
Theorem fetchCardsByIds_offline (ids : list Z) :
  (forall request, fetchIds request = FetchThrew) ->
  fetchCardsByIds ids
  = match List.filter (fun id => 0 <? id) ids with
    | [] => Some (Done ∅)
    | id :: _ => Some (Raised id)
    end.
Proof.
  intros Hoff. unfold fetchCardsByIds, setOf.
  destruct (List.filter (fun id => 0 <? id) ids) as [| id rest];
    [reflexivity |].
  cbn [fold_left]. change (setAdd [] id) with [id].
  destruct (setOf_head rest id []) as [more ->].
  cbn [length Nat.eqb]. unfold chunksOf. cbn [length chunksLoop].
  unfold CHUNK_SIZE at 1. cbn [take fetchChunks].
  rewrite (fetchChunk_offline Hoff); [reflexivity |].
  apply Nat.le_refl.
Qed.


(* ================================================================ *)
(** * The name under which an alternate printing is looked up *)
(* ================================================================ *)

Lemma trimStart_skips (w s : jsstring) :
  blank w -> trimStart (w ++ s) = trimStart s.
Proof.
  induction 1 as [| c w Hc _ IH]; [reflexivity |].
  cbn [app trimStart]. rewrite Hc. exact IH.
Qed.

Lemma trimStart_app_head (s t : jsstring) (d : Z) (u : jsstring) :
  trimStart s = d :: u -> trimStart (s ++ t) = d :: u ++ t.
Proof.
  induction s as [| c s IH]; [discriminate |]. cbn [app trimStart].
  destruct (isWhiteSpace c); [exact IH |].
  intros [= <- <-]. reflexivity.
Qed.

Lemma trim_app_blank (t w : jsstring) : blank w -> trim (t ++ w) = trim t.
Proof.
  intros Hw. destruct (trimStart t) as [| d u] eqn:Et.
  - apply trimStart_blank in Et.
    rewrite (proj2 (trim_blank t) Et).
    apply trim_blank, Forall_app. split; assumption.
  - unfold trim, trimEnd. rewrite (trimStart_app_head t w d u Et), Et. 
    rewrite app_comm_cons, rev_app_distr, trimStart_skips; [reflexivity |].
    apply Forall_rev, Hw.
Qed.

Lemma collapseFrom_blank (w : jsstring) :
  blank w -> forall inRun, blank (collapseFrom inRun w).
Proof.
  induction 1 as [| c w Hc _ IH]; intros inRun; [constructor |].
  cbn [collapseFrom]. rewrite Hc.
  destruct inRun; [apply IH |]. constructor; [reflexivity | apply IH].
Qed.

Lemma collapseFrom_app_blank (s w : jsstring) :
  blank w ->
  forall inRun,
  exists w', blank w' /\ collapseFrom inRun (s ++ w) = collapseFrom inRun s ++ w'.
Proof.
  intros Hw. induction s as [| c s IH]; intros inRun.
  - exists (collapseFrom inRun w). split; [| reflexivity].
    apply collapseFrom_blank, Hw.
  - cbn [app collapseFrom]. destruct (isWhiteSpace c); [destruct inRun |].
    + apply IH.
    + destruct (IH true) as (w' & Hw' & ->). exists w'. split; [exact Hw' |].
      reflexivity.
    + destruct (IH false) as (w' & Hw' & ->). exists w'. split; [exact Hw' |].
      reflexivity.
Qed.

Lemma trim_collapse_blank (s w : jsstring) :
  blank w ->
  trim (collapseWhitespace (s ++ w)) = trim (collapseWhitespace s).
Proof.
  intros Hw. unfold collapseWhitespace.
  destruct (collapseFrom_app_blank s w Hw false) as (w' & Hw' & ->).
  apply trim_app_blank, Hw'.
Qed.

(** No match of the pattern begins where the next code unit that is not
    white space is something else than an opening parenthesis. *)
Lemma parenSuffixHere_plain (s : jsstring) (d : Z) (u : jsstring) :
  trimStart s = d :: u -> d <> 40 -> parenSuffixHere s = false.
Proof.
  unfold parenSuffixHere. intros -> Hd.
  destruct (Z.eqb_spec d 40); [contradiction | reflexivity].
Qed.

Lemma parenSuffixHere_blank (s : jsstring) :
  trimStart s = [] -> parenSuffixHere s = false.
Proof. unfold parenSuffixHere. intros ->. reflexivity. Qed.

Lemma trimStart_head (P : Z -> Prop) (s : jsstring) (d : Z) (u : jsstring) :
  Forall P s -> trimStart s = d :: u -> P d.
Proof.
  intros Hs Et. apply (Forall_trimStart P) in Hs. rewrite Et in Hs.
  inversion Hs. assumption.
Qed.

Lemma stripParenSuffix_plain (s : jsstring) :
  Forall (fun c => c <> 40) s -> stripParenSuffix s = s.
Proof.
  induction 1 as [| c s Hc Hs IH]; [reflexivity |].
  cbn [stripParenSuffix].
  assert (Hhere : parenSuffixHere (c :: s) = false).
  { destruct (trimStart (c :: s)) as [| d u] eqn:Et.
    - apply parenSuffixHere_blank, Et.
    - apply (parenSuffixHere_plain _ d u Et).
      apply (trimStart_head (fun c => c <> 40) (c :: s) d u);
        [constructor; assumption | exact Et]. }
  rewrite Hhere, IH. reflexivity.
Qed.

Lemma dropUntilClose_note (note rest : jsstring) :
  Forall (fun c => c <> 41) note ->
  dropUntilClose (note ++ 41 :: rest) = 41 :: rest.
Proof.
  induction 1 as [| c note Hc _ IH]; [reflexivity |].
  cbn [app dropUntilClose].
  destruct (Z.eqb_spec c 41); [contradiction | exact IH].
Qed.

Lemma parenSuffixHere_note (w note ws : jsstring) :
  blank w -> Forall (fun c => c <> 41) note -> blank ws ->
  parenSuffixHere (w ++ 40 :: note ++ 41 :: ws) = true.
Proof.
  intros Hw Hnote Hws. unfold parenSuffixHere.
  rewrite (trimStart_skips w _ Hw). cbn [trimStart].
  change (isWhiteSpace 40) with false. cbn iota.
  rewrite (dropUntilClose_note note ws Hnote).
  change (40 =? 40) with true. cbn [andb].
  apply forallb_forall. intros c Hc.
  apply (proj1 (List.Forall_forall _ _) Hws c Hc).
Qed.

Lemma stripParenSuffix_note (base note ws : jsstring) :
  Forall (fun c => c <> 40) base ->
  Forall (fun c => c <> 41) note -> blank ws ->
  exists kept w,
    base = kept ++ w /\ blank w
    /\ stripParenSuffix (base ++ 40 :: note ++ 41 :: ws) = kept.
Proof.
  intros Hbase Hnote Hws.
  induction Hbase as [| c base Hc Hbase IH].
  - exists [], []. split; [reflexivity |]. split; [constructor |].
    pose proof (parenSuffixHere_note [] note ws (List.Forall_nil _) Hnote Hws)
      as H.
    cbn [app] in H |- *. cbn [stripParenSuffix]. rewrite H. reflexivity.
  - destruct (trimStart (c :: base)) as [| d u] eqn:Et.
    + apply trimStart_blank in Et.
      exists [], (c :: base). split; [reflexivity |]. split; [exact Et |].
      pose proof (parenSuffixHere_note (c :: base) note ws Et Hnote Hws) as H.
      cbn [app] in H |- *. cbn [stripParenSuffix]. rewrite H. reflexivity.
    + destruct IH as (kept & w & Hsplit & Hw & Hstrip).
      exists (c :: kept), w. split; [cbn [app]; congruence |].
      split; [exact Hw |].
      cbn [app stripParenSuffix].
      rewrite (parenSuffixHere_plain _ d (u ++ 40 :: note ++ 41 :: ws)).
      * rewrite Hstrip. reflexivity.
      * rewrite app_comm_cons.
        apply (trimStart_app_head (c :: base) _ d u Et).
      * apply (trimStart_head (fun c => c <> 40) (c :: base) d u);
          [constructor; assumption | exact Et].
Qed.

(** X30.  [simplifyCardName] drops a parenthesised note at the end of a
    name, with the white space around it.  For a name without an opening
    parenthesis and a note without a closing one, the name with the note
    and the name without it are simplified to the same string, which is
    the name with its runs of white space collapsed and its ends
    trimmed. *)
Theorem simplifyCardName_note (base note ws : jsstring) :
  Forall (fun c => c <> 40) base ->
  Forall (fun c => c <> 41) note ->
  blank ws ->
  simplifyCardName (base ++ js "(" ++ note ++ js ")" ++ ws)
  = simplifyCardName base
  /\ simplifyCardName base = trim (collapseWhitespace base).
Proof.
  intros Hbase Hnote Hws.
  assert (Hplain : simplifyCardName base = trim (collapseWhitespace base)).
  { unfold simplifyCardName. rewrite (stripParenSuffix_plain base Hbase).
    reflexivity. }
  split; [| exact Hplain]. rewrite Hplain.
  destruct (stripParenSuffix_note base note ws Hbase Hnote Hws)
    as (kept & w & Hsplit & Hw & Hstrip).
  unfold simplifyCardName.
  change (js "(" ++ note ++ js ")" ++ ws) with (40 :: note ++ 41 :: ws).
  rewrite Hstrip, Hsplit. symmetry. apply trim_collapse_blank, Hw.
Qed.


(* ================================================================ *)
(** * The order of the groups of a section *)
(* ================================================================ *)

(** ** Sorted lists *)

Section OrderFacts.
Context {A : Type} (compare : A -> A -> Z).

Lemma consistentOn_spec (l : list A) :
  consistentOn compare l = true ->
  forall a b c,
    In a l -> In b l -> In c l ->
    compare a b <= 0 -> compare b c <= 0 -> compare a c <= 0.
Proof.
  unfold consistentOn. intros H a b c Ha Hb Hc Hab Hbc.
  rewrite forallb_forall in H. specialize (H a Ha).
  rewrite forallb_forall in H. specialize (H b Hb).
  rewrite forallb_forall in H. specialize (H c Hc).
  apply Z.leb_le in Hab, Hbc. rewrite Hab, Hbc in H.
  apply Z.leb_le. exact H.
Qed.

Lemma consistentOn_intro (l : list A) :
  (forall a b c,
      In a l -> In b l -> In c l ->
      compare a b <= 0 -> compare b c <= 0 -> compare a c <= 0) ->
  consistentOn compare l = true.
Proof.
  intros H. unfold consistentOn.
  apply forallb_forall. intros a Ha.
  apply forallb_forall. intros b Hb.
  apply forallb_forall. intros c Hc.
  destruct (Z.leb_spec (compare a b) 0) as [Hab | _]; [| reflexivity].
  destruct (Z.leb_spec (compare b c) 0) as [Hbc | _]; [| reflexivity].
  cbn [andb implb]. apply Z.leb_le. exact (H a b c Ha Hb Hc Hab Hbc).
Qed.

(** With a consistent comparator the output of the sort is in order:
    every element stands before every later one. *)
Lemma sortBy_StronglySorted (l : list A) :
  (forall x y, 0 < compare x y -> compare y x <= 0) ->
  consistentOn compare (sortBy compare l) = true ->
  StronglySorted (fun a b => compare a b <= 0) (sortBy compare l).
Proof.
  intros Hanti Hcons. apply Sorted_StronglySorted_on.
  - intros a b c. apply (consistentOn_spec _ Hcons).
  - apply (sortBy_Sorted compare (fun a b => compare a b <= 0)).
    + intros x y H. exact H.
    + exact Hanti.
Qed.

(** Two arrangements of the same elements that are both in order are
    the same list, where no two elements stand before each other. *)
Lemma StronglySorted_unique (R : A -> A -> Prop) (l : list A) :
  forall l',
    Permutation l l' ->
    StronglySorted R l -> StronglySorted R l' ->
    (forall a b, In a l -> In b l -> R a b -> R b a -> a = b) ->
    l = l'.
Proof.
  induction l as [| x l IH]; intros l' Hperm Hl Hl' Hanti.
  - apply Permutation_nil in Hperm. congruence.
  - destruct l' as [| y l'].
    { apply Permutation_sym, Permutation_nil in Hperm. discriminate. }
    apply StronglySorted_inv in Hl. destruct Hl as [Hl Hx].
    apply StronglySorted_inv in Hl'. destruct Hl' as [Hl' Hy].
    assert (Exy : x = y).
    { assert (Hxin : In x (y :: l')).
      { apply (Permutation_in x Hperm). left. reflexivity. }
      assert (Hyin : In y (x :: l)).
      { apply (Permutation_in y (Permutation_sym Hperm)). left.
        reflexivity. }
      destruct Hxin as [E | Hxin]; [congruence |].
      destruct Hyin as [E | Hyin]; [congruence |].
      apply Hanti; [left; reflexivity | right; exact Hyin | |].
      - exact (proj1 (List.Forall_forall _ _) Hx y Hyin).
      - exact (proj1 (List.Forall_forall _ _) Hy x Hxin). }
    subst y. f_equal. apply IH; [| exact Hl | exact Hl' |].
    + exact (Permutation_cons_inv Hperm).
    + intros a b Ha Hb. apply Hanti; right; assumption.
Qed.

(** An order that holds of the distinct elements of a list without
    repetition can be read in place of the one it is sorted by. *)
Lemma StronglySorted_distinct (R R' : A -> A -> Prop) (l : list A) :
  NoDup l ->
  StronglySorted R l ->
  (forall a b, In a l -> In b l -> a <> b -> R a b -> R' a b) ->
  StronglySorted R' l.
Proof.
  intros Hnd Hl. induction Hl as [| x l Hl IH Hx]; intros Himp;
    [constructor |].
  apply NoDup_cons in Hnd. destruct Hnd as [Hnotin Hnd].
  constructor.
  - apply (IH Hnd). intros a b Ha Hb. apply Himp; right; assumption.
  - apply List.Forall_forall. intros b Hb.
    apply Himp; [left; reflexivity | right; exact Hb | |].
    + intros ->. apply Hnotin, list_elem_of_In, Hb.
    + exact (proj1 (List.Forall_forall _ _) Hx b Hb).
Qed.

(** Three elements that the comparator puts in a circle cannot be
    arranged in order. *)
Lemma cycle_unsortable (a b c : A) (l : list A) :
  compare a b < 0 -> compare b c < 0 -> compare c a < 0 ->
  0 < compare b a -> 0 < compare c b -> 0 < compare a c ->
  Permutation l [a; b; c] ->
  ~ StronglySorted (fun x y => compare x y <= 0) l.
Proof.
  intros Hab Hbc Hca Hba Hcb Hac Hperm Hsorted.
  destruct l as [| f rest].
  { apply Permutation_nil in Hperm. discriminate. }
  apply StronglySorted_inv in Hsorted. destruct Hsorted as [_ Hf].
  assert (Hin : forall x, In x [a; b; c] -> x = f \/ In x rest).
  { intros x Hx. apply (Permutation_in x (Permutation_sym Hperm)) in Hx.
    destruct Hx as [E | Hx]; [left; congruence | right; exact Hx]. }
  assert (Hle : forall x, In x [a; b; c] -> x = f \/ compare f x <= 0).
  { intros x Hx. destruct (Hin x Hx) as [E | Hrest]; [left; exact E |].
    right. exact (proj1 (List.Forall_forall _ _) Hf x Hrest). }
  assert (Hfin : In f [a; b; c]).
  { apply (Permutation_in f Hperm). left. reflexivity. }
  destruct (Hle a ltac:(cbn; auto)) as [Ea | La];
    destruct (Hle b ltac:(cbn; auto)) as [Eb | Lb];
    destruct (Hle c ltac:(cbn; auto)) as [Ec | Lc];
    destruct Hfin as [<- | [<- | [<- | []]]];
    subst; clear_runtime; lia.
Qed.
End OrderFacts.

(** ** The first element that passes a test *)

Lemma findIndexFrom_first {A} (p : A -> bool) (l : list A) :
  forall (i : Z) (m : nat) (x : A),
    l !! m = Some x -> p x = true ->
    (forall j y, (j < m)%nat -> l !! j = Some y -> p y = false) ->
    findIndexFrom p l i = i + Z.of_nat m.
Proof.
  induction l as [| z l IH]; intros i m x Hm Hx Hbefore; [discriminate |].
  cbn [findIndexFrom]. destruct m as [| m].
  - cbn in Hm. injection Hm as ->. rewrite Hx. clear_runtime. lia.
  - rewrite (Hbefore 0%nat z) by (reflexivity || (clear_runtime; lia)).
    rewrite (IH (i + 1) m x Hm Hx).
    + clear_runtime. lia.
    + intros j y Hj Hy. apply (Hbefore (S j) y); [| exact Hy].
      clear_runtime. lia.
Qed.

Lemma findIndex_first {A} (p : A -> bool) (l : list A) (m : nat) (x : A) :
  l !! m = Some x -> p x = true ->
  (forall j y, (j < m)%nat -> l !! j = Some y -> p y = false) ->
  findIndex p l = Z.of_nat m.
Proof.
  intros Hm Hx Hbefore. unfold findIndex.
  rewrite (findIndexFrom_first p l 0 m x Hm Hx Hbefore). reflexivity.
Qed.

(** The index found is that of the first element that passes. *)
Lemma findIndex_found {A} (p : A -> bool) (l : list A) (x : A) :
  In x l -> p x = true ->
  exists (m : nat) (y : A),
    findIndex p l = Z.of_nat m /\ l !! m = Some y /\ p y = true
    /\ forall j z, (j < m)%nat -> l !! j = Some z -> p z = false.
Proof.
  induction l as [| z l IH]; intros Hin Hx; [destruct Hin |].
  destruct (p z) eqn:Ez.
  - exists 0%nat, z. split; [unfold findIndex; cbn; rewrite Ez; reflexivity |].
    split; [reflexivity | split; [exact Ez |]].
    intros j y Hj. clear_runtime. lia.
  - destruct Hin as [-> | Hin]; [congruence |].
    destruct (IH Hin Hx) as (m & y & Hfind & Hm & Hy & Hbefore).
    exists (S m), y. split; [| split; [exact Hm | split; [exact Hy |]]].
    + apply (findIndex_first p (z :: l) (S m) y Hm Hy).
      intros [| j] w Hj Hw.
      * cbn in Hw. injection Hw as <-. exact Ez.
      * apply (Hbefore j w); [clear_runtime; lia | exact Hw].
    + intros [| j] w Hj Hw.
      * cbn in Hw. injection Hw as <-. exact Ez.
      * apply (Hbefore j w); [clear_runtime; lia | exact Hw].
Qed.

(** ** The count pass records the first index of every id *)

Lemma countLoop_firstIndex (rest : list Z) :
  forall (seen : list Z) (counts : list (Z * CountEntry)),
    NoDup (map fst counts) ->
    (forall id, In id seen -> In id (map fst counts)) ->
    Forall (fun entry =>
              In (fst entry) seen
              /\ firstIndex (snd entry) = findIndex (Z.eqb (fst entry)) seen)
      counts ->
    let result := countLoop rest (Z.of_nat (length seen)) counts in
    NoDup (map fst result)
    /\ (forall id, In id (seen ++ rest) -> In id (map fst result))
    /\ Forall (fun entry =>
                 In (fst entry) (seen ++ rest)
                 /\ firstIndex (snd entry)
                    = findIndex (Z.eqb (fst entry)) (seen ++ rest))
         result.
Proof.
  induction rest as [| x rest IH]; intros seen counts Hnd Hcover Hall.
  - cbn [countLoop]. rewrite app_nil_r. auto.
  - cbn zeta. cbn [countLoop].
    replace (Z.of_nat (length seen) + 1)
      with (Z.of_nat (length (seen ++ [x])))
      by (rewrite length_app; cbn [length]; clear_runtime; lia).
    replace (seen ++ x :: rest) with ((seen ++ [x]) ++ rest)
      by (rewrite <- app_assoc; reflexivity).
    assert (Hold : Forall (fun entry =>
              In (fst entry) (seen ++ [x])
              /\ firstIndex (snd entry)
                 = findIndex (Z.eqb (fst entry)) (seen ++ [x])) counts).
    { eapply List.Forall_impl; [| exact Hall]. intros [id e].
      cbn [fst snd]. intros [Hin Hfirst]. split.
      - apply in_or_app. left. exact Hin.
      - rewrite Hfirst.
        destruct (findIndex_found (Z.eqb id) seen id Hin (Z.eqb_refl id))
          as (m & y & Hfind & Hm & Hy & Hbefore).
        rewrite Hfind. symmetry.
        apply (findIndex_first _ _ m y);
          [apply lookup_app_l_Some; exact Hm | exact Hy |].
        intros j z Hj Hz. apply (Hbefore j z Hj).
        rewrite lookup_app_l in Hz; [exact Hz |].
        apply lookup_lt_Some in Hm. clear_runtime. lia. }
    destruct (omapGet x counts) as [e |] eqn:Eget.
    + apply IH.
      * rewrite omapAlter_keys. exact Hnd.
      * rewrite omapAlter_keys. intros id Hid.
        apply in_app_or in Hid. destruct Hid as [Hid | [<- | []]];
          [exact (Hcover id Hid) |].
        apply omapGet_In in Eget. exact (in_map fst _ _ Eget).
      * apply omapAlter_Forall; [exact Hold |].
        intros v Hv. exact Hv.
    + rewrite (omapSet_absent _ _ _ Eget).
      assert (Hnew : ~ In x (map fst counts))
        by exact (omapGet_absent _ _ Eget).
      apply IH.
      * rewrite map_app. cbn [map fst].
        apply (proj2 (NoDup_app _ _)). split; [exact Hnd |].
        split; [| apply NoDup_singleton].
        intros k Hk Hk'. apply list_elem_of_In in Hk.
        apply list_elem_of_In in Hk'. destruct Hk' as [<- | []].
        exact (Hnew Hk).
      * rewrite map_app. cbn [map fst]. intros id Hid.
        apply in_or_app. apply in_app_or in Hid.
        destruct Hid as [Hid | Hid]; [left; exact (Hcover id Hid) |].
        right. exact Hid.
      * apply Forall_app. split; [exact Hold |].
        constructor; [| constructor]. cbn [fst snd firstIndex]. split.
        { apply in_or_app. right. left. reflexivity. }
        { symmetry. apply (findIndex_first _ _ (length seen) x).
          - rewrite lookup_app_r by (clear_runtime; lia).
            rewrite Nat.sub_diag. reflexivity.
          - apply Z.eqb_refl.
          - intros j z Hj Hz. rewrite lookup_app_l in Hz by exact Hj.
            apply Z.eqb_neq. intros <-. apply Hnew, Hcover.
            apply list_elem_of_In. eapply list_elem_of_lookup_2.
            exact Hz. }
Qed.

Lemma countPass_firstIndex (ids : list Z) :
  NoDup (map fst (countPass ids))
  /\ (forall id, In id ids -> In id (map fst (countPass ids)))
  /\ Forall (fun entry =>
               In (fst entry) ids
               /\ firstIndex (snd entry) = findIndex (Z.eqb (fst entry)) ids)
       (countPass ids).
Proof.
  unfold countPass.
  apply (countLoop_firstIndex ids [] []);
    [apply NoDup_nil_2 | intros id [] | constructor].
Qed.

(** ** The merge pass keeps the least index of a name *)

Section OrderedMapEntries.
Context {K V : Type} `{EqDecision K}.

Lemma omapAlter_entries (P P' : K * V -> Prop) (f : V -> V) (k : K)
    (m : list (K * V)) :
  NoDup (map fst m) -> Forall P m ->
  (forall k' v, k' <> k -> P (k', v) -> P' (k', v)) ->
  (forall v, P (k, v) -> P' (k, f v)) ->
  Forall P' (omapAlter f k m).
Proof.
  intros Hnd Hm Hother Hsame.
  induction m as [| [k' v'] m IH]; cbn [omapAlter]; [constructor |].
  cbn [map fst] in Hnd. apply NoDup_cons in Hnd.
  destruct Hnd as [Hnotin Hnd].
  apply List.Forall_cons_iff in Hm. destruct Hm as [Hhead Hm].
  destruct (decide (k = k')) as [<- | Hne].
  - constructor; [apply Hsame, Hhead |].
    apply List.Forall_forall. intros [k2 v2] Hin.
    apply Hother; [| exact (proj1 (List.Forall_forall _ _) Hm _ Hin)].
    intros ->. apply Hnotin, list_elem_of_In.
    exact (in_map fst _ _ Hin).
  - constructor; [apply Hother; [congruence | exact Hhead] |].
    exact (IH Hnd Hm).
Qed.

Lemma omap_value_unique (m : list (K * V)) (k : K) (v v' : V) :
  NoDup (map fst m) -> In (k, v) m -> In (k, v') m -> v = v'.
Proof.
  induction m as [| [k2 v2] m IH]; intros Hnd Hv Hv'; [destruct Hv |].
  cbn [map fst] in Hnd. apply NoDup_cons in Hnd.
  destruct Hnd as [Hnotin Hnd].
  assert (Hkey : forall w, In (k2, w) m -> False).
  { intros w Hw. apply Hnotin, list_elem_of_In.
    exact (in_map fst _ _ Hw). }
  destruct Hv as [Ev | Hv], Hv' as [Ev' | Hv'].
  - congruence.
  - injection Ev as <- <-. destruct (Hkey _ Hv').
  - injection Ev' as <- <-. destruct (Hkey _ Hv).
  - exact (IH Hnd Hv Hv').
Qed.
End OrderedMapEntries.

Lemma mergeFold_index (zone : DeckSection) (rest : list DeckCardGroup.t) :
  forall (done : list DeckCardGroup.t)
         (merged : list (list Z * DeckCardGroup.t)),
    Forall (fun r => DeckCardGroup.zone r = zone
                     /\ isSome (DeckCardGroup.orderIndex r) = true) rest ->
    NoDup (map fst merged) ->
    (forall r, In r done -> In (mergeKey r) (map fst merged)) ->
    Forall (mergedIndexOk zone done) merged ->
    let result := fold_left mergeStep rest merged in
    NoDup (map fst result)
    /\ (forall r, In r (done ++ rest) -> In (mergeKey r) (map fst result))
    /\ Forall (mergedIndexOk zone (done ++ rest)) result.
Proof.
  induction rest as [| c rest IH]; intros done merged Hrest Hnd Hcover Hall.
  - cbn [fold_left]. rewrite app_nil_r. auto.
  - cbn zeta. cbn [fold_left].
    apply List.Forall_cons_iff in Hrest.
    destruct Hrest as [[Hzone Hsome] Hrest].
    replace (done ++ c :: rest) with ((done ++ [c]) ++ rest)
      by (rewrite <- app_assoc; reflexivity).
    destruct (omapGet (mergeKey c) merged) as [existing |] eqn:Eget.
    + replace (mergeStep merged c)
        with (omapAlter (mergeInto c) (mergeKey c) merged)
        by (unfold mergeStep; cbv zeta; rewrite Eget; reflexivity).
      apply IH; [exact Hrest | | |].
      * rewrite omapAlter_keys. exact Hnd.
      * rewrite omapAlter_keys. intros r Hr.
        apply in_app_or in Hr. destruct Hr as [Hr | [<- | []]];
          [exact (Hcover r Hr) |].
        apply omapGet_In in Eget. exact (in_map fst _ _ Eget).
      * apply (omapAlter_entries (mergedIndexOk zone done));
          [exact Hnd | exact Hall | |].
        { unfold mergedIndexOk. cbn [fst snd].
          intros k' v Hne (Hkey & Hz & Hs & (r & Hr & Hrk & Hri) & Hmin).
          split; [exact Hkey |]. split; [exact Hz |].
          split; [exact Hs |]. split.
          - exists r. split; [apply in_or_app; left; exact Hr | auto].
          - intros r' Hr' Hk'. apply in_app_or in Hr'.
            destruct Hr' as [Hr' | [<- | []]]; [exact (Hmin r' Hr' Hk') |].
            congruence. }
        { unfold mergedIndexOk. cbn [fst snd].
          intros v (Hkey & Hz & Hs & (r & Hr & Hrk & Hri) & Hmin).
          split; [exact Hkey |]. split; [exact Hz |].
          split; [reflexivity |].
          assert (Hidx : indexKey (mergeInto c v)
                         = Z.min (indexKey v) (indexKey c))
            by reflexivity.
          rewrite Hidx. split.
          - destruct (Z.le_gt_cases (indexKey v) (indexKey c)) as [Hle | Hgt].
            + exists r. split; [apply in_or_app; left; exact Hr |].
              split; [exact Hrk |]. rewrite Hri. clear_runtime. lia.
            + exists c. split; [apply in_or_app; right; left; reflexivity |].
              split; [reflexivity |]. clear_runtime. lia.
          - intros r' Hr' Hk'. apply in_app_or in Hr'.
            destruct Hr' as [Hr' | [<- | []]].
            + specialize (Hmin r' Hr' Hk'). clear_runtime. lia.
            + clear_runtime. lia. }
    + replace (mergeStep merged c) with (merged ++ [(mergeKey c, c)])
        by (unfold mergeStep; cbv zeta; rewrite Eget;
            symmetry; apply omapSet_absent, Eget).
      assert (Hnew : ~ In (mergeKey c) (map fst merged))
        by exact (omapGet_absent _ _ Eget).
      apply IH; [exact Hrest | | |].
      * rewrite map_app. cbn [map fst].
        apply (proj2 (NoDup_app _ _)). split; [exact Hnd |].
        split; [| apply NoDup_singleton].
        intros k Hk Hk'. apply list_elem_of_In in Hk.
        apply list_elem_of_In in Hk'. destruct Hk' as [<- | []].
        exact (Hnew Hk).
      * rewrite map_app. cbn [map fst]. intros r Hr.
        apply in_or_app. apply in_app_or in Hr.
        destruct Hr as [Hr | [<- | []]]; [left; exact (Hcover r Hr) |].
        right. left. reflexivity.
      * apply Forall_app. split.
        { apply List.Forall_forall. intros [k' v] Hin.
          pose proof (proj1 (List.Forall_forall _ _) Hall _ Hin) as Hold.
          unfold mergedIndexOk in Hold |- *. cbn [fst snd] in Hold |- *.
          destruct Hold as (Hkey & Hz & Hs & (r & Hr & Hrk & Hri) & Hmin).
          split; [exact Hkey |]. split; [exact Hz |].
          split; [exact Hs |]. split.
          - exists r. split; [apply in_or_app; left; exact Hr | auto].
          - intros r' Hr' Hk'. apply in_app_or in Hr'.
            destruct Hr' as [Hr' | [<- | []]]; [exact (Hmin r' Hr' Hk') |].
            exfalso. apply Hnew. rewrite Hk'.
            exact (in_map fst _ _ Hin). }
        { constructor; [| constructor].
          unfold mergedIndexOk. cbn [fst snd].
          split; [reflexivity |]. split; [exact Hzone |].
          split; [exact Hsome |]. split.
          - exists c. split; [apply in_or_app; right; left; reflexivity |].
            split; reflexivity.
          - intros r' Hr' Hk'. apply in_app_or in Hr'.
            destruct Hr' as [Hr' | [<- | []]];
              [| clear_runtime; lia].
            exfalso. apply Hnew. rewrite <- Hk'. exact (Hcover r' Hr'). }
Qed.

Lemma mergePass_index (zone : DeckSection) (rawGroups : list DeckCardGroup.t) :
  Forall (fun r => DeckCardGroup.zone r = zone
                   /\ isSome (DeckCardGroup.orderIndex r) = true)
    rawGroups ->
  NoDup (map fst (mergePass rawGroups))
  /\ (forall r, In r rawGroups ->
                In (mergeKey r) (map fst (mergePass rawGroups)))
  /\ Forall (mergedIndexOk zone rawGroups) (mergePass rawGroups).
Proof.
  intros Hraw. unfold mergePass.
  apply (mergeFold_index zone rawGroups [] []);
    [exact Hraw | apply NoDup_nil_2 | intros r [] | constructor].
Qed.

(** ** The groups of a section and their first occurrence *)

Lemma NoDup_map_inv {A B} (h : A -> B) (l : list A) :
  NoDup (map h l) -> NoDup l.
Proof.
  induction l as [| x l IH]; cbn [map]; intros Hnd; [apply NoDup_nil_2 |].
  apply NoDup_cons in Hnd. destruct Hnd as [Hnotin Hnd].
  apply NoDup_cons. split; [| exact (IH Hnd)].
  intros Hx. apply Hnotin. apply list_elem_of_In.
  apply in_map, list_elem_of_In, Hx.
Qed.

Lemma mergeKey_same (zone : DeckSection) (a b : DeckCardGroup.t) :
  DeckCardGroup.zone a = zone -> DeckCardGroup.zone b = zone ->
  (mergeKey a = mergeKey b
   <-> normalizeCardName (DeckCardGroup.name a)
       = normalizeCardName (DeckCardGroup.name b)).
Proof.
  intros Ha Hb. split.
  - apply mergeKey_name. congruence.
  - intros E. unfold mergeKey. rewrite E, Ha, Hb. reflexivity.
Qed.

Lemma merged_entry_index (zone : DeckSection)
    (f : Z * CountEntry -> DeckCardGroup.t) (ids : list Z) :
  rawGroupsOf zone f ->
  forall key g,
    In (key, g) (mergePass (map f (countPass ids))) ->
    exists (m : nat) (id : Z),
      ids !! m = Some id
      /\ sameName g id = true
      /\ firstOccurrence ids g = Z.of_nat m
      /\ DeckCardGroup.orderIndex g = Some (Z.of_nat m)
      /\ DeckCardGroup.zone g = zone
      /\ key = mergeKey g.
Proof.
  intros Hf key g Hin.
  destruct (countPass_firstIndex ids) as (_ & Ccover & Call).
  assert (Hraw : Forall (fun r => DeckCardGroup.zone r = zone
                   /\ isSome (DeckCardGroup.orderIndex r) = true)
                   (map f (countPass ids))).
  { apply List.Forall_forall. intros r Hr. apply in_map_iff in Hr.
    destruct Hr as (entry & <- & _).
    destruct (Hf entry) as (Hz & Hi & _). rewrite Hi. auto. }
  destruct (mergePass_index zone _ Hraw) as (_ & _ & Hall).
  pose proof (proj1 (List.Forall_forall _ _) Hall _ Hin) as Hentry.
  unfold mergedIndexOk in Hentry. cbn [fst snd] in Hentry.
  destruct Hentry as (Hkey & Hzone & Hsome & (r & Hr & Hrk & Hri) & Hmin).
  apply in_map_iff in Hr. destruct Hr as ([id0 e0] & <- & Hentry0).
  destruct (Hf (id0, e0)) as (Hz0 & Hi0 & Hn0). cbn [fst snd] in Hi0, Hn0.
  destruct (proj1 (List.Forall_forall _ _) Call _ Hentry0) as [Hid0 Hfirst0].
  cbn [fst snd] in Hid0, Hfirst0.
  destruct (findIndex_found (Z.eqb id0) ids id0 Hid0 (Z.eqb_refl id0))
    as (m & y & Hfind & Hm & Hy & Hbefore).
  apply Z.eqb_eq in Hy. subst y.
  assert (Hidx : indexKey g = Z.of_nat m).
  { rewrite <- Hri. unfold indexKey. rewrite Hi0. cbn [default].
    rewrite Hfirst0. exact Hfind. }
  assert (Hsame : sameName g id0 = true).
  { unfold sameName. apply bool_decide_eq_true_2. rewrite <- Hn0.
    apply (mergeKey_same zone); [exact Hz0 | exact Hzone | congruence]. }
  exists m, id0. split; [exact Hm |]. split; [exact Hsame |].
  split; [| split; [| split; [exact Hzone | exact Hkey]]].
  - unfold firstOccurrence.
    apply (findIndex_first _ _ m id0 Hm Hsame).
    intros j z Hj Hz. destruct (sameName g z) eqn:Ez; [| reflexivity].
    exfalso. unfold sameName in Ez. apply bool_decide_eq_true_1 in Ez.
    assert (Hzin : In z ids).
    { apply list_elem_of_In. eapply list_elem_of_lookup_2. exact Hz. }
    pose proof (Ccover z Hzin) as Hzkey. apply in_map_iff in Hzkey.
    destruct Hzkey as ([z' e'] & Ez' & Hentry'). cbn [fst] in Ez'.
    subst z'.
    destruct (Hf (z, e')) as (Hz1 & Hi1 & Hn1). cbn [fst snd] in Hi1, Hn1.
    destruct (proj1 (List.Forall_forall _ _) Call _ Hentry') as [_ Hfirst1].
    cbn [fst snd] in Hfirst1.
    assert (Hle : indexKey g <= indexKey (f (z, e'))).
    { apply Hmin; [apply in_map; exact Hentry' |]. rewrite Hkey.
      apply (mergeKey_same zone); [exact Hz1 | exact Hzone |].
      rewrite Hn1. exact Ez. }
    unfold indexKey at 2 in Hle. rewrite Hi1 in Hle.
    cbn [default from_option id] in Hle.
    rewrite Hfirst1, Hidx in Hle.
    destruct (findIndex_found (Z.eqb z) ids z Hzin (Z.eqb_refl z))
      as (m' & y' & Hfind' & _ & _ & Hbefore').
    rewrite Hfind' in Hle.
    destruct (Nat.lt_ge_cases j m') as [Hlt | Hge].
    + specialize (Hbefore' j z Hlt Hz). rewrite Z.eqb_refl in Hbefore'.
      discriminate.
    + clear_runtime. lia.
  - destruct (DeckCardGroup.orderIndex g) as [i |] eqn:Ei;
      [| discriminate].
    unfold indexKey in Hidx. rewrite Ei in Hidx.
    cbn [default from_option id] in Hidx.
    congruence.
Qed.

Lemma merged_values (zone : DeckSection)
    (f : Z * CountEntry -> DeckCardGroup.t) (ids : list Z) :
  rawGroupsOf zone f ->
  let values := omapValues (mergePass (map f (countPass ids))) in
  NoDup values
  /\ Forall (fun g =>
               DeckCardGroup.orderIndex g = Some (firstOccurrence ids g)
               /\ 0 <= firstOccurrence ids g < Z.of_nat (length ids))
       values
  /\ (forall g g',
         In g values -> In g' values ->
         firstOccurrence ids g = firstOccurrence ids g' -> g = g').
Proof.
  intros Hf values.
  assert (Hentry : forall g, In g values ->
            exists key, In (key, g) (mergePass (map f (countPass ids)))).
  { intros g Hg. apply in_map_iff in Hg. destruct Hg as ([key g'] & <- & Hg).
    exists key. exact Hg. }
  assert (Hraw : Forall (fun r => DeckCardGroup.zone r = zone
                   /\ isSome (DeckCardGroup.orderIndex r) = true)
                   (map f (countPass ids))).
  { apply List.Forall_forall. intros r Hr. apply in_map_iff in Hr.
    destruct Hr as (entry & <- & _).
    destruct (Hf entry) as (Hz & Hi & _). rewrite Hi. auto. }
  destruct (mergePass_index zone _ Hraw) as (Hnd & _ & Hall).
  split; [| split].
  - apply (NoDup_map_inv mergeKey). subst values. unfold omapValues.
    rewrite map_map.
    replace (map (fun x => mergeKey (snd x))
               (mergePass (map f (countPass ids))))
      with (map fst (mergePass (map f (countPass ids)))); [exact Hnd |].
    apply map_ext_in. intros entry Hin.
    exact (proj1 (proj1 (List.Forall_forall _ _) Hall _ Hin)).
  - apply List.Forall_forall. intros g Hg.
    destruct (Hentry g Hg) as [key Hin].
    destruct (merged_entry_index zone f ids Hf key g Hin)
      as (m & id & Hm & _ & Hfirst & Hidx & _ & _).
    rewrite Hfirst. split; [exact Hidx |].
    apply lookup_lt_Some in Hm. clear_runtime. lia.
  - intros g g' Hg Hg' Heq.
    destruct (Hentry g Hg) as [key Hin].
    destruct (Hentry g' Hg') as [key' Hin'].
    destruct (merged_entry_index zone f ids Hf key g Hin)
      as (m & id & Hm & Hs & Hfirst & _ & Hz & Hk).
    destruct (merged_entry_index zone f ids Hf key' g' Hin')
      as (m' & id' & Hm' & Hs' & Hfirst' & _ & Hz' & Hk').
    assert (m = m') by (clear_runtime; lia). subst m'.
    assert (id = id') by congruence. subst id'.
    unfold sameName in Hs, Hs'.
    apply bool_decide_eq_true_1 in Hs. apply bool_decide_eq_true_1 in Hs'.
    assert (Ekey : key = key').
    { rewrite Hk, Hk'. apply (mergeKey_same zone); congruence. }
    rewrite <- Ekey in Hin'.
    exact (omap_value_unique _ _ _ _ Hnd Hin Hin').
Qed.

(** ** The comparator on the records of [getSortMeta] *)

Lemma sgn_flip (x y : Z) :
  Z.sgn y = - Z.sgn x ->
  (x < 0 <-> 0 < y) /\ (x = 0 <-> y = 0) /\ (0 < x <-> y < 0).
Proof.
  clear_runtime. intros H.
  destruct (Z.sgn_spec x) as [[? E] | [[? E] | [? E]]];
    destruct (Z.sgn_spec y) as [[? E'] | [[? E'] | [? E']]];
    rewrite E, E' in H; lia.
Qed.

Lemma compareMeta_antisym (metaA metaB : SortMeta.t) :
  Z.sgn (compareMeta metaB metaA) = - Z.sgn (compareMeta metaA metaB).
Proof using localeCompare_antisym.
  unfold compareMeta.
  rewrite (Z.eqb_sym (SortMeta.priority metaB)),
    (Z.eqb_sym (SortMeta.sub metaB)), (Z.eqb_sym (SortMeta.level metaB)),
    (andb_comm (SortMeta.sortByLevel metaB)).
  pose proof (localeCompare_antisym (SortMeta.name metaA)
                (SortMeta.name metaB)) as Hanti.
  destruct (sgn_flip _ _ Hanti) as (_ & Hzero & _).
  destruct (Z.eqb_spec (SortMeta.priority metaA) (SortMeta.priority metaB));
    cbn [negb];
    [| rewrite <- Z.sgn_opp; f_equal; clear_runtime; lia].
  destruct (Z.eqb_spec (SortMeta.sub metaA) (SortMeta.sub metaB));
    cbn [negb];
    [| rewrite <- Z.sgn_opp; f_equal; clear_runtime; lia].
  destruct (SortMeta.sortByLevel metaA && SortMeta.sortByLevel metaB
            && negb (SortMeta.level metaA =? SortMeta.level metaB));
    [rewrite <- Z.sgn_opp; f_equal; clear_runtime; lia |].
  cbv zeta.
  destruct (Z.eqb_spec (localeCompare (SortMeta.name metaA)
                          (SortMeta.name metaB)) 0) as [E | N];
    destruct (Z.eqb_spec (localeCompare (SortMeta.name metaB)
                            (SortMeta.name metaA)) 0) as [E' | N'];
    cbn [negb].
  - rewrite <- Z.sgn_opp. f_equal. clear_runtime. lia.
  - destruct (N' (proj1 Hzero E)).
  - destruct (N (proj2 Hzero E')).
  - exact Hanti.
Qed.

Lemma compareMeta_flip (metaA metaB : SortMeta.t) :
  0 < compareMeta metaA metaB -> compareMeta metaB metaA <= 0.
Proof using localeCompare_antisym.
  intros H. destruct (sgn_flip _ _ (compareMeta_antisym metaA metaB))
    as (_ & _ & Hpos).
  apply Hpos in H. clear_runtime. lia.
Qed.

Lemma compareMeta_zero (metaA metaB : SortMeta.t) :
  compareMeta metaA metaB <= 0 -> compareMeta metaB metaA <= 0 ->
  SortMeta.order metaA = SortMeta.order metaB.
Proof using localeCompare_antisym.
  intros Hab Hba.
  assert (Hzero : compareMeta metaA metaB = 0).
  { destruct (sgn_flip _ _ (compareMeta_antisym metaA metaB))
      as (Hneg & _ & _).
    destruct (Z.lt_total (compareMeta metaA metaB) 0) as [H | [H | H]];
      [apply Hneg in H | exact H |]; clear_runtime; lia. }
  clear Hab Hba. revert Hzero. unfold compareMeta.
  destruct (Z.eqb_spec (SortMeta.priority metaA) (SortMeta.priority metaB));
    cbn [negb]; [| clear_runtime; lia].
  destruct (Z.eqb_spec (SortMeta.sub metaA) (SortMeta.sub metaB));
    cbn [negb]; [| clear_runtime; lia].
  destruct (SortMeta.sortByLevel metaA && SortMeta.sortByLevel metaB
            && negb (SortMeta.level metaA =? SortMeta.level metaB)) eqn:Ec.
  - apply andb_true_iff in Ec. destruct Ec as [_ Ec].
    apply negb_true_iff, Z.eqb_neq in Ec. clear_runtime. lia.
  - cbv zeta.
    destruct (Z.eqb_spec (localeCompare (SortMeta.name metaA)
                            (SortMeta.name metaB)) 0);
      cbn [negb]; clear_runtime; lia.
Qed.

(** What [compareMeta metaA metaB <= 0] says of two records with
    different indexes. *)
Lemma compareMeta_before (metaA metaB : SortMeta.t) :
  compareMeta metaA metaB <= 0 ->
  SortMeta.order metaA <> SortMeta.order metaB ->
  let byLevel :=
    SortMeta.sortByLevel metaA = true /\ SortMeta.sortByLevel metaB = true
    /\ SortMeta.level metaA <> SortMeta.level metaB in
  SortMeta.priority metaA < SortMeta.priority metaB
  \/ (SortMeta.priority metaA = SortMeta.priority metaB
      /\ (SortMeta.sub metaA < SortMeta.sub metaB
          \/ (SortMeta.sub metaA = SortMeta.sub metaB
              /\ ((byLevel /\ SortMeta.level metaB < SortMeta.level metaA)
                  \/ (~ byLevel
                      /\ (localeCompare (SortMeta.name metaA)
                            (SortMeta.name metaB) < 0
                          \/ (localeCompare (SortMeta.name metaA)
                                (SortMeta.name metaB) = 0
                              /\ SortMeta.order metaA
                                 < SortMeta.order metaB))))))).
Proof.
  unfold compareMeta. intros Hle Hne. cbv zeta. revert Hle.
  destruct (Z.eqb_spec (SortMeta.priority metaA) (SortMeta.priority metaB))
    as [Ep | Np]; cbn [negb]; [| intros; left; clear_runtime; lia].
  destruct (Z.eqb_spec (SortMeta.sub metaA) (SortMeta.sub metaB))
    as [Es | Ns]; cbn [negb];
    [| intros; right; split; [exact Ep | left; clear_runtime; lia]].
  destruct (SortMeta.sortByLevel metaA && SortMeta.sortByLevel metaB
            && negb (SortMeta.level metaA =? SortMeta.level metaB)) eqn:Ec.
  - intros Hle. right. split; [exact Ep |]. right. split; [exact Es |].
    left. rewrite !andb_true_iff, negb_true_iff, Z.eqb_neq in Ec.
    split; [pure_tauto | clear_runtime; lia].
  - assert (Hno : ~ (SortMeta.sortByLevel metaA = true
                     /\ SortMeta.sortByLevel metaB = true
                     /\ SortMeta.level metaA <> SortMeta.level metaB)).
    { intros (H1 & H2 & H3). rewrite H1, H2 in Ec.
      apply Z.eqb_neq in H3. rewrite H3 in Ec. discriminate. }
    cbv zeta.
    destruct (Z.eqb_spec (localeCompare (SortMeta.name metaA)
                            (SortMeta.name metaB)) 0) as [En | Nn];
      cbn [negb]; intros Hle; (right; split; [exact Ep |]);
      (right; split; [exact Es |]); right; (split; [exact Hno |]).
    + right. split; [exact En | clear_runtime; lia].
    + left. clear_runtime. lia.
Qed.

(** Where two records of one bucket agree on [sortByLevel], the
    comparator is the order by priority, bucket, level, name and
    index. *)
Lemma compareMeta_le (metaA metaB : SortMeta.t) :
  (SortMeta.priority metaA = SortMeta.priority metaB ->
   SortMeta.sub metaA = SortMeta.sub metaB ->
   SortMeta.sortByLevel metaA = SortMeta.sortByLevel metaB) ->
  (compareMeta metaA metaB <= 0 <-> metaLe metaA metaB).
Proof.
  intros Huniform. unfold compareMeta, metaLe, effectiveLevel.
  destruct (Z.eqb_spec (SortMeta.priority metaA) (SortMeta.priority metaB))
    as [Ep | Np]; cbn [negb]; [| clear_runtime; lia].
  destruct (Z.eqb_spec (SortMeta.sub metaA) (SortMeta.sub metaB))
    as [Es | Ns]; cbn [negb]; [| clear_runtime; lia].
  rewrite <- (Huniform Ep Es).
  destruct (SortMeta.sortByLevel metaA); cbn [andb].
  - destruct (Z.eqb_spec (SortMeta.level metaA) (SortMeta.level metaB))
      as [El | Nl]; cbn [negb]; [| clear_runtime; lia].
    cbv zeta.
    destruct (Z.eqb_spec (localeCompare (SortMeta.name metaA)
                            (SortMeta.name metaB)) 0);
      cbn [negb]; clear_runtime; lia.
  - cbv zeta.
    destruct (Z.eqb_spec (localeCompare (SortMeta.name metaA)
                            (SortMeta.name metaB)) 0);
      cbn [negb]; clear_runtime; lia.
Qed.

(** The order of the names, where [localeCompare] is transitive. *)
Lemma localeCompare_order :
  (forall x y z : jsstring,
      localeCompare x y <= 0 -> localeCompare y z <= 0 ->
      localeCompare x z <= 0) ->
  forall x y z : jsstring,
    (localeCompare x y < 0 -> localeCompare y z <= 0 ->
     localeCompare x z < 0)
    /\ (localeCompare x y <= 0 -> localeCompare y z < 0 ->
        localeCompare x z < 0)
    /\ (localeCompare x y = 0 -> localeCompare y z = 0 ->
        localeCompare x z = 0).
Proof using localeCompare_antisym.
  intros Htrans x y z.
  destruct (sgn_flip _ _ (localeCompare_antisym x y)) as (Hxy1 & Hxy2 & Hxy3).
  destruct (sgn_flip _ _ (localeCompare_antisym y z)) as (Hyz1 & Hyz2 & Hyz3).
  destruct (sgn_flip _ _ (localeCompare_antisym x z)) as (Hxz1 & Hxz2 & Hxz3).
  pose proof (Htrans x y z) as T1. pose proof (Htrans y z x) as T2.
  pose proof (Htrans z x y) as T3. pose proof (Htrans z y x) as T4.
  clear Htrans. clear_runtime. lia.
Qed.

Lemma metaLe_trans (metaA metaB metaC : SortMeta.t) :
  (forall x y z : jsstring,
      localeCompare x y <= 0 -> localeCompare y z <= 0 ->
      localeCompare x z <= 0) ->
  metaLe metaA metaB -> metaLe metaB metaC -> metaLe metaA metaC.
Proof using localeCompare_antisym.
  intros Htrans.
  destruct (localeCompare_order Htrans (SortMeta.name metaA)
              (SortMeta.name metaB) (SortMeta.name metaC))
    as (H1 & H2 & H3).
  unfold metaLe. clear Htrans. clear_runtime. lia.
Qed.

(** ** The keys of a card *)

(** The record of [getSortMeta] holds the keys of the card. *)
Lemma getSortMeta_keys (card : DeckCardGroup.t) (zone : DeckSection) :
  let meta := getSortMeta card zone in
  SortMeta.priority meta
  = match categoryOf card with
    | MonsterCard => 0
    | SpellCard => 1
    | TrapCard => 2
    | OtherCard => 4
    end
  /\ SortMeta.sub meta = bucketOf zone card
  /\ SortMeta.sortByLevel meta = levelSorted card
  /\ (levelSorted card = true -> SortMeta.level meta = levelOf card)
  /\ SortMeta.name meta = nameKey card
  /\ SortMeta.order meta = indexKey card.
Proof.
  cbv zeta.
  unfold getSortMeta, categoryOf, bucketOf, levelSorted, categoryOf,
    cardTypeLabel, cardRaceLabel, levelOf, nameKey, indexKey.
  destruct (includes (js "monster") _).
  - cbn [SortMeta.priority SortMeta.sub SortMeta.sortByLevel SortMeta.level
         SortMeta.name SortMeta.order existsb].
    rewrite orb_false_r. repeat split; reflexivity.
  - destruct (includes (js "spell") _);
      [repeat split; try reflexivity; discriminate |].
    destruct (includes (js "trap") _);
      repeat split; try reflexivity; discriminate.
Qed.

Lemma getSortMeta'_keys (card : DeckCardGroup.t) (zone : DeckSection) :
  let meta := getSortMeta' card zone in
  SortMeta.priority meta = categoryRank' (categoryOf' card)
  /\ SortMeta.sub meta = bucketOf' zone card
  /\ SortMeta.name meta = nameKey card
  /\ SortMeta.order meta = indexKey card.
Proof.
  cbv zeta.
  unfold getSortMeta', categoryOf', bucketOf', categoryOf', cardTypeLabel',
    cardRaceLabel', nameKey, indexKey.
  destruct (DeckCardGroup.id card <=? 0); [repeat split; reflexivity |].
  destruct (includes (js "spell") _); cbn [negb andb];
    [repeat split; reflexivity |].
  destruct (includes (js "trap") _); cbn [negb andb];
    repeat split; reflexivity.
Qed.

Lemma compareCards_meta (zone : DeckSection) (a b : DeckCardGroup.t) :
  cardSortMode zone = Default ->
  compareCards zone a b
  = compareMeta (getSortMeta a zone) (getSortMeta b zone).
Proof. intros Hmode. unfold compareCards. rewrite Hmode. reflexivity. Qed.

Lemma compareCards'_meta (zone : DeckSection) (a b : DeckCardGroup.t) :
  compareCards' zone a b
  = compareMeta (withoutLevel (getSortMeta' a zone))
      (withoutLevel (getSortMeta' b zone)).
Proof. reflexivity. Qed.

(** The ranks of the categories in the two versions. *)
Lemma categoryRank_priority (a b : CardCategory) :
  let priority (category : CardCategory) : Z :=
    match category with
    | MonsterCard => 0
    | SpellCard => 1
    | TrapCard => 2
    | OtherCard => 4
    end in
  (priority a < priority b <-> categoryRank a < categoryRank b)
  /\ (priority a = priority b <-> a = b)
  /\ (categoryRank a = categoryRank b <-> a = b).
Proof.
  clear_runtime. destruct a, b; cbn; repeat split; intros H;
    try reflexivity; try discriminate; try lia.
Qed.

Lemma categoryRank'_inj (a b : CardCategory) :
  categoryRank' a = categoryRank' b -> a = b.
Proof. destruct a, b; cbn; intros H; try reflexivity; discriminate. Qed.

(** What the comparator says of two groups with different first
    indexes, in the keys of the cards. *)
Lemma compareCards_before (zone : DeckSection) (ids : list Z)
    (a b : DeckCardGroup.t) :
  cardSortMode zone = Default ->
  indexKey a = firstOccurrence ids a ->
  indexKey b = firstOccurrence ids b ->
  firstOccurrence ids a <> firstOccurrence ids b ->
  compareCards zone a b <= 0 -> structuralBefore zone ids a b.
Proof.
  intros Hmode Ha Hb Hne. rewrite (compareCards_meta zone a b Hmode).
  destruct (getSortMeta_keys a zone) as (Pa & Sa & La & Va & Na & Oa).
  destruct (getSortMeta_keys b zone) as (Pb & Sb & Lb & Vb & Nb & Ob).
  intros Hle. apply compareMeta_before in Hle; [| congruence].
  cbv zeta in Hle. rewrite Pa, Pb, Sa, Sb, La, Lb, Na, Nb, Oa, Ob in Hle.
  destruct (categoryRank_priority (categoryOf a) (categoryOf b))
    as (Hlt & Heq & _). cbv zeta in Hlt, Heq.
  unfold structuralBefore, byLevel, byNameThenIndex.
  rewrite <- Ha, <- Hb.
  destruct Hle as [Hp | (Hp & Hrest)]; [left; apply Hlt, Hp |].
  right. split; [apply Heq, Hp |].
  destruct Hrest as [Hs | (Hs & Hrest)]; [left; exact Hs |].
  right. split; [exact Hs |].
  destruct Hrest as [((L1 & L2 & L3) & L4) | (Hno & Hname)].
  - rewrite (Va L1), (Vb L2) in L3, L4. left. auto.
  - right. split; [| exact Hname].
    intros (L1 & L2 & L3). apply Hno.
    rewrite (Va L1), (Vb L2). auto.
Qed.

Lemma compareCards'_before (zone : DeckSection) (ids : list Z)
    (a b : DeckCardGroup.t) :
  indexKey a = firstOccurrence ids a ->
  indexKey b = firstOccurrence ids b ->
  firstOccurrence ids a <> firstOccurrence ids b ->
  compareCards' zone a b <= 0 -> structuralBefore' zone ids a b.
Proof.
  intros Ha Hb Hne. rewrite (compareCards'_meta zone a b).
  destruct (getSortMeta'_keys a zone) as (Pa & Sa & Na & Oa).
  destruct (getSortMeta'_keys b zone) as (Pb & Sb & Nb & Ob).
  intros Hle. apply compareMeta_before in Hle;
    [| cbn [withoutLevel SortMeta.order]; congruence].
  cbv zeta in Hle.
  cbn [withoutLevel SortMeta.priority SortMeta.sub SortMeta.sortByLevel
       SortMeta.level SortMeta.name SortMeta.order] in Hle.
  rewrite Pa, Pb, Sa, Sb, Na, Nb, Oa, Ob in Hle.
  unfold structuralBefore', byNameThenIndex. rewrite <- Ha, <- Hb.
  destruct Hle as [Hp | (Hp & Hrest)]; [left; exact Hp |].
  right. split; [apply categoryRank'_inj, Hp |].
  destruct Hrest as [Hs | (Hs & Hrest)]; [left; exact Hs |].
  right. split; [exact Hs |].
  destruct Hrest as [((L1 & _) & _) | (_ & Hname)];
    [discriminate | exact Hname].
Qed.

(** ** When the comparator is consistent *)

Lemma bucketsUniform_spec (zone : DeckSection) (l : list DeckCardGroup.t) :
  bucketsUniform zone l = true ->
  forall a b,
    In a l -> In b l ->
    categoryOf a = categoryOf b -> bucketOf zone a = bucketOf zone b ->
    levelSorted a = levelSorted b.
Proof.
  unfold bucketsUniform. intros H a b Ha Hb Hc Hs.
  rewrite forallb_forall in H. specialize (H a Ha).
  rewrite forallb_forall in H. specialize (H b Hb).
  rewrite Hc, Hs, !Z.eqb_refl in H. cbn [andb implb] in H.
  apply Bool.eqb_prop, H.
Qed.

Lemma compareCards_consistent (zone : DeckSection)
    (l : list DeckCardGroup.t) :
  cardSortMode zone = Default ->
  (forall x y z : jsstring,
      localeCompare x y <= 0 -> localeCompare y z <= 0 ->
      localeCompare x z <= 0) ->
  bucketsUniform zone l = true ->
  consistentOn (compareCards zone) l = true.
Proof using localeCompare_antisym.
  intros Hmode Htrans Huniform. apply consistentOn_intro.
  assert (Hpair : forall a b, In a l -> In b l ->
            (compareCards zone a b <= 0
             <-> metaLe (getSortMeta a zone) (getSortMeta b zone))).
  { intros a b Ha Hb. rewrite (compareCards_meta zone a b Hmode).
    apply compareMeta_le.
    destruct (getSortMeta_keys a zone) as (Pa & Sa & La & _).
    destruct (getSortMeta_keys b zone) as (Pb & Sb & Lb & _).
    rewrite Pa, Pb, Sa, Sb, La, Lb. intros Hp Hs.
    apply (bucketsUniform_spec zone l Huniform a b Ha Hb); [| exact Hs].
    destruct (categoryRank_priority (categoryOf a) (categoryOf b))
      as (_ & Heq & _).
    apply Heq, Hp. }
  intros a b c Ha Hb Hc Hab Hbc.
  apply (Hpair a c Ha Hc).
  apply (metaLe_trans _ (getSortMeta b zone) _ Htrans).
  - apply (Hpair a b Ha Hb), Hab.
  - apply (Hpair b c Hb Hc), Hbc.
Qed.

Lemma compareCards'_consistent (zone : DeckSection)
    (l : list DeckCardGroup.t) :
  (forall x y z : jsstring,
      localeCompare x y <= 0 -> localeCompare y z <= 0 ->
      localeCompare x z <= 0) ->
  consistentOn (compareCards' zone) l = true.
Proof using localeCompare_antisym.
  intros Htrans. apply consistentOn_intro.
  intros a b c _ _ _. rewrite !compareCards'_meta.
  rewrite !compareMeta_le by reflexivity.
  apply metaLe_trans, Htrans.
Qed.

(** ** The output of the sort pass *)

Lemma rawGroup_rawGroupsOf (zone : DeckSection) :
  rawGroupsOf zone (rawGroup zone).
Proof. intros [id e]. repeat split. Qed.

Lemma rawGroup'_rawGroupsOf (zone : DeckSection) :
  rawGroupsOf zone (rawGroup' zone).
Proof. intros [id e]. repeat split. Qed.

(** The groups of a section, sorted by a comparator that is consistent
    on them and tells any two of them apart: the output is in the order
    that the comparator stands for, and it is the only arrangement of
    the groups that the comparator takes for sorted. *)
Lemma sorted_groups (compare : DeckCardGroup.t -> DeckCardGroup.t -> Z)
    (before : DeckCardGroup.t -> DeckCardGroup.t -> Prop)
    (values : list DeckCardGroup.t) :
  NoDup values ->
  (forall x y, 0 < compare x y -> compare y x <= 0) ->
  (forall a b, In a values -> In b values ->
               compare a b <= 0 -> compare b a <= 0 -> a = b) ->
  (forall a b, In a values -> In b values -> a <> b ->
               compare a b <= 0 -> before a b) ->
  consistentOn compare (sortBy compare values) = true ->
  StronglySorted before (sortBy compare values)
  /\ forall other,
       Permutation other (sortBy compare values) ->
       StronglySorted (fun a b => compare a b <= 0) other ->
       other = sortBy compare values.
Proof.
  intros Hnd Hflip Hzero Hbefore Hcons.
  pose proof (sortBy_perm compare values) as Hperm.
  pose proof (sortBy_StronglySorted compare values Hflip Hcons) as Hsorted.
  assert (Hin : forall x, In x (sortBy compare values) -> In x values).
  { intros x. apply Permutation_in, Hperm. }
  split.
  - apply (StronglySorted_distinct (fun a b => compare a b <= 0));
      [rewrite Hperm; exact Hnd | exact Hsorted |].
    intros a b Ha Hb. apply Hbefore; auto.
  - intros other Hother Hothersorted.
    apply (StronglySorted_unique (fun a b => compare a b <= 0));
      [exact Hother | exact Hothersorted | exact Hsorted |].
    intros a b Ha Hb. apply Hzero; apply Hin.
    + exact (Permutation_in a Hother Ha).
    + exact (Permutation_in b Hother Hb).
Qed.

Lemma indexKey_firstOccurrence (ids : list Z) (g : DeckCardGroup.t) :
  DeckCardGroup.orderIndex g = Some (firstOccurrence ids g) ->
  indexKey g = firstOccurrence ids g.
Proof. intros H. unfold indexKey. rewrite H. reflexivity. Qed.

Lemma toGroup_ordered (ids : list Z) (zone : DeckSection) :
  cardSortMode zone = Default ->
  consistentOn (compareCards zone) (toGroup ids zone) = true ->
  StronglySorted (structuralBefore zone ids) (toGroup ids zone)
  /\ forall other,
       Permutation other (toGroup ids zone) ->
       StronglySorted (fun a b => compareCards zone a b <= 0) other ->
       other = toGroup ids zone.
Proof using localeCompare_antisym.
  intros Hmode Hcons. unfold toGroup in Hcons |- *. cbv zeta in Hcons |- *.
  destruct (merged_values zone (rawGroup zone) ids
              (rawGroup_rawGroupsOf zone)) as (Hnd & Hfirst & Hdistinct).
  cbv zeta in Hnd, Hfirst, Hdistinct.
  assert (Hkey : forall g,
            In g (omapValues (mergePass (map (rawGroup zone) (countPass ids)))) ->
            indexKey g = firstOccurrence ids g).
  { intros g Hg. apply indexKey_firstOccurrence.
    exact (proj1 (proj1 (List.Forall_forall _ _) Hfirst g Hg)). }
  apply sorted_groups; [exact Hnd | | | | exact Hcons].
  - intros x y. rewrite !(compareCards_meta zone _ _ Hmode).
    apply compareMeta_flip.
  - intros a b Ha Hb. rewrite !(compareCards_meta zone _ _ Hmode).
    intros Hab Hba. apply (Hdistinct a b Ha Hb).
    pose proof (compareMeta_zero _ _ Hab Hba) as Horder.
    destruct (getSortMeta_keys a zone) as (_ & _ & _ & _ & _ & Oa).
    destruct (getSortMeta_keys b zone) as (_ & _ & _ & _ & _ & Ob).
    rewrite <- (Hkey a Ha), <- (Hkey b Hb). congruence.
  - intros a b Ha Hb Hne.
    apply (compareCards_before zone ids a b Hmode (Hkey a Ha) (Hkey b Hb)).
    intros E. apply Hne, (Hdistinct a b Ha Hb E).
Qed.

Lemma toGroup'_ordered (ids : list Z) (zone : DeckSection) :
  consistentOn (compareCards' zone) (toGroup' ids zone) = true ->
  StronglySorted (structuralBefore' zone ids) (toGroup' ids zone)
  /\ forall other,
       Permutation other (toGroup' ids zone) ->
       StronglySorted (fun a b => compareCards' zone a b <= 0) other ->
       other = toGroup' ids zone.
Proof using localeCompare_antisym.
  intros Hcons. unfold toGroup' in Hcons |- *. cbv zeta in Hcons |- *.
  destruct (merged_values zone (rawGroup' zone) ids
              (rawGroup'_rawGroupsOf zone)) as (Hnd & Hfirst & Hdistinct).
  cbv zeta in Hnd, Hfirst, Hdistinct.
  assert (Hkey : forall g,
            In g (omapValues (mergePass (map (rawGroup' zone) (countPass ids)))) ->
            indexKey g = firstOccurrence ids g).
  { intros g Hg. apply indexKey_firstOccurrence.
    exact (proj1 (proj1 (List.Forall_forall _ _) Hfirst g Hg)). }
  apply sorted_groups; [exact Hnd | | | | exact Hcons].
  - intros x y. rewrite !compareCards'_meta. apply compareMeta_flip.
  - intros a b Ha Hb. rewrite !compareCards'_meta.
    intros Hab Hba. apply (Hdistinct a b Ha Hb).
    pose proof (compareMeta_zero _ _ Hab Hba) as Horder.
    cbn [withoutLevel SortMeta.order] in Horder.
    destruct (getSortMeta'_keys a zone) as (_ & _ & _ & Oa).
    destruct (getSortMeta'_keys b zone) as (_ & _ & _ & Ob).
    rewrite <- (Hkey a Ha), <- (Hkey b Hb). congruence.
  - intros a b Ha Hb Hne.
    apply (compareCards'_before zone ids a b (Hkey a Ha) (Hkey b Hb)).
    intros E. apply Hne, (Hdistinct a b Ha Hb E).
Qed.

Lemma toGroup_firstOccurrence (ids : list Z) (zone : DeckSection) :
  Forall (fun g =>
            DeckCardGroup.orderIndex g = Some (firstOccurrence ids g)
            /\ 0 <= firstOccurrence ids g < Z.of_nat (length ids))
    (toGroup ids zone)
  /\ Forall (fun g =>
               DeckCardGroup.orderIndex g = Some (firstOccurrence ids g)
               /\ 0 <= firstOccurrence ids g < Z.of_nat (length ids))
       (toGroup' ids zone).
Proof.
  split.
  - destruct (merged_values zone (rawGroup zone) ids
                (rawGroup_rawGroupsOf zone)) as (_ & Hfirst & _).
    unfold toGroup. cbv zeta in Hfirst |- *.
    rewrite sortBy_perm. exact Hfirst.
  - destruct (merged_values zone (rawGroup' zone) ids
                (rawGroup'_rawGroupsOf zone)) as (_ & Hfirst & _).
    unfold toGroup'. cbv zeta in Hfirst |- *.
    rewrite sortBy_perm. exact Hfirst.
Qed.

(** The ranks of the spell and trap buckets on the race labels of the
    card database, lower-cased, in the two versions. *)
Lemma bucket_ranks :
  map spellPriority
    [js "normal"; js "quick-play"; js "ritual"; js "field";
     js "continuous"; js "equip"; js ""]
  = [0; 1; 2; 3; 4; 5; 6]
  /\ map trapPriority [js "counter"; js "continuous"; js "normal"; js ""]
     = [0; 1; 2; 2]
  /\ map spellPriority'
       [js "normal"; js "equip"; js "quick-play"; js "field";
        js "ritual"; js "continuous"; js ""]
     = [0; 1; 2; 3; 4; 5; 6]
  /\ map trapPriority' [js "normal"; js "counter"; js "continuous"; js ""]
     = [0; 1; 2; 3].
Proof. repeat split. Qed.

(** C5, as the code has it.  In the version of [src/unnamed/part_002], in
    structural sort mode, where [compareCards] is a consistent order on
    the groups of the section, every group of the output stands before
    every later one in the structural order: monsters, then spells, then
    traps, then the rest; the spell buckets normal, quick-play, ritual,
    field, continuous, equip, other; the trap buckets counter,
    continuous, normal or other; inside a bucket two level-sorted
    monsters (neither Link nor Xyz) of different levels by level
    descending, and any other pair by name ascending, then by first
    occurrence in the section; and the output is the only arrangement of
    the groups that the comparator takes for sorted, whatever the sort
    algorithm.  The comparator is consistent if [localeCompare] is
    transitive and no bucket holds a level-sorted monster together with a
    Link or Xyz monster.  In the version of [src/src/App.tsx] the same
    holds of its own order, which has no level key: the entries without
    an id, then monsters, spells, traps; the spell buckets normal, equip,
    quick-play, field, ritual, continuous, other; the trap buckets
    normal, counter, continuous, other; there the comparator is
    consistent whenever [localeCompare] is transitive.  In both versions
    the [orderIndex] of a group is the first index of the section at
    which a card of its name stands. *)
Theorem toGroup_structural_order (ids : list Z) (zone : DeckSection) :
  (cardSortMode zone = Default ->
   consistentOn (compareCards zone) (toGroup ids zone) = true ->
   StronglySorted (structuralBefore zone ids) (toGroup ids zone)
   /\ forall other,
        Permutation other (toGroup ids zone) ->
        StronglySorted (fun a b => compareCards zone a b <= 0) other ->
        other = toGroup ids zone)
  /\ (cardSortMode zone = Default ->
      (forall x y z : jsstring,
          localeCompare x y <= 0 -> localeCompare y z <= 0 ->
          localeCompare x z <= 0) ->
      bucketsUniform zone (toGroup ids zone) = true ->
      consistentOn (compareCards zone) (toGroup ids zone) = true)
  /\ (consistentOn (compareCards' zone) (toGroup' ids zone) = true ->
      StronglySorted (structuralBefore' zone ids) (toGroup' ids zone)
      /\ forall other,
           Permutation other (toGroup' ids zone) ->
           StronglySorted (fun a b => compareCards' zone a b <= 0) other ->
           other = toGroup' ids zone)
  /\ ((forall x y z : jsstring,
          localeCompare x y <= 0 -> localeCompare y z <= 0 ->
          localeCompare x z <= 0) ->
      consistentOn (compareCards' zone) (toGroup' ids zone) = true)
  /\ Forall (fun g =>
               DeckCardGroup.orderIndex g = Some (firstOccurrence ids g)
               /\ 0 <= firstOccurrence ids g < Z.of_nat (length ids))
       (toGroup ids zone)
  /\ Forall (fun g =>
               DeckCardGroup.orderIndex g = Some (firstOccurrence ids g)
               /\ 0 <= firstOccurrence ids g < Z.of_nat (length ids))
       (toGroup' ids zone)
  /\ map spellPriority
       [js "normal"; js "quick-play"; js "ritual"; js "field";
        js "continuous"; js "equip"; js ""]
     = [0; 1; 2; 3; 4; 5; 6]
  /\ map trapPriority [js "counter"; js "continuous"; js "normal"; js ""]
     = [0; 1; 2; 2]
  /\ map spellPriority'
       [js "normal"; js "equip"; js "quick-play"; js "field";
        js "ritual"; js "continuous"; js ""]
     = [0; 1; 2; 3; 4; 5; 6]
  /\ map trapPriority' [js "normal"; js "counter"; js "continuous"; js ""]
     = [0; 1; 2; 3].
Proof using localeCompare_antisym.
  split; [apply toGroup_ordered |].
  split; [intros Hmode Htrans; apply compareCards_consistent; assumption |].
  split; [apply toGroup'_ordered |].
  split; [apply compareCards'_consistent |].
  destruct (toGroup_firstOccurrence ids zone) as [H1 H2].
  split; [exact H1 |]. split; [exact H2 |].
  exact bucket_ranks.
Qed.


End Program.

(* ================================================================== *)
(** * The instances satisfy what is assumed of the runtime services *)
(* ================================================================== *)

Lemma lowerLatin1_ascii (c : Z) : isAscii c -> lowerLatin1 c = lowerAscii c.
Proof.
  unfold isAscii, lowerLatin1, lowerAscii. intros Hc.
  destruct ((65 <=? c) && (c <=? 90)); [reflexivity |].
  destruct (Z.leb_spec 0xC0 c); [lia | reflexivity].
Qed.

Lemma toLowerCaseLatin1_ascii (s : jsstring) :
  Forall isAscii s -> toLowerCaseLatin1 s = map lowerAscii s.
Proof.
  unfold toLowerCaseLatin1.
  induction 1 as [| c s Hc _ IH]; simpl; [reflexivity |].
  rewrite IH, (lowerLatin1_ascii c Hc). reflexivity.
Qed.

Lemma lowerLatin1_outside (c : Z) : ~ 0 <= c < 256 -> lowerLatin1 c = c.
Proof.
  unfold lowerLatin1. intros Hc.
  destruct (Z.leb_spec 65 c); destruct (Z.leb_spec c 90); simpl; try lia;
    destruct (Z.leb_spec 0xC0 c); destruct (Z.leb_spec c 0xDE); simpl;
    try reflexivity; lia.
Qed.

(** On the 256 code units of Latin-1 the facts are checked one by one. *)
Lemma lowerLatin1_facts (c : Z) :
  lowerLatin1 (lowerLatin1 c) = lowerLatin1 c
  /\ isWhiteSpace (lowerLatin1 c) = isWhiteSpace c.
Proof.
  destruct (Z.le_gt_cases 0 c) as [H0 | H0];
    [destruct (Z.lt_ge_cases c 256) as [H1 | H1] |].
  - pose proof (forallb_below
      (fun c => (lowerLatin1 (lowerLatin1 c) =? lowerLatin1 c)
                && Bool.eqb (isWhiteSpace (lowerLatin1 c)) (isWhiteSpace c))
      256 eq_refl c (conj H0 H1)) as H.
    apply andb_true_iff in H. destruct H as [Ha Hb].
    apply Z.eqb_eq in Ha. apply Bool.eqb_prop in Hb. auto.
  - rewrite !(lowerLatin1_outside c) by lia. auto.
  - rewrite !(lowerLatin1_outside c) by lia. auto.
Qed.

Lemma toLowerCaseLatin1_idempotent (s : jsstring) :
  toLowerCaseLatin1 (toLowerCaseLatin1 s) = toLowerCaseLatin1 s.
Proof.
  unfold toLowerCaseLatin1. rewrite map_map. apply map_ext.
  intros c. apply lowerLatin1_facts.
Qed.

Lemma trimStart_lower (s : jsstring) :
  trimStart (toLowerCaseLatin1 s) = toLowerCaseLatin1 (trimStart s).
Proof.
  unfold toLowerCaseLatin1. induction s as [| c r IH]; [reflexivity |].
  simpl. rewrite (proj2 (lowerLatin1_facts c)).
  destruct (isWhiteSpace c); [exact IH | reflexivity].
Qed.

Lemma trim_lower (s : jsstring) :
  trim (toLowerCaseLatin1 s) = toLowerCaseLatin1 (trim s).
Proof.
  unfold trim, trimEnd. rewrite trimStart_lower.
  unfold toLowerCaseLatin1 at 1. rewrite <- map_rev.
  fold (toLowerCaseLatin1 (rev (trimStart s))). rewrite trimStart_lower.
  unfold toLowerCaseLatin1. rewrite map_rev. reflexivity.
Qed.

Lemma collapseFrom_lower (s : jsstring) :
  forall inRun,
    collapseFrom inRun (toLowerCaseLatin1 s)
    = toLowerCaseLatin1 (collapseFrom inRun s).
Proof.
  unfold toLowerCaseLatin1. induction s as [| c r IH]; intros inRun;
    [reflexivity |].
  simpl. rewrite (proj2 (lowerLatin1_facts c)).
  destruct (isWhiteSpace c); [destruct inRun |]; simpl; rewrite IH; reflexivity.
Qed.

Lemma toLowerCaseLatin1_spacing (s : jsstring) :
  trim s = s -> collapseWhitespace s = s ->
  trim (toLowerCaseLatin1 s) = toLowerCaseLatin1 s
  /\ collapseWhitespace (toLowerCaseLatin1 s) = toLowerCaseLatin1 s.
Proof.
  intros Ht Hc. unfold collapseWhitespace in *.
  rewrite trim_lower, collapseFrom_lower, Ht, Hc. auto.
Qed.

(** With this lower-casing the condition of idempotence is also
    necessary: a normalized name that contains the mis-encoded apostrophe
    gets shorter when it is normalized again. *)
Lemma normalizeCardName_latin1_repeat (name : jsstring) :
  includes mojibake (normalizeCardName toLowerCaseLatin1 name) = true ->
  normalizeCardName toLowerCaseLatin1 (normalizeCardName toLowerCaseLatin1 name)
  <> normalizeCardName toLowerCaseLatin1 name.
Proof.
  intros Hin Heq.
  destruct (normal_spacing name) as [Htrim Hcollapse].
  destruct (toLowerCaseLatin1_spacing _ Htrim Hcollapse) as [Htrim' _].
  fold (normalizeCardName toLowerCaseLatin1 name) in Htrim'.
  set (y := normalizeCardName toLowerCaseLatin1 name) in Hin, Heq, Htrim'.
  apply (f_equal (@length Z)) in Heq.
  unfold normalizeCardName, toLowerCaseLatin1 in Heq.
  rewrite length_map, Htrim' in Heq.
  pose proof (replaceMojibake_with y Hin).
  pose proof (collapseFrom_length (replaceMojibake y) false).
  unfold collapseWhitespace in Heq. lia.
Qed.

Lemma compareCodeUnits_antisym (a b : jsstring) :
  Z.sgn (compareCodeUnits b a) = - Z.sgn (compareCodeUnits a b).
Proof.
  revert b. induction a as [| x a IH]; intros [| y b]; simpl; try reflexivity.
  destruct (Z.ltb_spec x y); destruct (Z.ltb_spec y x); simpl;
    try reflexivity; try lia. apply IH.
Qed.

Lemma compareCodeUnits_trans (x y z : jsstring) :
  compareCodeUnits x y <= 0 -> compareCodeUnits y z <= 0 ->
  compareCodeUnits x z <= 0.
Proof.
  revert y z. induction x as [| a x IH]; intros [| b y] [| c z];
    cbn [compareCodeUnits]; try lia.
  destruct (Z.ltb_spec a b), (Z.ltb_spec b a), (Z.ltb_spec b c),
    (Z.ltb_spec c b), (Z.ltb_spec a c), (Z.ltb_spec c a); try lia.
  apply IH.
Qed.

Lemma storedGzip_bytes (s : jsstring) : Forall isByte (storedGzip s).
Proof.
  unfold storedGzip. apply List.Forall_map. apply Forall_forall.
  intros c _. unfold isByte, toUint8. apply Z.mod_pos_bound. lia.
Qed.

Lemma storedUngzip_storedGzip (s : jsstring) :
  Forall isAscii s ->
  exists text,
    storedUngzip (storedGzip s) = Some text /\ decodeLatin1 text = s.
Proof.
  intros Hs. exists (storedGzip s). split; [reflexivity |].
  unfold decodeLatin1, storedGzip.
  induction Hs as [| c s Hc _ IH]; simpl; [reflexivity |].
  rewrite IH. unfold toUint8. rewrite Z.mod_small; [reflexivity |].
  unfold isAscii in Hc. lia.
Qed.

(* ================================================================== *)
(** * The statements at concrete inputs *)
(* ================================================================== *)

Ltac all_uint32 :=
  repeat (apply List.Forall_cons; [unfold isUint32; lia |]);
  apply List.Forall_nil.

Ltac all_ascii :=
  repeat (apply List.Forall_cons; [unfold isAscii; simpl; lia |]);
  apply List.Forall_nil.

(** C1 at a deck with a placeholder and the largest 32-bit id. *)
Lemma parseYdke_buildYdke_witness :
  exists deck,
    parseYdke toLowerCaseLatin1 (buildYdke [1; 0; 4294967295] [0; 7] [])
    = Ok deck
    /\ main deck = [1; 0; 4294967295] /\ extra deck = [0; 7] /\ side deck = [].
Proof.
  apply (parseYdke_buildYdke toLowerCaseLatin1 toLowerCaseLatin1_ascii);
    all_uint32.
Defined.

(** C2 and C3 at the scenario of the specification: three copies of one
    card, one of another, a listed spell and an unknown id. *)
Lemma deckGroups_totals_witness :
  Forall (fun card =>
            DeckCardGroup.totalPoints card
            = DeckCardGroup.pointsPerCopy card * DeckCardGroup.count card)
    (allGroups
       (deckGroups toLowerCaseLatin1 compareCodeUnits samplePoints
          sampleDetails defaultSort sampleDeck)).
Proof.
  exact (proj1 (deckGroups_totals toLowerCaseLatin1 compareCodeUnits
                  samplePoints sampleDetails defaultSort sampleDeck)).
Defined.

Lemma toGroup_count_conservation_witness :
  sumZ (map DeckCardGroup.count
          (toGroup toLowerCaseLatin1 compareCodeUnits samplePoints
             sampleDetails defaultSort [5; 5; 5; 7; 0; 9] Main))
  = 6.
Proof.
  exact (toGroup_count_conservation toLowerCaseLatin1 compareCodeUnits
           samplePoints sampleDetails defaultSort [5; 5; 5; 7; 0; 9] Main).
Defined.

(** The scenario of the specification: 5, 5, 5, 7 with 10 and 3 points. *)
Example toGroup_scenario :
  map (fun card => (DeckCardGroup.name card, DeckCardGroup.count card,
                    DeckCardGroup.totalPoints card))
    (toGroup toLowerCaseLatin1 compareCodeUnits samplePoints sampleDetails
       defaultSort [5; 5; 5; 7] Main)
  = [(js "Beta", 1, 3); (js "Alpha", 3, 30)]
  /\ totalPoints
       (Some (deckGroups toLowerCaseLatin1 compareCodeUnits samplePoints
                sampleDetails defaultSort
                {| main := [5; 5; 5; 7]; extra := []; side := [];
                   hasInferredIds := None; inferredCardCount := None |}))
     = 33.
Proof. split; vm_compute; reflexivity. Qed.

(** C4 at a section with three placeholders and two replacements. *)
Lemma handleMissingIdResolve_fills_earliest_witness :
  exists deck',
    deckAfterResolve toLowerCaseLatin1 sampleDeck (Some (Main, js "Missing ID"))
      samplePick = Some deck'
    /\ findSlots (main deck') = [4%nat]
    /\ side deck' = [0].
Proof.
  destruct (handleMissingIdResolve_fills_earliest toLowerCaseLatin1
              toLowerCaseLatin1_ascii sampleDeck Main (js "Missing ID")
              samplePick)
    as (_ & deck' & Hdeck & _ & _ & Hother & Hslots & _).
  - all_uint32.
  - all_uint32.
  - all_uint32.
  - repeat (apply List.Forall_cons; [unfold isUint32; simpl; lia |]).
    apply List.Forall_nil.
  - simpl. lia.
  - exists deck'. split; [exact Hdeck |]. split; [exact Hslots |].
    apply (Hother Side). discriminate.
Defined.

Example deckAfterResolve_sample :
  deckAfterResolve toLowerCaseLatin1 sampleDeck (Some (Main, js "Missing ID"))
    samplePick
  = Some {| main := [3; 77; 5; 77; 0]; extra := []; side := [0];
            hasInferredIds := Some true; inferredCardCount := Some 1 |}.
Proof. vm_compute. reflexivity. Qed.

(** C5 at a section with two monsters, a spell and an unknown id: the
    output of either version is in its order, the comparator being
    consistent on the groups, as a computation shows and as follows from
    the transitivity of the comparison of names. *)
Lemma toGroup_structural_order_witness :
  StronglySorted
    (structuralBefore toLowerCaseLatin1 compareCodeUnits samplePoints
       sampleDetails Main [5; 5; 5; 7; 55144522; 9])
    (toGroup toLowerCaseLatin1 compareCodeUnits samplePoints sampleDetails
       defaultSort [5; 5; 5; 7; 55144522; 9] Main)
  /\ consistentOn (compareCards toLowerCaseLatin1 compareCodeUnits defaultSort Main)
       (toGroup toLowerCaseLatin1 compareCodeUnits samplePoints sampleDetails
          defaultSort [5; 5; 5; 7; 55144522; 9] Main)
     = true
  /\ StronglySorted
       (structuralBefore' toLowerCaseLatin1 compareCodeUnits samplePoints
          sampleDetails Main [5; 5; 5; 7; 55144522; 9])
       (toGroup' toLowerCaseLatin1 compareCodeUnits samplePoints sampleDetails
          [5; 5; 5; 7; 55144522; 9] Main).
Proof.
  destruct (toGroup_structural_order toLowerCaseLatin1 compareCodeUnits
              samplePoints sampleDetails defaultSort compareCodeUnits_antisym
              [5; 5; 5; 7; 55144522; 9] Main)
    as (Hordered & Hconsistent & Hordered' & Hconsistent' & _).
  split; [| split].
  - apply Hordered; [reflexivity | vm_compute; reflexivity].
  - apply Hconsistent;
      [reflexivity | exact compareCodeUnits_trans | vm_compute; reflexivity].
  - apply Hordered', Hconsistent'. exact compareCodeUnits_trans.
Defined.

(** C6 at a section with a placeholder after a card. *)
Lemma parseYdke_inferredCardCount_witness :
  parseYdke toLowerCaseLatin1 (js "ydke://AQAAAAAAAAA=!!")
  = Ok {| main := [1; 0]; extra := []; side := [];
          hasInferredIds := Some true; inferredCardCount := Some 1 |}
  /\ Some 1
     = (let n := zerosAfterCard [1; 0] + zerosAfterCard [] + zerosAfterCard []
        in if n =? 0 then None else Some n).
Proof.
  split; [reflexivity |].
  exact (proj2 (parseYdke_inferredCardCount toLowerCaseLatin1
                  (js "ydke://AQAAAAAAAAA=!!")
                  {| main := [1; 0]; extra := []; side := [];
                     hasInferredIds := Some true;
                     inferredCardCount := Some 1 |} eq_refl)).
Defined.

(** C7 at a name with surrounding and repeated white space. *)
Lemma normalizeCardName_idempotent_witness :
  normalizeCardName toLowerCaseLatin1
    (normalizeCardName toLowerCaseLatin1 (js "  Blue-Eyes   White Dragon "))
  = normalizeCardName toLowerCaseLatin1 (js "  Blue-Eyes   White Dragon ").
Proof.
  apply (normalizeCardName_idempotent toLowerCaseLatin1
           toLowerCaseLatin1_idempotent toLowerCaseLatin1_spacing).
  reflexivity.
Defined.

(** C8 at the deck code of the scenario. *)
Lemma decodeDeckHash_encodeDeckHash_witness :
  decodeDeckHash storedUngzip decodeLatin1
    (encodeDeckHash storedGzip (js "ydke://AQAAAA==!!"))
  = Ok (js "ydke://AQAAAA==!!").
Proof.
  apply (proj1 (decodeDeckHash_encodeDeckHash storedGzip storedUngzip
                  decodeLatin1 storedGzip_bytes storedUngzip_storedGzip)).
  - all_ascii.
  - reflexivity.
Defined.

(** C9 at the scenario of the point table: a listed card worth 0 points
    and a card that is not listed. *)
Lemma toGroup_notInList_witness :
  Forall (fun card =>
            let entry :=
              genesysPointMap toLowerCaseLatin1 samplePoints
              !! normalizeCardName toLowerCaseLatin1 (DeckCardGroup.name card) in
            (DeckCardGroup.notInList card = true <-> entry = None)
            /\ DeckCardGroup.pointsPerCopy card = default 0 entry
            /\ (entry = Some 0 ->
                DeckCardGroup.pointsPerCopy card = 0
                /\ DeckCardGroup.notInList card = false)
            /\ (entry = None ->
                DeckCardGroup.pointsPerCopy card = 0
                /\ DeckCardGroup.notInList card = true))
    (toGroup toLowerCaseLatin1 compareCodeUnits samplePoints sampleDetails
       defaultSort [55144522; 9] Main).
Proof.
  exact (toGroup_notInList toLowerCaseLatin1 compareCodeUnits samplePoints
           sampleDetails defaultSort [55144522; 9] Main).
Defined.

Example toGroup_pot_of_greed :
  map (fun card => (DeckCardGroup.name card, DeckCardGroup.pointsPerCopy card,
                    DeckCardGroup.notInList card))
    (toGroup toLowerCaseLatin1 compareCodeUnits samplePoints sampleDetails
       defaultSort [55144522; 9] Main)
  = [(js "Pot of Greed", 0, false); (js "Card #9", 0, true)].
Proof. vm_compute. reflexivity. Qed.

(** C10 at a deck code followed by two further parts. *)
Lemma parseYdke_ignores_extra_parts_witness :
  parseYdke toLowerCaseLatin1 (js "ydke://AQAAAA==!!!ignored!parts")
  = decodeSections (js "AQAAAA==") [] [].
Proof.
  apply (proj1 (parseYdke_ignores_extra_parts toLowerCaseLatin1
                  toLowerCaseLatin1_ascii)
           _ _ _ _ [js "ignored"; js "parts"]); reflexivity.
Defined.

(* ================================================================== *)
(** * Where the specification and the code part *)
(* ================================================================== *)

(** C5.  In the version of [src/unnamed/part_002], two effect monsters of
    one bucket: the one of level 8 stands before the one of level 4
    although its name comes later, so the output is not in the order of
    category, bucket, name and first occurrence.  In the version of
    [src/src/App.tsx], the entry without an id stands before the monster,
    and the equip spells rank before the quick-play spells.  And in the
    side deck of the version of [src/unnamed/part_002], a Fusion monster
    of level 4, an Xyz monster and a Synchro monster of level 8 go round
    in a circle: the comparator is not consistent, and no arrangement of
    the three groups is sorted by it. *)
Lemma toGroup_structural_order_counterexample :
  ~ Sorted
      (claimedBefore toLowerCaseLatin1 compareCodeUnits samplePoints
         sampleDetails Main [5; 7])
      (toGroup toLowerCaseLatin1 compareCodeUnits samplePoints sampleDetails
         defaultSort [5; 7] Main)
  /\ ~ Sorted
        (claimedBefore toLowerCaseLatin1 compareCodeUnits samplePoints
           sampleDetails Main [5; 0])
        (toGroup' toLowerCaseLatin1 compareCodeUnits samplePoints
           sampleDetails [5; 0] Main)
  /\ spellPriority' (js "equip") < spellPriority' (js "quick-play")
  /\ consistentOn
       (compareCards toLowerCaseLatin1 compareCodeUnits defaultSort Side)
       (toGroup toLowerCaseLatin1 compareCodeUnits samplePoints sideDetails
          defaultSort [1; 3; 2] Side)
     = false
  /\ match toGroup toLowerCaseLatin1 compareCodeUnits samplePoints sideDetails
            defaultSort [1; 3; 2] Side with
     | [a; b; c] =>
         let compare :=
           compareCards toLowerCaseLatin1 compareCodeUnits defaultSort Side in
         map DeckCardGroup.id [a; b; c] = [1; 2; 3]
         /\ compare a b < 0 /\ compare b c < 0 /\ compare c a < 0
     | _ => False
     end
  /\ forall other,
       Permutation other
         (toGroup toLowerCaseLatin1 compareCodeUnits samplePoints sideDetails
            defaultSort [1; 3; 2] Side) ->
       ~ StronglySorted
           (fun a b =>
              compareCards toLowerCaseLatin1 compareCodeUnits defaultSort
                Side a b <= 0)
           other.
Proof.
  split; [| split; [| split; [| split; [| split]]]].
  - remember (toGroup toLowerCaseLatin1 compareCodeUnits samplePoints
                sampleDetails defaultSort [5; 7] Main) as groups eqn:E.
    vm_compute in E. subst groups. intros H.
    inversion_clear H as [| ? ? _ Hhead].
    inversion_clear Hhead as [| ? ? Hrel].
    unfold claimedBefore, byNameThenIndex in Hrel. vm_compute in Hrel.
    intuition discriminate.
  - remember (toGroup' toLowerCaseLatin1 compareCodeUnits samplePoints
                sampleDetails [5; 0] Main) as groups eqn:E.
    vm_compute in E. subst groups. intros H.
    inversion_clear H as [| ? ? _ Hhead].
    inversion_clear Hhead as [| ? ? Hrel].
    unfold claimedBefore, byNameThenIndex in Hrel. vm_compute in Hrel.
    intuition discriminate.
  - reflexivity.
  - vm_compute. reflexivity.
  - vm_compute. repeat split.
  - remember (toGroup toLowerCaseLatin1 compareCodeUnits samplePoints
                sideDetails defaultSort [1; 3; 2] Side) as groups eqn:E.
    vm_compute in E. subst groups. intros other.
    apply cycle_unsortable; vm_compute; reflexivity.
Qed.

(** C6.  A section that begins with a placeholder: the decoded sequence
    keeps the zero, and the advisory count does not count it. *)
Lemma parseYdke_inferredCardCount_counterexample :
  exists deck,
    parseYdke toLowerCaseLatin1 (js "ydke://AAAAAAUAAAA=!!") = Ok deck
    /\ main deck = [0; 5]
    /\ countZeros (main deck ++ extra deck ++ side deck) = 1
    /\ inferredCardCount deck = None
    /\ default 0 (inferredCardCount deck)
       <> countZeros (main deck ++ extra deck ++ side deck).
Proof.
  eexists. split; [vm_compute; reflexivity |]. vm_compute.
  repeat split; discriminate.
Qed.

(** C7.  A capital A with circumflex before the two signs: the first
    normalization lower-cases it into the mis-encoded apostrophe, which
    the second one replaces. *)
Lemma normalizeCardName_idempotent_counterexample :
  normalizeCardName toLowerCaseLatin1 [0xC2; 0x20AC; 0x2122] = mojibake
  /\ normalizeCardName toLowerCaseLatin1
       (normalizeCardName toLowerCaseLatin1 [0xC2; 0x20AC; 0x2122])
     = js "'"
  /\ normalizeCardName toLowerCaseLatin1
       (normalizeCardName toLowerCaseLatin1 [0xC2; 0x20AC; 0x2122])
     <> normalizeCardName toLowerCaseLatin1 [0xC2; 0x20AC; 0x2122].
Proof.
  split; [vm_compute; reflexivity |].
  split; [vm_compute; reflexivity | vm_compute; discriminate].
Qed.


(* ================================================================== *)
(** * The further statements at concrete inputs *)
(* ================================================================== *)

Ltac all_bytes :=
  repeat (apply List.Forall_cons; [unfold isByte; lia |]);
  apply List.Forall_nil.

Ltac all_sectionChar :=
  repeat (apply List.Forall_cons;
          [unfold sectionChar, isAscii; simpl;
           split; [lia | split; [reflexivity | lia]] |]);
  apply List.Forall_nil.

(** X4 at the four bytes of the id 1 followed by a fifth byte. *)
Lemma base64ToBytes_inverts_witness :
  base64ToBytes (bytesToBase64Standard [1; 0; 0; 0; 255]) = Ok [1; 0; 0; 0; 255]
  /\ base64ToBytes (bytesToBase64Url [1; 0; 0; 0; 255]) = Ok [1; 0; 0; 0; 255].
Proof. apply (base64ToBytes_inverts [1; 0; 0; 0; 255]). all_bytes. Defined.

(** X6 at a deck whose encoding uses both substitutes. *)
Lemma parseYdke_urlSafe_sections_witness :
  exists deck,
    parseYdke toLowerCaseLatin1
      (js "ydke://"
       ++ join (js "!") [bytesToBase64Url (sectionBytes [4294967295; 1019]);
                         bytesToBase64Url (sectionBytes [0]);
                         bytesToBase64Url (sectionBytes [])])
    = Ok deck
    /\ main deck = [4294967295; 1019] /\ extra deck = [0] /\ side deck = [].
Proof.
  apply (parseYdke_urlSafe_sections toLowerCaseLatin1 toLowerCaseLatin1_ascii);
    all_uint32.
Defined.

(** X7 at a section of five bytes. *)
Lemma parseYdke_misaligned_witness :
  parseYdke toLowerCaseLatin1
    (js "ydke://"
     ++ join (js "!") [bytesToBase64Standard [1; 0; 0; 0; 255];
                       js "AQAAAA=="; []])
  = Throw Misaligned.
Proof.
  apply (parseYdke_misaligned toLowerCaseLatin1 toLowerCaseLatin1_ascii).
  - all_bytes.
  - discriminate.
  - all_sectionChar.
  - all_sectionChar.
Defined.

(** X8 at a section with an asterisk. *)
Lemma parseYdke_invalid_character_witness :
  parseYdke toLowerCaseLatin1
    (js "ydke://" ++ join (js "!") [js "AQ*AAA=="; []; []])
  = Throw InvalidCharacter.
Proof.
  apply (parseYdke_invalid_character toLowerCaseLatin1
           toLowerCaseLatin1_ascii 42).
  - right. right. left. reflexivity.
  - reflexivity.
  - all_sectionChar.
  - all_sectionChar.
  - all_sectionChar.
Defined.

(** X1 at a marker in capitals and at a payload without marker. *)
Lemma parseYdke_marker_optional_witness :
  parseYdke toLowerCaseLatin1 (js "YDKE://AQAAAA==!!")
  = parseYdke toLowerCaseLatin1 (js "ydke://AQAAAA==!!")
  /\ parseYdke toLowerCaseLatin1 (js "AQAAAA==!!")
     = parseYdke toLowerCaseLatin1 (js "ydke://AQAAAA==!!").
Proof.
  split.
  - apply (proj1 (parseYdke_marker_optional toLowerCaseLatin1
                    toLowerCaseLatin1_ascii)
             (js "YDKE://") (js "AQAAAA==!!")); [reflexivity | all_ascii].
  - apply (proj2 (parseYdke_marker_optional toLowerCaseLatin1
                    toLowerCaseLatin1_ascii) (js "AQAAAA==!!"));
      [all_ascii | reflexivity | reflexivity].
Defined.

(** X2 at a deck code broken over two lines. *)
Lemma parseYdke_ignores_whitespace_witness :
  parseYdke toLowerCaseLatin1 (js "ydke://" ++ [65; 81; 65; 10; 32; 65; 65; 65; 61; 61; 33; 33])
  = parseYdke toLowerCaseLatin1 (js "ydke://" ++ js "AQAAAA==!!").
Proof.
  apply (parseYdke_ignores_whitespace toLowerCaseLatin1
           toLowerCaseLatin1_ascii);
    [all_ascii | all_ascii | reflexivity].
Defined.

(** X9 at a negative id and at 2^32 + 5. *)
Lemma parseYdke_buildYdke_wraps_witness :
  exists deck,
    parseYdke toLowerCaseLatin1 (buildYdke [-1; 4294967301] [] [7])
    = Ok deck
    /\ main deck = [4294967295; 5] /\ extra deck = [] /\ side deck = [7].
Proof.
  exact (parseYdke_buildYdke_wraps toLowerCaseLatin1 toLowerCaseLatin1_ascii
           [-1; 4294967301] [] [7]).
Defined.

(** X5 at the token of a deck of one card. *)
Lemma encodeDeckHash_urlSafe_witness :
  Forall (fun c => isUrlSafeChar c = true)
    (encodeDeckHash storedGzip (js "ydke://AQAAAA==!!")).
Proof.
  exact (encodeDeckHash_urlSafe storedGzip storedGzip_bytes
           (js "ydke://AQAAAA==!!")).
Defined.

(** X10 at a deck with a counted and an uncounted placeholder. *)
Lemma parseYdke_inferred_flags_witness :
  0 < 1 <= altArtCount
             (Some {| main := [0; 5; 0]; extra := []; side := [];
                      hasInferredIds := Some true;
                      inferredCardCount := Some 1 |}).
Proof.
  exact (proj2 (proj2
    (parseYdke_inferred_flags toLowerCaseLatin1
       (buildYdke [0; 5; 0] [] [])
       {| main := [0; 5; 0]; extra := []; side := [];
          hasInferredIds := Some true; inferredCardCount := Some 1 |}
       eq_refl)) 1 eq_refl).
Defined.

Ltac all_readsBack :=
  repeat (apply List.Forall_cons;
          [split; [lia | vm_compute; reflexivity] |]);
  apply List.Forall_nil.

(** X12 at a file with CR LF line ends. *)
Lemma parseYdk_ydkFile_witness :
  parseYdk toLowerCaseLatin1 numberOfDecimal
    (ydkFile [13; 10] [89631139; 89631139] [23995346] [55144522])
  = {| ydkMain := [ofInteger 89631139; ofInteger 89631139];
       ydkExtra := [ofInteger 23995346];
       ydkSide := [ofInteger 55144522] |}.
Proof.
  apply (parseYdk_ydkFile toLowerCaseLatin1 numberOfDecimal
           toLowerCaseLatin1_ascii [13; 10]
           [89631139; 89631139] [23995346] [55144522]).
  - right. reflexivity.
  - all_readsBack.
  - all_readsBack.
  - all_readsBack.
Defined.

(** X13 at a file with LF line ends and an empty side deck. *)
Lemma importYdk_ydkFile_witness :
  exists deck,
    importYdk toLowerCaseLatin1 numberOfDecimal
      (ydkFile [10] [89631139; 89631139] [23995346] [])
    = Some (buildYdke [89631139; 89631139] [23995346] [])
    /\ parseYdke toLowerCaseLatin1 (buildYdke [89631139; 89631139] [23995346] [])
       = Ok deck
    /\ main deck = [89631139; 89631139] /\ extra deck = [23995346]
    /\ side deck = [].
Proof.
  apply (proj1 (importYdk_ydkFile toLowerCaseLatin1 numberOfDecimal
                  toLowerCaseLatin1_ascii [10] (or_introl eq_refl))).
  - all_readsBack.
  - all_readsBack.
  - all_readsBack.
  - all_uint32.
  - all_uint32.
  - all_uint32.
  - discriminate.
Defined.

(** X17 at a bound of 40, which is kept. *)
Lemma commitPointFilters_range_witness :
  clampPoints (ofInteger 40) = ofInteger 40.
Proof.
  apply (proj2 commitPointFilters_range 40). lia.
Defined.

(** X18 at the sample point list, searched for the letter a. *)
Lemma filteredPointCards_spec_witness :
  Sorted (pointCardBefore compareCodeUnits)
    (filteredPointCards toLowerCaseLatin1 compareCodeUnits samplePoints
       (js " A ") ∅ 1 100).
Proof.
  exact (proj1 (proj2
    (filteredPointCards_spec toLowerCaseLatin1 compareCodeUnits samplePoints
       compareCodeUnits_antisym (js " A ") ∅ 1 100))).
Defined.

(** X19 with the card overlay open above the point list. *)
Lemma closeTopModal_one_witness :
  modalDepth
    (fst (closeTopModal
            {| showPointList := true; showBlockedList := false;
               focusedCard := Some (rawGroup toLowerCaseLatin1 samplePoints
                                      sampleDetails Main
                                      (5, {| count := 1; firstIndex := 0 |}));
               missingCardContext := None; showSavedDeckModal := false |}))
  = modalDepth
      {| showPointList := true; showBlockedList := false;
         focusedCard := Some (rawGroup toLowerCaseLatin1 samplePoints
                                sampleDetails Main
                                (5, {| count := 1; firstIndex := 0 |}));
         missingCardContext := None; showSavedDeckModal := false |} - 1.
Proof.
  apply (proj1 (proj2 (closeTopModal_one _))). reflexivity.
Defined.

Lemma arrayMoveList_perm (decks : list SavedDeckEntry.t) (from to : Z) :
  Permutation (arrayMoveList decks from to) decks.
Proof.
  unfold arrayMoveList.
  destruct (decks !! Z.to_nat from) as [deck |] eqn:E; [| reflexivity].
  rewrite insertAt_perm. symmetry. apply removeAt_perm, E.
Qed.

(** X21 at a deck saved to the second of three folders. *)
Lemma handleSaveDeck_saved_witness :
  exists i folder rest,
    handleSaveDeck (js " ydke://AQAAAA==!! ") (js "  ") (Some (js "folder-a"))
      (js "id-1") (js "now") (1, 0, 0) 0 sampleFolders !! i = Some folder
    /\ SavedDeckFolder.decks folder
       = savedEntry (js " ydke://AQAAAA==!! ") (js "  ") (js "id-1") (js "now")
           (1, 0, 0) 0 :: rest.
Proof.
  apply (handleSaveDeck_saved (js " ydke://AQAAAA==!! ") (js "  ")
           (Some (js "folder-a")) (js "id-1") (js "now") (1, 0, 0) 0
           sampleFolders).
  reflexivity.
Defined.

(** X22 at a deck moved from the first folder to the second. *)
Lemma handleMoveSavedDeck_keeps_witness :
  Permutation
    (allDecks (handleMoveSavedDeck arrayMoveList (js "folder-default") (js "d1")
                 (js "folder-a") 1 sampleFolders))
    (allDecks sampleFolders).
Proof.
  apply (handleMoveSavedDeck_keeps arrayMoveList arrayMoveList_perm).
Defined.

(** X23 at the deletion of the empty folder. *)
Lemma handleDeleteFolder_keeps_decks_witness :
  allDecks (handleDeleteFolder (js "folder-b") sampleFolders)
  = allDecks sampleFolders.
Proof.
  apply (handleDeleteFolder_keeps_decks (js "folder-b") sampleFolders).
  apply (bool_decide_unpack _). vm_compute. exact I.
Defined.

(** X24 at a folder name that differs from the names in use. *)
Lemma handleCreateFolder_names_witness :
  handleCreateFolder toLowerCaseLatin1 (js "folder-c") (js " Rogue ")
    sampleFolders
  = ensureFolders sampleFolders
    ++ [createFolder (js "Rogue") (js "folder-c") []].
Proof.
  apply (handleCreateFolder_names toLowerCaseLatin1 (js "folder-c")
           (js " Rogue ") sampleFolders).
  - reflexivity.
  - apply (bool_decide_unpack _). vm_compute. exact I.
Defined.

(** X25 at a selection in which the card to remove occurs twice: the
    later occurrence goes. *)
Lemma selection_operations_witness :
  handleRemoveSingle 5
    [sampleCard 5 "Alpha" "Effect Monster" 4;
     sampleCard 7 "Beta" "Effect Monster" 8;
     sampleCard 5 "Alpha" "Effect Monster" 4;
     sampleCard 7 "Beta" "Effect Monster" 8]
  = [sampleCard 5 "Alpha" "Effect Monster" 4;
     sampleCard 7 "Beta" "Effect Monster" 8]
    ++ [sampleCard 7 "Beta" "Effect Monster" 8].
Proof.
  apply (proj1 (proj2 (selection_operations 3 5
                         (sampleCard 5 "Alpha" "Effect Monster" 4) _))
           [sampleCard 5 "Alpha" "Effect Monster" 4;
            sampleCard 7 "Beta" "Effect Monster" 8]
           (sampleCard 5 "Alpha" "Effect Monster" 4)
           [sampleCard 7 "Beta" "Effect Monster" 8]).
  - reflexivity.
  - reflexivity.
  - repeat constructor. discriminate.
Defined.

Lemma sampleFetch_allOrNothing : allOrNothing sampleFetch sampleKnown.
Proof.
  split; [| reflexivity].
  intros id c. unfold sampleKnown.
  destruct (Z.eqb_spec id 5) as [-> | _]; [intros [= <-]; reflexivity |].
  destruct (Z.eqb_spec id 7) as [-> | _]; [intros [= <-]; reflexivity |].
  discriminate.
Qed.

(** X28 at a request for two known cards, an unknown one and a
    placeholder. *)
Lemma fetchCardsByIds_known_witness :
  exists resolved,
    fetchCardsByIds sampleFetch [5; 9; 0; 7; 5] = Some (Done resolved)
    /\ (forall id,
          0 < id -> In id [5; 9; 0; 7; 5] ->
          resolved !! id = adaptApiCard <$> sampleKnown id)
    /\ (forall id details,
          resolved !! id = Some details -> 0 < id /\ In id [5; 9; 0; 7; 5]).
Proof.
  apply (fetchCardsByIds_known sampleFetch sampleKnown [5; 9; 0; 7; 5]).
  exact sampleFetch_allOrNothing.
Defined.

(** X29 at the same request, the card database out of reach. *)
Lemma fetchCardsByIds_offline_witness :
  fetchCardsByIds offlineFetch [0; 9; 5] = Some (Raised 9).
Proof.
  apply (fetchCardsByIds_offline offlineFetch [0; 9; 5]). reflexivity.
Defined.

(** X30 at the name of an alternate printing. *)
Lemma simplifyCardName_note_witness :
  simplifyCardName (js "Dark  Magician " ++ js "(" ++ js "Alternate Art"
                    ++ js ")" ++ js " ")
  = simplifyCardName (js "Dark  Magician ")
  /\ simplifyCardName (js "Dark  Magician ")
     = trim (collapseWhitespace (js "Dark  Magician ")).
Proof.
  apply (simplifyCardName_note (js "Dark  Magician ") (js "Alternate Art")
           (js " ")).
  - apply (bool_decide_unpack _). vm_compute. exact I.
  - apply (bool_decide_unpack _). vm_compute. exact I.
  - repeat constructor.
Defined.

